(** * carbon-calc: the computational core of the CO2 trip calculator

    A shallow embedding of [Calculator] (emission, comparison, savings and
    carbon-credit arithmetic), of [RoutesDB] (city registry and great-circle
    distance) and of the [CONFIG] tables they read, followed by the
    properties stated about them.

    JavaScript numbers are IEEE 754 binary64 values.  They are modelled by
    [spec_float] of the standard library at precision 53 and maximal
    exponent 1024, with the library's correctly rounded operations.  The
    file has nine parts: the embedding; the vocabulary of the statements
    and of the rounding theory; the theory of binary64 rounding the
    statements rest on; the statements themselves; further properties of
    the calculator; what the rounding to two decimals returns; the
    floating-point operations over the reals, with the error of each; the
    real functions of the haversine formula; the error of the distance. *)

From Stdlib Require Import Reals.
From Stdlib Require Import ZArith NArith List String Ascii Bool Lia.
From Stdlib Require Import QArith Qround Qpower Lqa Zpower.
From Stdlib Require Import Qabs Qreals.
From Stdlib Require Lra.
From Stdlib Require Import Sorting Permutation.
From Stdlib Require Import Floats.SpecFloat.
Import ListNotations.

Local Open Scope Z_scope.

(** * Part I: the embedding *)

(** ** JavaScript numbers *)

Module JSNumber.

Definition prec : Z := 53.
Definition emax : Z := 1024.

Definition number : Type := spec_float.

Definition NaN : number := S754_nan.
Definition pos_zero : number := S754_zero false.
Definition neg_zero : number := S754_zero true.
Definition pos_infinity : number := S754_infinity false.
Definition neg_infinity : number := S754_infinity true.

(** The arithmetic operators [+], [-], [*], [/], [Math.sqrt] and unary
    minus. *)
Definition fadd : number -> number -> number := SFadd prec emax.
Definition fsub : number -> number -> number := SFsub prec emax.
Definition fmul : number -> number -> number := SFmul prec emax.
Definition fdiv : number -> number -> number := SFdiv prec emax.
Definition fsqrt : number -> number := SFsqrt prec emax.
Definition fneg : number -> number := SFopp.

(** The relational operators [<], [<=] and [>]; all are false on NaN. *)
Definition fltb : number -> number -> bool := SFltb.
Definition fleb : number -> number -> bool := SFleb.
Definition fgtb (x y : number) : bool := SFltb y x.

(** A value is well formed when it is one of the binary64 values:
    mantissa below 2^53, canonical exponent. *)
Definition well_formed (x : number) : bool := valid_binary prec emax x.

Definition is_nan (x : number) : bool :=
  match x with S754_nan => true | _ => false end.

Definition is_infinite (x : number) : bool :=
  match x with S754_infinity _ => true | _ => false end.

Definition is_zero (x : number) : bool :=
  match x with S754_zero _ => true | _ => false end.

Definition is_finite (x : number) : bool :=
  match x with S754_zero _ | S754_finite _ _ _ => true | _ => false end.

(** The number denoted by an integer literal. *)
Definition of_Z (z : Z) : number := binary_normalize prec emax z 0 false.

(** The number denoted by the decimal literal [m * 10^(-k)]: the binary64
    value nearest to it.  Both [m] and [10^k] are exactly representable
    for every literal of the program, so that the correctly rounded
    quotient is that nearest value. *)
Definition decimal (m : Z) (k : nat) : number :=
  match k with
  | O => of_Z m
  | _ => fdiv (of_Z m) (of_Z (10 ^ Z.of_nat k))
  end.

(** [Math.round]: the integer nearest to the argument, ties towards
    positive infinity; an argument in [[-0.5, 0)] gives [-0].  The sum
    [x + 1/2] is formed exactly, not in floating point. *)
Definition Math_round (x : number) : number :=
  match x with
  | S754_finite s m e =>
      if 0 <=? e then x
      else
        let k := - e in
        let n := Z.shiftr ((if s then Z.neg m else Z.pos m) + 2 ^ (k - 1)) k in
        if n =? 0 then S754_zero s else of_Z n
  | _ => x
  end.

(** [Math.PI] *)
Definition Math_PI : number := decimal 3141592653589793 15.

End JSNumber.

Import JSNumber.

Declare Scope js_scope.
Delimit Scope js_scope with js.
Infix "+" := fadd : js_scope.
Infix "-" := fsub : js_scope.
Infix "*" := fmul : js_scope.
Infix "/" := fdiv : js_scope.

(** ** JavaScript strings

    A string literal of the program is kept as its UTF-8 bytes.  What the
    language observes of a string is its sequence of UTF-16 code units,
    which [code_units] recovers. *)

Module JSString.

Local Open Scope N_scope.

Definition byte (c : ascii) : N := N_of_ascii c.

(** Code points of a UTF-8 byte sequence (continuation bytes are taken
    as they come; the literals of the program are well formed). *)
Fixpoint code_points (fuel : nat) (bs : list N) : list N :=
  match fuel with
  | O => []
  | S fuel' =>
      match bs with
      | [] => []
      | b0 :: r0 =>
          if b0 <? 128 then b0 :: code_points fuel' r0
          else if b0 <? 224 then
            match r0 with
            | b1 :: r1 =>
                ((b0 - 192) * 64 + (b1 - 128)) :: code_points fuel' r1
            | [] => [b0]
            end
          else if b0 <? 240 then
            match r0 with
            | b1 :: b2 :: r2 =>
                ((b0 - 224) * 4096 + (b1 - 128) * 64 + (b2 - 128))
                  :: code_points fuel' r2
            | _ => [b0]
            end
          else
            match r0 with
            | b1 :: b2 :: b3 :: r3 =>
                ((b0 - 240) * 262144 + (b1 - 128) * 4096
                 + (b2 - 128) * 64 + (b3 - 128)) :: code_points fuel' r3
            | _ => [b0]
            end
      end
  end.

(** UTF-16 encoding of a code point. *)
Definition utf16 (cp : N) : list N :=
  if cp <? 65536 then [cp]
  else [55296 + (cp - 65536) / 1024; 56320 + (cp - 65536) mod 1024].

Definition code_units (s : string) : list N :=
  let bs := map byte (list_ascii_of_string s) in
  flat_map utf16 (code_points (List.length bs) bs).

(** Lexicographic comparison of code-unit sequences: the order of the
    relational operators on strings and of the default [sort]. *)
Fixpoint compare_units (a b : list N) : comparison :=
  match a, b with
  | [], [] => Eq
  | [], _ :: _ => Lt
  | _ :: _, [] => Gt
  | x :: a', y :: b' =>
      match x ?= y with
      | Eq => compare_units a' b'
      | c => c
      end
  end.

Definition string_compare (a b : string) : comparison :=
  compare_units (code_units a) (code_units b).

Definition string_ltb (a b : string) : bool :=
  match string_compare a b with Lt => true | _ => false end.

Definition string_leb (a b : string) : bool :=
  match string_compare a b with Gt => false | _ => true end.

End JSString.

(** ** JavaScript values and object literals *)

Module JSValue.

Local Open Scope string_scope.

(** The values that occur in the program: [undefined], [null], numbers,
    the coordinate objects [{lat, lng}] of the registry, and the members
    every object literal inherits from [Object.prototype]. *)
Inductive value : Type :=
| VUndefined
| VNull
| VNumber (n : number)
| VCoords (lat lng : number)
| VInherited (name : string).

(** The property names of [Object.prototype]. *)
Definition Object_prototype : list string :=
  [ "constructor"; "__defineGetter__"; "__defineSetter__";
    "hasOwnProperty"; "__lookupGetter__"; "__lookupSetter__";
    "isPrototypeOf"; "propertyIsEnumerable"; "toString"; "valueOf";
    "__proto__"; "toLocaleString" ].

(** An object literal: its own properties in insertion order. *)
Definition object : Type := list (string * value).

Fixpoint own_property (o : object) (key : string) : option value :=
  match o with
  | [] => None
  | (k, v) :: o' => if String.eqb k key then Some v else own_property o' key
  end.

Definition inherited (key : string) : bool :=
  existsb (String.eqb key) Object_prototype.

(** [o[key]]: an own property, else one found on the prototype, else
    [undefined]. *)
Definition get (o : object) (key : string) : value :=
  match own_property o key with
  | Some v => v
  | None => if inherited key then VInherited key else VUndefined
  end.

(** [Object.keys(o)], which is also the order of [for (k in o)]: the own
    enumerable string keys, in insertion order (no key of the program
    is an array index). *)
Definition Object_keys (o : object) : list string := map fst o.

(** [v.lat] and [v.lng] *)
Definition get_lat (v : value) : value :=
  match v with VCoords lat _ => VNumber lat | _ => VUndefined end.

Definition get_lng (v : value) : value :=
  match v with VCoords _ lng => VNumber lng | _ => VUndefined end.

(** Truthiness, as tested by [!v]. *)
Definition ToBoolean (v : value) : bool :=
  match v with
  | VUndefined | VNull => false
  | VNumber n => negb (is_zero n || is_nan n)
  | VCoords _ _ | VInherited _ => true
  end.

(** Conversion of an operand of an arithmetic operator.  An object
    converts through its string form, which is not numeric for any
    object of the program. *)
Definition ToNumber (v : value) : number :=
  match v with
  | VNumber n => n
  | VNull => pos_zero
  | VUndefined | VCoords _ _ | VInherited _ => NaN
  end.

(** [Array.prototype.sort] with a comparison function.  The sort is
    stable; a comparison result that is not a positive number leaves the
    two elements in their order.  It is rendered as an insertion sort:
    every stable sort gives the same array when the comparison function
    is consistent. *)
Section Sort.
Context {A : Type} (comparefn : A -> A -> number).

Fixpoint sort_insert (x : A) (l : list A) : list A :=
  match l with
  | [] => [x]
  | y :: l' =>
      if fgtb (comparefn x y) pos_zero then y :: sort_insert x l'
      else x :: l
  end.

Definition Array_sort (l : list A) : list A :=
  fold_right sort_insert [] l.
End Sort.

(** [Array.prototype.sort] without a comparison function, on strings. *)
Fixpoint sort_insert_string (x : string) (l : list string) : list string :=
  match l with
  | [] => [x]
  | y :: l' =>
      if JSString.string_ltb y x then y :: sort_insert_string x l'
      else x :: l
  end.

Definition Array_sort_strings (l : list string) : list string :=
  fold_right sort_insert_string [] l.

End JSValue.

Import JSValue.

(** ** CONFIG (js/config.js) *)

Module CONFIG.

Local Open Scope string_scope.

(** Emission factors in kg of CO2 per kilometre. *)
Definition EMISSION_FACTORS : object :=
  [ ("bicycle", VNumber (decimal 0 0));
    ("car", VNumber (decimal 12 2));
    ("bus", VNumber (decimal 89 3));
    ("truck", VNumber (decimal 96 2)) ].

Module CARBON_CREDIT.
Definition KG_PER_CREDIT : number := decimal 1000 0.
Definition PRICE_MIN_BRL : number := decimal 50 0.
Definition PRICE_MAX_BRL : number := decimal 150 0.
End CARBON_CREDIT.

End CONFIG.

(** ** Calculator *)

Module Calculator.

Local Open Scope string_scope.
Local Open Scope js_scope.

Definition hundred : number := decimal 100 0.
Definition two : number := decimal 2 0.

(** The expression [Math.round(v * 100) / 100], which closes every
    method of the calculator. *)
Definition round2 (v : number) : number := Math_round (v * hundred) / hundred.

Definition calculateEmission (distanceKm : number) (transportMode : string)
  : number :=
  let factor := get CONFIG.EMISSION_FACTORS transportMode in
  let emission := distanceKm * ToNumber factor in
  round2 emission.

Record ModeEntry : Type := {
  mode : string;
  emission : number;
  percentageVsCar : number
}.

Definition calculateAllModes (distanceKm : number) : list ModeEntry :=
  let carEmission := calculateEmission distanceKm "car" in
  let results :=
    map (fun mode =>
           let emission := calculateEmission distanceKm mode in
           let percentageVsCar := (emission / carEmission) * hundred in
           {| mode := mode;
              emission := emission;
              percentageVsCar := round2 percentageVsCar |})
        (Object_keys CONFIG.EMISSION_FACTORS) in
  Array_sort (fun a b => emission a - emission b) results.

Record Savings : Type := {
  savedKg : number;
  percentage : number
}.

Definition calculateSavings (emission baselineEmission : number) : Savings :=
  let savedKg := baselineEmission - emission in
  let percentage := (savedKg / baselineEmission) * hundred in
  {| savedKg := round2 savedKg; percentage := round2 percentage |}.

Definition calculateCarbonCredits (emissionKg : number) : number :=
  let credits := emissionKg / CONFIG.CARBON_CREDIT.KG_PER_CREDIT in
  round2 credits.

Record PriceEstimate : Type := {
  min : number;
  max : number;
  average : number
}.

Definition estimateCreditPrice (credits : number) : PriceEstimate :=
  let min := credits * CONFIG.CARBON_CREDIT.PRICE_MIN_BRL in
  let max := credits * CONFIG.CARBON_CREDIT.PRICE_MAX_BRL in
  let average := (min + max) / two in
  {| min := round2 min; max := round2 max; average := round2 average |}.

End Calculator.

(** ** The arithmetic the distance code is written against

    [haversineDistance] and the rounding that follows it are pure
    arithmetic.  They are embedded once, over an interface of the
    operators and [Math] functions they use, and read twice: over binary64,
    as the program runs, and over the real numbers, as the formula is
    meant. *)

Module Numeric.

Record ops (num : Type) : Type := {
  op_add : num -> num -> num;
  op_sub : num -> num -> num;
  op_mul : num -> num -> num;
  op_div : num -> num -> num;
  op_literal : Z -> nat -> num;
  op_PI : num;
  op_sin : num -> num;
  op_cos : num -> num;
  op_sqrt : num -> num;
  op_atan2 : num -> num -> num;
  op_round : num -> num
}.

Arguments op_add {num} _ _ _.
Arguments op_sub {num} _ _ _.
Arguments op_mul {num} _ _ _.
Arguments op_div {num} _ _ _.
Arguments op_literal {num} _ _ _.
Arguments op_PI {num} _.
Arguments op_sin {num} _ _.
Arguments op_cos {num} _ _.
Arguments op_sqrt {num} _ _.
Arguments op_atan2 {num} _ _ _.
Arguments op_round {num} _ _.

(** The [Math] functions whose results the language leaves to the
    engine. *)
Record MathLib : Type := {
  Math_sin : number -> number;
  Math_cos : number -> number;
  Math_atan2 : number -> number -> number
}.

(** Binary64, with the engine's [Math] library. *)
Definition binary64 (M : MathLib) : ops number := {|
  op_add := fadd;
  op_sub := fsub;
  op_mul := fmul;
  op_div := fdiv;
  op_literal := decimal;
  op_PI := Math_PI;
  op_sin := Math_sin M;
  op_cos := Math_cos M;
  op_sqrt := fsqrt;
  op_atan2 := Math_atan2 M;
  op_round := Math_round
|}.

(** The two-argument arc tangent on the reals. *)
Definition Ratan2 (y x : R) : R :=
  if Rlt_dec 0 x then atan (y / x)
  else if Rlt_dec x 0 then
    if Rle_dec 0 y then (atan (y / x) + PI)%R else (atan (y / x) - PI)%R
  else if Rlt_dec 0 y then (PI / 2)%R
  else if Rlt_dec y 0 then (- PI / 2)%R
  else 0%R.

(** The integer nearest to a real, ties towards positive infinity. *)
Definition Rround (x : R) : R := IZR (Int_part (x + / 2)).

(** Exact real arithmetic. *)
Definition real : ops R := {|
  op_add := Rplus;
  op_sub := Rminus;
  op_mul := Rmult;
  op_div := Rdiv;
  op_literal := fun m k => (IZR m / IZR (10 ^ Z.of_nat k))%R;
  op_PI := PI;
  op_sin := sin;
  op_cos := cos;
  op_sqrt := R_sqrt.sqrt;
  op_atan2 := Ratan2;
  op_round := Rround
|}.

End Numeric.

(** ** RoutesDB *)

Module RoutesDB.

Import Numeric.
Local Open Scope string_scope.

Definition city (lat lng : number) : value := VCoords lat lng.

Definition ROUTES_DATA : object :=
  [ ("São Paulo", city (decimal (-235505) 4) (decimal (-466333) 4));
    ("Rio de Janeiro", city (decimal (-229068) 4) (decimal (-431729) 4));
    ("Belo Horizonte", city (decimal (-199167) 4) (decimal (-439345) 4));
    ("Salvador", city (decimal (-129714) 4) (decimal (-385014) 4));
    ("Brasília", city (decimal (-158267) 4) (decimal (-478711) 4));
    ("Curitiba", city (decimal (-254284) 4) (decimal (-492733) 4));
    ("Manaus", city (decimal (-31190) 4) (decimal (-600217) 4));
    ("Belém", city (decimal (-14554) 4) (decimal (-485039) 4));
    ("Recife", city (decimal (-80476) 4) (decimal (-348770) 4));
    ("Fortaleza", city (decimal (-37319) 4) (decimal (-385267) 4));
    ("Porto Alegre", city (decimal (-300346) 4) (decimal (-512177) 4));
    ("Goiânia", city (decimal (-157942) 4) (decimal (-480766) 4));
    ("Campinas", city (decimal (-229068) 4) (decimal (-470616) 4));
    ("Santos", city (decimal (-239608) 4) (decimal (-463338) 4));
    ("Sorocaba", city (decimal (-235015) 4) (decimal (-474584) 4)) ].

Section Generic.
Context {num : Type} (O : ops num).

Local Notation "x + y" := (op_add O x y).
Local Notation "x - y" := (op_sub O x y).
Local Notation "x * y" := (op_mul O x y).
Local Notation "x / y" := (op_div O x y).
Local Notation "'lit' z" := (op_literal O z 0%nat) (at level 10, z at level 9).

Definition haversineDistance (lat1 lon1 lat2 lon2 : num) : num :=
  let R := lit 6371 in
  let dLat := (lat2 - lat1) * op_PI O / lit 180 in
  let dLon := (lon2 - lon1) * op_PI O / lit 180 in
  let a :=
    op_sin O (dLat / lit 2) * op_sin O (dLat / lit 2) +
    op_cos O (lat1 * op_PI O / lit 180) * op_cos O (lat2 * op_PI O / lit 180) *
    op_sin O (dLon / lit 2) * op_sin O (dLon / lit 2) in
  let c := lit 2 * op_atan2 O (op_sqrt O a) (op_sqrt O (lit 1 - a)) in
  R * c.

(** [Math.round(distance * 100) / 100] *)
Definition round_to_cents (distance : num) : num :=
  op_round O (distance * lit 100) / lit 100.
End Generic.

Definition getAllCities : list string :=
  Array_sort_strings (Object_keys ROUTES_DATA).

Section Engine.
Variable M : MathLib.

Definition findDistance (origin destination : string) : value :=
  if negb (ToBoolean (get ROUTES_DATA origin))
     || negb (ToBoolean (get ROUTES_DATA destination))
  then VNull
  else
    let o := get ROUTES_DATA origin in
    let d := get ROUTES_DATA destination in
    let distance :=
      haversineDistance (binary64 M)
        (ToNumber (get_lat o)) (ToNumber (get_lng o))
        (ToNumber (get_lat d)) (ToNumber (get_lng d)) in
    VNumber (round_to_cents (binary64 M) distance).
End Engine.

End RoutesDB.

Import JSString Calculator Numeric RoutesDB.

(** ** More of the language: [Math.max], [Math.min], [||] and typed tables *)

Module JSMath.

Definition is_pos_zero (x : number) : bool :=
  match x with S754_zero false => true | _ => false end.

Definition is_neg_zero (x : number) : bool :=
  match x with S754_zero true => true | _ => false end.

(** [Math.max(...values)]: NaN when a value is NaN; else the scan starts
    at [-Infinity], [+0] replaces [-0], and a value replaces the highest
    one so far when it is greater. *)
Definition max_step (highest x : number) : number :=
  if is_pos_zero x && is_neg_zero highest then x
  else if fgtb x highest then x else highest.

Definition Math_max (values : list number) : number :=
  if existsb is_nan values then NaN
  else fold_left max_step values neg_infinity.

(** [Math.min(...values)], likewise from [+Infinity]. *)
Definition min_step (lowest x : number) : number :=
  if is_neg_zero x && is_pos_zero lowest then x
  else if fltb x lowest then x else lowest.

Definition Math_min (values : list number) : number :=
  if existsb is_nan values then NaN
  else fold_left min_step values pos_infinity.

(** [x || d] on numbers: [d] when [x] is [0], [-0] or NaN. *)
Definition or_default (x d : number) : number :=
  if ToBoolean (VNumber x) then x else d.

(** What [table[key]] finds in an object literal whose values are records:
    an own property, a member inherited from [Object.prototype], or
    [undefined]. *)
Inductive lookup (A : Type) : Type :=
| Own (a : A)
| Proto (name : string)
| Missing.

Arguments Own {A} a.
Arguments Proto {A} name.
Arguments Missing {A}.

Fixpoint table_own {A} (t : list (string * A)) (key : string) : option A :=
  match t with
  | [] => None
  | (k, v) :: t' => if String.eqb k key then Some v else table_own t' key
  end.

Definition table_get {A} (t : list (string * A)) (key : string) : lookup A :=
  match table_own t key with
  | Some a => Own a
  | None => if inherited key then Proto key else Missing
  end.

End JSMath.

(** ** CONFIG.TRANSPORT_MODES (js/config.js) *)

Module TransportModes.

Local Open Scope string_scope.

Record ModeMetadata : Type := {
  label : string;
  icon : string;
  color : string
}.

Definition TRANSPORT_MODES : list (string * ModeMetadata) :=
  [ ("bicycle", {| label := "Bicicleta"; icon := "🚴"; color := "#27ae60" |});
    ("car", {| label := "Carro"; icon := "🚗"; color := "#3498db" |});
    ("bus", {| label := "Ônibus"; icon := "🚌"; color := "#9b59b6" |});
    ("truck", {| label := "Caminhão"; icon := "🛻"; color := "#7f8c8d" |}) ].

End TransportModes.

(** ** UI (js/ui.js): the rendering methods

    A rendering method returns a fixed HTML template around interpolated
    values.  The embedding keeps the interpolated values, in a record
    with one field for each, and leaves the template out.  The
    conversions of numbers to text are the host's ([toFixed],
    [toLocaleString], [Intl.NumberFormat]): a [text] records which
    conversion is applied to which value. *)

Module UI.

Import JSMath TransportModes.
Local Open Scope string_scope.
Local Open Scope js_scope.

Inductive text : Type :=
| Str (s : string)                              (* a string, as it is *)
| Undefined                                     (* [undefined] *)
| Num (x : number)                              (* a number, as it is *)
| toFixed (x : number) (digits : nat)           (* [x.toFixed(digits)] *)
| formatNumber (number : value) (decimals : nat)  (* [this.formatNumber(..)] *)
| formatCurrency (v : number).                  (* [this.formatCurrency(v)] *)

(** Reading a property of [undefined] throws. *)
Inductive TypeError : Type := Cannot_read_properties_of_undefined.

(** [modeMetadata.icon] and [modeMetadata.label] *)
Definition metadata_text (m : lookup ModeMetadata) : TypeError + text * text :=
  match m with
  | Own md => inr (Str (icon md), Str (label md))
  | Proto _ => inr (Undefined, Undefined)
  | Missing => inl Cannot_read_properties_of_undefined
  end.

Module ResultsData.
Record t : Type := {
  origin : string;
  destination : string;
  distance : number;
  emission : number;
  mode : string;
  savings : option object
}.
End ResultsData.

Record ResultsView : Type := {
  routeCard : text * text;
  distanceCard : text;
  emissionCard : text;
  transportCard : text * text;
  savingsCard : option (text * text)
}.

Definition renderResults (data : ResultsData.t) : TypeError + ResultsView :=
  let modeMetadata := table_get TRANSPORT_MODES (ResultsData.mode data) in
  let routeCard :=
    (Str (ResultsData.origin data), Str (ResultsData.destination data)) in
  let distanceCard := formatNumber (VNumber (ResultsData.distance data)) 2 in
  let emissionCard := formatNumber (VNumber (ResultsData.emission data)) 2 in
  match metadata_text modeMetadata with
  | inl error => inl error
  | inr transportCard =>
      let savingsCard :=
        if negb (String.eqb (ResultsData.mode data) "car") then
          match ResultsData.savings data with
          | Some savings =>
              let savingsPercentage :=
                toFixed ((ToNumber (get savings "savedKg")
                          / ToNumber (get savings "carEmission")) * hundred) 1 in
              Some (formatNumber (get savings "savedKg") 2, savingsPercentage)
          | None => None
          end
        else None in
      inr {| routeCard := routeCard;
             distanceCard := distanceCard;
             emissionCard := emissionCard;
             transportCard := transportCard;
             savingsCard := savingsCard |}
  end.

Record ComparisonItem : Type := {
  isSelected : bool;
  item_header : text * text;
  stat_emission : text;
  stat_vsCar : text;
  barColor : string;
  bar_width : number
}.

(** [array.map(f)] for a callback that may throw. *)
Fixpoint map_throwing {A B E} (f : A -> E + B) (l : list A) : E + list B :=
  match l with
  | [] => inr []
  | x :: l' =>
      match f x with
      | inl e => inl e
      | inr y =>
          match map_throwing f l' with
          | inl e => inl e
          | inr ys => inr (y :: ys)
          end
      end
  end.

Definition barColor_of (barPercentage : number) : string :=
  if fgtb barPercentage (decimal 25 0) && fleb barPercentage (decimal 75 0)
  then "yellow"
  else if fgtb barPercentage (decimal 75 0) && fleb barPercentage hundred
  then "orange"
  else if fgtb barPercentage hundred then "red"
  else "green".

Definition renderComparison (modesArray : list ModeEntry) (selectedMode : string)
  : TypeError + list ComparisonItem :=
  let maxEmission := Math_max (map Calculator.emission modesArray) in
  let carMode := find (fun m => String.eqb (Calculator.mode m) "car") modesArray in
  let carEmission :=
    match carMode with Some m => Calculator.emission m | None => pos_zero end in
  map_throwing
    (fun modeData =>
       let modeMetadata := table_get TRANSPORT_MODES (Calculator.mode modeData) in
       let isSelected := String.eqb (Calculator.mode modeData) selectedMode in
       let emissionPercentage :=
         if fgtb carEmission pos_zero
         then toFixed ((Calculator.emission modeData / carEmission) * hundred) 1
         else Num pos_zero in
       let barPercentage := (Calculator.emission modeData / maxEmission) * hundred in
       match metadata_text modeMetadata with
       | inl error => inl error
       | inr header =>
           inr {| isSelected := isSelected;
                  item_header := header;
                  stat_emission := formatNumber (VNumber (Calculator.emission modeData)) 2;
                  stat_vsCar := emissionPercentage;
                  barColor := barColor_of barPercentage;
                  bar_width := Math_min [barPercentage; hundred] |}
       end)
    modesArray.

Module CreditsData.
Record t : Type := {
  credits : number;
  price : option PriceEstimate;
  emission : number
}.
End CreditsData.

Record EquivalenceItem : Type := {
  item_icon : string;
  item_text : string;
  item_value : text;
  item_unit : string
}.

Record CreditsView : Type := {
  creditsCard : text;
  priceCard : text * text * text;
  equivalenceItems : list EquivalenceItem
}.

Definition renderCarbonCredits (creditsData : CreditsData.t) : CreditsView :=
  let creditsNeeded := or_default (CreditsData.credits creditsData) pos_zero in
  let priceData :=
    match CreditsData.price creditsData with
    | Some p => p
    | None => {| min := pos_zero; max := pos_zero; average := pos_zero |}
    end in
  let emission := or_default (CreditsData.emission creditsData) pos_zero in
  {| creditsCard := formatNumber (VNumber creditsNeeded) 2;
     priceCard := (formatCurrency (average priceData),
                   formatCurrency (min priceData),
                   formatCurrency (max priceData));
     equivalenceItems :=
       [ {| item_icon := "🌳"; item_text := "Equivalente a";
            item_value := formatNumber (VNumber (emission / decimal 12 0)) 1;
            item_unit := "árvores plantadas por ano" |};
         {| item_icon := "⚡"; item_text := "Equivalente a";
            item_value :=
              formatNumber (VNumber (emission * decimal 25 2 / decimal 1000 0)) 2;
            item_unit := "MWh de eletricidade" |};
         {| item_icon := "🏎️"; item_text := "Equivalente a";
            item_value := formatNumber (VNumber (emission / decimal 2 1)) 0;
            item_unit := "km rodados por carro" |} ] |}.

(** The loading state of a button.  Its content is a text, or the
    spinner markup followed by the text [ Calculando...]; [dataset] holds
    [data-original-text] when it is set. *)
Inductive ButtonContent : Type :=
| Label (s : string)
| Spinner_Calculando.

Record Button : Type := {
  content : ButtonContent;
  disabled : bool;
  dataset_originalText : option string
}.

Definition textContent (b : Button) : string :=
  match content b with
  | Label s => s
  | Spinner_Calculando => " Calculando..."
  end.

Definition showLoading (buttonElement : option Button) : option Button :=
  match buttonElement with
  | None => None
  | Some b =>
      Some {| dataset_originalText := Some (textContent b);
              disabled := true;
              content := Spinner_Calculando |}
  end.

Definition hideLoading (buttonElement : option Button) : option Button :=
  match buttonElement with
  | None => None
  | Some b =>
      let originalText :=
        match dataset_originalText b with
        | Some s => if String.eqb s "" then "Calcular" else s
        | None => "Calcular"
        end in
      Some {| dataset_originalText := dataset_originalText b;
              disabled := false;
              content := Label originalText |}
  end.

End UI.

(** ** The form handler (the application script)

    [handleFormSubmit] reads four values off the form: the trimmed origin
    and destination, the distance as [parseFloat] returns it, and the
    value of the checked transport radio.  The embedding starts from
    these four values and from the submit button, and returns what the
    handler has done with the page when its timer callback has run. *)

Module App.

Import JSMath UI.
Local Open Scope string_scope.
Local Open Scope js_scope.

Record FormValues : Type := {
  origin : string;
  destination : string;
  distance : number;
  transportMode : string
}.

(** What becomes of the page: the validation alert; the error alert of
    the [catch] block, after the results content was written or before;
    or the three contents written and their sections shown. *)
Inductive outcome : Type :=
| InvalidAlert
| ErrorAlert (resultsContent : option ResultsView)
| Shown (resultsContent : ResultsView)
        (comparisonContent : list ComparisonItem)
        (creditsContent : CreditsView).

Record Page : Type := {
  page : outcome;
  button : option Button
}.

Definition is_empty (s : string) : bool := String.eqb s "".

Definition handleFormSubmit (form : FormValues) (submitButton : option Button)
  : Page :=
  if is_empty (origin form) || is_empty (destination form)
     || negb (ToBoolean (VNumber (distance form)))
     || fleb (distance form) pos_zero
  then {| page := InvalidAlert; button := submitButton |}
  else
    let loading := showLoading submitButton in
    let selectedModeEmission :=
      calculateEmission (distance form) (transportMode form) in
    let carEmission := calculateEmission (distance form) "car" in
    let savings :=
      if negb (String.eqb (transportMode form) "car")
      then Some [ ("emission", VNumber (carEmission - selectedModeEmission));
                  ("carEmission", VNumber carEmission) ]
      else None in
    let allModesComparison := calculateAllModes (distance form) in
    let creditsNeeded := calculateCarbonCredits selectedModeEmission in
    let creditsPrice := estimateCreditPrice creditsNeeded in
    let creditsData :=
      {| CreditsData.credits := creditsNeeded;
         CreditsData.price := Some creditsPrice;
         CreditsData.emission := selectedModeEmission |} in
    let resultsData :=
      {| ResultsData.origin := origin form;
         ResultsData.destination := destination form;
         ResultsData.distance := distance form;
         ResultsData.emission := selectedModeEmission;
         ResultsData.mode := transportMode form;
         ResultsData.savings := savings |} in
    match renderResults resultsData with
    | inl _ => {| page := ErrorAlert None; button := hideLoading loading |}
    | inr resultsHTML =>
        match renderComparison allModesComparison (transportMode form) with
        | inl _ =>
            {| page := ErrorAlert (Some resultsHTML);
               button := hideLoading loading |}
        | inr comparisonHTML =>
            {| page := Shown resultsHTML comparisonHTML
                         (renderCarbonCredits creditsData);
               button := hideLoading loading |}
        end
    end.

End App.

(** * Part II: vocabulary *)

(** ** Of the statements *)

Section StatementVocabulary.
Local Open Scope string_scope.

(** A name of the city registry. *)
Definition registered (name : string) : Prop := In name (Object_keys ROUTES_DATA).

(** The radian measure the code computes for an angle in degrees. *)
Definition radians (x : number) : number := fdiv (fmul x Math_PI) (decimal 180 0).

Definition one : number := decimal 1 0.

(** The largest finite number, and its half. *)
Definition MAX_VALUE : number := S754_finite false 9007199254740991 971.
Definition HALF_MAX : number := fdiv MAX_VALUE two.

(** The small-angle approximations [sin x = x], [cos x = 1] and
    [atan2 y x = y / x]: a [Math] library on which the statements about
    the distance can be run. *)
Definition small_angle : MathLib := {|
  Math_sin := fun x => x;
  Math_cos := fun _ => one;
  Math_atan2 := fun y x => fdiv y x
|}.

(** The emission factor a mode key reads from the table. *)
Definition factor (mode : string) : number :=
  ToNumber (get CONFIG.EMISSION_FACTORS mode).

(** The entry [calculateAllModes] pushes for one mode. *)
Definition entry (distanceKm : number) (mode : string) : ModeEntry :=
  let emission := calculateEmission distanceKm mode in
  {| mode := mode;
     emission := emission;
     percentageVsCar :=
       round2 (fmul (fdiv emission (calculateEmission distanceKm "car")) hundred) |}.

(** Position of a key in a list of keys. *)
Fixpoint index_of (key : string) (keys : list string) : nat :=
  match keys with
  | [] => O
  | k :: keys' => if String.eqb k key then O else S (index_of key keys')
  end.

(** Position of a mode in the enumeration of the emission factors. *)
Definition enum_index (mode : string) : nat :=
  index_of mode (Object_keys CONFIG.EMISSION_FACTORS).

Definition emission_le (a b : ModeEntry) : Prop :=
  fleb (emission a) (emission b) = true.

(** Two entries with the same emission stand in enumeration order. *)
Definition tie_in_order (a b : ModeEntry) : Prop :=
  SFeqb (emission a) (emission b) = true ->
  (enum_index (mode a) < enum_index (mode b))%nat.

(** No entry of a zero-factor mode stands behind one of a non-zero
    factor. *)
Definition zero_factor_first (a b : ModeEntry) : Prop :=
  is_zero (factor (mode b)) = true -> is_zero (factor (mode a)) = true.

(** What the percentage of an entry is when the baseline emission is
    zero. *)
Definition percentage_at_zero_baseline (en : ModeEntry) : Prop :=
  (is_zero (emission en) = true -> percentageVsCar en = NaN) /\
  (is_zero (emission en) = false -> is_nan (emission en) = false ->
   is_infinite (percentageVsCar en) = true).

(** Equality of numbers up to the sign of zero. *)
Definition same_number (x y : number) : Prop :=
  x = y \/ (is_zero x = true /\ is_zero y = true).

(** A list of strings sorted for a boolean order. *)
Fixpoint sortedb (leb : string -> string -> bool) (l : list string) : bool :=
  match l with
  | [] => true
  | x :: l' =>
      match l' with
      | [] => true
      | y :: _ => leb x y && sortedb leb l'
      end
  end.

(** Modelled from the spec: alphabetical order.  Letters are compared by
    their place in the alphabet, whatever their case or accent. *)
Definition base_letter (u : N) : N :=
  (if (65 <=? u) && (u <=? 90) then u + 32
   else if ((192 <=? u) && (u <=? 197)) || ((224 <=? u) && (u <=? 229)) then 97
   else if (u =? 199) || (u =? 231) then 99
   else if ((200 <=? u) && (u <=? 203)) || ((232 <=? u) && (u <=? 235)) then 101
   else if ((204 <=? u) && (u <=? 207)) || ((236 <=? u) && (u <=? 239)) then 105
   else if (u =? 209) || (u =? 241) then 110
   else if ((210 <=? u) && (u <=? 214)) || ((242 <=? u) && (u <=? 246)) then 111
   else if ((217 <=? u) && (u <=? 220)) || ((249 <=? u) && (u <=? 252)) then 117
   else u)%N.

Definition alphabetical_leb (a b : string) : bool :=
  match compare_units (map base_letter (code_units a))
                      (map base_letter (code_units b)) with
  | Gt => false
  | _ => true
  end.

End StatementVocabulary.

Section RealFormula.
Local Open Scope R_scope.

(** Modelled from the spec: the haversine formula over the reals, for
    coordinates in degrees and the Earth radius 6371. *)
Definition to_radians (deg : R) : R := deg * PI / 180.

Definition haversine_formula (lat1 lon1 lat2 lon2 : R) : R :=
  let dlat := to_radians (lat2 - lat1) in
  let dlon := to_radians (lon2 - lon1) in
  let a := (sin (dlat / 2))² +
           cos (to_radians lat1) * cos (to_radians lat2) * (sin (dlon / 2))² in
  let c := 2 * Ratan2 (R_sqrt.sqrt a) (R_sqrt.sqrt (1 - a)) in
  6371 * c.

(** Modelled from the spec: rounding to 2 decimal places. *)
Definition round_2_decimals (x : R) : R := IZR (Int_part (x * 100 + / 2)) / 100.

End RealFormula.

(** ** Of the rounding theory

    A non-negative rational [x] is located at an exponent [e] by the
    integer code [4 * floor (x / 2^e) + p], where [p] is 0 when [x / 2^e]
    is an integer and 1, 2 or 3 when its fractional part is below, at or
    above one half.  This is what a mantissa and a [location] of the
    library hold. *)

Definition b2z (b : bool) : Z := if b then 1 else 0.

Definition rec_code (r : shr_record) : Z :=
  4 * shr_m r + 2 * b2z (shr_r r) + b2z (shr_s r).

Definition loc_bits (l : location) : Z :=
  match l with
  | loc_Exact => 0
  | loc_Inexact Lt => 1
  | loc_Inexact Eq => 2
  | loc_Inexact Gt => 3
  end.

Definition code_of (m : Z) (l : location) : Z := 4 * m + loc_bits l.

(** The code at the next exponent. *)
Definition shift1 (c : Z) : Z := 2 * (c / 4) + (if c mod 4 =? 0 then 0 else 1).

Definition is_integer (x : Q) : bool := Qeq_bool x (inject_Z (Qfloor x)).

Definition Qcode (x : Q) : Z :=
  2 * Qfloor (2 * x) + (if is_integer (2 * x) then 0 else 1).

(** Rounding of a code to the nearest integer, ties to even. *)
Definition rne_code (c : Z) : Z :=
  c / 4 + (if c mod 4 <=? 1 then 0
           else if c mod 4 =? 2 then (if Z.even (c / 4) then 0 else 1)
           else 1).

Fixpoint iter_nat {A} (f : A -> A) (n : nat) (x : A) : A :=
  match n with O => x | S n' => f (iter_nat f n' x) end.

Definition pow2 (e : Z) : Q := (2 ^ e)%Q.

(** The value of a positive finite number. *)
Definition Qval (m : positive) (e : Z) : Q := (inject_Z (Z.pos m) * pow2 e)%Q.

(** The exponent function of binary64. *)
Definition fexp64 (n : Z) : Z := Z.max (n - 53) (-1074).

(** The number made of a rounded mantissa [n] at exponent [t]. *)
Definition finish (s : bool) (n t : Z) : number :=
  match n with
  | Z0 => S754_zero s
  | Zpos p =>
      if n =? 2 ^ 53 then
        (if t + 1 <=? 971 then S754_finite s (2 ^ 52) (t + 1) else S754_infinity s)
      else
        (if t <=? 971 then S754_finite s p t else S754_infinity s)
  | Zneg _ => S754_nan
  end.

(** [t] is the exponent of the binary64 grid around the non-negative [x]. *)
Definition grid (x : Q) (t : Z) : Prop :=
  -1074 <= t /\ (x < pow2 (t + 53))%Q /\ (-1074 < t -> (pow2 (t + 52) <= x)%Q).

(** [r] is the binary64 number of sign [s] nearest to the magnitude [x],
    ties to even, infinite on overflow. *)
Definition rounds_to (s : bool) (x : Q) (r : number) : Prop :=
  exists t, grid x t /\ r = finish s (rne_code (Qcode (x / pow2 t))) t.

(** A well-formed number that is not negative; [-0] is one. *)
Definition nonneg (x : number) : bool :=
  match x with
  | S754_zero _ => true
  | S754_infinity s => negb s
  | S754_finite s m e => negb s && bounded prec emax m e
  | S754_nan => false
  end.

(** A positive finite number. *)
Definition posfin (x : number) : bool :=
  match x with
  | S754_finite s m e => negb s && bounded prec emax m e
  | _ => false
  end.

(** The value of a non-negative number; [None] stands for infinity. *)
Definition xval (x : number) : option Q :=
  match x with
  | S754_finite _ m e => Some (Qval m e)
  | S754_infinity _ => None
  | _ => Some 0%Q
  end.

Definition qval (c : number) : Q :=
  match c with S754_finite _ m e => Qval m e | _ => 0%Q end.

Definition xle (u v : option Q) : Prop :=
  match u, v with
  | Some p, Some q => (p <= q)%Q
  | _, None => True
  | None, Some _ => False
  end.

(** [r] is the number the non-negative extended value [v] rounds to, a zero
    of either sign standing for 0. *)
Definition xrounds (v : option Q) (r : number) : Prop :=
  match v with
  | None => r = pos_infinity
  | Some q => ((q == 0)%Q /\ is_zero r = true) \/ ((0 < q)%Q /\ rounds_to false q r)
  end.

(** The exact operations on extended values. *)
Definition xscale (q : Q) (v : option Q) : option Q :=
  option_map (fun p => (p * q)%Q) v.

Definition xadd (u v : option Q) : option Q :=
  match u, v with
  | Some p, Some q => Some (p + q)%Q
  | _, _ => None
  end.

Definition xround (v : option Q) : option Q :=
  option_map (fun p => inject_Z (Qfloor (p + (1#2)))) v.

(** The sign a number carries; NaN carries none. *)
Definition sign_of (x : number) : option bool :=
  match x with
  | S754_zero s | S754_infinity s | S754_finite s _ _ => Some s
  | S754_nan => None
  end.

(** Two numbers that are opposite, or the same. *)
Definition mirror (x' x : number) : Prop := x' = fneg x \/ x' = x.

(** Case analysis on a non-negative or a positive finite number. *)
Ltac nonneg_cases x :=
  let s := fresh "s" in let m := fresh "m" in let e := fresh "e" in
  let B := fresh "B" in
  match goal with
  | H : nonneg x = true |- _ =>
      destruct x as [s|[]| |[] m e]; cbn [nonneg negb andb] in H; try discriminate H;
      try rename H into B
  | H : posfin x = true |- _ =>
      destruct x as [s|[]| |[] m e]; cbn [posfin negb andb] in H; try discriminate H;
      try rename H into B
  end.

(** ** Of the further properties *)

Section PropertyVocabulary.
Local Open Scope string_scope.

(** Order of two entries by their percentage of the car emission. *)
Definition percentage_le (a b : ModeEntry) : Prop :=
  fleb (percentageVsCar a) (percentageVsCar b) = true.

(** The locals [carEmission] and [barPercentage] of [renderComparison],
    and what its callback makes of one entry. *)
Definition carEmission_of (modesArray : list ModeEntry) : number :=
  match find (fun m => String.eqb (mode m) "car") modesArray with
  | Some m => emission m
  | None => pos_zero
  end.

Definition barPercentage (modesArray : list ModeEntry) (modeData : ModeEntry)
  : number :=
  fmul (fdiv (emission modeData) (JSMath.Math_max (map emission modesArray)))
       hundred.

Definition vsCar_text (carEmission : number) (modeData : ModeEntry) : UI.text :=
  if fgtb carEmission pos_zero
  then UI.toFixed (fmul (fdiv (emission modeData) carEmission) hundred) 1
  else UI.Num pos_zero.

Definition item_of (modesArray : list ModeEntry) (selectedMode : string)
  (modeData : ModeEntry) (item : UI.ComparisonItem) : Prop :=
  UI.isSelected item = String.eqb (mode modeData) selectedMode /\
  UI.stat_emission item = UI.formatNumber (VNumber (emission modeData)) 2 /\
  UI.stat_vsCar item = vsCar_text (carEmission_of modesArray) modeData /\
  UI.barColor item = UI.barColor_of (barPercentage modesArray modeData) /\
  UI.bar_width item =
    JSMath.Math_min [barPercentage modesArray modeData; hundred].

(** A mode with an entry in [TRANSPORT_MODES]. *)
Definition has_metadata (mode : string) : Prop :=
  In mode (map fst TransportModes.TRANSPORT_MODES).

(** A bar that the page can draw: a width between 0 and 100 and a colour
    other than the one kept for widths above 100. *)
Definition bar_in_range (item : UI.ComparisonItem) : Prop :=
  fleb pos_zero (UI.bar_width item) = true /\
  fleb (UI.bar_width item) hundred = true /\
  UI.barColor item <> "red".

(** The form values the handler takes past its validation. *)
Definition accepted (form : App.FormValues) : Prop :=
  App.origin form <> "" /\ App.destination form <> "" /\
  fgtb (App.distance form) pos_zero = true.

End PropertyVocabulary.

(** ** Of the rounding to two decimals *)

(** The number 0.5, where [Math.round] turns from 0 to 1. *)
Definition one_half : number := decimal 5 1.

(** ** Of the error analysis

    The rational and the real value of a number; NaN and the infinities
    are given the value 0. *)
Definition B2Q (x : number) : Q :=
  match x with
  | S754_finite s m e => if s then (- Qval m e)%Q else Qval m e
  | _ => 0%Q
  end.

Definition B2R (x : number) : R := Q2R (B2Q x).

(** The sign as a factor. *)
Definition signQ (s : bool) : Q := if s then (-1)%Q else 1%Q.

(** The unit roundoff of binary64, and half its smallest positive value. *)
Definition unit_roundoff : R := Q2R (pow2 (-53)).
Definition underflow_unit : R := Q2R (pow2 (-1075)).

(** [x] is a finite binary64 value within [err] of the real number [v]. *)
Definition near (x : number) (v err : R) : Prop :=
  well_formed x = true /\ is_finite x = true /\ (Rabs (B2R x - v) <= err)%R.

(** A [Math] library of accuracy [delta] on the arguments the distance
    code passes: angles of at most one radian to [sin] and [cos], and a
    first-quadrant point away from the vertical axis to [atan2]. *)
Definition accurate (M : MathLib) (delta : R) : Prop :=
  (forall x, well_formed x = true -> is_finite x = true ->
     (Rabs (B2R x) <= 1)%R -> near (Math_sin M x) (sin (B2R x)) delta) /\
  (forall x, well_formed x = true -> is_finite x = true ->
     (Rabs (B2R x) <= 1)%R -> near (Math_cos M x) (cos (B2R x)) delta) /\
  (forall y x, well_formed y = true -> is_finite y = true ->
     well_formed x = true -> is_finite x = true ->
     (0 <= B2R y <= 2)%R -> (/ 2 <= B2R x <= 2)%R ->
     near (Math_atan2 M y x) (Ratan2 (B2R y) (B2R x)) delta).

(** A [Math] library that returns the multiple of [2^-50] just above the
    real value. *)
Definition fixed_point (r : R) : number :=
  fdiv (of_Z (up (r * IZR (2 ^ 50)))) (of_Z (2 ^ 50)).

Definition fixed_point_library : MathLib := {|
  Math_sin := fun x => fixed_point (sin (B2R x));
  Math_cos := fun x => fixed_point (cos (B2R x));
  Math_atan2 := fun y x => fixed_point (Ratan2 (B2R y) (B2R x))
|}.

(** The distance of [Math.PI] from the real number pi. *)
Definition Math_PI_error : R := Rabs (B2R Math_PI - PI).

(** The region of the registered cities, in degrees of latitude and
    longitude. *)
Definition in_region (lat lng : number) : bool :=
  well_formed lat && is_finite lat && well_formed lng && is_finite lng &&
  Qle_bool (inject_Z (-31)) (B2Q lat) && Qle_bool (B2Q lat) 0 &&
  Qle_bool (inject_Z (-61)) (B2Q lng) && Qle_bool (B2Q lng) (inject_Z (-34)).

(** The partial sums of the series of [2 atan (1/3) + atan (1/7)], which
    is a quarter of pi, over the rationals. *)
Fixpoint Qpow_nat (q : Q) (n : nat) : Q :=
  match n with O => 1%Q | S n' => (q * Qpow_nat q n')%Q end.

Definition pi_series_term (k : nat) : Q :=
  (Qpow_nat (-1) k *
   (2 * (Qpow_nat (1 # 3) (2 * k + 1) / inject_Z (Z.of_nat (2 * k + 1))) +
    Qpow_nat (1 # 7) (2 * k + 1) / inject_Z (Z.of_nat (2 * k + 1))))%Q.

Fixpoint pi_series_sum (n : nat) : Q :=
  match n with
  | O => pi_series_term 0
  | S n' => (pi_series_sum n' + pi_series_term (S n'))%Q
  end.

(** * Part III: binary64 rounding *)

(** ** Position codes and their shifts *)

Section PositionCodes.
Local Open Scope Z_scope.

Lemma shr_1_code r :
  0 <= shr_m r ->
  rec_code (shr_1 r) = shift1 (rec_code r) /\ 0 <= shr_m (shr_1 r).
Proof.
  destruct r as [m rb sb]; simpl; intros Hm.
  unfold shift1, rec_code.
  destruct m as [|p|p]; [| |lia].
  - destruct rb, sb; simpl; split; reflexivity || lia.
  - destruct p as [p|p|]; destruct rb, sb; cbn [shr_m shr_r shr_s orb b2z];
      (split; [|lia]);
      match goal with
      | |- _ = 2 * (?c / 4) + (if ?c mod 4 =? 0 then _ else _) =>
          let q := fresh in let r := fresh in
          remember (c / 4) as q eqn:Hq; remember (c mod 4) as r eqn:Hr;
          assert (c = 4 * q + r /\ 0 <= r < 4) as [? ?]
            by (subst q r; split; [apply Z.div_mod; lia | apply Z.mod_pos_bound; lia]);
          destruct (Z.eqb_spec r 0); lia
      end.
Qed.

Lemma iter_nat_add {A} (f : A -> A) n m x :
  iter_nat f (n + m) x = iter_nat f n (iter_nat f m x).
Proof. induction n; simpl; congruence. Qed.

Lemma iter_nat_shift {A} (f : A -> A) n x :
  iter_nat f n (f x) = f (iter_nat f n x).
Proof. induction n; simpl; congruence. Qed.

Lemma iter_pos_nat {A} (f : A -> A) p x :
  iter_pos f p x = iter_nat f (Pos.to_nat p) x.
Proof.
  revert x; induction p; intros x; cbn [iter_pos].
  - rewrite !IHp, Pos2Nat.inj_xI.
    replace (S (2 * Pos.to_nat p))%nat with (Pos.to_nat p + S (Pos.to_nat p))%nat by lia.
    rewrite iter_nat_add. cbn [iter_nat]. now rewrite iter_nat_shift.
  - rewrite !IHp, Pos2Nat.inj_xO, <- iter_nat_add. f_equal. lia.
  - reflexivity.
Qed.

Local Open Scope Q_scope.

Lemma Qfloor_spec (x : Q) : inject_Z (Qfloor x) <= x /\ x < inject_Z (Qfloor x) + 1.
Proof.
  split; [apply Qfloor_le|].
  generalize (Qlt_floor x). now rewrite inject_Z_plus.
Qed.

Lemma Qfloor_lb (a : Z) (x : Q) : inject_Z a <= x -> (a <= Qfloor x)%Z.
Proof. intros H. apply Qfloor_resp_le in H. now rewrite Qfloor_Z in H. Qed.

Lemma Qfloor_ub (b : Z) (x : Q) : x < inject_Z b -> (Qfloor x < b)%Z.
Proof.
  intros H. rewrite Zlt_Qlt. eapply Qle_lt_trans; [apply Qfloor_le|exact H].
Qed.

Lemma Qfloor_unique (a : Z) (x : Q) :
  inject_Z a <= x -> x < inject_Z a + 1 -> Qfloor x = a.
Proof.
  intros H1 H2. apply Qfloor_lb in H1.
  assert (Qfloor x < a + 1)%Z by (apply Qfloor_ub; now rewrite inject_Z_plus).
  lia.
Qed.

Lemma is_integer_true (x : Q) : is_integer x = true <-> x == inject_Z (Qfloor x).
Proof. unfold is_integer. apply Qeq_bool_iff. Qed.

Lemma is_integer_false (x : Q) : is_integer x = false <-> inject_Z (Qfloor x) < x.
Proof.
  unfold is_integer. destruct (Qfloor_spec x) as [H1 H2]. split.
  - intros H. destruct (Qeq_bool x (inject_Z (Qfloor x))) eqn:E; [discriminate|].
    apply Qeq_bool_neq in E. apply Qle_lteq in H1. destruct H1 as [H1|H1]; [exact H1|].
    exfalso; apply E; now symmetry.
  - intros H. destruct (Qeq_bool x (inject_Z (Qfloor x))) eqn:E; [|reflexivity].
    apply Qeq_bool_iff in E. rewrite <- E in H. now apply Qlt_irrefl in H.
Qed.

Global Instance is_integer_comp : Proper (Qeq ==> eq) is_integer.
Proof.
  intros x y E. unfold is_integer.
  assert (Qfloor x = Qfloor y) as -> by now rewrite E.
  destruct (Qeq_bool y _) eqn:Ey.
  - apply Qeq_bool_iff. rewrite E. now apply Qeq_bool_iff.
  - destruct (Qeq_bool x _) eqn:Ex; [|reflexivity].
    apply Qeq_bool_iff in Ex. rewrite E in Ex. apply Qeq_bool_iff in Ex. congruence.
Qed.

Global Instance Qcode_comp : Proper (Qeq ==> eq) Qcode.
Proof. intros x y E. unfold Qcode. now rewrite E. Qed.

Lemma Qcode_Z (n : Z) : Qcode (inject_Z n) = (4 * n)%Z.
Proof.
  unfold Qcode.
  assert (E : 2 * inject_Z n == inject_Z (2 * n)) by (rewrite inject_Z_mult; reflexivity).
  rewrite E, Qfloor_Z.
  assert (is_integer (inject_Z (2 * n)) = true) as ->
    by (apply is_integer_true; now rewrite Qfloor_Z).
  lia.
Qed.

(** Decomposition of a code into integer part and position. *)
Lemma Qcode_cases (x : Q) :
  (x == inject_Z (Qfloor x) /\ Qcode x = (4 * Qfloor x)%Z) \/
  (inject_Z (Qfloor x) < x /\ x < inject_Z (Qfloor x) + (1#2) /\
   Qcode x = (4 * Qfloor x + 1)%Z) \/
  (x == inject_Z (Qfloor x) + (1#2) /\ Qcode x = (4 * Qfloor x + 2)%Z) \/
  (inject_Z (Qfloor x) + (1#2) < x /\ x < inject_Z (Qfloor x) + 1 /\
   Qcode x = (4 * Qfloor x + 3)%Z).
Proof.
  set (n := Qfloor x). destruct (Qfloor_spec x) as [H1 H2]. fold n in H1, H2.
  unfold Qcode.
  clearbody n.
  destruct (Qlt_le_dec x (inject_Z n + (1#2))) as [Hlt|Hge].
  - assert (Hu : Qfloor (2 * x) = (2 * n)%Z).
    { apply Qfloor_unique; rewrite inject_Z_mult; change (inject_Z 2) with 2; lra. }
    rewrite Hu.
    destruct (is_integer (2 * x)) eqn:E.
    + left. apply is_integer_true in E. rewrite Hu, inject_Z_mult in E.
      change (inject_Z 2) with 2 in E. split; [lra|lia].
    + right; left. apply is_integer_false in E. rewrite Hu, inject_Z_mult in E.
      change (inject_Z 2) with 2 in E. split; [lra|split; [lra|lia]].
  - assert (Hu : Qfloor (2 * x) = (2 * n + 1)%Z).
    { apply Qfloor_unique; rewrite inject_Z_plus, inject_Z_mult;
        change (inject_Z 2) with 2; change (inject_Z 1) with 1; lra. }
    rewrite Hu.
    destruct (is_integer (2 * x)) eqn:E.
    + right; right; left. apply is_integer_true in E.
      rewrite Hu, inject_Z_plus, inject_Z_mult in E.
      change (inject_Z 2) with 2 in E. change (inject_Z 1) with 1 in E.
      split; [lra|lia].
    + right; right; right. apply is_integer_false in E.
      rewrite Hu, inject_Z_plus, inject_Z_mult in E.
      change (inject_Z 2) with 2 in E. change (inject_Z 1) with 1 in E.
      split; [lra|split; [lra|lia]].
Qed.

Lemma Qcode_div4 (x : Q) : (Qcode x / 4)%Z = Qfloor x.
Proof.
  destruct (Qcode_cases x) as [[_ E]|[[_ [_ E]]|[[_ E]|[_ [_ E]]]]]; rewrite E;
    symmetry; apply (Z.div_unique_pos _ 4 _ (Qcode x - 4 * Qfloor x)); rewrite ?E; lia.
Qed.

Lemma Qcode_mono (x y : Q) : x <= y -> (Qcode x <= Qcode y)%Z.
Proof.
  intros H.
  assert (Hf := Qfloor_resp_le _ _ H).
  destruct (Qfloor_spec x) as [X1 X2], (Qfloor_spec y) as [Y1 Y2].
  destruct (Z.eq_dec (Qfloor x) (Qfloor y)) as [E|NE].
  - rewrite E in *.
    destruct (Qcode_cases x) as [[A EA]|[[A [A' EA]]|[[A EA]|[A [A' EA]]]]];
    destruct (Qcode_cases y) as [[B EB]|[[B [B' EB]]|[[B EB]|[B [B' EB]]]]];
    rewrite EA, EB, ?E; try lia; rewrite ?E in *; exfalso; lra.
  - assert (Qfloor x + 1 <= Qfloor y)%Z by lia.
    destruct (Qcode_cases x) as [[A EA]|[[A [A' EA]]|[[A EA]|[A [A' EA]]]]];
    destruct (Qcode_cases y) as [[B EB]|[[B [B' EB]]|[[B EB]|[B [B' EB]]]]];
    rewrite EA, EB; lia.
Qed.

Lemma Qcode_mod4 (x : Q) :
  ((Qcode x mod 4 =? 0)%Z = is_integer x).
Proof.
  assert (Hq : forall k r, (0 <= r < 4)%Z -> Qcode x = (4 * k + r)%Z ->
     (Qcode x mod 4 = r)%Z).
  { intros k r Hr E. rewrite E. symmetry. apply (Z.mod_unique_pos _ 4 k r); lia. }
  destruct (Qcode_cases x) as [[A EA]|[[A [A' EA]]|[[A EA]|[A [A' EA]]]]].
  - rewrite (Hq (Qfloor x) 0%Z ltac:(lia) ltac:(lia)). symmetry. now apply is_integer_true.
  - rewrite (Hq (Qfloor x) 1%Z ltac:(lia) ltac:(lia)). symmetry. now apply is_integer_false.
  - rewrite (Hq (Qfloor x) 2%Z ltac:(lia) ltac:(lia)). symmetry. apply is_integer_false. lra.
  - rewrite (Hq (Qfloor x) 3%Z ltac:(lia) ltac:(lia)). symmetry. apply is_integer_false.
    destruct (Qfloor_spec x). lra.
Qed.

Lemma Qcode_half (x : Q) : Qcode (x / 2) = shift1 (Qcode x).
Proof.
  unfold shift1. rewrite Qcode_div4, Qcode_mod4.
  unfold Qcode at 1.
  assert (E : 2 * (x / 2) == x) by field.
  rewrite E. reflexivity.
Qed.

End PositionCodes.

(** ** Digits and powers of two *)

Section PowersOfTwo.
Local Open Scope Z_scope.

Lemma fexp_eq n : fexp prec emax n = fexp64 n.
Proof. reflexivity. Qed.

Lemma digits2_size p : digits2_pos p = Pos.size p.
Proof. induction p; simpl; congruence. Qed.

Lemma digits_bounds p :
  2 ^ (Z.pos (digits2_pos p) - 1) <= Z.pos p < 2 ^ Z.pos (digits2_pos p).
Proof.
  rewrite digits2_size.
  assert (H := Z.log2_spec (Z.pos p) ltac:(lia)).
  assert (E : Z.pos (Pos.size p) = Z.succ (Z.log2 (Z.pos p))).
  { destruct p; simpl; try reflexivity; now rewrite Pos.add_1_r. }
  rewrite E. replace (Z.succ (Z.log2 (Z.pos p)) - 1) with (Z.log2 (Z.pos p)) by lia.
  exact H.
Qed.

Lemma Zdigits2_bounds m :
  0 < m -> 2 ^ (Zdigits2 m - 1) <= m < 2 ^ Zdigits2 m.
Proof. destruct m; try lia. intros _. apply digits_bounds. Qed.

Lemma Zdigits2_pos m : 0 < m -> 0 < Zdigits2 m.
Proof. destruct m; simpl; lia. Qed.

Lemma Zdigits2_le m d : 0 <= d -> 0 <= m < 2 ^ d -> Zdigits2 m <= d.
Proof.
  intros Hd Hm. destruct (Z.eq_dec m 0) as [->|]; [simpl; lia|].
  destruct (Zdigits2_bounds m ltac:(lia)) as [H1 _].
  destruct (Z_le_gt_dec (Zdigits2 m) d); [assumption|].
  assert (2 ^ d <= 2 ^ (Zdigits2 m - 1)) by (apply Z.pow_le_mono_r; lia). lia.
Qed.

Lemma Zdigits2_ge m d : 0 <= d -> 2 ^ d <= m -> d + 1 <= Zdigits2 m.
Proof.
  intros Hd Hm.
  assert (0 < 2 ^ d) by (apply Z.pow_pos_nonneg; lia).
  destruct (Zdigits2_bounds m ltac:(lia)) as [_ H2].
  destruct (Z_le_gt_dec (d + 1) (Zdigits2 m)); [assumption|].
  assert (2 ^ Zdigits2 m <= 2 ^ d).
  { apply Z.pow_le_mono_r; lia. } lia.
Qed.

Local Open Scope Q_scope.

Lemma pow2_pos e : 0 < pow2 e.
Proof. apply Qpower_0_lt. reflexivity. Qed.

Lemma pow2_add a b : pow2 (a + b) == pow2 a * pow2 b.
Proof. apply Qpower_plus. discriminate. Qed.

Lemma pow2_Z n : (0 <= n)%Z -> pow2 n == inject_Z (2 ^ n).
Proof. intros H. unfold pow2. now rewrite Zpower_Qpower. Qed.

Lemma pow2_0 : pow2 0 == 1.
Proof. reflexivity. Qed.

Lemma pow2_1 : pow2 1 == 2.
Proof. reflexivity. Qed.

Lemma pow2_succ a : pow2 (a + 1) == 2 * pow2 a.
Proof. rewrite pow2_add, pow2_1. ring. Qed.

Lemma pow2_le a b : (a <= b)%Z -> pow2 a <= pow2 b.
Proof. intros H. apply Qpower_le_compat_l; [exact H|]. discriminate. Qed.

Lemma pow2_lt a b : (a < b)%Z -> pow2 a < pow2 b.
Proof. intros H. apply Qpower_lt_compat_l; [exact H|]. reflexivity. Qed.

Lemma pow2_sub a b : pow2 (a - b) == pow2 a / pow2 b.
Proof.
  assert (H := pow2_add (a - b) b). replace (a - b + b)%Z with a in H by lia.
  assert (P := pow2_pos b). rewrite H. field. lra.
Qed.

Lemma Qdiv_pow2_lt x a b : x < pow2 (a + b) -> x / pow2 a < pow2 b.
Proof.
  intros H. assert (P := pow2_pos a). rewrite pow2_add in H.
  apply Qlt_shift_div_r; [exact P|]. lra.
Qed.

Lemma Qdiv_pow2_le x a b : pow2 (a + b) <= x -> pow2 b <= x / pow2 a.
Proof.
  intros H. assert (P := pow2_pos a). rewrite pow2_add in H.
  apply Qle_shift_div_l; [exact P|]. lra.
Qed.

Lemma Qdiv_pow2_add x a b : x / pow2 (a + b) == x / pow2 a / pow2 b.
Proof.
  assert (P := pow2_pos a). assert (P' := pow2_pos b). rewrite pow2_add.
  field. split; lra.
Qed.

End PowersOfTwo.

(** ** What the shift of the library does to a code *)

Section ShiftRight.
Local Open Scope Z_scope.

Lemma rec_code_of_loc m l : rec_code (shr_record_of_loc m l) = code_of m l.
Proof. destruct l as [|[]]; unfold rec_code, code_of; simpl; lia. Qed.

Lemma shr_m_of_loc m l : shr_m (shr_record_of_loc m l) = m.
Proof. destruct l as [|[]]; reflexivity. Qed.

Lemma iter_shr_1_sem n r x :
  0 <= shr_m r -> rec_code r = Qcode x ->
  rec_code (iter_nat shr_1 n r) = Qcode (x / pow2 (Z.of_nat n)) /\
  0 <= shr_m (iter_nat shr_1 n r).
Proof.
  intros Hm Hc. induction n as [|n [IH1 IH2]].
  - cbn [iter_nat]. split; [|exact Hm]. rewrite Hc. apply Qcode_comp.
    change (Z.of_nat 0) with 0. rewrite pow2_0. field.
  - cbn [iter_nat]. destruct (shr_1_code _ IH2) as [E1 E2]. split; [|exact E2].
    rewrite E1, IH1, <- Qcode_half. apply Qcode_comp.
    rewrite Nat2Z.inj_succ. unfold Z.succ. rewrite Qdiv_pow2_add, pow2_1. reflexivity.
Qed.

Lemma shr_sem r e n x :
  0 <= shr_m r -> rec_code r = Qcode (x / pow2 e) -> 0 <= n ->
  snd (shr r e n) = e + n /\
  rec_code (fst (shr r e n)) = Qcode (x / pow2 (e + n)) /\
  0 <= shr_m (fst (shr r e n)).
Proof.
  intros Hm Hc Hn. destruct n as [|p|p]; [| |lia].
  - cbn [shr fst snd]. rewrite Z.add_0_r. auto.
  - cbn [shr fst snd]. split; [reflexivity|].
    rewrite iter_pos_nat.
    destruct (iter_shr_1_sem (Pos.to_nat p) r _ Hm Hc) as [E1 E2].
    split; [|exact E2]. rewrite E1. apply Qcode_comp.
    rewrite positive_nat_Z. now rewrite Qdiv_pow2_add.
Qed.

Lemma shr_nop r e n : n <= 0 -> shr r e n = (r, e).
Proof. destruct n; try reflexivity. lia. Qed.

Lemma rne_rec r :
  round_nearest_even (shr_m r) (loc_of_shr_record r) = rne_code (rec_code r).
Proof.
  destruct r as [m rb sb]. unfold rne_code, rec_code. cbn [shr_m shr_r shr_s].
  assert (Hq : forall k, 0 <= k < 4 ->
     (4 * m + k) / 4 = m /\ (4 * m + k) mod 4 = k).
  { intros k Hk. split.
    - symmetry. apply (Z.div_unique_pos _ 4 _ k); lia.
    - symmetry. apply (Z.mod_unique_pos _ 4 m k); lia. }
  destruct rb, sb; cbn [b2z loc_of_shr_record round_nearest_even].
  - destruct (Hq 3 ltac:(lia)) as [E1 E2].
    replace (4 * m + 2 * 1 + 1) with (4 * m + 3) by lia. rewrite E1, E2. reflexivity.
  - destruct (Hq 2 ltac:(lia)) as [E1 E2].
    replace (4 * m + 2 * 1 + 0) with (4 * m + 2) by lia. rewrite E1, E2. simpl.
    destruct (Z.even m); lia.
  - destruct (Hq 1 ltac:(lia)) as [E1 E2].
    replace (4 * m + 2 * 0 + 1) with (4 * m + 1) by lia. rewrite E1, E2. simpl. lia.
  - destruct (Hq 0 ltac:(lia)) as [E1 E2].
    replace (4 * m + 2 * 0 + 0) with (4 * m + 0) by lia. rewrite E1, E2. simpl. lia.
Qed.

Lemma rne_code_bounds c : c / 4 <= rne_code c <= c / 4 + 1.
Proof.
  unfold rne_code. destruct (c mod 4 <=? 1); [lia|].
  destruct (c mod 4 =? 2); [destruct (Z.even (c / 4))|]; lia.
Qed.

Lemma rne_code_exact n : rne_code (4 * n) = n.
Proof.
  unfold rne_code.
  replace (4 * n) with (n * 4) by lia.
  rewrite Z.div_mul, Z.mod_mul by lia. simpl. lia.
Qed.

Lemma rne_code_mono c d : c <= d -> rne_code c <= rne_code d.
Proof.
  intros H. unfold rne_code.
  assert (Hc := Z.div_mod c 4 ltac:(lia)). assert (Hd := Z.div_mod d 4 ltac:(lia)).
  assert (Bc := Z.mod_pos_bound c 4 ltac:(lia)). assert (Bd := Z.mod_pos_bound d 4 ltac:(lia)).
  set (qc := c / 4) in *. set (rc := c mod 4) in *.
  set (qd := d / 4) in *. set (rd := d mod 4) in *.
  clearbody qc rc qd rd.
  assert (qc <= qd) by lia.
  destruct (Z.eq_dec qc qd) as [->|NE].
  - assert (rc <= rd) by lia.
    destruct (Z.leb_spec rc 1), (Z.leb_spec rd 1), (Z.eqb_spec rc 2), (Z.eqb_spec rd 2),
      (Z.even qd); lia.
  - destruct (Z.leb_spec rc 1), (Z.leb_spec rd 1), (Z.eqb_spec rc 2), (Z.eqb_spec rd 2),
      (Z.even qd), (Z.even qc); lia.
Qed.

End ShiftRight.

(** ** The rounding function of the library *)

Section RoundingCore.
Local Open Scope Z_scope.

Lemma code_of_div4 m l : code_of m l / 4 = m.
Proof.
  unfold code_of. symmetry.
  apply (Z.div_unique_pos _ 4 _ (loc_bits l)); [destruct l as [|[]]; simpl; lia|lia].
Qed.

Lemma encodes_floor x e m l :
  Qcode (x / pow2 e) = code_of m l -> Qfloor (x / pow2 e) = m.
Proof. intros H. rewrite <- Qcode_div4, H. apply code_of_div4. Qed.

Lemma floor_bounds x e m :
  Qfloor (x / pow2 e) = m ->
  (inject_Z m * pow2 e <= x /\ x < (inject_Z m + 1) * pow2 e)%Q.
Proof.
  intros H. destruct (Qfloor_spec (x / pow2 e)) as [H1 H2]. rewrite H in H1, H2.
  assert (P := pow2_pos e). split.
  - apply (Qmult_le_r _ _ (pow2 e)) in H1; [|exact P].
    assert (E : (x / pow2 e * pow2 e == x)%Q) by (field; lra).
    now rewrite E in H1.
  - apply (Qmult_lt_r _ _ (pow2 e)) in H2; [|exact P].
    assert (E : (x / pow2 e * pow2 e == x)%Q) by (field; lra).
    now rewrite E in H2.
Qed.

Lemma inject_Z_succ m : (inject_Z m + 1 == inject_Z (m + 1))%Q.
Proof. now rewrite inject_Z_plus. Qed.

Lemma grid_of_triple x e m l :
  0 <= m -> Qcode (x / pow2 e) = code_of m l ->
  e <= fexp64 (Zdigits2 m + e) ->
  grid x (fexp64 (Zdigits2 m + e)).
Proof.
  intros Hm Hc Hpre.
  apply encodes_floor in Hc. apply floor_bounds in Hc. destruct Hc as [L U].
  set (t := fexp64 (Zdigits2 m + e)) in *.
  assert (Ht : t = Z.max (Zdigits2 m + e - 53) (-1074)) by reflexivity.
  assert (P := pow2_pos e).
  destruct (Z.eq_dec m 0) as [->|NZ].
  - change (Zdigits2 0) with 0 in Ht.
    assert (t = -1074) by lia.
    split; [lia|]. split; [|lia].
    assert (pow2 e <= pow2 (t + 53))%Q by (apply pow2_le; lia).
    change (inject_Z 0) with 0%Q in U. lra.
  - destruct (Zdigits2_bounds m ltac:(lia)) as [D1 D2].
    assert (Dp := Zdigits2_pos m ltac:(lia)).
    set (d := Zdigits2 m) in *.
    split; [lia|]. split.
    + assert (inject_Z m + 1 <= inject_Z (2 ^ d))%Q.
      { rewrite inject_Z_succ. rewrite <- Zle_Qle. lia. }
      rewrite <- pow2_Z in H by lia.
      assert (pow2 d * pow2 e <= pow2 (t + 53))%Q.
      { rewrite <- pow2_add. apply pow2_le. lia. }
      assert ((inject_Z m + 1) * pow2 e <= pow2 d * pow2 e)%Q.
      { apply Qmult_le_compat_r; lra. }
      lra.
    + intros Hbig. assert (t = d + e - 53) by lia.
      assert (inject_Z (2 ^ (d - 1)) <= inject_Z m)%Q by (rewrite <- Zle_Qle; lia).
      rewrite <- pow2_Z in H0 by lia.
      assert (pow2 (t + 52) == pow2 (d - 1) * pow2 e)%Q.
      { rewrite <- pow2_add. replace (d - 1 + e) with (t + 52) by lia. reflexivity. }
      assert (pow2 (d - 1) * pow2 e <= inject_Z m * pow2 e)%Q.
      { apply Qmult_le_compat_r; lra. }
      lra.
Qed.

Lemma grid_floor x t :
  (0 <= x)%Q -> grid x t -> 0 <= Qfloor (x / pow2 t) < 2 ^ 53.
Proof.
  intros Hx (Ht & U & L). assert (P := pow2_pos t). split.
  - apply Qfloor_lb. change (inject_Z 0) with 0%Q.
    apply Qle_shift_div_l; [exact P|]. lra.
  - apply Qfloor_ub. rewrite <- pow2_Z by lia. apply Qdiv_pow2_lt. exact U.
Qed.

Lemma triple_nonneg x e m l :
  0 <= m -> Qcode (x / pow2 e) = code_of m l -> (0 <= x)%Q.
Proof.
  intros Hm Hc. apply encodes_floor in Hc. apply floor_bounds in Hc.
  destruct Hc as [L _]. assert (P := pow2_pos e).
  assert (0 <= inject_Z m)%Q by (change 0%Q with (inject_Z 0); rewrite <- Zle_Qle; lia).
  assert (0 <= inject_Z m * pow2 e)%Q by (apply Qmult_le_0_compat; lra).
  lra.
Qed.

Lemma second_shr s n t :
  -1074 <= t -> 0 <= n <= 2 ^ 53 ->
  (let '(mrs, e) := shr_fexp prec emax n t loc_Exact in
   match shr_m mrs with
   | Z0 => S754_zero s
   | Zpos m => if e <=? emax - prec then S754_finite s m e else S754_infinity s
   | Zneg _ => S754_nan
   end) = finish s n t.
Proof.
  intros Ht Hn. unfold shr_fexp. change (fexp prec emax) with fexp64.
  change (emax - prec) with 971.
  destruct (Z.eq_dec n (2 ^ 53)) as [->|NE].
  - replace (fexp64 (Zdigits2 (2 ^ 53) + t) - t) with 1
      by (change (Zdigits2 (2 ^ 53)) with 54; unfold fexp64; lia).
    reflexivity.
  - rewrite shr_nop.
    + cbn [shr_record_of_loc shr_m]. unfold finish.
      destruct n as [|p|p]; [reflexivity| |lia].
      destruct (Z.eqb_spec (Z.pos p) (2 ^ 53)); [contradiction|reflexivity].
    + assert (Zdigits2 n <= 53) by (apply Zdigits2_le; lia).
      unfold fexp64. lia.
Qed.

Theorem bra_sem s m e l x :
  0 <= m ->
  Qcode (x / pow2 e) = code_of m l ->
  e <= fexp64 (Zdigits2 m + e) ->
  rounds_to s x (binary_round_aux prec emax s m e l).
Proof.
  intros Hm Hc Hpre.
  assert (G := grid_of_triple x e m l Hm Hc Hpre).
  assert (X := triple_nonneg x e m l Hm Hc).
  exists (fexp64 (Zdigits2 m + e)). split; [exact G|].
  set (t := fexp64 (Zdigits2 m + e)) in *.
  unfold binary_round_aux.
  unfold shr_fexp at 1. change (fexp prec emax (Zdigits2 m + e)) with t.
  destruct (shr_sem (shr_record_of_loc m l) e (t - e) x) as (E1 & E2 & E3).
  { now rewrite shr_m_of_loc. }
  { now rewrite rec_code_of_loc. }
  { lia. }
  destruct (shr (shr_record_of_loc m l) e (t - e)) as [r' e'].
  cbn [fst snd] in E1, E2, E3.
  replace (e + (t - e)) with t in * by lia. subst e'.
  cbv beta iota.
  rewrite rne_rec, E2.
  apply second_shr.
  - destruct G; assumption.
  - assert (F := grid_floor x t X G).
    assert (B := rne_code_bounds (Qcode (x / pow2 t))).
    rewrite Qcode_div4 in B. lia.
Qed.

End RoundingCore.

(** ** The grid, and rounded mantissas *)

Section GridFacts.
Local Open Scope Z_scope.

Lemma grid_mono x1 x2 t1 t2 :
  (x1 <= x2)%Q -> grid x1 t1 -> grid x2 t2 -> t1 <= t2.
Proof.
  intros Hx (A1 & A2 & A3) (B1 & B2 & B3).
  destruct (Z_le_gt_dec t1 t2) as [|Hgt]; [assumption|exfalso].
  assert (L := A3 ltac:(lia)).
  assert (pow2 (t2 + 53) <= pow2 (t1 + 52))%Q by (apply pow2_le; lia).
  lra.
Qed.

Lemma grid_unique x t1 t2 : grid x t1 -> grid x t2 -> t1 = t2.
Proof.
  intros G1 G2.
  assert (t1 <= t2) by (apply (grid_mono x x); [lra|assumption..]).
  assert (t2 <= t1) by (apply (grid_mono x x); [lra|assumption..]).
  lia.
Qed.

Global Instance grid_comp : Proper (Qeq ==> eq ==> iff) grid.
Proof.
  intros x y E t t' <-. unfold grid. now rewrite E.
Qed.

Lemma rounds_to_unique s x y r1 r2 :
  (x == y)%Q -> rounds_to s x r1 -> rounds_to s y r2 -> r1 = r2.
Proof.
  intros E (t1 & G1 & ->) (t2 & G2 & ->).
  rewrite E in G1. rewrite (grid_unique _ _ _ G1 G2).
  now rewrite E.
Qed.

Lemma rounds_to_comp s x y r : (x == y)%Q -> rounds_to s x r -> rounds_to s y r.
Proof.
  intros E (t & G & ->). exists t. rewrite <- E. auto.
Qed.

(** The rounded mantissa, and what the grid says about it. *)
Lemma grid_mantissa x t :
  (0 <= x)%Q -> grid x t ->
  let n := rne_code (Qcode (x / pow2 t)) in
  0 <= n <= 2 ^ 53 /\ (-1074 < t -> 2 ^ 52 <= n).
Proof.
  intros Hx G n. assert (F := grid_floor x t Hx G).
  assert (B := rne_code_bounds (Qcode (x / pow2 t))).
  rewrite Qcode_div4 in B. fold n in B. split; [lia|].
  intros Ht. destruct G as (_ & _ & L). specialize (L Ht).
  assert (2 ^ 52 <= Qfloor (x / pow2 t)); [|lia].
  apply Qfloor_lb. rewrite <- pow2_Z by lia. apply Qdiv_pow2_le.
  exact L.
Qed.

Lemma SFleb_finite m1 e1 m2 e2 :
  SFleb (S754_finite false m1 e1) (S754_finite false m2 e2) = true <->
  e1 < e2 \/ (e1 = e2 /\ (m1 <= m2)%positive).
Proof.
  unfold SFleb, SFcompare.
  destruct (Z.compare_spec e1 e2) as [E|E|E].
  - fold (Pos.compare m1 m2). unfold Pos.le.
    destruct (m1 ?= m2)%positive; split; intros H; try discriminate; try lia; auto;
      try (right; split; [assumption|discriminate]);
      destruct H as [H|[_ H]]; try lia; now elim H.
  - split; [intros _; now left|reflexivity].
  - split; [discriminate|lia].
Qed.

Lemma finish_shape s n t :
  0 <= n ->
  finish s n t = S754_zero s \/ finish s n t = S754_infinity s \/
  exists m e, finish s n t = S754_finite s m e.
Proof.
  intros Hn. unfold finish. destruct n as [|p|p]; [now left| |lia].
  right. destruct (Z.pos p =? 2 ^ 53).
  - destruct (t + 1 <=? 971); [right; eauto|now left].
  - destruct (t <=? 971); [right; eauto|now left].
Qed.

Lemma finish_mono n1 t1 n2 t2 :
  0 <= n1 <= 2 ^ 53 -> 0 <= n2 <= 2 ^ 53 ->
  (t1 < t2 /\ 2 ^ 52 <= n2) \/ (t1 = t2 /\ n1 <= n2) ->
  SFleb (finish false n1 t1) (finish false n2 t2) = true.
Proof.
  unfold finish.
  change (2 ^ 52) with (Z.pos (2 ^ 52)).
  assert (HXY : Z.pos (2 ^ 52) < 2 ^ 53) by reflexivity.
  generalize dependent ((2 ^ 52)%positive). generalize dependent (2 ^ 53).
  intros X Y HXY H1 H2 H.
  destruct n1 as [|p1|p1]; [| |lia].
  - destruct n2 as [|p2|p2]; [reflexivity| |lia].
    destruct (Z.pos p2 =? _); [destruct (t2 + 1 <=? 971)|destruct (t2 <=? 971)];
      reflexivity.
  - destruct n2 as [|p2|p2]; [lia| |lia].
    destruct (Z.eqb_spec (Z.pos p1) X) as [E1|E1];
    destruct (Z.eqb_spec (Z.pos p2) X) as [E2|E2];
    repeat match goal with
    | |- context [?a <=? ?b] => destruct (Z.leb_spec a b)
    end; try reflexivity;
    destruct H as [[Ha Hb]|[Ha Hb]]; try (exfalso; lia);
    apply SFleb_finite;
    match goal with
    | |- ?a < ?b \/ _ =>
        destruct (Z_lt_le_dec a b); [left; assumption|right; split; lia]
    end.
Qed.

End GridFacts.

(** ** Rounding is monotone, well formed and exact on binary64 values *)

Section RoundingOrder.
Local Open Scope Z_scope.

Theorem rounds_to_mono x1 x2 r1 r2 :
  (0 <= x1)%Q -> (x1 <= x2)%Q ->
  rounds_to false x1 r1 -> rounds_to false x2 r2 ->
  SFleb r1 r2 = true.
Proof.
  intros H0 Hx (t1 & G1 & ->) (t2 & G2 & ->).
  assert (Ht := grid_mono _ _ _ _ Hx G1 G2).
  destruct (grid_mantissa x1 t1 H0 G1) as [A1 A2].
  destruct (grid_mantissa x2 t2 ltac:(lra) G2) as [B1 B2].
  apply finish_mono; [assumption..|].
  destruct (Z.eq_dec t1 t2) as [<-|NE].
  - right. split; [reflexivity|].
    apply rne_code_mono, Qcode_mono.
    assert (P := pow2_pos t1).
    apply Qmult_le_compat_r; [exact Hx|].
    apply Qlt_le_weak, Qinv_lt_0_compat, P.
  - left. split; [lia|]. apply B2. destruct G1. lia.
Qed.

(** The result of a rounding is a binary64 value of the sign asked for. *)
Lemma finish_valid s n t :
  -1074 <= t -> 0 <= n <= 2 ^ 53 -> (-1074 < t -> 2 ^ 52 <= n) ->
  valid_binary prec emax (finish s n t) = true.
Proof.
  intros Ht Hn Hbig. unfold finish.
  destruct n as [|p|p]; [reflexivity| |lia].
  destruct (Z.eqb_spec (Z.pos p) (2 ^ 53)) as [E|NE].
  - destruct (Z.leb_spec (t + 1) 971); [|reflexivity].
    cbn [valid_binary]. unfold bounded, canonical_mantissa.
    change (fexp prec emax) with fexp64. change (emax - prec) with 971.
    change (Z.pos (digits2_pos (2 ^ 52))) with 53. unfold fexp64.
    apply andb_true_intro; split; [apply Z.eqb_eq|apply Z.leb_le]; lia.
  - destruct (Z.leb_spec t 971); [|reflexivity].
    cbn [valid_binary]. unfold bounded, canonical_mantissa.
    change (fexp prec emax) with fexp64. change (emax - prec) with 971.
    assert (D : Zdigits2 (Z.pos p) <= 53) by (apply Zdigits2_le; lia).
    cbn [Zdigits2] in D.
    apply andb_true_intro; split; [apply Z.eqb_eq|apply Z.leb_le; lia].
    unfold fexp64. destruct (Z.eq_dec t (-1074)) as [->|NT]; [lia|].
    assert (53 <= Zdigits2 (Z.pos p)) by (apply (Zdigits2_ge _ 52); lia).
    cbn [Zdigits2] in H0. lia.
Qed.

Lemma rounds_to_valid s x r :
  (0 <= x)%Q -> rounds_to s x r -> valid_binary prec emax r = true.
Proof.
  intros Hx (t & G & ->).
  destruct (grid_mantissa x t Hx G) as [A B].
  apply finish_valid; [destruct G|..]; assumption.
Qed.

Lemma rounds_to_shape s x r :
  (0 <= x)%Q -> rounds_to s x r ->
  r = S754_zero s \/ r = S754_infinity s \/ exists m e, r = S754_finite s m e.
Proof.
  intros Hx (t & G & ->).
  destruct (grid_mantissa x t Hx G) as [A B].
  apply finish_shape. lia.
Qed.

(** A value of at least the smallest positive binary64 does not round to
    zero. *)
Lemma rounds_to_nonzero s x r :
  (pow2 (-1074) <= x)%Q -> rounds_to s x r -> is_zero r = false.
Proof.
  intros Hx (t & G & ->).
  assert (P := pow2_pos (-1074)).
  destruct (grid_mantissa x t ltac:(lra) G) as [A B].
  assert (1 <= rne_code (Qcode (x / pow2 t))).
  { destruct (Z.eq_dec t (-1074)) as [->|NE].
    - assert (F := rne_code_bounds (Qcode (x / pow2 (-1074)))).
      rewrite Qcode_div4 in F.
      assert (1 <= Qfloor (x / pow2 (-1074))); [|lia].
      apply Qfloor_lb. change (inject_Z 1) with 1%Q.
      apply Qle_shift_div_l; [exact P|]. lra.
    - destruct G. assert (0 < 2 ^ 52) by reflexivity. specialize (B ltac:(lia)). lia. }
  unfold finish. destruct (rne_code _) as [|p|p]; [lia| |lia].
  destruct (Z.pos p =? 2 ^ 53); [destruct (t + 1 <=? 971)|destruct (t <=? 971)];
    reflexivity.
Qed.

(** Rounding the value of a binary64 number gives the number back. *)
Lemma bounded_grid m e :
  bounded prec emax m e = true ->
  -1074 <= e <= 971 /\ Z.pos m < 2 ^ 53 /\ (-1074 < e -> 2 ^ 52 <= Z.pos m).
Proof.
  unfold bounded, canonical_mantissa. intros H.
  apply andb_prop in H. destruct H as [H1 H2].
  apply Z.eqb_eq in H1. apply Z.leb_le in H2.
  change (fexp prec emax) with fexp64 in H1. change (emax - prec) with 971 in H2.
  unfold fexp64 in H1.
  destruct (digits_bounds m) as [D1 D2].
  set (d := Z.pos (digits2_pos m)) in *.
  assert (0 < d) by (unfold d; lia).
  split; [lia|]. split.
  - assert (d <= 53) by lia.
    assert (2 ^ d <= 2 ^ 53) by (apply Z.pow_le_mono_r; lia). lia.
  - intros He. assert (d = 53) by lia.
    replace (d - 1) with 52 in D1 by lia. exact D1.
Qed.

Lemma Qval_pos m e : (0 < Qval m e)%Q.
Proof.
  unfold Qval. apply Qmult_lt_0_compat; [|apply pow2_pos].
  change 0%Q with (inject_Z 0). rewrite <- Zlt_Qlt. lia.
Qed.

Lemma Qval_grid m e : bounded prec emax m e = true -> grid (Qval m e) e.
Proof.
  intros H. destruct (bounded_grid m e H) as (He & Hm & Hbig).
  assert (P := pow2_pos e). unfold grid, Qval.
  split; [lia|]. split.
  - rewrite Z.add_comm, pow2_add. apply Qmult_lt_compat_r; [exact P|].
    rewrite pow2_Z by lia. rewrite <- Zlt_Qlt. exact Hm.
  - intros Hb. rewrite Z.add_comm, pow2_add. apply Qmult_le_compat_r; [|lra].
    rewrite pow2_Z by lia. rewrite <- Zle_Qle. auto.
Qed.

Theorem rounds_to_exact s m e :
  bounded prec emax m e = true ->
  rounds_to s (Qval m e) (S754_finite s m e).
Proof.
  intros H. exists e. split; [now apply Qval_grid|].
  destruct (bounded_grid m e H) as (He & Hm & Hbig).
  assert (E : (Qval m e / pow2 e == inject_Z (Z.pos m))%Q).
  { unfold Qval. assert (P := pow2_pos e). field. lra. }
  rewrite E, Qcode_Z, rne_code_exact. unfold finish.
  destruct (Z.eqb_spec (Z.pos m) (2 ^ 53)); [lia|].
  destruct (Z.leb_spec e 971); [reflexivity|lia].
Qed.

End RoundingOrder.

(** ** Normalisation and multiplication *)

Section RoundMultiplication.
Local Open Scope Z_scope.

Lemma iter_xO_Z m d : Z.pos (Pos.iter xO m d) = Z.pos m * 2 ^ Z.pos d.
Proof.
  change (Pos.iter xO m d) with (shift_pos d m).
  rewrite shift_pos_correct, Zpower_pos_nat, Zpower_nat_Z, positive_nat_Z. lia.
Qed.

Lemma iter_xO_digits m d :
  Z.pos (digits2_pos (Pos.iter xO m d)) = Z.pos (digits2_pos m) + Z.pos d.
Proof.
  induction d using Pos.peano_ind.
  - simpl. lia.
  - rewrite Pos.iter_succ. cbn [digits2_pos]. lia.
Qed.

Lemma Qval_shift m e d :
  (Qval (Pos.iter xO m d) (e - Z.pos d) == Qval m e)%Q.
Proof.
  unfold Qval. rewrite iter_xO_Z, inject_Z_mult, <- pow2_Z by lia.
  rewrite <- Qmult_assoc, <- pow2_add.
  replace (Z.pos d + (e - Z.pos d)) with e by lia. reflexivity.
Qed.

Lemma Qcode_Qval m e : Qcode (Qval m e / pow2 e) = code_of (Z.pos m) loc_Exact.
Proof.
  assert (E : (Qval m e / pow2 e == inject_Z (Z.pos m))%Q).
  { unfold Qval. assert (P := pow2_pos e). field. lra. }
  rewrite E, Qcode_Z. unfold code_of. simpl. lia.
Qed.

(** Every shift amount of [shl_align] leaves the value unchanged. *)
Lemma shl_align_sem m e e' :
  let '(mz, ez) := shl_align m e e' in
  (Qval mz ez == Qval m e)%Q /\ ez = Z.min e e' /\
  Z.pos (digits2_pos mz) + ez = Z.pos (digits2_pos m) + e /\
  Z.pos mz = Z.pos m * 2 ^ (e - ez).
Proof.
  unfold shl_align. destruct (e' - e) as [|d|d] eqn:E.
  - split; [reflexivity|]. split; [lia|]. split; [reflexivity|].
    rewrite Z.sub_diag. simpl. lia.
  - split; [reflexivity|]. split; [lia|]. split; [reflexivity|].
    rewrite Z.sub_diag. simpl. lia.
  - assert (e' = e - Z.pos d) by lia. subst e'. split; [apply Qval_shift|].
    split; [lia|]. split; [rewrite iter_xO_digits; lia|].
    rewrite iter_xO_Z. f_equal. f_equal. lia.
Qed.

Theorem binary_round_sem s m e :
  rounds_to s (Qval m e) (binary_round prec emax s m e).
Proof.
  unfold binary_round. change (fexp prec emax) with fexp64.
  assert (H := shl_align_sem m e (fexp64 (Z.pos (digits2_pos m) + e))).
  destruct (shl_align m e _) as [mz ez]. destruct H as (V & Ez & D & _).
  apply (rounds_to_comp _ _ _ _ V).
  apply bra_sem; [lia|apply Qcode_Qval|].
  cbn [Zdigits2]. rewrite D, Ez. lia.
Qed.

(** Multiplication of two positive binary64 values. *)
Theorem mul_sem sx mx ex sy my ey :
  bounded prec emax mx ex = true -> bounded prec emax my ey = true ->
  rounds_to (xorb sx sy) (Qval mx ex * Qval my ey)
    (fmul (S754_finite sx mx ex) (S754_finite sy my ey)).
Proof.
  intros Bx By. unfold fmul, SFmul.
  assert (V : (Qval (mx * my) (ex + ey) == Qval mx ex * Qval my ey)%Q).
  { unfold Qval. rewrite Pos2Z.inj_mul, inject_Z_mult, pow2_add. ring. }
  apply (rounds_to_comp _ _ _ _ V).
  apply bra_sem; [lia|apply Qcode_Qval|].
  destruct (bounded_grid _ _ Bx) as (Ex & Mx & Nx).
  destruct (bounded_grid _ _ By) as (Ey & My & Ny).
  assert (D : Zdigits2 (Z.pos mx) + Zdigits2 (Z.pos my) - 1 <= Zdigits2 (Z.pos (mx * my))).
  { destruct (Zdigits2_bounds (Z.pos mx) ltac:(lia)) as [A1 _].
    destruct (Zdigits2_bounds (Z.pos my) ltac:(lia)) as [B1 _].
    assert (Px := Zdigits2_pos (Z.pos mx) ltac:(lia)).
    assert (Py := Zdigits2_pos (Z.pos my) ltac:(lia)).
    set (dx := Zdigits2 (Z.pos mx)) in *. set (dy := Zdigits2 (Z.pos my)) in *.
    assert (2 ^ (dx + dy - 2) <= Z.pos (mx * my)).
    { replace (dx + dy - 2) with ((dx - 1) + (dy - 1)) by lia.
      rewrite Z.pow_add_r by lia. rewrite Pos2Z.inj_mul.
      apply Z.mul_le_mono_nonneg; try lia; apply Z.pow_nonneg; lia. }
    assert (dx + dy - 2 + 1 <= Zdigits2 (Z.pos (mx * my)))
      by (apply Zdigits2_ge; lia). lia. }
  assert (Hx : Zdigits2 (Z.pos mx) = 53 \/ ex = -1074).
  { destruct (Z.eq_dec ex (-1074)); [now right|left].
    assert (53 <= Zdigits2 (Z.pos mx)) by (apply (Zdigits2_ge _ 52); lia).
    assert (Zdigits2 (Z.pos mx) <= 53) by (apply Zdigits2_le; lia). lia. }
  assert (Hy : Zdigits2 (Z.pos my) = 53 \/ ey = -1074).
  { destruct (Z.eq_dec ey (-1074)); [now right|left].
    assert (53 <= Zdigits2 (Z.pos my)) by (apply (Zdigits2_ge _ 52); lia).
    assert (Zdigits2 (Z.pos my) <= 53) by (apply Zdigits2_le; lia). lia. }
  assert (Px := Zdigits2_pos (Z.pos mx) ltac:(lia)).
  assert (Py := Zdigits2_pos (Z.pos my) ltac:(lia)).
  unfold fexp64. clear -D Hx Hy Px Py Ex Ey. lia.
Qed.

End RoundMultiplication.

(** ** The location a division computes *)

Section DivisionLocation.
Local Open Scope Z_scope.

Lemma binary_normalize_sem z e :
  match z with
  | Z0 => binary_normalize prec emax z e false = S754_zero false
  | Z.pos m => rounds_to false (Qval m e) (binary_normalize prec emax z e false)
  | Z.neg m => rounds_to true (Qval m e) (binary_normalize prec emax z e false)
  end.
Proof. destruct z; [reflexivity|apply binary_round_sem..]. Qed.

(** The aligned mantissa of a value at a lower exponent. *)
Lemma aligned_val m e ez :
  ez <= e ->
  (inject_Z (Z.pos (fst (shl_align m e ez))) * pow2 ez == Qval m e)%Q.
Proof.
  intros H. assert (S := shl_align_sem m e ez).
  destruct (shl_align m e ez) as [mz ez']. destruct S as (V & E & _).
  cbn [fst]. replace ez' with ez in V by lia. exact V.
Qed.

Lemma new_location_bits D r :
  0 < D -> 0 <= r < D ->
  loc_bits (new_location D r) =
  if r =? 0 then 0
  else match 2 * r ?= D with Lt => 1 | Eq => 2 | Gt => 3 end.
Proof.
  intros HD Hr. unfold new_location, new_location_even, new_location_odd.
  destruct (Z.even D) eqn:Ev; destruct (Z.eqb_spec r 0); try reflexivity.
  destruct (Z.compare_spec (2 * r + 1) D), (Z.compare_spec (2 * r) D);
    try reflexivity; try lia.
  subst D. rewrite <- Z.negb_odd in Ev.
  replace (2 * r) with (0 + 2 * r) in Ev by lia.
  rewrite Z.odd_add_mul_2 in Ev. discriminate.
Qed.

Lemma Qcode_frac N D :
  0 <= N -> 0 < D ->
  Qcode (inject_Z N / inject_Z D) = code_of (N / D) (new_location D (N mod D)).
Proof.
  intros HN HD.
  assert (Hdm := Z.div_mod N D ltac:(lia)).
  assert (Hr := Z.mod_pos_bound N D HD).
  set (n := N / D) in *. set (r := N mod D) in *. clearbody n r.
  unfold code_of. rewrite new_location_bits by assumption.
  assert (PD : (0 < inject_Z D)%Q) by (change 0%Q with (inject_Z 0); now rewrite <- Zlt_Qlt).
  set (x := (inject_Z N / inject_Z D)%Q).
  assert (Ex : (x * inject_Z D == inject_Z n * inject_Z D + inject_Z r)%Q).
  { unfold x. rewrite Hdm at 1. rewrite inject_Z_plus, inject_Z_mult. field. lra. }
  assert (R0 : (0 <= inject_Z r)%Q) by (change 0%Q with (inject_Z 0); rewrite <- Zle_Qle; lia).
  assert (R1 : (inject_Z r < inject_Z D)%Q) by (rewrite <- Zlt_Qlt; lia).
  assert (Fx : Qfloor x = n).
  { apply Qfloor_unique.
    - apply (Qmult_le_r _ _ (inject_Z D)); [exact PD|]. lra.
    - apply (Qmult_lt_r _ _ (inject_Z D)); [exact PD|]. lra. }
  assert (Hpos : forall c : Q, (x < inject_Z n + c <-> inject_Z r < c * inject_Z D)%Q).
  { intros c. split; intros H.
    - apply (Qmult_lt_r _ _ (inject_Z D)) in H; [|exact PD]. lra.
    - apply (Qmult_lt_r _ _ (inject_Z D)); [exact PD|]. lra. }
  assert (Hpos' : forall c : Q, (inject_Z n + c < x <-> c * inject_Z D < inject_Z r)%Q).
  { intros c. split; intros H.
    - apply (Qmult_lt_r _ _ (inject_Z D)) in H; [|exact PD]. lra.
    - apply (Qmult_lt_r _ _ (inject_Z D)); [exact PD|]. lra. }
  assert (T : (inject_Z (2 * r) == 2 * inject_Z r)%Q).
  { rewrite inject_Z_mult. change (inject_Z 2) with 2%Q. reflexivity. }
  destruct (Qcode_cases x) as [[A EA]|[[A [A' EA]]|[[A EA]|[A [A' EA]]]]];
    rewrite Fx in *; rewrite EA.
  - assert (r = 0).
    { apply inject_Z_injective. change (inject_Z 0) with 0%Q. rewrite A in Ex. lra. }
    subst r. simpl. lia.
  - assert (r <> 0).
    { intros E. rewrite E in *.
      assert (inject_Z n + 0 < x)%Q by lra. apply Hpos' in H. 
      change (inject_Z 0) with 0%Q in H. lra. }
    destruct (Z.eqb_spec r 0); [contradiction|].
    apply Hpos in A'.
    assert (2 * r < D).
    { rewrite Zlt_Qlt, T. lra. }
    destruct (Z.compare_spec (2 * r) D); lia.
  - assert (2 * r = D).
    { apply inject_Z_injective. rewrite T. rewrite A in Ex. lra. }
    destruct (Z.eqb_spec r 0); [lia|].
    destruct (Z.compare_spec (2 * r) D); lia.
  - apply Hpos' in A.
    assert (D < 2 * r).
    { rewrite Zlt_Qlt, T. lra. }
    destruct (Z.eqb_spec r 0); [lia|].
    destruct (Z.compare_spec (2 * r) D); lia.
Qed.

End DivisionLocation.

(** ** Division *)

Section RoundDivision.
Local Open Scope Z_scope.

Lemma div_core_shift m s :
  0 <= s ->
  match s with
  | Z.pos _ => Z.shiftl m s
  | Z0 => m
  | Z.neg _ => 0
  end = m * 2 ^ s.
Proof.
  intros Hs. destruct s as [|p|p]; [simpl; lia| |lia].
  apply Z.shiftl_mul_pow2. lia.
Qed.

Theorem div_sem sx mx ex sy my ey :
  rounds_to (xorb sx sy) (Qval mx ex / Qval my ey)
    (fdiv (S754_finite sx mx ex) (S754_finite sy my ey)).
Proof.
  unfold fdiv, SFdiv, SFdiv_core_binary.
  change (fexp prec emax) with fexp64.
  set (d1 := Zdigits2 (Z.pos mx)). set (d2 := Zdigits2 (Z.pos my)).
  set (e' := Z.min (fexp64 (d1 + ex - (d2 + ey))) (ex - ey)).
  set (s := ex - ey - e').
  assert (Hs : 0 <= s) by (unfold s, e'; lia).
  rewrite (div_core_shift (Z.pos mx) s Hs).
  set (m' := Z.pos mx * 2 ^ s).
  assert (P2 : 0 < 2 ^ s) by (apply Z.pow_pos_nonneg; lia).
  assert (Hm' : 0 < m') by (unfold m'; lia).
  unfold Z.div_eucl at 1. fold (Z.div_eucl m' (Z.pos my)).
  assert (Hq : Z.div_eucl m' (Z.pos my) = (m' / Z.pos my, m' mod Z.pos my))
    by (unfold Z.div, Z.modulo; destruct (Z.div_eucl m' (Z.pos my)); reflexivity).
  rewrite Hq.
  apply bra_sem.
  - apply Z.div_pos; lia.
  - rewrite <- Qcode_frac by lia. apply Qcode_comp.
    unfold Qval, m'. rewrite inject_Z_mult, <- pow2_Z by lia.
    assert (E : (pow2 ex == pow2 s * pow2 ey * pow2 e')%Q).
    { rewrite <- !pow2_add. unfold s. replace (ex - ey - e' + ey + e') with ex by lia.
      reflexivity. }
    assert (Pa := pow2_pos ey). assert (Pb := pow2_pos e').
    assert (Pm : (0 < inject_Z (Z.pos my))%Q)
      by (change 0%Q with (inject_Z 0); rewrite <- Zlt_Qlt; lia).
    rewrite E. field. repeat split; lra.
  - destruct (Z_le_gt_dec e' (-1074)) as [Hle|Hgt]; [unfold fexp64; lia|].
    assert (He' : e' <= d1 + ex - d2 - ey - 53) by (unfold e', fexp64 in *; lia).
    destruct (Zdigits2_bounds (Z.pos mx) ltac:(lia)) as [A1 _].
    destruct (Zdigits2_bounds (Z.pos my) ltac:(lia)) as [_ B2].
    assert (D1 := Zdigits2_pos (Z.pos mx) ltac:(lia)).
    assert (D2 := Zdigits2_pos (Z.pos my) ltac:(lia)).
    fold d1 in A1, D1. fold d2 in B2, D2.
    set (k := d1 - 1 + s - d2).
    assert (Hk : 52 <= k) by (unfold k, s; lia).
    assert (2 ^ k <= m' / Z.pos my).
    { apply Z.div_le_lower_bound; [lia|].
      assert (2 ^ (d1 - 1 + s) <= m').
      { unfold m'. rewrite Z.pow_add_r by lia. apply Z.mul_le_mono_nonneg_r; lia. }
      assert (2 ^ (d1 - 1 + s) = 2 ^ d2 * 2 ^ k).
      { rewrite <- Z.pow_add_r by lia. f_equal. unfold k. lia. }
      assert (0 < 2 ^ k) by (apply Z.pow_pos_nonneg; lia).
      assert (Z.pos my * 2 ^ k <= 2 ^ d2 * 2 ^ k) by (apply Z.mul_le_mono_nonneg_r; lia).
      lia. }
    assert (k + 1 <= Zdigits2 (m' / Z.pos my)) by (apply Zdigits2_ge; lia).
    unfold fexp64. unfold k, s in *. lia.
Qed.

End RoundDivision.

Section CompareValues.
Local Open Scope Z_scope.

(** ** The order on binary64 values and the order on their values *)

Lemma SFleb_finite_antisym m1 e1 m2 e2 :
  SFleb (S754_finite false m1 e1) (S754_finite false m2 e2) = true ->
  SFleb (S754_finite false m2 e2) (S754_finite false m1 e1) = true ->
  m1 = m2 /\ e1 = e2.
Proof.
  intros H1 H2. apply SFleb_finite in H1. apply SFleb_finite in H2.
  destruct H1 as [H1|[H1 H1']]; destruct H2 as [H2|[H2 H2']]; try lia.
Qed.

Lemma Qval_le_leb m1 e1 m2 e2 :
  bounded prec emax m1 e1 = true -> bounded prec emax m2 e2 = true ->
  (Qval m1 e1 <= Qval m2 e2)%Q ->
  SFleb (S754_finite false m1 e1) (S754_finite false m2 e2) = true.
Proof.
  intros B1 B2 H.
  apply (rounds_to_mono (Qval m1 e1) (Qval m2 e2)).
  - apply Qlt_le_weak, Qval_pos.
  - exact H.
  - now apply rounds_to_exact.
  - now apply rounds_to_exact.
Qed.

Lemma leb_Qval_le m1 e1 m2 e2 :
  bounded prec emax m1 e1 = true -> bounded prec emax m2 e2 = true ->
  SFleb (S754_finite false m1 e1) (S754_finite false m2 e2) = true ->
  (Qval m1 e1 <= Qval m2 e2)%Q.
Proof.
  intros B1 B2 H.
  destruct (Qlt_le_dec (Qval m2 e2) (Qval m1 e1)) as [Hlt|Hle]; [|exact Hle].
  assert (H' := Qval_le_leb _ _ _ _ B2 B1 (Qlt_le_weak _ _ Hlt)).
  destruct (SFleb_finite_antisym _ _ _ _ H H') as [-> ->].
  apply Qle_refl.
Qed.

Lemma SFcompare_finite_swap m1 e1 m2 e2 :
  SFcompare (S754_finite false m2 e2) (S754_finite false m1 e1) =
  option_map CompOpp (SFcompare (S754_finite false m1 e1) (S754_finite false m2 e2)).
Proof.
  cbn [SFcompare option_map]. f_equal.
  rewrite (Z.compare_antisym e2 e1).
  destruct (e2 ?= e1); cbn [CompOpp]; try reflexivity.
  change (Pos.compare_cont Eq m2 m1) with (Pos.compare m2 m1).
  change (Pos.compare_cont Eq m1 m2) with (Pos.compare m1 m2).
  apply Pos.compare_antisym.
Qed.

Lemma ltb_Qval_lt m1 e1 m2 e2 :
  bounded prec emax m1 e1 = true -> bounded prec emax m2 e2 = true ->
  (SFltb (S754_finite false m1 e1) (S754_finite false m2 e2) = true <->
   (Qval m1 e1 < Qval m2 e2)%Q).
Proof.
  intros B1 B2.
  assert (S := SFcompare_finite_swap m1 e1 m2 e2).
  assert (L1 := leb_Qval_le _ _ _ _ B2 B1).
  assert (L2 := Qval_le_leb _ _ _ _ B2 B1).
  unfold SFltb, SFleb in *.
  destruct (SFcompare (S754_finite false m1 e1) (S754_finite false m2 e2)) as [[]|] eqn:E;
    rewrite S in L1, L2; cbn [option_map CompOpp] in L1, L2.
  - split; [discriminate|]. intros H. specialize (L1 eq_refl). lra.
  - split; [intros _|reflexivity].
    destruct (Qlt_le_dec (Qval m1 e1) (Qval m2 e2)) as [Hlt|Hle]; [exact Hlt|].
    specialize (L2 Hle). discriminate.
  - split; [discriminate|]. intros H. specialize (L1 eq_refl). lra.
  - cbn [SFcompare] in E. discriminate.
Qed.

End CompareValues.

Section NonNegative.
Local Open Scope Z_scope.

(** ** Non-negative numbers and their extended values *)

Lemma posfin_nonneg c : posfin c = true -> nonneg c = true.
Proof. destruct c as [| | |[]]; cbn; intros H; try discriminate H; auto. Qed.

Lemma nonneg_well_formed x : nonneg x = true -> well_formed x = true.
Proof. intros H. nonneg_cases x; try reflexivity. exact B. Qed.

Lemma xrounds_self a : nonneg a = true -> xrounds (xval a) a.
Proof.
  intros H. nonneg_cases a; cbn [xval xrounds].
  - left. split; reflexivity.
  - reflexivity.
  - right. split; [apply Qval_pos|now apply rounds_to_exact].
Qed.

Lemma xrounds_nonneg v r : xrounds v r -> nonneg r = true.
Proof.
  destruct v as [q|]; cbn [xrounds].
  - intros [[_ Z]|[P R]].
    + destruct r; try discriminate; reflexivity.
    + assert (V := rounds_to_valid _ _ _ (Qlt_le_weak _ _ P) R).
      destruct (rounds_to_shape _ _ _ (Qlt_le_weak _ _ P) R) as [->|[->|(m & e & ->)]];
        try reflexivity. exact V.
  - intros ->. reflexivity.
Qed.

Lemma leb_zero_l r1 r2 : is_zero r1 = true -> nonneg r2 = true -> fleb r1 r2 = true.
Proof.
  intros Z H. destruct r1; try discriminate. nonneg_cases r2; reflexivity.
Qed.

Lemma leb_inf_r r : nonneg r = true -> fleb r pos_infinity = true.
Proof. intros H. nonneg_cases r; reflexivity. Qed.

Theorem xrounds_mono u v r1 r2 :
  xrounds u r1 -> xrounds v r2 -> xle u v -> fleb r1 r2 = true.
Proof.
  intros H1 H2 L.
  assert (N1 := xrounds_nonneg _ _ H1). assert (N2 := xrounds_nonneg _ _ H2).
  destruct u as [p|], v as [q|]; cbn [xrounds xle] in *.
  - destruct H1 as [[E1 Z1]|[P1 R1]].
    + now apply leb_zero_l.
    + destruct H2 as [[E2 Z2]|[P2 R2]]; [exfalso; lra|].
      apply (rounds_to_mono p q); try assumption. lra.
  - subst r2. now apply leb_inf_r.
  - contradiction.
  - subst. reflexivity.
Qed.

Lemma leb_xle a b :
  nonneg a = true -> nonneg b = true -> fleb a b = true -> xle (xval a) (xval b).
Proof.
  intros Ha Hb L. nonneg_cases a; nonneg_cases b; cbn [xval xle]; try exact I;
    try discriminate L; try apply Qle_refl.
  - apply Qlt_le_weak, Qval_pos.
  - now apply leb_Qval_le.
Qed.

Lemma xle_leb a b :
  nonneg a = true -> nonneg b = true -> xle (xval a) (xval b) -> fleb a b = true.
Proof.
  intros Ha Hb L.
  apply (xrounds_mono (xval a) (xval b)); auto using xrounds_self.
Qed.

Lemma xle_refl u : xle u u.
Proof. destruct u; cbn; [apply Qle_refl|exact I]. Qed.

Lemma xle_trans u v w : xle u v -> xle v w -> xle u w.
Proof.
  destruct u, v, w; cbn; intros; try contradiction; try exact I.
  eapply Qle_trans; eauto.
Qed.

Lemma xle_total u v : xle u v \/ xle v u.
Proof.
  destruct u as [p|], v as [q|]; cbn; auto.
  destruct (Qlt_le_dec p q); [left; now apply Qlt_le_weak|now right].
Qed.

Lemma leb_refl a : nonneg a = true -> fleb a a = true.
Proof. intros H. apply xle_leb; auto using xle_refl. Qed.

Lemma leb_trans a b c :
  nonneg a = true -> nonneg b = true -> nonneg c = true ->
  fleb a b = true -> fleb b c = true -> fleb a c = true.
Proof.
  intros Ha Hb Hc L1 L2. apply xle_leb; auto.
  eapply xle_trans; eauto using leb_xle.
Qed.

Lemma leb_total a b :
  nonneg a = true -> nonneg b = true -> fleb a b = true \/ fleb b a = true.
Proof.
  intros Ha Hb. destruct (xle_total (xval a) (xval b)); [left|right]; now apply xle_leb.
Qed.

End NonNegative.

(** ** Addition and Math.round *)

Section RoundAddition.
Local Open Scope Z_scope.

Theorem add_sem mx ex my ey :
  rounds_to false (Qval mx ex + Qval my ey)
    (fadd (S754_finite false mx ex) (S754_finite false my ey)).
Proof.
  unfold fadd, SFadd. cbn [cond_Zopp].
  set (ez := Z.min ex ey).
  assert (Ax := aligned_val mx ex ez ltac:(unfold ez; lia)).
  assert (Ay := aligned_val my ey ez ltac:(unfold ez; lia)).
  set (a := fst (shl_align mx ex ez)) in *. set (b := fst (shl_align my ey ez)) in *.
  change (Z.pos a + Z.pos b) with (Z.pos (a + b)).
  assert (S := binary_normalize_sem (Z.pos (a + b)) ez). cbn beta iota in S.
  apply (rounds_to_comp _ (Qval (a + b) ez)); [|exact S].
  unfold Qval at 1. rewrite Pos2Z.inj_add, inject_Z_plus. rewrite <- Ax, <- Ay. ring.
Qed.

Lemma Qval_nonneg_exp m e : 0 <= e -> (Qval m e == inject_Z (Z.pos m * 2 ^ e))%Q.
Proof. intros H. unfold Qval. rewrite inject_Z_mult, pow2_Z by lia. reflexivity. Qed.

Lemma Qval_Z p : (Qval p 0 == inject_Z (Z.pos p))%Q.
Proof. unfold Qval. rewrite pow2_0. ring. Qed.

Lemma of_Z_sem p : rounds_to false (inject_Z (Z.pos p)) (of_Z (Z.pos p)).
Proof.
  apply (rounds_to_comp _ (Qval p 0)); [apply Qval_Z|].
  apply (binary_normalize_sem (Z.pos p) 0).
Qed.

(** [Math.round] on a positive number: the floor of the value plus one half. *)
Theorem Math_round_sem m e :
  bounded prec emax m e = true ->
  let n := Qfloor (Qval m e + (1#2)) in
  (n = 0 /\ Math_round (S754_finite false m e) = S754_zero false) \/
  (0 < n /\ rounds_to false (inject_Z n) (Math_round (S754_finite false m e))).
Proof.
  intros B n. unfold Math_round.
  destruct (Z.leb_spec 0 e) as [He|He].
  - right.
    assert (P : 0 < 2 ^ e) by (apply Z.pow_pos_nonneg; lia).
    assert (En : n = Z.pos m * 2 ^ e).
    { unfold n. apply Qfloor_unique; rewrite Qval_nonneg_exp by lia; lra. }
    split; [lia|]. rewrite En.
    apply (rounds_to_comp _ (Qval m e)); [now apply Qval_nonneg_exp|].
    now apply rounds_to_exact.
  - set (k := - e). assert (Hk : 0 < k) by (unfold k; lia).
    assert (P : 0 < 2 ^ k) by (apply Z.pow_pos_nonneg; lia).
    rewrite Z.shiftr_div_pow2 by lia.
    assert (En : (Z.pos m + 2 ^ (k - 1)) / 2 ^ k = n).
    { rewrite Zdiv_Qdiv. unfold n. apply Qfloor_comp.
      unfold Qval. rewrite inject_Z_plus, <- !pow2_Z by lia.
      assert (Pk0 := pow2_pos k).
      assert (E1 : (pow2 e == / pow2 k)%Q).
      { assert (E := pow2_add e k). replace (e + k) with 0 in E by (unfold k; lia).
        rewrite pow2_0 in E. apply (Qmult_inj_r _ _ (pow2 k)); [lra|].
        rewrite <- E. field. lra. }
      assert (E2 : (pow2 (k - 1) == pow2 k * (1#2))%Q).
      { rewrite pow2_sub, pow2_1. field. }
      assert (Pk := pow2_pos k). rewrite E1, E2. field. lra. }
    rewrite En.
    assert (Hn : 0 <= n).
    { unfold n. apply Qfloor_lb. assert (V := Qval_pos m e).
      change (inject_Z 0) with 0%Q. lra. }
    destruct (Z.eqb_spec n 0) as [E0|NE]; [left; now split|right].
    split; [lia|]. destruct n as [|p|p]; [lia| |lia]. apply of_Z_sem.
Qed.

End RoundAddition.

(** ** The operations on non-negative numbers *)

Section Monotone.
Local Open Scope string_scope.
Local Open Scope Z_scope.

Lemma qval_pos c : posfin c = true -> (0 < qval c)%Q.
Proof. intros H. nonneg_cases c. apply Qval_pos. Qed.

Lemma xscale_mono q u v : (0 <= q)%Q -> xle u v -> xle (xscale q u) (xscale q v).
Proof.
  intros Hq. destruct u, v; cbn [xscale option_map xle]; auto.
  intros H. now apply Qmult_le_compat_r.
Qed.

Lemma xadd_mono u u' v v' : xle u u' -> xle v v' -> xle (xadd u v) (xadd u' v').
Proof.
  destruct u, u', v, v'; cbn [xadd xle]; auto; try contradiction. intros. lra.
Qed.

Lemma xround_mono u v : xle u v -> xle (xround u) (xround v).
Proof.
  destruct u, v; cbn [xround option_map xle]; auto. intros H. rewrite <- Zle_Qle.
  apply Qfloor_resp_le. lra.
Qed.

Lemma fmul_comm x y : fmul x y = fmul y x.
Proof.
  unfold fmul. destruct x as [sx|sx| |sx mx ex], y as [sy|sy| |sy my ey];
    cbn [SFmul]; try reflexivity; try (now rewrite xorb_comm).
  now rewrite xorb_comm, Pos.mul_comm, Z.add_comm.
Qed.

Theorem mul_x a c :
  nonneg a = true -> posfin c = true ->
  xrounds (xscale (qval c) (xval a)) (fmul a c).
Proof.
  intros Ha Hc. assert (Pc := qval_pos c Hc). nonneg_cases c. nonneg_cases a;
    cbn [xval xscale option_map xrounds qval] in *.
  - left. split; [ring|reflexivity].
  - reflexivity.
  - right. split.
    + apply Qmult_lt_0_compat; [apply Qval_pos|exact Pc].
    + now apply (mul_sem false _ _ false).
Qed.

Theorem div_x a c :
  nonneg a = true -> posfin c = true ->
  xrounds (xscale (/ qval c) (xval a)) (fdiv a c).
Proof.
  intros Ha Hc. assert (Pc := qval_pos c Hc). nonneg_cases c. nonneg_cases a;
    cbn [xval xscale option_map xrounds qval] in *.
  - left. split; [ring|reflexivity].
  - reflexivity.
  - right. split.
    + apply Qmult_lt_0_compat; [apply Qval_pos|now apply Qinv_lt_0_compat].
    + apply (div_sem false _ _ false).
Qed.

Theorem add_x a b :
  nonneg a = true -> nonneg b = true ->
  xrounds (xadd (xval a) (xval b)) (fadd a b).
Proof.
  intros Ha Hb. nonneg_cases a; nonneg_cases b; cbn [xval xadd xrounds];
    try reflexivity.
  - left. split; [ring|]. destruct s, s0; reflexivity.
  - right. split; [assert (P := Qval_pos m e); lra|].
    apply (rounds_to_comp _ (Qval m e)); [ring|]. now apply rounds_to_exact.
  - right. split; [assert (P := Qval_pos m e); lra|].
    apply (rounds_to_comp _ (Qval m e)); [ring|]. now apply rounds_to_exact.
  - right. split; [assert (P := Qval_pos m e); assert (P' := Qval_pos m0 e0); lra|].
    apply add_sem.
Qed.

Theorem round_x a :
  nonneg a = true -> xrounds (xround (xval a)) (Math_round a).
Proof.
  intros Ha. nonneg_cases a; cbn [xval xround option_map xrounds].
  - left. split; reflexivity.
  - reflexivity.
  - destruct (Math_round_sem m e B) as [[E0 R]|[P R]].
    + left. rewrite E0, R. split; reflexivity.
    + right. split; [|exact R]. change 0%Q with (inject_Z 0). now rewrite <- Zlt_Qlt.
Qed.

(** Monotonicity of the operations on non-negative numbers. *)
Lemma mul_mono a b c :
  nonneg a = true -> nonneg b = true -> posfin c = true ->
  fleb a b = true -> fleb (fmul a c) (fmul b c) = true.
Proof.
  intros Ha Hb Hc L.
  eapply xrounds_mono; [now apply mul_x|now apply mul_x|].
  apply xscale_mono; [apply Qlt_le_weak, qval_pos, Hc|now apply leb_xle].
Qed.

Lemma mul_nonneg a c : nonneg a = true -> posfin c = true -> nonneg (fmul a c) = true.
Proof. intros Ha Hc. eapply xrounds_nonneg. now apply mul_x. Qed.

Lemma div_mono a b c :
  nonneg a = true -> nonneg b = true -> posfin c = true ->
  fleb a b = true -> fleb (fdiv a c) (fdiv b c) = true.
Proof.
  intros Ha Hb Hc L.
  eapply xrounds_mono; [now apply div_x|now apply div_x|].
  apply xscale_mono; [|now apply leb_xle].
  apply Qlt_le_weak, Qinv_lt_0_compat, qval_pos, Hc.
Qed.

Lemma div_nonneg a c : nonneg a = true -> posfin c = true -> nonneg (fdiv a c) = true.
Proof. intros Ha Hc. eapply xrounds_nonneg. now apply div_x. Qed.

Lemma add_mono a a' b b' :
  nonneg a = true -> nonneg a' = true -> nonneg b = true -> nonneg b' = true ->
  fleb a a' = true -> fleb b b' = true -> fleb (fadd a b) (fadd a' b') = true.
Proof.
  intros Ha Ha' Hb Hb' L1 L2.
  eapply xrounds_mono; [now apply add_x|now apply add_x|].
  apply xadd_mono; now apply leb_xle.
Qed.

Lemma add_nonneg a b : nonneg a = true -> nonneg b = true -> nonneg (fadd a b) = true.
Proof. intros Ha Hb. eapply xrounds_nonneg. now apply add_x. Qed.

Lemma Math_round_mono a b :
  nonneg a = true -> nonneg b = true ->
  fleb a b = true -> fleb (Math_round a) (Math_round b) = true.
Proof.
  intros Ha Hb L.
  eapply xrounds_mono; [now apply round_x|now apply round_x|].
  apply xround_mono. now apply leb_xle.
Qed.

Lemma Math_round_nonneg a : nonneg a = true -> nonneg (Math_round a) = true.
Proof. intros Ha. eapply xrounds_nonneg. now apply round_x. Qed.

Lemma hundred_posfin : posfin hundred = true.
Proof. reflexivity. Qed.

Lemma round2_nonneg a : nonneg a = true -> nonneg (round2 a) = true.
Proof.
  intros Ha. unfold round2.
  apply div_nonneg; [|exact hundred_posfin].
  apply Math_round_nonneg, mul_nonneg; [exact Ha|exact hundred_posfin].
Qed.

Theorem round2_mono a b :
  nonneg a = true -> nonneg b = true ->
  fleb a b = true -> fleb (round2 a) (round2 b) = true.
Proof.
  intros Ha Hb L. unfold round2.
  assert (H := hundred_posfin).
  apply div_mono; auto using Math_round_nonneg, mul_nonneg.
  apply Math_round_mono; auto using mul_nonneg.
  now apply mul_mono.
Qed.

End Monotone.

(** ** Doubling, halving and overflow *)

Section Doubling.
Local Open Scope string_scope.
Local Open Scope Z_scope.

Lemma leb_inf_l r : nonneg r = true -> fleb pos_infinity r = true -> r = pos_infinity.
Proof. intros H L. nonneg_cases r; try discriminate L. reflexivity. Qed.

Lemma pos_le_Z p q : Z.pos p <= Z.pos q -> (p <= q)%positive.
Proof. intros H. exact H. Qed.

Lemma finite_le_max y :
  nonneg y = true -> y <> pos_infinity -> fleb y MAX_VALUE = true.
Proof.
  intros H NI. nonneg_cases y; try reflexivity; try (now elim NI).
  destruct (bounded_grid _ _ B) as (He & Hm & _).
  apply SFleb_finite.
  destruct (Z_lt_le_dec e 971); [now left|right]. split; [lia|].
  apply pos_le_Z. change (2 ^ 53) with 9007199254740992 in Hm. clear -Hm. lia.
Qed.

Lemma rounds_to_overflow s q r :
  (pow2 1024 <= q)%Q -> rounds_to s q r -> r = S754_infinity s.
Proof.
  intros Hq (t & G & ->).
  assert (P := pow2_pos 1024).
  destruct (grid_mantissa q t ltac:(lra) G) as [A B].
  destruct G as (G1 & G2 & G3).
  assert (Ht : 971 < t).
  { destruct (Z_lt_le_dec 971 t); [assumption|exfalso].
    assert (pow2 (t + 53) <= pow2 1024)%Q by (apply pow2_le; lia). lra. }
  specialize (B ltac:(lia)). assert (0 < 2 ^ 52) by reflexivity.
  unfold finish. destruct (rne_code _) as [|p|p]; [lia| |lia].
  destruct (Z.pos p =? 2 ^ 53).
  - destruct (Z.leb_spec (t + 1) 971); [lia|reflexivity].
  - destruct (Z.leb_spec t 971); [lia|reflexivity].
Qed.

(** Doubling a positive number is exact, or overflows. *)
Lemma double_exact m e :
  bounded prec emax m e = true ->
  (pow2 1024 <= 2 * Qval m e)%Q \/
  exists m' e', bounded prec emax m' e' = true /\ (Qval m' e' == 2 * Qval m e)%Q.
Proof.
  intros B. destruct (bounded_grid _ _ B) as (He & Hm & Hbig).
  assert (D := digits_bounds m).
  assert (Dp : 0 < Z.pos (digits2_pos m)) by lia.
  assert (Dle : Z.pos (digits2_pos m) <= 53).
  { change (Z.pos (digits2_pos m)) with (Zdigits2 (Z.pos m)). apply Zdigits2_le; lia. }
  destruct (Z_lt_le_dec (Z.pos (digits2_pos m)) 53) as [Hsub|Hnorm].
  - (* subnormal: double the mantissa *)
    right. exists (m~0)%positive, e. split.
    + assert (e = -1074).
      { destruct (Z.eq_dec e (-1074)); [assumption|exfalso].
        assert (53 <= Zdigits2 (Z.pos m)) by (apply (Zdigits2_ge _ 52); lia).
        cbn [Zdigits2] in H. lia. }
      subst e. unfold bounded, canonical_mantissa.
      change (fexp prec emax) with fexp64. cbn [digits2_pos].
      rewrite Pos2Z.inj_succ. unfold fexp64.
      apply andb_true_intro; split; [apply Z.eqb_eq; lia|reflexivity].
    + unfold Qval. rewrite Pos2Z.inj_xO, inject_Z_mult.
      change (inject_Z 2) with 2%Q. ring.
  - assert (Ed : Z.pos (digits2_pos m) = 53) by lia.
    destruct (Z.eq_dec e 971) as [->|NE].
    + left. unfold Qval.
      assert (pow2 1024 == 2 * (inject_Z (2 ^ 52) * pow2 971))%Q.
      { rewrite <- pow2_Z by lia. rewrite <- pow2_add, <- pow2_1, <- pow2_add. reflexivity. }
      rewrite H. apply Qmult_le_l; [reflexivity|].
      apply Qmult_le_compat_r; [|apply Qlt_le_weak, pow2_pos].
      rewrite <- Zle_Qle. rewrite Ed in D. replace (53 - 1) with 52 in D by lia. lia.
    + right. exists m, (e + 1). split.
      * unfold bounded, canonical_mantissa.
        change (fexp prec emax) with fexp64. change (emax - prec) with 971.
        rewrite Ed. unfold fexp64.
        apply andb_true_intro; split; [apply Z.eqb_eq|apply Z.leb_le]; lia.
      * unfold Qval. rewrite pow2_succ. ring.
Qed.

Lemma half_double_le x :
  nonneg x = true -> fleb x (fdiv (fadd x x) two) = true.
Proof.
  intros H. nonneg_cases x.
  - destruct s; reflexivity.
  - reflexivity.
  - assert (A := add_sem m e m e).
    apply (rounds_to_comp _ _ (2 * Qval m e)) in A; [|ring].
    destruct (double_exact m e B) as [O|(m' & e' & B' & V)].
    + rewrite (rounds_to_overflow _ _ _ O A). reflexivity.
    + assert (R := rounds_to_exact false m' e' B').
      assert (E : fadd (S754_finite false m e) (S754_finite false m e) = S754_finite false m' e').
      { eapply rounds_to_unique; [|exact A|exact R]. now rewrite V. }
      rewrite E.
      eapply (xrounds_mono (Some (Qval m e))).
      * apply (xrounds_self (S754_finite false m e)). exact B.
      * apply (div_x (S754_finite false m' e') two); [exact B'|reflexivity].
      * cbn [xval xscale option_map xle]. rewrite V.
        change (qval two) with (Qval 4503599627370496 (-51)).
        assert (T : (Qval 4503599627370496 (-51) == 2)%Q) by reflexivity.
        rewrite T.
        assert (E2 : (2 * Qval m e * / 2 == Qval m e)%Q) by field.
        rewrite E2. apply Qle_refl.
Qed.

Lemma half_double_ge x :
  nonneg x = true ->
  fadd x x = pos_infinity \/ fleb (fdiv (fadd x x) two) x = true.
Proof.
  intros H. nonneg_cases x.
  - right. destruct s; reflexivity.
  - left. reflexivity.
  - assert (A := add_sem m e m e).
    apply (rounds_to_comp _ _ (2 * Qval m e)) in A; [|ring].
    destruct (double_exact m e B) as [O|(m' & e' & B' & V)].
    + left. apply (rounds_to_overflow _ _ _ O A).
    + right. assert (R := rounds_to_exact false m' e' B').
      assert (E : fadd (S754_finite false m e) (S754_finite false m e) = S754_finite false m' e').
      { eapply rounds_to_unique; [|exact A|exact R]. now rewrite V. }
      rewrite E.
      eapply (xrounds_mono _ (Some (Qval m e))).
      * apply (div_x (S754_finite false m' e') two); [exact B'|reflexivity].
      * apply (xrounds_self (S754_finite false m e)). exact B.
      * cbn [xval xscale option_map xle]. rewrite V.
        change (qval two) with (Qval 4503599627370496 (-51)).
        assert (T : (Qval 4503599627370496 (-51) == 2)%Q) by reflexivity.
        rewrite T.
        assert (E2 : (2 * Qval m e * / 2 == Qval m e)%Q) by field.
        rewrite E2. apply Qle_refl.
Qed.

Lemma two_posfin : posfin two = true.
Proof. reflexivity. Qed.

Lemma scale_const_mono c p q :
  nonneg c = true -> posfin p = true -> posfin q = true ->
  fleb p q = true -> fleb (fmul c p) (fmul c q) = true.
Proof.
  intros Hc Hp Hq L.
  eapply xrounds_mono; [now apply mul_x|now apply mul_x|].
  assert (Lq : (qval p <= qval q)%Q).
  { nonneg_cases p. nonneg_cases q. now apply leb_Qval_le. }
  assert (P := qval_pos p Hp).
  nonneg_cases c; cbn [xval xscale option_map xle]; try exact I.
  - lra.
  - apply Qmult_le_l; [apply Qval_pos|exact Lq].
Qed.

Section PriceOrder.
Variable credits : number.
Hypothesis credits_nonneg : nonneg credits = true.

Let mn := fmul credits CONFIG.CARBON_CREDIT.PRICE_MIN_BRL.
Let mx := fmul credits CONFIG.CARBON_CREDIT.PRICE_MAX_BRL.
Let sum := fadd mn mx.
Let avg := fdiv sum two.

Lemma price_mn_nonneg : nonneg mn = true.
Proof. apply mul_nonneg; [assumption|reflexivity]. Qed.

Lemma price_mx_nonneg : nonneg mx = true.
Proof. apply mul_nonneg; [assumption|reflexivity]. Qed.

Lemma price_mn_le_mx : fleb mn mx = true.
Proof. apply scale_const_mono; auto; reflexivity. Qed.

Lemma price_sum_nonneg : nonneg sum = true.
Proof. apply add_nonneg; [apply price_mn_nonneg|apply price_mx_nonneg]. Qed.

Lemma price_avg_nonneg : nonneg avg = true.
Proof. apply div_nonneg; [apply price_sum_nonneg|exact two_posfin]. Qed.

Lemma price_mn_le_avg : fleb mn avg = true.
Proof.
  assert (N1 := price_mn_nonneg). assert (N2 := price_mx_nonneg).
  assert (L := price_mn_le_mx).
  apply (leb_trans _ (fdiv (fadd mn mn) two)); auto using price_avg_nonneg.
  - apply div_nonneg; [now apply add_nonneg|exact two_posfin].
  - now apply half_double_le.
  - apply div_mono; auto using add_nonneg, two_posfin, price_sum_nonneg.
    apply add_mono; auto using leb_refl.
Qed.

Lemma price_round_avg_le_mx : fleb (round2 avg) (round2 mx) = true.
Proof.
  assert (N1 := price_mn_nonneg). assert (N2 := price_mx_nonneg).
  assert (N3 := price_sum_nonneg). assert (N4 := price_avg_nonneg).
  assert (L := price_mn_le_mx).
  assert (Tw := two_posfin).
  destruct (half_double_ge mx N2) as [Ov|Hd].
  - (* mx + mx overflows: mx is at least half the largest number *)
    assert (Hm : fleb HALF_MAX mx = true).
    { destruct (leb_total HALF_MAX mx eq_refl N2) as [H|H]; [exact H|exfalso].
      assert (C : fleb (fadd mx mx) (fadd HALF_MAX HALF_MAX) = true)
        by (apply add_mono; auto).
      rewrite Ov in C. vm_compute in C. discriminate C. }
    assert (Hr : round2 mx = pos_infinity).
    { unfold round2.
      assert (C : fleb (fmul HALF_MAX hundred) (fmul mx hundred) = true)
        by (apply mul_mono; auto).
      change (fmul HALF_MAX hundred) with pos_infinity in C.
      apply leb_inf_l in C; [|apply mul_nonneg; auto]. rewrite C. reflexivity. }
    rewrite Hr. apply leb_inf_r, round2_nonneg, N4.
  - apply round2_mono; auto.
    apply (leb_trans _ (fdiv (fadd mx mx) two)); auto.
    + apply div_nonneg; auto using add_nonneg.
    + apply div_mono; auto using add_nonneg.
      apply add_mono; auto using leb_refl.
Qed.
End PriceOrder.

End Doubling.

Section Subtraction.
Local Open Scope string_scope.
Local Open Scope Z_scope.

(** ** Subtraction and comparison *)

(** The difference of two positive numbers, through the aligned
    mantissas. *)
Lemma sub_sem ma ea mb eb :
  bounded prec emax ma ea = true -> bounded prec emax mb eb = true ->
  let r := fsub (S754_finite false ma ea) (S754_finite false mb eb) in
  ((Qval ma ea == Qval mb eb)%Q /\ r = pos_zero) \/
  ((Qval mb eb < Qval ma ea)%Q /\ fgtb r pos_zero = true /\ nonneg r = true) \/
  ((Qval ma ea < Qval mb eb)%Q /\ fgtb r pos_zero = false).
Proof.
  intros Ba Bb r. unfold r, fsub, SFsub. cbn [cond_Zopp].
  set (ez := Z.min ea eb).
  assert (Ax := aligned_val ma ea ez ltac:(unfold ez; lia)).
  assert (Ay := aligned_val mb eb ez ltac:(unfold ez; lia)).
  set (a := fst (shl_align ma ea ez)) in *. set (b := fst (shl_align mb eb ez)) in *.
  assert (Pz := pow2_pos ez).
  assert (Hez : -1074 <= ez).
  { destruct (bounded_grid _ _ Ba) as [? _], (bounded_grid _ _ Bb) as [? _].
    unfold ez. lia. }
  assert (S := binary_normalize_sem (Z.pos a - Z.pos b) ez).
  assert (V : (Qval ma ea - Qval mb eb == inject_Z (Z.pos a - Z.pos b) * pow2 ez)%Q).
  { unfold Z.sub. rewrite inject_Z_plus, inject_Z_opp. rewrite <- Ax, <- Ay. ring. }
  destruct (Z.pos a - Z.pos b) as [|p|p] eqn:E.
  - left. split; [|exact S]. change (inject_Z 0) with 0%Q in V. lra.
  - right; left.
    assert (Q1 : (1 <= inject_Z (Z.pos p))%Q)
      by (change 1%Q with (inject_Z 1); rewrite <- Zle_Qle; lia).
    assert (Q2 : (pow2 ez <= inject_Z (Z.pos p) * pow2 ez)%Q).
    { rewrite <- (Qmult_1_l (pow2 ez)) at 1. apply Qmult_le_compat_r; lra. }
    split; [lra|].
    assert (NZ : is_zero (binary_normalize prec emax (Z.pos p) ez false) = false).
    { apply (rounds_to_nonzero false (Qval p ez)); [|exact S].
      unfold Qval. assert (pow2 (-1074) <= pow2 ez)%Q by (apply pow2_le; lia). lra. }
    assert (NN : nonneg (binary_normalize prec emax (Z.pos p) ez false) = true).
    { apply (xrounds_nonneg (Some (Qval p ez))). right. split; [apply Qval_pos|exact S]. }
    split; [|exact NN].
    destruct (rounds_to_shape _ _ _ (Qlt_le_weak _ _ (Qval_pos p ez)) S)
      as [R|[R|(m & e & R)]]; rewrite R in *; try discriminate NZ; reflexivity.
  - right; right.
    assert (Q1 : (inject_Z (Z.neg p) <= -1)%Q)
      by (change (-1)%Q with (inject_Z (-1)); rewrite <- Zle_Qle; lia).
    assert (Q2 : (inject_Z (Z.neg p) * pow2 ez <= - pow2 ez)%Q).
    { assert (E1 : (- pow2 ez == (-1) * pow2 ez)%Q) by ring. rewrite E1.
      apply Qmult_le_compat_r; lra. }
    split; [lra|].
    destruct (rounds_to_shape _ _ _ (Qlt_le_weak _ _ (Qval_pos p ez)) S)
      as [R|[R|(m & e & R)]]; rewrite R; reflexivity.
Qed.

(** On non-negative numbers the comparison function [a - b] is positive
    exactly when [b < a]. *)
Theorem sub_gt_iff a b :
  nonneg a = true -> nonneg b = true ->
  fgtb (fsub a b) pos_zero = fltb b a.
Proof.
  intros Ha Hb. nonneg_cases a; nonneg_cases b; try reflexivity;
    try (destruct s; reflexivity); try (destruct s, s0; reflexivity).
  destruct (sub_sem m e m0 e0 B B0) as [[V R]|[[V [R _]]|[V R]]].
  - rewrite R. symmetry. change (fltb ?x ?y) with (SFltb x y).
    destruct (SFltb _ _) eqn:L; [|reflexivity].
    apply ltb_Qval_lt in L; [|assumption..]. lra.
  - rewrite R. symmetry. apply ltb_Qval_lt; assumption.
  - rewrite R. symmetry. change (fltb ?x ?y) with (SFltb x y).
    destruct (SFltb _ _) eqn:L; [|reflexivity].
    apply ltb_Qval_lt in L; [|assumption..]. lra.
Qed.

Lemma ltb_false_leb a b :
  nonneg a = true -> nonneg b = true -> fltb b a = false -> fleb a b = true.
Proof.
  intros Ha Hb L. destruct (leb_total a b Ha Hb) as [H|H]; [exact H|].
  nonneg_cases a; nonneg_cases b; try reflexivity; try discriminate H;
    try discriminate L.
  apply Qval_le_leb; try assumption.
  destruct (Qlt_le_dec (Qval m0 e0) (Qval m e)) as [Hlt|Hle]; [|exact Hle].
  apply ltb_Qval_lt in Hlt; try assumption.
  change (fltb ?x ?y) with (SFltb x y) in L. congruence.
Qed.

Lemma leb_ltb_false a b :
  nonneg a = true -> nonneg b = true -> fleb a b = true -> fltb b a = false.
Proof.
  intros Ha Hb L. nonneg_cases a; nonneg_cases b; try reflexivity; try discriminate L.
  change (fltb ?x ?y) with (SFltb x y).
  destruct (SFltb _ _) eqn:E; [|reflexivity].
  apply ltb_Qval_lt in E; try assumption.
  apply leb_Qval_le in L; try assumption. lra.
Qed.

End Subtraction.

Section ModeRanking.
Local Open Scope string_scope.
Local Open Scope Z_scope.

(** ** The comparison of all modes *)

Lemma calculateAllModes_unfold d :
  calculateAllModes d =
  Array_sort (fun a b => fsub (emission a) (emission b))
    [entry d "bicycle"; entry d "car"; entry d "bus"; entry d "truck"].
Proof. reflexivity. Qed.

Lemma calculateEmission_factor d mode :
  calculateEmission d mode = round2 (fmul d (factor mode)).
Proof. reflexivity. Qed.

Lemma posfin_of_positive d :
  well_formed d = true -> is_finite d = true -> fgtb d pos_zero = true ->
  posfin d = true.
Proof.
  intros W F G. destruct d as [s|s| |[] m e]; try discriminate; exact W.
Qed.

Section Ranking.
Variable d : number.
Hypothesis d_posfin : posfin d = true.

Let eB := calculateEmission d "bicycle".
Let eC := calculateEmission d "car".
Let eU := calculateEmission d "bus".
Let eT := calculateEmission d "truck".

Lemma emission_bicycle : eB = pos_zero.
Proof. unfold eB. nonneg_cases d. reflexivity. Qed.

Lemma emission_nonneg mode :
  In mode ["car"; "bus"; "truck"] -> nonneg (calculateEmission d mode) = true.
Proof.
  intros H. rewrite calculateEmission_factor.
  apply round2_nonneg, mul_nonneg; [now apply posfin_nonneg|].
  cbn [In] in H. destruct H as [<-|[<-|[<-|[]]]]; reflexivity.
Qed.

Lemma emission_bus_le_car : fleb eU eC = true.
Proof.
  unfold eU, eC. rewrite !calculateEmission_factor.
  assert (N := posfin_nonneg _ d_posfin).
  apply round2_mono; try (apply mul_nonneg; [exact N|reflexivity]).
  apply scale_const_mono; auto; reflexivity.
Qed.

Lemma emission_car_le_truck : fleb eC eT = true.
Proof.
  unfold eC, eT. rewrite !calculateEmission_factor.
  assert (N := posfin_nonneg _ d_posfin).
  apply round2_mono; try (apply mul_nonneg; [exact N|reflexivity]).
  apply scale_const_mono; auto; reflexivity.
Qed.

Lemma ranking :
  (calculateAllModes d =
     [entry d "bicycle"; entry d "bus"; entry d "car"; entry d "truck"]
   /\ fltb eU eC = true) \/
  (calculateAllModes d =
     [entry d "bicycle"; entry d "car"; entry d "bus"; entry d "truck"]
   /\ fleb eC eU = true).
Proof.
  assert (NC : nonneg eC = true) by (apply emission_nonneg; cbn; auto).
  assert (NU : nonneg eU = true) by (apply emission_nonneg; cbn; auto).
  assert (NT : nonneg eT = true) by (apply emission_nonneg; cbn; auto).
  assert (L1 := emission_bus_le_car). assert (L2 := emission_car_le_truck).
  assert (L3 : fleb eU eT = true) by (apply (leb_trans _ eC); auto).
  assert (EB := emission_bicycle).
  assert (NB : nonneg eB = true) by now rewrite EB.
  assert (LB : forall x, nonneg x = true -> fltb x eB = false).
  { intros x Hx. apply leb_ltb_false; auto. rewrite EB. now apply leb_zero_l. }
  rewrite calculateAllModes_unfold. unfold Array_sort.
  cbn [fold_right]. cbn [sort_insert entry emission] . fold eB eC eU eT.
  rewrite (sub_gt_iff eU eT NU NT), (leb_ltb_false _ _ NU NT L3).
  cbn [sort_insert entry emission]. fold eB eC eU eT.
  rewrite (sub_gt_iff eC eU NC NU).
  destruct (fltb eU eC) eqn:LT.
  - left. split; [|reflexivity].
    cbn [sort_insert entry emission]. fold eB eC eU eT.
    rewrite (sub_gt_iff eC eT NC NT), (leb_ltb_false _ _ NC NT L2).
    cbn [sort_insert entry emission]. fold eB eC eU eT.
    rewrite (sub_gt_iff eB eU NB NU), (LB eU NU). reflexivity.
  - right. split; [|now apply ltb_false_leb].
    cbn [sort_insert entry emission]. fold eB eC eU eT.
    rewrite (sub_gt_iff eB eC NB NC), (LB eC NC). reflexivity.
Qed.
End Ranking.

End ModeRanking.

Section Signs.
Local Open Scope string_scope.
Local Open Scope Z_scope.

(** ** Signs *)

Lemma bra_sign s m e l :
  let r := binary_round_aux prec emax s m e l in
  r = S754_nan \/ sign_of r = Some s.
Proof.
  unfold binary_round_aux.
  destruct (shr_fexp prec emax m e l) as [r1 e1].
  destruct (shr_fexp prec emax _ e1 loc_Exact) as [r2 e2].
  destruct (shr_m r2); [now right| |now left].
  destruct (e2 <=? emax - prec); now right.
Qed.

Lemma gt_zero_sign x : fgtb x pos_zero = true -> sign_of x = Some false.
Proof. destruct x as [s|[]| |[]]; try discriminate; reflexivity. Qed.

Lemma sign_true_not_gt x : sign_of x = Some true -> fgtb x pos_zero = false.
Proof. destruct x as [[]|[]| |[]]; try discriminate; reflexivity. Qed.

Lemma fmul_gt_zero x c :
  posfin c = true -> fgtb (fmul x c) pos_zero = true -> fgtb x pos_zero = true.
Proof.
  intros Hc G. nonneg_cases c. destruct x as [s|s| |s mx ex]; try discriminate G.
  - destruct s; [discriminate G|reflexivity].
  - apply gt_zero_sign in G. unfold fmul, SFmul in G.
    destruct (bra_sign (xorb s false) (Z.pos (mx * m)) (ex + e) loc_Exact) as [R|R];
      rewrite R in G; [discriminate|].
    destruct s; [discriminate|reflexivity].
Qed.

Lemma fdiv_gt_zero x c :
  posfin c = true -> fgtb (fdiv x c) pos_zero = true -> fgtb x pos_zero = true.
Proof.
  intros Hc G. nonneg_cases c. destruct x as [s|s| |s mx ex]; try discriminate G.
  - destruct s; [discriminate G|reflexivity].
  - apply gt_zero_sign in G. unfold fdiv, SFdiv in G.
    destruct (SFdiv_core_binary prec emax (Z.pos mx) ex (Z.pos m) e) as [[mz ez] lz].
    destruct (bra_sign (xorb s false) mz ez lz) as [R|R];
      rewrite R in G; [discriminate|].
    destruct s; [discriminate|reflexivity].
Qed.

Lemma of_Z_neg_sign p : fgtb (of_Z (Z.neg p)) pos_zero = false.
Proof.
  unfold of_Z, binary_normalize, binary_round.
  destruct (shl_align p 0 _) as [mz ez].
  destruct (bra_sign true (Z.pos mz) ez loc_Exact) as [R|R].
  - rewrite R. reflexivity.
  - now apply sign_true_not_gt.
Qed.

Lemma Math_round_gt_zero x :
  fgtb (Math_round x) pos_zero = true -> fgtb x pos_zero = true.
Proof.
  destruct x as [s|s| |s m e]; try (intros G; exact G).
  destruct s; [|reflexivity].
  unfold Math_round. destruct (Z.leb_spec 0 e) as [He|He]; [intros G; exact G|].
  set (k := - e). assert (Hk : 0 < k) by (unfold k; lia).
  destruct (Z.shiftr (Z.neg m + 2 ^ (k - 1)) k =? 0) eqn:E0; [intros G; discriminate G|].
  assert (Hn : Z.shiftr (Z.neg m + 2 ^ (k - 1)) k <= 0).
  { rewrite Z.shiftr_div_pow2 by lia.
    assert (P : 0 < 2 ^ k) by (apply Z.pow_pos_nonneg; lia).
    assert (2 ^ k = 2 * 2 ^ (k - 1)).
    { rewrite <- Z.pow_succ_r by lia. f_equal. lia. }
    assert (Z.neg m + 2 ^ (k - 1) < 2 ^ k) by lia.
    assert ((Z.neg m + 2 ^ (k - 1)) / 2 ^ k < 1) by (apply Z.div_lt_upper_bound; lia).
    lia. }
  destruct (Z.shiftr _ k) as [|p|p]; [discriminate E0|lia|].
  intros G. rewrite of_Z_neg_sign in G. discriminate G.
Qed.

Theorem round2_gt_zero x :
  fgtb (round2 x) pos_zero = true -> fgtb x pos_zero = true.
Proof.
  unfold round2. intros G.
  apply fdiv_gt_zero in G; [|reflexivity].
  apply Math_round_gt_zero in G.
  apply fmul_gt_zero in G; [exact G|reflexivity].
Qed.

End Signs.

Section SignedSubtraction.
Local Open Scope string_scope.
Local Open Scope Z_scope.

(** ** Subtraction of numbers of any sign *)

Lemma fsub_neg_neg mb eb me ee :
  fsub (S754_finite true mb eb) (S754_finite true me ee) =
  fsub (S754_finite false me ee) (S754_finite false mb eb).
Proof.
  unfold fsub, SFsub. cbn [cond_Zopp]. rewrite (Z.min_comm eb ee).
  f_equal; try lia.
Qed.

Lemma fsub_pos_neg mb eb me ee :
  fsub (S754_finite false mb eb) (S754_finite true me ee) =
  fadd (S754_finite false mb eb) (S754_finite false me ee).
Proof.
  unfold fsub, fadd, SFsub, SFadd. cbn [cond_Zopp]. f_equal; try lia.
Qed.

Lemma fsub_neg_pos_sign mb eb me ee :
  fgtb (fsub (S754_finite true mb eb) (S754_finite false me ee)) pos_zero = false.
Proof.
  unfold fsub, SFsub. cbn [cond_Zopp].
  set (ez := Z.min eb ee).
  set (a := fst (shl_align mb eb ez)). set (b := fst (shl_align me ee ez)).
  change (- Z.pos a - Z.pos b) with (Z.neg (a + b)).
  unfold binary_normalize, binary_round.
  destruct (shl_align (a + b) ez _) as [mz ez'].
  destruct (bra_sign true (Z.pos mz) ez' loc_Exact) as [R|R].
  - rewrite R. reflexivity.
  - now apply sign_true_not_gt.
Qed.

Lemma SFltb_neg_neg m1 e1 m2 e2 :
  SFltb (S754_finite true m1 e1) (S754_finite true m2 e2) =
  SFltb (S754_finite false m2 e2) (S754_finite false m1 e1).
Proof.
  unfold SFltb. cbn [SFcompare].
  rewrite (Z.compare_antisym e1 e2).
  destruct (e1 ?= e2); cbn [CompOpp]; try reflexivity.
  change (Pos.compare_cont Eq m1 m2) with (Pos.compare m1 m2).
  change (Pos.compare_cont Eq m2 m1) with (Pos.compare m2 m1).
  rewrite (Pos.compare_antisym m1 m2). reflexivity.
Qed.

(** A positive difference means a smaller subtrahend. *)
Theorem sub_gt_lt b e :
  well_formed b = true -> well_formed e = true ->
  fgtb (fsub b e) pos_zero = true -> fltb e b = true.
Proof.
  intros Wb We G.
  destruct b as [sb|sb| |sb mb eb], e as [se|se| |se me ee];
    try discriminate G;
    try (destruct sb, se; try discriminate G; reflexivity);
    try (destruct sb; try discriminate G; reflexivity);
    try (destruct se; try discriminate G; reflexivity).
  cbn [well_formed valid_binary] in Wb, We.
  destruct sb, se.
  - rewrite fsub_neg_neg in G. change (fltb ?x ?y) with (SFltb x y).
    rewrite SFltb_neg_neg.
    rewrite (sub_gt_iff (S754_finite false me ee) (S754_finite false mb eb)) in G;
      [exact G|exact We|exact Wb].
  - rewrite fsub_neg_pos_sign in G. discriminate G.
  - reflexivity.
  - rewrite (sub_gt_iff (S754_finite false mb eb) (S754_finite false me ee)) in G;
      [exact G|exact Wb|exact We].
Qed.

(** The difference of a number and a smaller one is not negative. *)
Theorem lt_sub_nonneg b e :
  well_formed b = true -> well_formed e = true ->
  fltb e b = true -> nonneg (fsub b e) = true.
Proof.
  intros Wb We L.
  destruct b as [sb|sb| |sb mb eb], e as [se|se| |se me ee];
    cbn [well_formed valid_binary] in Wb, We;
    repeat match goal with s : bool |- _ => destruct s end;
    try discriminate L; try reflexivity; try assumption.
  - rewrite fsub_neg_neg. change (fltb ?x ?y) with (SFltb x y) in L.
    rewrite SFltb_neg_neg in L. apply ltb_Qval_lt in L; [|assumption..].
    destruct (sub_sem me ee mb eb We Wb) as [[V R]|[[V [R N]]|[V R]]];
      [exfalso; lra|exact N|exfalso; lra].
  - rewrite fsub_pos_neg. apply add_nonneg; assumption.
  - change (fltb ?x ?y) with (SFltb x y) in L.
    apply ltb_Qval_lt in L; [|assumption..].
    destruct (sub_sem mb eb me ee Wb We) as [[V R]|[[V [R N]]|[V R]]];
      [exfalso; lra|exact N|exfalso; lra].
Qed.

End SignedSubtraction.

Section Negation.
Local Open Scope string_scope.
Local Open Scope Z_scope.

(** ** Negation and the arithmetic operators *)

Lemma fneg_involutive x : fneg (fneg x) = x.
Proof. destruct x as [[]|[]| |[]]; reflexivity. Qed.

Lemma bra_opp s m e l :
  binary_round_aux prec emax (negb s) m e l =
  fneg (binary_round_aux prec emax s m e l).
Proof.
  unfold binary_round_aux.
  destruct (shr_fexp prec emax m e l) as [r1 e1].
  destruct (shr_fexp prec emax _ e1 loc_Exact) as [r2 e2].
  destruct (shr_m r2); try reflexivity.
  destruct (e2 <=? emax - prec); reflexivity.
Qed.

Lemma binary_normalize_opp z e :
  z <> 0 ->
  binary_normalize prec emax (- z) e false = fneg (binary_normalize prec emax z e false).
Proof.
  intros NZ. destruct z as [|p|p]; [contradiction| |]; cbn [Z.opp binary_normalize];
    unfold binary_round; destruct (shl_align p e _) as [mz ez].
  - apply (bra_opp false).
  - rewrite (bra_opp false), fneg_involutive. reflexivity.
Qed.

Lemma fmul_opp_l x y : fmul (fneg x) y = fneg (fmul x y).
Proof.
  unfold fmul. destruct x as [sx|sx| |sx mx ex], y as [sy|sy| |sy my ey];
    cbn [fneg SFopp SFmul]; try reflexivity;
    try (destruct sx, sy; reflexivity).
  rewrite <- bra_opp. f_equal. destruct sx, sy; reflexivity.
Qed.

Lemma fmul_opp_r x y : fmul x (fneg y) = fneg (fmul x y).
Proof. now rewrite fmul_comm, fmul_opp_l, fmul_comm. Qed.

Lemma fdiv_opp_l x y : fdiv (fneg x) y = fneg (fdiv x y).
Proof.
  unfold fdiv. destruct x as [sx|sx| |sx mx ex], y as [sy|sy| |sy my ey];
    cbn [fneg SFopp SFdiv]; try reflexivity;
    try (destruct sx, sy; reflexivity).
  destruct (SFdiv_core_binary prec emax (Z.pos mx) ex (Z.pos my) ey) as [[mz ez] lz].
  rewrite <- bra_opp. f_equal. destruct sx, sy; reflexivity.
Qed.

Lemma fsub_swap x y :
  fsub y x = fneg (fsub x y) \/ (fsub x y = pos_zero /\ fsub y x = pos_zero).
Proof.
  unfold fsub. destruct x as [sx|sx| |sx mx ex], y as [sy|sy| |sy my ey];
    cbn [fneg SFopp SFsub];
    try solve [repeat match goal with s : bool |- _ => destruct s end; auto].
  rewrite (Z.min_comm ey ex).
  set (ez := Z.min ex ey).
  set (a := cond_Zopp sx (Z.pos (fst (shl_align mx ex ez)))).
  set (b := cond_Zopp sy (Z.pos (fst (shl_align my ey ez)))).
  destruct (Z.eq_dec (a - b) 0) as [E|NE].
  - right. rewrite E. replace (b - a) with 0 by lia. split; reflexivity.
  - left. replace (b - a) with (- (a - b)) by lia.
    now apply binary_normalize_opp.
Qed.

Lemma fsub_mirror x y : mirror (fsub y x) (fsub x y).
Proof.
  destruct (fsub_swap x y) as [E|[E1 E2]]; [now left|right; congruence].
Qed.

Lemma fmul_mirror_l x' x c : mirror x' x -> mirror (fmul x' c) (fmul x c).
Proof. intros [->| ->]; [left; apply fmul_opp_l|now right]. Qed.

Lemma fdiv_mirror_l x' x c : mirror x' x -> mirror (fdiv x' c) (fdiv x c).
Proof. intros [->| ->]; [left; apply fdiv_opp_l|now right]. Qed.

Lemma fmul_mirror_square x' x : mirror x' x -> fmul x' x' = fmul x x.
Proof.
  intros [->| ->]; [|reflexivity].
  now rewrite fmul_opp_l, fmul_opp_r, fneg_involutive.
Qed.

Lemma fmul_mirror_square_r p x' x :
  mirror x' x -> fmul (fmul p x') x' = fmul (fmul p x) x.
Proof.
  intros [->| ->]; [|reflexivity].
  now rewrite !fmul_opp_r, fmul_opp_l, fneg_involutive.
Qed.

Section Symmetry.
Variable M : MathLib.
Hypothesis sin_odd : forall x, Math_sin M (fneg x) = fneg (Math_sin M x).

Lemma sin_mirror x' x : mirror x' x -> mirror (Math_sin M x') (Math_sin M x).
Proof. intros [->| ->]; [left; apply sin_odd|now right]. Qed.

Theorem haversineDistance_sym lat1 lon1 lat2 lon2 :
  haversineDistance (binary64 M) lat1 lon1 lat2 lon2 =
  haversineDistance (binary64 M) lat2 lon2 lat1 lon1.
Proof.
  unfold haversineDistance. cbn [binary64 op_add op_sub op_mul op_div op_literal
    op_PI op_sin op_cos op_sqrt op_atan2].
  set (h := fun u => Math_sin M (fdiv (fdiv (fmul u Math_PI) (decimal 180 0)) (decimal 2 0))).
  assert (Hm : forall a b, mirror (h (fsub a b)) (h (fsub b a))).
  { intros a b. apply sin_mirror, fdiv_mirror_l, fdiv_mirror_l, fmul_mirror_l, fsub_mirror. }
  change (Math_sin M (fdiv (fdiv (fmul (fsub lat2 lat1) Math_PI) (decimal 180 0)) (decimal 2 0)))
    with (h (fsub lat2 lat1)).
  change (Math_sin M (fdiv (fdiv (fmul (fsub lon2 lon1) Math_PI) (decimal 180 0)) (decimal 2 0)))
    with (h (fsub lon2 lon1)).
  change (Math_sin M (fdiv (fdiv (fmul (fsub lat1 lat2) Math_PI) (decimal 180 0)) (decimal 2 0)))
    with (h (fsub lat1 lat2)).
  change (Math_sin M (fdiv (fdiv (fmul (fsub lon1 lon2) Math_PI) (decimal 180 0)) (decimal 2 0)))
    with (h (fsub lon1 lon2)).
  rewrite (fmul_mirror_square _ _ (Hm lat2 lat1)).
  rewrite (fmul_mirror_square_r _ _ _ (Hm lon2 lon1)).
  rewrite (fmul_comm (Math_cos M (fdiv (fmul lat1 Math_PI) (decimal 180 0)))).
  reflexivity.
Qed.
End Symmetry.

End Negation.

(** ** Negative results *)

Section NegativeSigns.
Local Open Scope string_scope.
Local Open Scope Z_scope.

Lemma lt_zero_sign x : fltb x pos_zero = true -> sign_of x = Some true.
Proof. destruct x as [s|[]| |[]]; try discriminate; reflexivity. Qed.

Lemma sign_false_not_lt x : sign_of x = Some false -> fltb x pos_zero = false.
Proof. destruct x as [[]|[]| |[]]; try discriminate; reflexivity. Qed.

Lemma fmul_lt_zero x c :
  posfin c = true -> fltb (fmul x c) pos_zero = true -> fltb x pos_zero = true.
Proof.
  intros Hc G. nonneg_cases c. destruct x as [s|s| |s mx ex]; try discriminate G.
  - destruct s; [reflexivity|discriminate G].
  - apply lt_zero_sign in G. unfold fmul, SFmul in G.
    destruct (bra_sign (xorb s false) (Z.pos (mx * m)) (ex + e) loc_Exact) as [R|R];
      rewrite R in G; [discriminate|].
    destruct s; [reflexivity|discriminate].
Qed.

Lemma fdiv_lt_zero x c :
  posfin c = true -> fltb (fdiv x c) pos_zero = true -> fltb x pos_zero = true.
Proof.
  intros Hc G. nonneg_cases c. destruct x as [s|s| |s mx ex]; try discriminate G.
  - destruct s; [reflexivity|discriminate G].
  - apply lt_zero_sign in G. unfold fdiv, SFdiv in G.
    destruct (SFdiv_core_binary prec emax (Z.pos mx) ex (Z.pos m) e) as [[mz ez] lz].
    destruct (bra_sign (xorb s false) mz ez lz) as [R|R];
      rewrite R in G; [discriminate|].
    destruct s; [reflexivity|discriminate].
Qed.

Lemma of_Z_pos_sign p : fltb (of_Z (Z.pos p)) pos_zero = false.
Proof.
  unfold of_Z, binary_normalize, binary_round.
  destruct (shl_align p 0 _) as [mz ez].
  destruct (bra_sign false (Z.pos mz) ez loc_Exact) as [R|R].
  - rewrite R. reflexivity.
  - now apply sign_false_not_lt.
Qed.

Lemma Math_round_lt_zero x :
  fltb (Math_round x) pos_zero = true -> fltb x pos_zero = true.
Proof.
  destruct x as [s|s| |s m e]; try (intros G; exact G).
  destruct s; [reflexivity|].
  unfold Math_round. destruct (Z.leb_spec 0 e) as [He|He]; [intros G; exact G|].
  set (k := - e). assert (Hk : 0 < k) by (unfold k; lia).
  destruct (Z.shiftr (Z.pos m + 2 ^ (k - 1)) k =? 0) eqn:E0; [intros G; discriminate G|].
  assert (Hn : 0 <= Z.shiftr (Z.pos m + 2 ^ (k - 1)) k).
  { apply Z.shiftr_nonneg. assert (0 <= 2 ^ (k - 1)) by (apply Z.pow_nonneg; lia). lia. }
  destruct (Z.shiftr _ k) as [|p|p]; [discriminate E0| |lia].
  intros G. rewrite of_Z_pos_sign in G. discriminate G.
Qed.

Theorem round2_lt_zero x :
  fltb (round2 x) pos_zero = true -> fltb x pos_zero = true.
Proof.
  unfold round2. intros G.
  apply fdiv_lt_zero in G; [|reflexivity].
  apply Math_round_lt_zero in G.
  apply fmul_lt_zero in G; [exact G|reflexivity].
Qed.

Lemma fneg_lt_gt x : fltb (fneg x) pos_zero = fgtb x pos_zero.
Proof. destruct x as [[]|[]| |[]]; reflexivity. Qed.

(** A negative difference means a larger subtrahend. *)
Theorem sub_lt_gt b e :
  well_formed b = true -> well_formed e = true ->
  fltb (fsub b e) pos_zero = true -> fltb b e = true.
Proof.
  intros Wb We L. apply (sub_gt_lt e b We Wb).
  destruct (fsub_swap e b) as [E|[_ E]].
  - rewrite E, fneg_lt_gt in L. exact L.
  - rewrite E in L. discriminate L.
Qed.

End NegativeSigns.

(** ** The distance of a point to itself *)

Section ZeroDistance.
Local Open Scope string_scope.
Local Open Scope Z_scope.

Lemma fsub_diag x : is_finite x = true -> fsub x x = pos_zero.
Proof.
  destruct x as [[]| | |s m e]; try discriminate; try reflexivity.
  intros _. unfold fsub, SFsub. rewrite Z.sub_diag. reflexivity.
Qed.

(** The square of a number of magnitude at most 1 is finite and not
    negative. *)
Lemma square_small c :
  well_formed c = true -> fleb (SFabs c) one = true ->
  fmul (fmul c c) pos_zero = pos_zero.
Proof.
  intros W L. destruct c as [s|s| |s m e]; try discriminate L.
  - destruct s; reflexivity.
  - cbn [well_formed valid_binary] in W. cbn [SFabs] in L.
    assert (B1 : bounded prec emax (2 ^ 52) (-52) = true) by reflexivity.
    assert (Q1 : (Qval (2 ^ 52) (-52) == 1)%Q) by reflexivity.
    apply (leb_Qval_le m e _ _ W B1) in L. rewrite Q1 in L.
    assert (P := Qval_pos m e).
    assert (R := mul_sem s m e s m e W W). rewrite xorb_nilpotent in R.
    assert (R1 := rounds_to_exact false _ _ B1).
    assert (Hle : fleb (fmul (S754_finite s m e) (S754_finite s m e))
                    (S754_finite false (2 ^ 52) (-52)) = true).
    { apply (rounds_to_mono (Qval m e * Qval m e) (Qval (2 ^ 52) (-52)));
        [apply Qlt_le_weak, Qmult_lt_0_compat; exact P| |exact R|exact R1].
      rewrite Q1. rewrite <- (Qmult_1_l 1). apply Qmult_le_compat_nonneg; split; lra. }
    destruct (rounds_to_shape _ _ _ (Qlt_le_weak _ _ (Qmult_lt_0_compat _ _ P P)) R)
      as [E|[E|(m' & e' & E)]]; rewrite E in *; try reflexivity.
    discriminate Hle.
Qed.

Section Identity.
Variable M : MathLib.
Hypothesis sin_zero : Math_sin M pos_zero = pos_zero.
Hypothesis atan2_zero : Math_atan2 M pos_zero one = pos_zero.
Hypothesis cos_range : forall x,
  is_finite x = true ->
  well_formed (Math_cos M x) = true /\ fleb (SFabs (Math_cos M x)) one = true.

Theorem haversineDistance_same lat lon :
  is_finite lat = true -> is_finite lon = true ->
  is_finite (fdiv (fmul lat Math_PI) (decimal 180 0)) = true ->
  haversineDistance (binary64 M) lat lon lat lon = pos_zero.
Proof.
  intros Flat Flon Frad.
  unfold haversineDistance. cbn [binary64 op_add op_sub op_mul op_div op_literal
    op_PI op_sin op_cos op_sqrt op_atan2].
  rewrite (fsub_diag lat Flat), (fsub_diag lon Flon).
  change (fdiv (fdiv (fmul pos_zero Math_PI) (decimal 180 0)) (decimal 2 0))
    with pos_zero.
  rewrite sin_zero.
  destruct (cos_range _ Frad) as [W L].
  set (c := Math_cos M (fdiv (fmul lat Math_PI) (decimal 180 0))) in *.
  rewrite (square_small c W L).
  change (fadd (fmul pos_zero pos_zero) (fmul pos_zero pos_zero)) with pos_zero.
  change (fsqrt pos_zero) with pos_zero.
  change (fsqrt (fsub (decimal 1 0) pos_zero)) with one.
  rewrite atan2_zero. reflexivity.
Qed.
End Identity.

End ZeroDistance.

(** * Part IV: the statements *)

Section StatementLemmas.
Local Open Scope string_scope.
Local Open Scope Z_scope.

(** ** Sorting keeps what holds of every element *)

Lemma Forall_sort_insert {A} (cmp : A -> A -> number) (P : A -> Prop) x l :
  P x -> Forall P l -> Forall P (sort_insert cmp x l).
Proof.
  intros Hx Hl. induction Hl as [|y l Hy Hl IH]; cbn [sort_insert].
  - auto.
  - destruct (fgtb (cmp x y) pos_zero); auto.
Qed.

Lemma Forall_Array_sort {A} (cmp : A -> A -> number) (P : A -> Prop) l :
  Forall P l -> Forall P (Array_sort cmp l).
Proof.
  unfold Array_sort. induction 1; cbn [fold_right]; auto using Forall_sort_insert.
Qed.

Lemma sort_insert_string_perm x l : Permutation (x :: l) (sort_insert_string x l).
Proof.
  induction l as [|y l IH]; cbn [sort_insert_string]; [reflexivity|].
  destruct (string_ltb y x); [|reflexivity].
  rewrite perm_swap. now constructor.
Qed.

Lemma Array_sort_strings_perm l : Permutation l (Array_sort_strings l).
Proof.
  induction l as [|x l IH]; cbn; [constructor|].
  rewrite <- sort_insert_string_perm. now constructor.
Qed.

Lemma FOP4 {A} (R : A -> A -> Prop) a b c d :
  R a b -> R a c -> R a d -> R b c -> R b d -> R c d ->
  ForallOrdPairs R [a; b; c; d].
Proof. intros. repeat (constructor; [repeat constructor; assumption|]). constructor. Qed.

Lemma StronglySorted4 {A} (R : A -> A -> Prop) a b c d :
  R a b -> R a c -> R a d -> R b c -> R b d -> R c d ->
  StronglySorted R [a; b; c; d].
Proof. intros. repeat (constructor; [|repeat constructor; assumption]). constructor. Qed.

(** ** Division by a zero baseline *)

Lemma percentage_zero_divisor x c :
  is_zero c = true ->
  let p := round2 (fmul (fdiv x c) hundred) in
  (is_zero x = true -> p = NaN) /\
  (is_zero x = false -> is_nan x = false -> is_infinite p = true).
Proof.
  intros Hc. destruct c as [sc| | |]; try discriminate Hc.
  destruct x as [s|s| |s m e]; cbn zeta; split; intros H1; try discriminate H1;
    try (intros H2; try discriminate H2); destruct s, sc; reflexivity.
Qed.

Lemma fmul_NaN_r x : fmul x NaN = NaN.
Proof. destruct x; reflexivity. Qed.

Lemma nonneg_of_ge_zero x :
  well_formed x = true -> fleb pos_zero x = true -> nonneg x = true.
Proof.
  intros W L. destruct x as [s|[]| |[] m e]; try discriminate L; try reflexivity.
  exact W.
Qed.

Lemma ltb_not_eqb a b : fltb a b = true -> SFeqb a b = false.
Proof.
  unfold fltb, SFltb, SFeqb. destruct (SFcompare a b) as [[]|]; intros H;
    try discriminate H; reflexivity.
Qed.

(** ** The registry *)

Lemma registered_coords name :
  registered name ->
  exists lat lng,
    own_property ROUTES_DATA name = Some (VCoords lat lng) /\
    is_finite lat = true /\ is_finite lng = true /\ is_finite (radians lat) = true.
Proof.
  unfold registered. cbn [Object_keys map fst ROUTES_DATA]. intros H.
  repeat (destruct H as [<-|H];
          [eexists _, _; split; [reflexivity|]; repeat split; reflexivity|]).
  contradiction.
Qed.

Lemma findDistance_registered M A B latA lngA latB lngB :
  own_property ROUTES_DATA A = Some (VCoords latA lngA) ->
  own_property ROUTES_DATA B = Some (VCoords latB lngB) ->
  findDistance M A B =
  VNumber (round_to_cents (binary64 M)
             (haversineDistance (binary64 M) latA lngA latB lngB)).
Proof.
  intros HA HB. unfold findDistance, get. rewrite HA, HB. reflexivity.
Qed.

(** A name that is neither in the registry nor on the prototype gives
    [null], whatever the other name is. *)
Lemma findDistance_unknown_origin M A B :
  own_property ROUTES_DATA A = None -> inherited A = false ->
  findDistance M A B = VNull.
Proof.
  intros HA HI. unfold findDistance, get. rewrite HA, HI. reflexivity.
Qed.

Lemma findDistance_unknown_destination M A B :
  own_property ROUTES_DATA B = None -> inherited B = false ->
  findDistance M A B = VNull.
Proof.
  intros HB HI. unfold findDistance. unfold get at 2. rewrite HB, HI.
  cbn [ToBoolean negb]. now rewrite orb_true_r.
Qed.

Lemma getAllCities_value :
  getAllCities =
  ["Belo Horizonte"; "Belém"; "Brasília"; "Campinas"; "Curitiba";
   "Fortaleza"; "Goiânia"; "Manaus"; "Porto Alegre"; "Recife";
   "Rio de Janeiro"; "Salvador"; "Santos"; "Sorocaba"; "São Paulo"].
Proof. vm_compute. reflexivity. Qed.

End StatementLemmas.

Section RealReading.
Local Open Scope R_scope.

Lemma real_literal z : op_literal real z 0%nat = IZR z.
Proof. cbn [op_literal real]. change (10 ^ Z.of_nat 0)%Z with 1%Z. field. Qed.

Lemma haversineDistance_real lat1 lon1 lat2 lon2 :
  haversineDistance real lat1 lon1 lat2 lon2 = haversine_formula lat1 lon1 lat2 lon2.
Proof.
  unfold haversineDistance, haversine_formula, to_radians.
  rewrite !real_literal. cbn [real op_add op_sub op_mul op_div op_PI op_sin op_cos
    op_sqrt op_atan2]. unfold Rsqr.
  cbv zeta. f_equal. f_equal.
  assert (E : forall p s : R, p * s * s = p * (s * s)) by (intros; ring).
  rewrite E. reflexivity.
Qed.

Lemma round_to_cents_real x : round_to_cents real x = round_2_decimals x.
Proof.
  unfold round_to_cents, round_2_decimals. rewrite !real_literal.
  reflexivity.
Qed.

End RealReading.

Section Statements.
Local Open Scope string_scope.
Local Open Scope Z_scope.

(** C1, as amended.  For every distance whose car emission is 0, the
    comparison has no division-by-zero guard: the [percentageVsCar] of an
    entry is NaN when the entry's own emission is 0, and is an infinity
    when its emission is a non-zero number.  It is never 0 and never a
    sentinel. *)
Theorem calculateAllModes_zero_baseline d :
  is_zero (calculateEmission d "car") = true ->
  Forall percentage_at_zero_baseline (calculateAllModes d).
Proof.
  intros Hc. rewrite calculateAllModes_unfold. apply Forall_Array_sort.
  repeat constructor; apply percentage_zero_divisor; exact Hc.
Qed.

(** C1 fails as stated: at distance 0 the car emission is 0 and every
    entry has the percentage NaN. *)
Lemma calculateAllModes_zero_distance :
  is_zero (calculateEmission pos_zero "car") = true /\
  map percentageVsCar (calculateAllModes pos_zero) = [NaN; NaN; NaN; NaN].
Proof. split; reflexivity. Qed.

Lemma calculateAllModes_zero_baseline_witness :
  is_zero (calculateEmission (decimal 1 2) "car") = true /\
  Forall percentage_at_zero_baseline (calculateAllModes (decimal 1 2)).
Proof.
  split; [reflexivity|]. apply calculateAllModes_zero_baseline. reflexivity.
Defined.

(** C2, on the code.  The name "toString" has no entry in the registry,
    "Salvador" has one, and [findDistance] of the two returns a number,
    not [null]: the lookup [ROUTES_DATA[origin]] finds the member the
    registry object inherits from [Object.prototype]. *)
Theorem findDistance_inherited_name M :
  own_property ROUTES_DATA "toString" = None /\
  own_property ROUTES_DATA "Salvador" <> None /\
  exists n, findDistance M "toString" "Salvador" = VNumber n.
Proof.
  split; [reflexivity|]. split; [discriminate|].
  eexists. reflexivity.
Qed.

(** C4.  For every two registered cities A and B, [findDistance(A, B)]
    equals [findDistance(B, A)], and [findDistance(A, A)] is 0.  The
    engine's [Math] library is taken with an odd sine, [sin(+0) = +0],
    [atan2(+0, 1) = +0] and a cosine that returns a binary64 value of
    magnitude at most 1 on finite arguments. *)
Theorem findDistance_symmetric M :
  (forall x, Math_sin M (fneg x) = fneg (Math_sin M x)) ->
  Math_sin M pos_zero = pos_zero ->
  Math_atan2 M pos_zero one = pos_zero ->
  (forall x, is_finite x = true ->
     well_formed (Math_cos M x) = true /\ fleb (SFabs (Math_cos M x)) one = true) ->
  forall A B, registered A -> registered B ->
  findDistance M A B = findDistance M B A /\
  findDistance M A A = VNumber pos_zero.
Proof.
  intros Hodd Hsin Hatan Hcos A B RA RB.
  destruct (registered_coords A RA) as (latA & lngA & HA & FA & FA' & FA'').
  destruct (registered_coords B RB) as (latB & lngB & HB & _).
  rewrite (findDistance_registered M A B _ _ _ _ HA HB).
  rewrite (findDistance_registered M B A _ _ _ _ HB HA).
  rewrite (findDistance_registered M A A _ _ _ _ HA HA).
  split.
  - now rewrite (haversineDistance_sym M Hodd latA lngA latB lngB).
  - now rewrite (haversineDistance_same M Hsin Hatan Hcos latA lngA FA FA' FA'').
Qed.

Lemma findDistance_symmetric_witness :
  findDistance small_angle "Santos" "Recife" =
    findDistance small_angle "Recife" "Santos" /\
  findDistance small_angle "Santos" "Santos" = VNumber pos_zero.
Proof.
  apply (findDistance_symmetric small_angle).
  - intros x. reflexivity.
  - reflexivity.
  - reflexivity.
  - intros x _. split; reflexivity.
  - unfold registered. cbn. tauto.
  - unfold registered. cbn. tauto.
Defined.

(** C5, as amended.  For every finite distance > 0, [calculateAllModes]
    returns its entries sorted ascending by emission, no entry of a
    zero-factor mode stands behind an entry of a non-zero factor, and two
    entries of equal emission stand in the order of the mode
    enumeration. *)
Theorem calculateAllModes_ranking d :
  well_formed d = true -> is_finite d = true -> fgtb d pos_zero = true ->
  StronglySorted emission_le (calculateAllModes d) /\
  ForallOrdPairs zero_factor_first (calculateAllModes d) /\
  ForallOrdPairs tie_in_order (calculateAllModes d).
Proof.
  intros W F G.
  assert (P := posfin_of_positive d W F G).
  assert (EB := emission_bicycle d P).
  assert (NC : nonneg (calculateEmission d "car") = true)
    by (apply emission_nonneg; cbn; auto).
  assert (NU : nonneg (calculateEmission d "bus") = true)
    by (apply emission_nonneg; cbn; auto).
  assert (NT : nonneg (calculateEmission d "truck") = true)
    by (apply emission_nonneg; cbn; auto).
  assert (L1 := emission_bus_le_car d P). assert (L2 := emission_car_le_truck d P).
  assert (L3 : fleb (calculateEmission d "bus") (calculateEmission d "truck") = true)
    by (apply (leb_trans _ (calculateEmission d "car")); auto).
  assert (Z : forall x, nonneg x = true -> fleb (calculateEmission d "bicycle") x = true).
  { intros x Hx. rewrite EB. now apply leb_zero_l. }
  assert (ZF : forall m, zero_factor_first (entry d "bicycle") (entry d m)).
  { intros m _. reflexivity. }
  assert (NZ : forall a m, In m ["car"; "bus"; "truck"] ->
                 zero_factor_first (entry d a) (entry d m)).
  { intros a m Hm H. exfalso. cbn [In] in Hm.
    destruct Hm as [<-|[<-|[<-|[]]]]; discriminate H. }
  destruct (ranking d P) as [[-> LT]|[-> LE]].
  - split; [|split].
    + apply StronglySorted4; unfold emission_le; cbn [entry emission]; auto.
    + apply FOP4; auto; apply NZ; cbn; auto.
    + apply FOP4; unfold tie_in_order; cbn [entry emission mode];
        try (intros _; apply Nat.ltb_lt; reflexivity).
      intros H. rewrite (ltb_not_eqb _ _ LT) in H. discriminate H.
  - split; [|split].
    + apply StronglySorted4; unfold emission_le; cbn [entry emission]; auto.
    + apply FOP4; auto; apply NZ; cbn; auto.
    + apply FOP4; unfold tie_in_order; cbn [entry emission mode];
        intros _; apply Nat.ltb_lt; reflexivity.
Qed.

(** C5 fails as stated: the distance Infinity is > 0, the emission of the
    zero-factor mode is then NaN, and the entries are not sorted. *)
Lemma calculateAllModes_infinite_distance :
  fgtb pos_infinity pos_zero = true /\
  ~ StronglySorted emission_le (calculateAllModes pos_infinity).
Proof.
  split; [reflexivity|]. intros H.
  change (calculateAllModes pos_infinity) with
    [entry pos_infinity "bicycle"; entry pos_infinity "car";
     entry pos_infinity "bus"; entry pos_infinity "truck"] in H.
  inversion H as [|a l _ HF]; subst. inversion HF as [|b l' Hab _]; subst.
  discriminate Hab.
Qed.

Lemma calculateAllModes_ranking_witness :
  StronglySorted emission_le (calculateAllModes (decimal 100 0)) /\
  ForallOrdPairs zero_factor_first (calculateAllModes (decimal 100 0)) /\
  ForallOrdPairs tie_in_order (calculateAllModes (decimal 100 0)).
Proof. apply (calculateAllModes_ranking (decimal 100 0)); reflexivity. Defined.

(** C6, on the code.  [getAllCities] returns all the registered names,
    sorted by UTF-16 code units, which is not alphabetical order: "Belém"
    comes after "Belo Horizonte" and "São Paulo" after "Sorocaba". *)
Theorem getAllCities_code_unit_order :
  Permutation (Object_keys ROUTES_DATA) getAllCities /\
  sortedb string_leb getAllCities = true /\
  sortedb alphabetical_leb getAllCities = false /\
  alphabetical_leb "Belo Horizonte" "Belém" = false /\
  alphabetical_leb "Sorocaba" "São Paulo" = false.
Proof.
  split; [apply Array_sort_strings_perm|].
  repeat split; vm_compute; reflexivity.
Qed.



(** C8 fails as stated: 11.999 < 12, the baseline 12 is not zero, and
    [savedKg] is 0, not > 0. *)
Lemma calculateSavings_small_difference :
  fltb (decimal 11999 3) (decimal 12 0) = true /\
  is_zero (decimal 12 0) = false /\
  savedKg (calculateSavings (decimal 11999 3) (decimal 12 0)) = pos_zero /\
  fgtb (savedKg (calculateSavings (decimal 11999 3) (decimal 12 0))) pos_zero = false.
Proof. repeat split. Qed.

(** C9.  For every distance and every mode string that has no entry in
    the emission-factor table, [calculateEmission] returns NaN. *)
Theorem calculateEmission_unknown_mode d mode :
  own_property CONFIG.EMISSION_FACTORS mode = None ->
  calculateEmission d mode = NaN.
Proof.
  intros H. unfold calculateEmission, get. rewrite H.
  destruct (inherited mode); cbn [ToNumber]; rewrite fmul_NaN_r; reflexivity.
Qed.

Lemma calculateEmission_unknown_mode_witness :
  calculateEmission (decimal 100 0) "plane" = NaN /\
  calculateEmission (decimal 100 0) "valueOf" = NaN.
Proof.
  split; apply calculateEmission_unknown_mode; reflexivity.
Defined.

End Statements.

(** * Part V: further properties of the calculator *)

Section OrderFacts.
Local Open Scope string_scope.
Local Open Scope Z_scope.

Lemma nonneg_le_zero x z :
  nonneg x = true -> is_zero z = true -> fleb x z = true -> is_zero x = true.
Proof.
  intros N Z L. destruct z as [sz| | |]; try discriminate Z.
  destruct x as [s|[]| |[] m e]; try discriminate N; try discriminate L; reflexivity.
Qed.

Lemma ge_nonneg a b :
  nonneg a = true -> well_formed b = true -> fleb a b = true -> nonneg b = true.
Proof.
  intros N W L.
  destruct b as [sb|[]| |[] mb eb]; try reflexivity; try exact W;
    destruct a as [sa|[]| |[] ma ea]; try discriminate N; discriminate L.
Qed.

Lemma le_finite a b :
  nonneg a = true -> fleb a b = true -> is_finite b = true -> is_finite a = true.
Proof.
  intros N L F.
  destruct a as [sa|[]| |[] ma ea]; try discriminate N; try reflexivity;
    destruct b as [sb|[]| |[] mb eb]; try discriminate F; discriminate L.
Qed.

Lemma ge_zero_leb x : nonneg x = true -> fleb pos_zero x = true.
Proof. intros N. now apply leb_zero_l. Qed.

Lemma gt_zero_of_ge a x :
  posfin a = true -> nonneg x = true -> fleb a x = true -> fgtb x pos_zero = true.
Proof.
  intros P N L. nonneg_cases a.
  destruct x as [s|[]| |[] m' e']; try discriminate N; try discriminate L; reflexivity.
Qed.

Lemma is_zero_nonneg x : is_zero x = true -> nonneg x = true.
Proof. destruct x; try discriminate; reflexivity. Qed.

Lemma fmul_zero_r d :
  is_finite d = true -> is_nan d = false -> is_zero (fmul d pos_zero) = true.
Proof. destruct d as [s|s| |s m e]; try discriminate; reflexivity. Qed.

Lemma round2_zero x : is_zero x = true -> is_zero (round2 x) = true.
Proof. destruct x as [[]| | |]; try discriminate; reflexivity. Qed.

Lemma factor_cases mode :
  In mode (Object_keys CONFIG.EMISSION_FACTORS) ->
  factor mode = pos_zero \/ posfin (factor mode) = true.
Proof.
  cbn [Object_keys map fst CONFIG.EMISSION_FACTORS In].
  intros [<-|[<-|[<-|[<-|[]]]]]; [left|right..]; reflexivity.
Qed.

Lemma emission_nonneg_any d mode :
  In mode (Object_keys CONFIG.EMISSION_FACTORS) ->
  nonneg d = true -> is_finite d = true ->
  nonneg (calculateEmission d mode) = true.
Proof.
  intros Hm N F. rewrite calculateEmission_factor.
  destruct (factor_cases mode Hm) as [->|P].
  - apply is_zero_nonneg, round2_zero, fmul_zero_r; [exact F|].
    destruct d; try discriminate; reflexivity.
  - apply round2_nonneg, mul_nonneg; assumption.
Qed.

Lemma emission_mono d1 d2 mode :
  In mode (Object_keys CONFIG.EMISSION_FACTORS) ->
  nonneg d1 = true -> nonneg d2 = true -> is_finite d2 = true ->
  fleb d1 d2 = true ->
  fleb (calculateEmission d1 mode) (calculateEmission d2 mode) = true.
Proof.
  intros Hm N1 N2 F2 L.
  assert (F1 := le_finite _ _ N1 L F2).
  assert (E2 := emission_nonneg_any d2 mode Hm N2 F2).
  rewrite calculateEmission_factor in *.
  destruct (factor_cases mode Hm) as [->|P].
  - apply leb_zero_l; [|exact E2].
    apply round2_zero, fmul_zero_r; [exact F1|].
    destruct d1; try discriminate; reflexivity.
  - apply round2_mono; try (apply mul_nonneg; assumption).
    now apply mul_mono.
Qed.

End OrderFacts.

Section CalculatorProperties.
Local Open Scope string_scope.
Local Open Scope Z_scope.

(** X1.  For every transport mode of the table, the emission of a finite
    distance >= 0 is a number >= 0, and a longer distance never has a
    smaller emission. *)
Theorem calculateEmission_monotone d1 d2 mode :
  In mode (Object_keys CONFIG.EMISSION_FACTORS) ->
  well_formed d1 = true -> well_formed d2 = true -> is_finite d2 = true ->
  fleb pos_zero d1 = true -> fleb d1 d2 = true ->
  fleb pos_zero (calculateEmission d1 mode) = true /\
  fleb (calculateEmission d1 mode) (calculateEmission d2 mode) = true.
Proof.
  intros Hm W1 W2 F2 G L.
  assert (N1 := nonneg_of_ge_zero d1 W1 G).
  assert (N2 := ge_nonneg d1 d2 N1 W2 L).
  split.
  - apply ge_zero_leb, emission_nonneg_any; try assumption.
    exact (le_finite _ _ N1 L F2).
  - now apply emission_mono.
Qed.

Lemma calculateEmission_monotone_witness :
  fleb pos_zero (calculateEmission (decimal 100 0) "bus") = true /\
  fleb (calculateEmission (decimal 100 0) "bus")
       (calculateEmission (decimal 4305 1) "bus") = true.
Proof.
  apply (calculateEmission_monotone (decimal 100 0) (decimal 4305 1) "bus");
    try reflexivity.
  cbn. tauto.
Defined.

(** X2.  The car emission of a distance between 0 and 0.041 km is 0, and from
    0.042 km on it is positive. *)
Theorem calculateEmission_car_threshold d :
  well_formed d = true -> fleb pos_zero d = true ->
  (fleb d (decimal 41 3) = true -> is_zero (calculateEmission d "car") = true) /\
  (fleb (decimal 42 3) d = true -> fgtb (calculateEmission d "car") pos_zero = true).
Proof.
  intros W G. assert (N := nonneg_of_ge_zero d W G).
  assert (Hm : In "car" (Object_keys CONFIG.EMISSION_FACTORS)) by (cbn; tauto).
  split; intros L.
  - assert (F := le_finite d (decimal 41 3) N L eq_refl).
    apply (nonneg_le_zero _ (calculateEmission (decimal 41 3) "car")).
    + now apply emission_nonneg_any.
    + reflexivity.
    + apply emission_mono; try assumption; reflexivity.
  - rewrite calculateEmission_factor.
    apply (gt_zero_of_ge (round2 (fmul (decimal 42 3) (factor "car")))).
    + reflexivity.
    + apply round2_nonneg, mul_nonneg; [exact N|reflexivity].
    + apply round2_mono; try (apply mul_nonneg; [|reflexivity]); try assumption;
        try reflexivity.
      apply mul_mono; try assumption; reflexivity.
Qed.

Lemma calculateEmission_car_threshold_witness :
  is_zero (calculateEmission (decimal 3 2) "car") = true.
Proof.
  apply (calculateEmission_car_threshold (decimal 3 2)); reflexivity.
Defined.

End CalculatorProperties.

Section SortFacts.
Local Open Scope string_scope.
Local Open Scope Z_scope.

Lemma sort_insert_perm {A} (cmp : A -> A -> number) x l :
  Permutation (x :: l) (sort_insert cmp x l).
Proof.
  induction l as [|y l IH]; cbn [sort_insert]; [reflexivity|].
  destruct (fgtb (cmp x y) pos_zero); [|reflexivity].
  rewrite perm_swap. now constructor.
Qed.

Lemma Array_sort_perm {A} (cmp : A -> A -> number) l :
  Permutation l (Array_sort cmp l).
Proof.
  unfold Array_sort. induction l as [|x l IH]; cbn [fold_right]; [constructor|].
  rewrite <- sort_insert_perm. now constructor.
Qed.

Lemma calculateAllModes_perm d :
  Permutation (map (entry d) (Object_keys CONFIG.EMISSION_FACTORS))
              (calculateAllModes d).
Proof. rewrite calculateAllModes_unfold. apply Array_sort_perm. Qed.

Lemma calculateAllModes_In d en :
  In en (calculateAllModes d) ->
  exists m, In m (Object_keys CONFIG.EMISSION_FACTORS) /\ en = entry d m.
Proof.
  intros H. apply (Permutation_in _ (Permutation_sym (calculateAllModes_perm d))) in H.
  apply in_map_iff in H. destruct H as (m & <- & Hm). now exists m.
Qed.

End SortFacts.

Section DivisionFacts.
Local Open Scope string_scope.
Local Open Scope Z_scope.

(** A positive finite number divided by itself is 1. *)
Lemma fdiv_self c : posfin c = true -> fdiv c c = one.
Proof.
  intros P. nonneg_cases c.
  assert (D := div_sem false m e false m e). cbn [xorb] in D.
  assert (E : (Qval m e / Qval m e == Qval 4503599627370496 (-52))%Q).
  { assert (Q := Qval_pos m e).
    assert (E1 : (Qval 4503599627370496 (-52) == 1)%Q) by reflexivity.
    rewrite E1. field. lra. }
  apply (rounds_to_unique false _ _ _ _ E D).
  apply rounds_to_exact. reflexivity.
Qed.

Lemma pct_nonneg e c :
  nonneg e = true -> posfin c = true ->
  nonneg (round2 (fmul (fdiv e c) hundred)) = true.
Proof.
  intros N P. apply round2_nonneg, mul_nonneg; [|reflexivity].
  now apply div_nonneg.
Qed.

Lemma pct_mono e1 e2 c :
  nonneg e1 = true -> nonneg e2 = true -> posfin c = true ->
  fleb e1 e2 = true ->
  fleb (round2 (fmul (fdiv e1 c) hundred)) (round2 (fmul (fdiv e2 c) hundred)) = true.
Proof.
  intros N1 N2 P L.
  apply round2_mono; try (apply mul_nonneg; [now apply div_nonneg|reflexivity]).
  apply mul_mono; try (now apply div_nonneg); [reflexivity|].
  now apply div_mono.
Qed.

(** The difference of two non-negative numbers, the larger one finite. *)
Lemma sub_x a b :
  nonneg a = true -> nonneg b = true -> is_finite a = true -> fleb b a = true ->
  (0 <= qval a - qval b)%Q /\ xrounds (Some (qval a - qval b)%Q) (fsub a b).
Proof.
  intros Na Nb Fa L.
  destruct a as [sa|[]| |[] ma ea]; try discriminate Na; try discriminate Fa.
  - assert (Zb := nonneg_le_zero b (S754_zero sa) Nb eq_refl L).
    destruct b as [sb| | |]; try discriminate Zb. cbn [qval]. split; [lra|].
    left. split; [ring|]. destruct sa, sb; reflexivity.
  - cbn [nonneg negb andb] in Na.
    destruct b as [sb|[]| |[] mb eb]; try discriminate Nb; try discriminate L.
    + cbn [qval]. assert (Q := Qval_pos ma ea). split; [lra|].
      right. split; [lra|].
      apply (rounds_to_comp false (Qval ma ea)); [ring|].
      change (fsub (S754_finite false ma ea) (S754_zero sb))
        with (S754_finite false ma ea).
      now apply rounds_to_exact.
    + cbn [nonneg negb andb] in Nb. cbn [qval].
      assert (LQ := leb_Qval_le _ _ _ _ Nb Na L).
      split; [lra|].
      unfold fsub, SFsub. cbn [cond_Zopp].
      set (ez := Z.min ea eb).
      assert (Ax := aligned_val ma ea ez ltac:(unfold ez; lia)).
      assert (Ay := aligned_val mb eb ez ltac:(unfold ez; lia)).
      set (x := fst (shl_align ma ea ez)) in *.
      set (y := fst (shl_align mb eb ez)) in *.
      assert (Pz := pow2_pos ez).
      assert (S := binary_normalize_sem (Z.pos x - Z.pos y) ez).
      assert (V : (Qval ma ea - Qval mb eb == inject_Z (Z.pos x - Z.pos y) * pow2 ez)%Q).
      { unfold Z.sub. rewrite inject_Z_plus, inject_Z_opp. rewrite <- Ax, <- Ay. ring. }
      destruct (Z.pos x - Z.pos y) as [|p|p] eqn:E.
      * left. split; [|rewrite S; reflexivity].
        change (inject_Z 0) with 0%Q in V. lra.
      * right. assert (Q := Qval_pos p ez). unfold Qval in Q. split; [lra|].
        apply (rounds_to_comp false (Qval p ez)); [|exact S].
        unfold Qval. now rewrite V.
      * exfalso.
        assert (Q1 : (inject_Z (Z.neg p) < 0)%Q)
          by (change 0%Q with (inject_Z 0); rewrite <- Zlt_Qlt; lia).
        assert (Q2 : (inject_Z (Z.neg p) * pow2 ez < 0)%Q).
        { setoid_replace 0%Q with (0 * pow2 ez)%Q by ring.
          apply Qmult_lt_compat_r; assumption. }
        lra.
Qed.

Lemma xval_qval a : is_finite a = true -> xval a = Some (qval a).
Proof. destruct a; try discriminate; reflexivity. Qed.

Lemma qval_nonneg a : (0 <= qval a)%Q.
Proof. destruct a; cbn [qval]; try lra. apply Qlt_le_weak, Qval_pos. Qed.

Lemma sub_nonneg a b :
  nonneg a = true -> nonneg b = true -> is_finite a = true -> fleb b a = true ->
  nonneg (fsub a b) = true.
Proof.
  intros Na Nb Fa L. destruct (sub_x a b Na Nb Fa L) as [_ X].
  exact (xrounds_nonneg _ _ X).
Qed.

Lemma sub_le a b :
  nonneg a = true -> nonneg b = true -> is_finite a = true -> fleb b a = true ->
  fleb (fsub a b) a = true.
Proof.
  intros Na Nb Fa L. destruct (sub_x a b Na Nb Fa L) as [_ X].
  apply (xrounds_mono _ _ _ _ X (xrounds_self a Na)).
  rewrite (xval_qval a Fa). cbn [xle]. assert (Q := qval_nonneg b). lra.
Qed.

End DivisionFacts.

Section ComparisonProperties.
Local Open Scope string_scope.
Local Open Scope Z_scope.

(** X3.  For every distance, NaN and negative ones included, the comparison
    holds one entry for each mode of the table and nothing else: the
    entries pushed in enumeration order, permuted by the sort. *)
Theorem calculateAllModes_entries d :
  Permutation (map (entry d) (Object_keys CONFIG.EMISSION_FACTORS))
              (calculateAllModes d) /\
  Permutation (Object_keys CONFIG.EMISSION_FACTORS)
              (map mode (calculateAllModes d)).
Proof.
  split; [apply calculateAllModes_perm|].
  rewrite <- (calculateAllModes_perm d). reflexivity.
Qed.

(** X4.  Whenever the car emission is a positive finite number, the entry of
    the car has [percentageVsCar] 100. *)
Theorem calculateAllModes_car_percentage d en :
  posfin (calculateEmission d "car") = true ->
  In en (calculateAllModes d) -> mode en = "car" ->
  percentageVsCar en = hundred.
Proof.
  intros P H Hm. destruct (calculateAllModes_In d en H) as (m & _ & ->).
  cbn [entry mode] in Hm. subst m. cbn [entry percentageVsCar].
  rewrite (fdiv_self _ P). reflexivity.
Qed.

Lemma calculateAllModes_car_percentage_witness :
  percentageVsCar (entry (decimal 100 0) "car") = hundred.
Proof.
  apply (calculateAllModes_car_percentage (decimal 100 0));
    [reflexivity|vm_compute; tauto|reflexivity].
Defined.

(** X5.  For every finite distance > 0 whose car emission is not 0, the
    entries are ascending by [percentageVsCar] as well. *)
Theorem calculateAllModes_sorted_by_percentage d :
  well_formed d = true -> is_finite d = true -> fgtb d pos_zero = true ->
  posfin (calculateEmission d "car") = true ->
  StronglySorted percentage_le (calculateAllModes d).
Proof.
  intros W F G PC.
  assert (P := posfin_of_positive d W F G).
  assert (EB := emission_bicycle d P).
  assert (NB : nonneg (calculateEmission d "bicycle") = true) by now rewrite EB.
  assert (NC : nonneg (calculateEmission d "car") = true)
    by (apply emission_nonneg; cbn; auto).
  assert (NU : nonneg (calculateEmission d "bus") = true)
    by (apply emission_nonneg; cbn; auto).
  assert (NT : nonneg (calculateEmission d "truck") = true)
    by (apply emission_nonneg; cbn; auto).
  assert (L1 := emission_bus_le_car d P). assert (L2 := emission_car_le_truck d P).
  assert (L3 : fleb (calculateEmission d "bus") (calculateEmission d "truck") = true)
    by (apply (leb_trans _ (calculateEmission d "car")); auto).
  assert (Z : forall x, nonneg x = true -> fleb (calculateEmission d "bicycle") x = true).
  { intros x Hx. rewrite EB. now apply leb_zero_l. }
  destruct (ranking d P) as [[-> LT]|[-> LE]];
    apply StronglySorted4; unfold percentage_le; cbn [entry percentageVsCar];
    apply pct_mono; auto.
Qed.

Lemma calculateAllModes_sorted_by_percentage_witness :
  StronglySorted percentage_le (calculateAllModes (decimal 100 0)).
Proof.
  apply (calculateAllModes_sorted_by_percentage (decimal 100 0)); reflexivity.
Defined.



(** X7.  For every positive finite baseline and every emission between 0 and
    the baseline, [savedKg] lies between 0 and the rounded baseline and
    [percentage] between 0 and 100. *)
Theorem calculateSavings_range emission baseline :
  well_formed emission = true -> well_formed baseline = true ->
  is_finite baseline = true -> fgtb baseline pos_zero = true ->
  fleb pos_zero emission = true -> fleb emission baseline = true ->
  let r := calculateSavings emission baseline in
  fleb pos_zero (savedKg r) = true /\ fleb (savedKg r) (round2 baseline) = true /\
  fleb pos_zero (percentage r) = true /\ fleb (percentage r) hundred = true.
Proof.
  intros We Wb F G Ge L. cbn zeta.
  assert (P := posfin_of_positive _ Wb F G).
  assert (Nb := posfin_nonneg _ P).
  assert (Ne := nonneg_of_ge_zero _ We Ge).
  assert (NS := sub_nonneg baseline emission Nb Ne F L).
  assert (LS := sub_le baseline emission Nb Ne F L).
  unfold calculateSavings. cbn [savedKg percentage].
  repeat split.
  - apply ge_zero_leb, round2_nonneg, NS.
  - now apply round2_mono.
  - apply ge_zero_leb, pct_nonneg; assumption.
  - assert (M := pct_mono _ _ baseline NS Nb P LS).
    rewrite (fdiv_self _ P) in M. exact M.
Qed.

Lemma calculateSavings_range_witness :
  let r := calculateSavings (decimal 89 1) (decimal 12 0) in
  fleb pos_zero (savedKg r) = true /\ fleb (savedKg r) (round2 (decimal 12 0)) = true /\
  fleb pos_zero (percentage r) = true /\ fleb (percentage r) hundred = true.
Proof.
  apply (calculateSavings_range (decimal 89 1) (decimal 12 0)); reflexivity.
Defined.

End ComparisonProperties.

Section SavingsByMode.
Local Open Scope string_scope.
Local Open Scope Z_scope.

(** X8.  Against the car emission of the same finite distance > 0 as
    baseline, the bicycle and the bus never have a negative [savedKg],
    and the truck never has a positive one. *)
Theorem calculateSavings_by_mode d :
  well_formed d = true -> is_finite d = true -> fgtb d pos_zero = true ->
  is_finite (calculateEmission d "car") = true ->
  let car := calculateEmission d "car" in
  fleb pos_zero (savedKg (calculateSavings (calculateEmission d "bicycle") car)) = true /\
  fleb pos_zero (savedKg (calculateSavings (calculateEmission d "bus") car)) = true /\
  fgtb (savedKg (calculateSavings (calculateEmission d "truck") car)) pos_zero = false.
Proof.
  intros W F G FC. cbn zeta.
  assert (P := posfin_of_positive d W F G).
  assert (NC : nonneg (calculateEmission d "car") = true)
    by (apply emission_nonneg; cbn; auto).
  assert (NU : nonneg (calculateEmission d "bus") = true)
    by (apply emission_nonneg; cbn; auto).
  assert (NT : nonneg (calculateEmission d "truck") = true)
    by (apply emission_nonneg; cbn; auto).
  assert (L1 := emission_bus_le_car d P). assert (L2 := emission_car_le_truck d P).
  unfold calculateSavings. cbn [savedKg]. repeat split.
  - apply ge_zero_leb, round2_nonneg, sub_nonneg; auto.
    + rewrite (emission_bicycle d P). reflexivity.
    + rewrite (emission_bicycle d P). now apply leb_zero_l.
  - apply ge_zero_leb, round2_nonneg, sub_nonneg; auto.
  - destruct (fgtb (round2 _) pos_zero) eqn:E; [|reflexivity].
    apply round2_gt_zero in E. rewrite sub_gt_iff in E by assumption.
    now rewrite (leb_ltb_false _ _ NC NT L2) in E.
Qed.

Lemma calculateSavings_by_mode_witness :
  let car := calculateEmission (decimal 4305 1) "car" in
  fleb pos_zero
    (savedKg (calculateSavings (calculateEmission (decimal 4305 1) "bicycle") car)) = true /\
  fleb pos_zero
    (savedKg (calculateSavings (calculateEmission (decimal 4305 1) "bus") car)) = true /\
  fgtb (savedKg (calculateSavings (calculateEmission (decimal 4305 1) "truck") car))
       pos_zero = false.
Proof. apply (calculateSavings_by_mode (decimal 4305 1)); reflexivity. Defined.

End SavingsByMode.

Section CreditProperties.
Local Open Scope string_scope.
Local Open Scope Z_scope.

Lemma credits_nonneg e : nonneg e = true -> nonneg (calculateCarbonCredits e) = true.
Proof.
  intros N. unfold calculateCarbonCredits.
  apply round2_nonneg, div_nonneg; [exact N|reflexivity].
Qed.

Lemma credits_mono e1 e2 :
  nonneg e1 = true -> nonneg e2 = true -> fleb e1 e2 = true ->
  fleb (calculateCarbonCredits e1) (calculateCarbonCredits e2) = true.
Proof.
  intros N1 N2 L. unfold calculateCarbonCredits.
  apply round2_mono; try (apply div_nonneg; [assumption|reflexivity]).
  apply div_mono; try assumption; reflexivity.
Qed.

(** X9.  For every emission >= 0 the number of credits is >= 0, and a larger
    emission never needs fewer credits. *)
Theorem calculateCarbonCredits_monotone e1 e2 :
  well_formed e1 = true -> well_formed e2 = true ->
  fleb pos_zero e1 = true -> fleb e1 e2 = true ->
  fleb pos_zero (calculateCarbonCredits e1) = true /\
  fleb (calculateCarbonCredits e1) (calculateCarbonCredits e2) = true.
Proof.
  intros W1 W2 G L.
  assert (N1 := nonneg_of_ge_zero e1 W1 G).
  assert (N2 := ge_nonneg e1 e2 N1 W2 L).
  split; [apply ge_zero_leb, credits_nonneg, N1|now apply credits_mono].
Qed.

Lemma calculateCarbonCredits_monotone_witness :
  fleb pos_zero (calculateCarbonCredits (decimal 1200 0)) = true /\
  fleb (calculateCarbonCredits (decimal 1200 0))
       (calculateCarbonCredits (decimal 41328 1)) = true.
Proof.
  apply (calculateCarbonCredits_monotone (decimal 1200 0) (decimal 41328 1));
    reflexivity.
Defined.

(** X10.  An emission between 0 and 4.99 kg needs 0 credits, and its three
    price estimates are 0; from 5 kg on the number of credits is
    positive. *)
Theorem calculateCarbonCredits_threshold e :
  well_formed e = true -> fleb pos_zero e = true ->
  (fleb e (decimal 499 2) = true ->
   let p := estimateCreditPrice (calculateCarbonCredits e) in
   is_zero (calculateCarbonCredits e) = true /\
   is_zero (min p) = true /\ is_zero (average p) = true /\ is_zero (max p) = true) /\
  (fleb (decimal 5 0) e = true -> fgtb (calculateCarbonCredits e) pos_zero = true).
Proof.
  intros W G. assert (N := nonneg_of_ge_zero e W G). split; intros L.
  - assert (Z : is_zero (calculateCarbonCredits e) = true).
    { apply (nonneg_le_zero _ (calculateCarbonCredits (decimal 499 2))).
      - now apply credits_nonneg.
      - reflexivity.
      - apply credits_mono; try assumption; reflexivity. }
    cbn zeta. split; [exact Z|].
    destruct (calculateCarbonCredits e) as [[]| | |]; try discriminate Z;
      repeat split.
  - apply (gt_zero_of_ge (calculateCarbonCredits (decimal 5 0))).
    + reflexivity.
    + now apply credits_nonneg.
    + apply credits_mono; try assumption; reflexivity.
Qed.

Lemma calculateCarbonCredits_threshold_witness :
  fgtb (calculateCarbonCredits (decimal 1152 2)) pos_zero = true.
Proof.
  apply (calculateCarbonCredits_threshold (decimal 1152 2)); reflexivity.
Defined.

(** X11.  For every number of credits >= 0, more credits never get a lower
    minimum, average or maximum price. *)
Theorem estimateCreditPrice_monotone c1 c2 :
  well_formed c1 = true -> well_formed c2 = true ->
  fleb pos_zero c1 = true -> fleb c1 c2 = true ->
  let p1 := estimateCreditPrice c1 in
  let p2 := estimateCreditPrice c2 in
  fleb pos_zero (min p1) = true /\
  fleb (min p1) (min p2) = true /\
  fleb (average p1) (average p2) = true /\
  fleb (max p1) (max p2) = true.
Proof.
  intros W1 W2 G L. cbn zeta.
  assert (N1 := nonneg_of_ge_zero c1 W1 G).
  assert (N2 := ge_nonneg c1 c2 N1 W2 L).
  unfold estimateCreditPrice. cbn [min max average].
  assert (A1 := price_mn_nonneg c1 N1). assert (A2 := price_mn_nonneg c2 N2).
  assert (B1 := price_mx_nonneg c1 N1). assert (B2 := price_mx_nonneg c2 N2).
  assert (LA : fleb (fmul c1 CONFIG.CARBON_CREDIT.PRICE_MIN_BRL)
                    (fmul c2 CONFIG.CARBON_CREDIT.PRICE_MIN_BRL) = true)
    by (apply mul_mono; try assumption; reflexivity).
  assert (LB : fleb (fmul c1 CONFIG.CARBON_CREDIT.PRICE_MAX_BRL)
                    (fmul c2 CONFIG.CARBON_CREDIT.PRICE_MAX_BRL) = true)
    by (apply mul_mono; try assumption; reflexivity).
  repeat split.
  - now apply ge_zero_leb, round2_nonneg.
  - now apply round2_mono.
  - apply round2_mono; try (apply div_nonneg; [now apply add_nonneg|reflexivity]).
    apply div_mono; try (now apply add_nonneg); [reflexivity|].
    now apply add_mono.
  - now apply round2_mono.
Qed.

Lemma estimateCreditPrice_monotone_witness :
  let p1 := estimateCreditPrice (decimal 12 1) in
  let p2 := estimateCreditPrice (decimal 413 2) in
  fleb pos_zero (min p1) = true /\
  fleb (min p1) (min p2) = true /\
  fleb (average p1) (average p2) = true /\
  fleb (max p1) (max p2) = true.
Proof.
  apply (estimateCreditPrice_monotone (decimal 12 1) (decimal 413 2)); reflexivity.
Defined.

End CreditProperties.

(** ** Further properties of the routes *)

Section RegistryFacts.
Local Open Scope string_scope.
Local Open Scope Z_scope.

Lemma own_property_In (o : object) key v :
  own_property o key = Some v -> In key (Object_keys o).
Proof.
  induction o as [|[k w] o IH]; cbn [own_property Object_keys map fst In];
    [discriminate|].
  destruct (String.eqb_spec k key) as [->|NE]; [now left|].
  intros H. right. now apply IH.
Qed.

Lemma In_own_property (o : object) key :
  In key (Object_keys o) -> exists v, own_property o key = Some v.
Proof.
  induction o as [|[k w] o IH]; cbn [own_property Object_keys map fst In];
    [contradiction|].
  destruct (String.eqb_spec k key) as [->|NE]; [now exists w|].
  intros [E|H]; [contradiction|now apply IH].
Qed.

(** A name resolves — [ROUTES_DATA[name]] is truthy — exactly when it
    is registered or is the name of a member of [Object.prototype]. *)
Lemma resolves_iff name :
  ToBoolean (get ROUTES_DATA name) = true <->
  registered name \/ inherited name = true.
Proof.
  unfold get. destruct (own_property ROUTES_DATA name) as [v|] eqn:E.
  - assert (R : registered name) by exact (own_property_In _ _ _ E).
    destruct (registered_coords name R) as (lat & lng & E' & _).
    rewrite E in E'. injection E' as ->. cbn [ToBoolean]. tauto.
  - destruct (inherited name) eqn:I; cbn [ToBoolean]; split; auto;
      try discriminate.
    intros [R|D]; [|discriminate D].
    destruct (In_own_property _ _ R) as (v & E'). congruence.
Qed.

Lemma findDistance_shape M A B :
  (findDistance M A B = VNull /\
   (ToBoolean (get ROUTES_DATA A) = false \/ ToBoolean (get ROUTES_DATA B) = false)) \/
  ((exists n, findDistance M A B = VNumber n) /\
   ToBoolean (get ROUTES_DATA A) = true /\ ToBoolean (get ROUTES_DATA B) = true).
Proof.
  unfold findDistance.
  destruct (ToBoolean (get ROUTES_DATA A)), (ToBoolean (get ROUTES_DATA B));
    cbn [negb orb]; eauto 6.
Qed.

Lemma not_true_false b : b <> true <-> b = false.
Proof. destruct b; split; congruence. Qed.

Lemma fsub_opp_opp x y : fsub (fneg y) (fneg x) = fsub x y.
Proof.
  unfold fsub. destruct x as [sx|sx| |sx mx ex], y as [sy|sy| |sy my ey];
    cbn [fneg SFopp SFsub];
    try solve [repeat match goal with s : bool |- _ => destruct s end; auto].
  rewrite (Z.min_comm ey ex). f_equal.
  destruct sx, sy; cbn [negb cond_Zopp]; lia.
Qed.

End RegistryFacts.

Section RoutesProperties.
Local Open Scope string_scope.
Local Open Scope Z_scope.

(** X12.  For every two strings, [findDistance] returns [null] exactly when one
    of them is neither a registered city nor the name of a member of
    [Object.prototype]; for every other pair it returns a number. *)
Theorem findDistance_null_iff M A B :
  (findDistance M A B = VNull <->
   (~ registered A /\ inherited A = false) \/
   (~ registered B /\ inherited B = false)) /\
  (findDistance M A B = VNull \/ exists n, findDistance M A B = VNumber n).
Proof.
  assert (RA := resolves_iff A). assert (RB := resolves_iff B).
  destruct (findDistance_shape M A B) as [[E [F|F]]|[(n & E) [TA TB]]].
  - split; [|now left]. split; [intros _|auto]. left.
    rewrite F in RA. split.
    + intros R. assert (false = true) by (apply RA; auto). discriminate.
    + apply not_true_false. intros I. assert (false = true) by (apply RA; auto).
      discriminate.
  - split; [|now left]. split; [intros _|auto]. right.
    rewrite F in RB. split.
    + intros R. assert (false = true) by (apply RB; auto). discriminate.
    + apply not_true_false. intros I. assert (false = true) by (apply RB; auto).
      discriminate.
  - split; [|right; now exists n]. rewrite E. split; [discriminate|].
    apply proj1 in RA. apply proj1 in RB.
    specialize (RA TA). specialize (RB TB).
    intros [[NR NI]|[NR NI]]; exfalso.
    + destruct RA as [R|I]; [auto|congruence].
    + destruct RB as [R|I]; [auto|congruence].
Qed.

(** X13.  Every name [getAllCities] lists is a registered city, and every two
    listed names give [findDistance] a number, never [null]. *)
Theorem getAllCities_resolve M A B :
  In A getAllCities -> In B getAllCities ->
  registered A /\ registered B /\ exists n, findDistance M A B = VNumber n.
Proof.
  assert (P : forall n, In n getAllCities -> registered n).
  { intros n H. unfold registered.
    apply (Permutation_in _ (Permutation_sym (Array_sort_strings_perm _)) H). }
  intros HA HB. assert (RA := P A HA). assert (RB := P B HB).
  split; [exact RA|]. split; [exact RB|].
  destruct (registered_coords A RA) as (latA & lngA & EA & _).
  destruct (registered_coords B RB) as (latB & lngB & EB & _).
  rewrite (findDistance_registered M A B _ _ _ _ EA EB). eauto.
Qed.

Lemma getAllCities_resolve_witness :
  registered "Manaus" /\ registered "Curitiba" /\
  exists n, findDistance small_angle "Manaus" "Curitiba" = VNumber n.
Proof.
  apply (getAllCities_resolve small_angle "Manaus" "Curitiba");
    vm_compute; tauto.
Defined.

(** X14.  [haversineDistance] is symmetric in its two points, for all
    coordinates, when the sine of the engine is odd. *)
Theorem haversineDistance_symmetric M lat1 lon1 lat2 lon2 :
  (forall x, Math_sin M (fneg x) = fneg (Math_sin M x)) ->
  haversineDistance (binary64 M) lat1 lon1 lat2 lon2 =
  haversineDistance (binary64 M) lat2 lon2 lat1 lon1.
Proof. intros H. now apply haversineDistance_sym. Qed.

Lemma haversineDistance_symmetric_witness :
  haversineDistance (binary64 small_angle)
    (decimal (-235505) 4) (decimal (-466333) 4) (decimal 515 1) (decimal 0 0) =
  haversineDistance (binary64 small_angle)
    (decimal 515 1) (decimal 0 0) (decimal (-235505) 4) (decimal (-466333) 4).
Proof.
  apply (haversineDistance_symmetric small_angle). intros x. reflexivity.
Defined.

(** X15.  The distance from a point to itself is 0, for every finite point
    whose latitude has a finite radian measure, when [sin(+0)] and
    [atan2(+0, 1)] are [+0] and the cosine of a finite angle is a number
    of magnitude at most 1. *)
Theorem haversineDistance_zero M lat lon :
  Math_sin M pos_zero = pos_zero ->
  Math_atan2 M pos_zero one = pos_zero ->
  (forall x, is_finite x = true ->
     well_formed (Math_cos M x) = true /\ fleb (SFabs (Math_cos M x)) one = true) ->
  is_finite lat = true -> is_finite lon = true -> is_finite (radians lat) = true ->
  haversineDistance (binary64 M) lat lon lat lon = pos_zero.
Proof. intros. now apply haversineDistance_same. Qed.

Lemma haversineDistance_zero_witness :
  haversineDistance (binary64 small_angle)
    (decimal 515 1) (decimal (-1278) 4) (decimal 515 1) (decimal (-1278) 4) = pos_zero.
Proof.
  apply (haversineDistance_zero small_angle); try reflexivity.
  intros x _. split; reflexivity.
Defined.

(** X16.  The distance is unchanged when both points are reflected through
    the equator, and when both are reflected through the prime
    meridian, when the sine of the engine is odd and its cosine even. *)
Theorem haversineDistance_reflection M lat1 lon1 lat2 lon2 :
  (forall x, Math_sin M (fneg x) = fneg (Math_sin M x)) ->
  (forall x, Math_cos M (fneg x) = Math_cos M x) ->
  haversineDistance (binary64 M) (fneg lat1) lon1 (fneg lat2) lon2 =
    haversineDistance (binary64 M) lat1 lon1 lat2 lon2 /\
  haversineDistance (binary64 M) lat1 (fneg lon1) lat2 (fneg lon2) =
    haversineDistance (binary64 M) lat1 lon1 lat2 lon2.
Proof.
  intros sin_odd cos_even.
  unfold haversineDistance. cbn [binary64 op_add op_sub op_mul op_div op_literal
    op_PI op_sin op_cos op_sqrt op_atan2].
  set (h := fun u => Math_sin M (fdiv (fdiv (fmul u Math_PI) (decimal 180 0)) (decimal 2 0))).
  assert (Hm : forall a b, mirror (h (fsub a b)) (h (fsub b a))).
  { intros a b. apply sin_mirror; [exact sin_odd|].
    apply fdiv_mirror_l, fdiv_mirror_l, fmul_mirror_l, fsub_mirror. }
  rewrite (fsub_opp_opp lat1 lat2), (fsub_opp_opp lon1 lon2).
  change (Math_sin M (fdiv (fdiv (fmul (fsub lat2 lat1) Math_PI) (decimal 180 0)) (decimal 2 0)))
    with (h (fsub lat2 lat1)).
  change (Math_sin M (fdiv (fdiv (fmul (fsub lon2 lon1) Math_PI) (decimal 180 0)) (decimal 2 0)))
    with (h (fsub lon2 lon1)).
  change (Math_sin M (fdiv (fdiv (fmul (fsub lat1 lat2) Math_PI) (decimal 180 0)) (decimal 2 0)))
    with (h (fsub lat1 lat2)).
  change (Math_sin M (fdiv (fdiv (fmul (fsub lon1 lon2) Math_PI) (decimal 180 0)) (decimal 2 0)))
    with (h (fsub lon1 lon2)).
  split.
  - rewrite (fmul_mirror_square _ _ (Hm lat1 lat2)).
    rewrite (fmul_opp_l lat1 Math_PI), (fmul_opp_l lat2 Math_PI).
    rewrite (fdiv_opp_l (fmul lat1 Math_PI)), (fdiv_opp_l (fmul lat2 Math_PI)).
    rewrite (cos_even (fdiv (fmul lat1 Math_PI) (decimal 180 0))).
    rewrite (cos_even (fdiv (fmul lat2 Math_PI) (decimal 180 0))).
    reflexivity.
  - rewrite (fmul_mirror_square_r _ _ _ (Hm lon1 lon2)). reflexivity.
Qed.

Lemma haversineDistance_reflection_witness :
  haversineDistance (binary64 small_angle)
    (fneg (decimal (-235505) 4)) (decimal (-466333) 4)
    (fneg (decimal (-31190) 4)) (decimal (-600217) 4) =
  haversineDistance (binary64 small_angle)
    (decimal (-235505) 4) (decimal (-466333) 4)
    (decimal (-31190) 4) (decimal (-600217) 4).
Proof.
  refine (proj1 (haversineDistance_reflection small_angle
                   (decimal (-235505) 4) (decimal (-466333) 4)
                   (decimal (-31190) 4) (decimal (-600217) 4) _ _));
    intros x; reflexivity.
Defined.

End RoutesProperties.

(** ** Further properties of the rendering and of the form handler *)

Section MaxFacts.
Local Open Scope string_scope.
Local Open Scope Z_scope.
Import JSMath.

Lemma nonneg_not_nan x : nonneg x = true -> is_nan x = false.
Proof. destruct x; try discriminate; reflexivity. Qed.

Lemma existsb_nan_nonneg l : Forall (fun x => nonneg x = true) l -> existsb is_nan l = false.
Proof.
  induction 1 as [|x l Hx _ IH]; cbn [existsb]; [reflexivity|].
  now rewrite (nonneg_not_nan x Hx), IH.
Qed.

Lemma ltb_leb a b : nonneg a = true -> nonneg b = true -> fltb a b = true -> fleb a b = true.
Proof.
  intros Na Nb. unfold fltb, fleb, SFltb, SFleb.
  destruct (SFcompare a b) as [[]|]; try discriminate; reflexivity.
Qed.

Lemma leb_antisym a b :
  posfin a = true -> nonneg b = true -> fleb a b = true -> fleb b a = true -> a = b.
Proof.
  intros P N L1 L2. nonneg_cases a.
  destruct b as [s'|[]| |[] m' e']; try discriminate N; try discriminate L1;
    try discriminate L2.
  destruct (SFleb_finite_antisym _ _ _ _ L1 L2) as [-> ->]. reflexivity.
Qed.

Lemma max_step_spec h x :
  h = neg_infinity \/ nonneg h = true -> nonneg x = true ->
  nonneg (max_step h x) = true /\
  (max_step h x = x \/ (max_step h x = h /\ nonneg h = true)) /\
  fleb x (max_step h x) = true /\
  (nonneg h = true -> fleb h (max_step h x) = true).
Proof.
  intros Hh Nx. unfold max_step.
  destruct (is_pos_zero x && is_neg_zero h) eqn:Z.
  - apply andb_prop in Z. destruct Z as [Zx Zh].
    destruct x as [[]| | |]; try discriminate Zx.
    destruct h as [[]| | |]; try discriminate Zh. repeat split; auto.
  - clear Z. unfold fgtb. destruct (SFltb h x) eqn:C.
    + repeat split; auto.
      * now apply leb_refl.
      * intros Nh. now apply ltb_leb.
    + destruct Hh as [->|Nh].
      * exfalso. destruct x as [s|[]| |[] m e]; try discriminate Nx; discriminate C.
      * repeat split; auto.
        -- now apply ltb_false_leb.
        -- intros _. now apply leb_refl.
Qed.

Lemma fold_max_spec l : forall h,
  h = neg_infinity \/ nonneg h = true ->
  Forall (fun x => nonneg x = true) l ->
  let r := fold_left max_step l h in
  (In r l \/ r = h) /\
  (nonneg h = true -> nonneg r = true /\ fleb h r = true) /\
  Forall (fun x => nonneg r = true /\ fleb x r = true) l.
Proof.
  induction l as [|x l IH]; intros h Hh Hl; cbn [fold_left]; cbv zeta.
  - split; [now right|]. split; [|constructor].
    intros Nh. split; [exact Nh|now apply leb_refl].
  - inversion Hl as [|? ? Nx Hl']; subst.
    destruct (max_step_spec h x Hh Nx) as (N1 & C1 & L1 & L2).
    destruct (IH (max_step h x) (or_intror N1) Hl') as (A & B & C).
    cbv zeta in A, B, C. destruct (B N1) as [Nr Lr].
    split; [|split].
    + destruct A as [A|A]; [left; now right|].
      destruct C1 as [E|[E _]]; [left; left; congruence|right; congruence].
    + intros Nh. split; [exact Nr|].
      apply (leb_trans h (max_step h x)); auto.
    + constructor; [|exact C]. split; [exact Nr|].
      apply (leb_trans x (max_step h x)); auto.
Qed.

(** The maximum of non-negative numbers is one of them, and none of them
    is above it. *)
Lemma Math_max_spec l :
  l <> [] -> Forall (fun x => nonneg x = true) l ->
  In (Math_max l) l /\ Forall (fun x => fleb x (Math_max l) = true) l.
Proof.
  intros NE Hl. unfold Math_max. rewrite (existsb_nan_nonneg l Hl).
  destruct (fold_max_spec l neg_infinity (or_introl eq_refl) Hl) as (A & _ & C).
  cbv zeta in A, C. split.
  - destruct A as [A|A]; [exact A|].
    destruct l as [|x l]; [contradiction|].
    inversion C as [|? ? [N _] _]; subst. rewrite A in N. discriminate N.
  - eapply Forall_impl; [|exact C]. now intros x [_ L].
Qed.

Lemma Math_min_le b :
  nonneg b = true -> fleb b hundred = true -> Math_min [b; hundred] = b.
Proof.
  intros N L. unfold Math_min. cbn [existsb].
  rewrite (nonneg_not_nan b N). cbn [orb is_nan hundred]. cbn [fold_left].
  assert (L' := leb_ltb_false b hundred N eq_refl L).
  destruct b as [s|[]| |[] m e]; try discriminate N; try discriminate L.
  - destruct s; reflexivity.
  - unfold min_step at 2. cbn [is_neg_zero is_pos_zero andb].
    change (fltb (S754_finite false m e) pos_infinity) with true. cbv iota.
    unfold min_step. change (is_neg_zero hundred) with false. cbn [andb].
    now rewrite L'.
Qed.

Lemma barColor_not_red b : fleb b hundred = true -> nonneg b = true ->
  UI.barColor_of b <> "red".
Proof.
  intros L N. unfold UI.barColor_of.
  rewrite L. assert (G : fgtb b hundred = false)
    by (apply (leb_ltb_false b hundred N eq_refl L)).
  rewrite G.
  destruct (fgtb b (decimal 25 0) && fleb b (decimal 75 0)); [discriminate|].
  destruct (fgtb b (decimal 75 0) && true); discriminate.
Qed.

Lemma bar_le e c :
  nonneg e = true -> posfin c = true -> fleb e c = true ->
  nonneg (fmul (fdiv e c) hundred) = true /\
  fleb (fmul (fdiv e c) hundred) hundred = true.
Proof.
  intros N P L. split.
  - apply mul_nonneg; [now apply div_nonneg|reflexivity].
  - change hundred with (fmul one hundred) at 2. rewrite <- (fdiv_self c P).
    apply mul_mono; try (apply div_nonneg; auto using posfin_nonneg); [reflexivity|].
    apply div_mono; auto using posfin_nonneg.
Qed.

End MaxFacts.

Section RenderFacts.
Local Open Scope string_scope.
Local Open Scope Z_scope.
Import JSMath.

Lemma metadata_found mode :
  has_metadata mode ->
  exists header, UI.metadata_text (table_get TransportModes.TRANSPORT_MODES mode) = inr header.
Proof.
  unfold has_metadata. cbn [map fst TransportModes.TRANSPORT_MODES In].
  intros [<-|[<-|[<-|[<-|[]]]]]; eexists; reflexivity.
Qed.

Lemma map_throwing_Forall2 {A B E} (f : A -> E + B) (P : A -> B -> Prop) l :
  (forall x, In x l -> exists y, f x = inr y /\ P x y) ->
  exists ys, UI.map_throwing f l = inr ys /\ Forall2 P l ys.
Proof.
  induction l as [|x l IH]; intros H; cbn [UI.map_throwing].
  - exists []. split; [reflexivity|constructor].
  - destruct (H x (or_introl eq_refl)) as (y & -> & Py).
    destruct IH as (ys & -> & F); [intros z Hz; apply H; now right|].
    exists (y :: ys). split; [reflexivity|now constructor].
Qed.

(** On entries whose modes have metadata [renderComparison] does not
    throw, and makes one item of each entry. *)
Lemma renderComparison_items modesArray selectedMode :
  (forall en, In en modesArray -> has_metadata (mode en)) ->
  exists items,
    UI.renderComparison modesArray selectedMode = inr items /\
    Forall2 (item_of modesArray selectedMode) modesArray items.
Proof.
  intros H. unfold UI.renderComparison. apply map_throwing_Forall2.
  intros en Hen. destruct (metadata_found _ (H en Hen)) as (header & ->).
  eexists. split; [reflexivity|]. repeat split.
Qed.

Lemma Forall2_Forall_r {A B} (P : A -> B -> Prop) (Q : B -> Prop) l l' :
  Forall2 P l l' -> (forall x y, In x l -> P x y -> Q y) -> Forall Q l'.
Proof.
  induction 1 as [|x y l l' Pxy _ IH]; intros H; constructor.
  - apply (H x y); [now left|exact Pxy].
  - apply IH. intros a b Ha. apply H. now right.
Qed.

Lemma Forall2_In {A B} (P : A -> B -> Prop) l l' :
  Forall2 P l l' -> Forall2 (fun x y => In x l /\ P x y) l l'.
Proof.
  induction 1 as [|x y l l' Pxy _ IH]; constructor.
  - split; [now left|exact Pxy].
  - eapply Forall2_impl; [|exact IH]. intros a b [Ha Hb]. split; [now right|exact Hb].
Qed.

Lemma keys_have_metadata m :
  In m (Object_keys CONFIG.EMISSION_FACTORS) -> has_metadata m.
Proof. exact (fun H => H). Qed.

Lemma calculateAllModes_metadata d en :
  In en (calculateAllModes d) -> has_metadata (mode en).
Proof.
  intros H. destruct (calculateAllModes_In d en H) as (m & Hm & ->).
  now apply keys_have_metadata.
Qed.

Lemma calculateAllModes_car d :
  carEmission_of (calculateAllModes d) = calculateEmission d "car".
Proof.
  unfold carEmission_of.
  destruct (find _ (calculateAllModes d)) as [en|] eqn:F.
  - apply find_some in F. destruct F as [Hin Hm].
    destruct (calculateAllModes_In d en Hin) as (m & _ & ->).
    cbn [entry mode] in Hm. apply String.eqb_eq in Hm. subst m. reflexivity.
  - exfalso.
    assert (Hin : In (entry d "car") (calculateAllModes d)).
    { apply (Permutation_in _ (calculateAllModes_perm d)).
      apply in_map. cbn. tauto. }
    apply (find_none _ _ F) in Hin. discriminate Hin.
Qed.

Lemma calculateAllModes_length d : List.length (calculateAllModes d) = 4%nat.
Proof.
  rewrite <- (Permutation_length (calculateAllModes_perm d)). reflexivity.
Qed.

End RenderFacts.

Section RenderProperties.
Local Open Scope string_scope.
Local Open Scope Z_scope.
Import JSMath.

(** X17.  For every distance, [renderComparison] of the comparison
    [calculateAllModes] returns does not throw and makes one item of
    each entry.  The percentage of an item is guarded: it is the number
    0 when the car emission is not > 0, and else the text
    [(emission / carEmission * 100).toFixed(1)], where the car emission
    found in the array is [calculateEmission(distance, 'car')]. *)
Theorem renderComparison_vsCar d selectedMode :
  exists items,
    UI.renderComparison (calculateAllModes d) selectedMode = inr items /\
    Forall2 (fun en item =>
               UI.isSelected item = String.eqb (mode en) selectedMode /\
               UI.stat_vsCar item = vsCar_text (calculateEmission d "car") en)
            (calculateAllModes d) items.
Proof.
  destruct (renderComparison_items (calculateAllModes d) selectedMode
              (calculateAllModes_metadata d)) as (items & E & F).
  exists items. split; [exact E|].
  eapply Forall2_impl; [|exact F].
  intros en item (A & _ & B & _). split; [exact A|].
  now rewrite <- (calculateAllModes_car d).
Qed.

(** X18.  For every finite distance > 0 whose truck emission is a positive
    finite number, every bar of the comparison has a width between 0 and
    100 and is never red, and the bar of the truck has the width 100 and
    is orange. *)
Theorem renderComparison_bars d selectedMode :
  well_formed d = true -> is_finite d = true -> fgtb d pos_zero = true ->
  posfin (calculateEmission d "truck") = true ->
  exists items,
    UI.renderComparison (calculateAllModes d) selectedMode = inr items /\
    Forall bar_in_range items /\
    Forall2 (fun en item =>
               mode en = "truck" ->
               UI.bar_width item = hundred /\ UI.barColor item = "orange")
            (calculateAllModes d) items.
Proof.
  intros W F G PT.
  assert (P := posfin_of_positive d W F G).
  assert (Nd := posfin_nonneg d P).
  set (l := calculateAllModes d).
  assert (NN : forall en, In en l -> nonneg (emission en) = true).
  { intros en H. destruct (calculateAllModes_In d en H) as (m & Hm & ->).
    cbn [entry emission]. now apply emission_nonneg_any. }
  assert (LT : forall en, In en l ->
             fleb (emission en) (calculateEmission d "truck") = true).
  { assert (L1 := emission_bus_le_car d P). assert (L2 := emission_car_le_truck d P).
    assert (NC : nonneg (calculateEmission d "car") = true)
      by (apply emission_nonneg; cbn; auto).
    assert (NU : nonneg (calculateEmission d "bus") = true)
      by (apply emission_nonneg; cbn; auto).
    assert (NT := posfin_nonneg _ PT).
    intros en H. destruct (calculateAllModes_In d en H) as (m & Hm & ->).
    cbn [entry emission].
    cbn [Object_keys map fst CONFIG.EMISSION_FACTORS In] in Hm.
    destruct Hm as [<-|[<-|[<-|[<-|[]]]]].
    - rewrite (emission_bicycle d P). now apply leb_zero_l.
    - exact L2.
    - now apply (leb_trans _ (calculateEmission d "car")).
    - now apply leb_refl. }
  assert (MX : Math_max (map emission l) = calculateEmission d "truck").
  { assert (NE : map emission l <> []).
    { intros E. apply (f_equal (@List.length _)) in E.
      rewrite length_map in E. unfold l in E.
      rewrite calculateAllModes_length in E. discriminate E. }
    assert (FN : Forall (fun x => nonneg x = true) (map emission l)).
    { apply Forall_forall. intros x Hx. apply in_map_iff in Hx.
      destruct Hx as (en & <- & Hen). now apply NN. }
    destruct (Math_max_spec _ NE FN) as [Hin Hall].
    apply in_map_iff in Hin. destruct Hin as (en & Een & Hen).
    assert (HT : In (calculateEmission d "truck") (map emission l)).
    { apply in_map_iff. exists (entry d "truck"). split; [reflexivity|].
      apply (Permutation_in _ (calculateAllModes_perm d)). apply in_map. cbn. tauto. }
    rewrite Forall_forall in Hall. specialize (Hall _ HT).
    symmetry. apply leb_antisym; auto.
    - rewrite <- Een. now apply NN.
    - rewrite <- Een. now apply LT. }
  destruct (renderComparison_items l selectedMode (calculateAllModes_metadata d))
    as (items & E & F2).
  exists items. split; [exact E|]. split.
  - apply (Forall2_Forall_r _ _ _ _ F2). intros en item Hen (_ & _ & _ & C & Wd).
    unfold barPercentage in C, Wd. rewrite MX in C, Wd.
    destruct (bar_le (emission en) _ (NN en Hen) PT (LT en Hen)) as [Nb Lb].
    rewrite (Math_min_le _ Nb Lb) in Wd.
    unfold bar_in_range. rewrite Wd, C. repeat split.
    + now apply ge_zero_leb.
    + exact Lb.
    + now apply barColor_not_red.
  - eapply Forall2_impl; [|exact (Forall2_In _ _ _ F2)].
    intros en item [Hen (_ & _ & _ & C & Wd)] Hm.
    destruct (calculateAllModes_In d en Hen) as (m & _ & ->).
    cbn [entry mode] in Hm. subst m.
    unfold barPercentage in C, Wd. rewrite MX in C, Wd. cbn [entry emission] in C, Wd.
    rewrite (fdiv_self _ PT) in C, Wd. split; [exact Wd|exact C].
Qed.

Lemma renderComparison_bars_witness :
  exists items,
    UI.renderComparison (calculateAllModes (decimal 4305 1)) "bus" = inr items /\
    Forall bar_in_range items /\
    Forall2 (fun en item =>
               mode en = "truck" ->
               UI.bar_width item = hundred /\ UI.barColor item = "orange")
            (calculateAllModes (decimal 4305 1)) items.
Proof.
  apply (renderComparison_bars (decimal 4305 1) "bus"); reflexivity.
Defined.

(** X19.  For every distance between 0 and 0.005 km every emission is 0, and
    every bar of the comparison has the width NaN, with the colour
    green. *)
Theorem renderComparison_degenerate d selectedMode :
  well_formed d = true -> fleb pos_zero d = true ->
  fleb d (decimal 5 3) = true ->
  exists items,
    UI.renderComparison (calculateAllModes d) selectedMode = inr items /\
    Forall (fun en => is_zero (emission en) = true) (calculateAllModes d) /\
    Forall (fun item => UI.bar_width item = NaN /\ UI.barColor item = "green" /\
                        UI.stat_vsCar item = UI.Num pos_zero) items.
Proof.
  intros W G L. assert (N := nonneg_of_ge_zero d W G).
  assert (F := le_finite d (decimal 5 3) N L eq_refl).
  set (l := calculateAllModes d).
  assert (ZZ : forall en, In en l -> is_zero (emission en) = true).
  { intros en H. destruct (calculateAllModes_In d en H) as (m & Hm & ->).
    cbn [entry emission].
    apply (nonneg_le_zero _ (calculateEmission (decimal 5 3) m)).
    - now apply emission_nonneg_any.
    - cbn [Object_keys map fst CONFIG.EMISSION_FACTORS In] in Hm.
      destruct Hm as [<-|[<-|[<-|[<-|[]]]]]; reflexivity.
    - apply emission_mono; try assumption; reflexivity. }
  assert (MX : is_zero (Math_max (map emission l)) = true).
  { assert (NE : map emission l <> []).
    { intros E. apply (f_equal (@List.length _)) in E.
      rewrite length_map in E. unfold l in E.
      rewrite calculateAllModes_length in E. discriminate E. }
    assert (FN : Forall (fun x => nonneg x = true) (map emission l)).
    { apply Forall_forall. intros x Hx. apply in_map_iff in Hx.
      destruct Hx as (en & <- & Hen). now apply is_zero_nonneg, ZZ. }
    destruct (Math_max_spec _ NE FN) as [Hin _].
    apply in_map_iff in Hin. destruct Hin as (en & <- & Hen). now apply ZZ. }
  assert (ZC : fgtb (carEmission_of l) pos_zero = false).
  { unfold l. rewrite calculateAllModes_car.
    assert (Z : is_zero (calculateEmission d "car") = true).
    { apply (ZZ (entry d "car")).
      apply (Permutation_in _ (calculateAllModes_perm d)). apply in_map. cbn. tauto. }
    destruct (calculateEmission d "car") as [[]| | |]; try discriminate Z; reflexivity. }
  destruct (renderComparison_items l selectedMode (calculateAllModes_metadata d))
    as (items & E & F2).
  exists items. split; [exact E|]. split; [now apply Forall_forall|].
  apply (Forall2_Forall_r _ _ _ _ F2). intros en item Hen (_ & _ & V & C & Wd).
  assert (B : barPercentage l en = NaN).
  { unfold barPercentage. assert (Z := ZZ en Hen).
    destruct (emission en) as [[]| | |]; try discriminate Z;
      destruct (Math_max (map emission l)) as [[]| | |]; try discriminate MX;
      reflexivity. }
  rewrite B in C, Wd. unfold vsCar_text in V. rewrite ZC in V.
  repeat split; assumption.
Qed.

Lemma renderComparison_degenerate_witness :
  exists items,
    UI.renderComparison (calculateAllModes (decimal 3 3)) "car" = inr items /\
    Forall (fun en => is_zero (emission en) = true) (calculateAllModes (decimal 3 3)) /\
    Forall (fun item => UI.bar_width item = NaN /\ UI.barColor item = "green" /\
                        UI.stat_vsCar item = UI.Num pos_zero) items.
Proof.
  apply (renderComparison_degenerate (decimal 3 3) "car"); reflexivity.
Defined.

End RenderProperties.

Section HandlerFacts.
Local Open Scope string_scope.
Local Open Scope Z_scope.
Import JSMath.

Lemma table_own_In {A} (t : list (string * A)) key :
  In key (map fst t) <-> table_own t key <> None.
Proof.
  induction t as [|[k v] t IH]; cbn [table_own map fst In].
  - split; [contradiction|congruence].
  - destruct (String.eqb_spec k key) as [->|NE].
    + split; [discriminate|auto].
    + rewrite <- IH. split; [intros [E|H]; [contradiction|exact H]|auto].
Qed.

Lemma metadata_missing mode :
  ~ has_metadata mode -> inherited mode = false ->
  UI.metadata_text (table_get TransportModes.TRANSPORT_MODES mode) =
  inl UI.Cannot_read_properties_of_undefined.
Proof.
  intros H I. unfold table_get.
  destruct (table_own TransportModes.TRANSPORT_MODES mode) eqn:E.
  - exfalso. apply H. apply table_own_In. congruence.
  - rewrite I. reflexivity.
Qed.

Lemma metadata_inherited mode :
  inherited mode = true ->
  exists header,
    UI.metadata_text (table_get TransportModes.TRANSPORT_MODES mode) = inr header.
Proof.
  intros I. unfold table_get.
  destruct (table_own TransportModes.TRANSPORT_MODES mode) eqn:E;
    [|rewrite I]; eexists; reflexivity.
Qed.

(** The validation rejects exactly the forms that are not accepted. *)
Lemma validation_passes form :
  accepted form ->
  App.is_empty (App.origin form) || App.is_empty (App.destination form)
  || negb (ToBoolean (VNumber (App.distance form)))
  || fleb (App.distance form) pos_zero = false.
Proof.
  intros (O & D & G). unfold App.is_empty.
  destruct (String.eqb_spec (App.origin form) ""); [contradiction|].
  destruct (String.eqb_spec (App.destination form) ""); [contradiction|].
  destruct (App.distance form) as [s|[]| |[] m e]; try discriminate G; reflexivity.
Qed.

Lemma validation_fails form :
  ~ accepted form ->
  App.is_empty (App.origin form) || App.is_empty (App.destination form)
  || negb (ToBoolean (VNumber (App.distance form)))
  || fleb (App.distance form) pos_zero = true.
Proof.
  intros NA. unfold App.is_empty.
  destruct (String.eqb_spec (App.origin form) "") as [|O]; [reflexivity|].
  destruct (String.eqb_spec (App.destination form) "") as [|D]; [reflexivity|].
  cbn [orb].
  destruct (fgtb (App.distance form) pos_zero) eqn:G.
  - exfalso. apply NA. repeat split; assumption.
  - destruct (App.distance form) as [s|[]| |[] m e]; try discriminate G; reflexivity.
Qed.

Lemma or_default_not_nan x : is_nan (or_default x pos_zero) = false.
Proof. destruct x as [s|s| |s m e]; reflexivity. Qed.

Lemma or_default_well_formed x :
  well_formed x = true -> well_formed (or_default x pos_zero) = true.
Proof. destruct x as [s|s| |s m e]; auto. Qed.

(** A number divided by a positive finite constant is NaN only if it is
    NaN itself; so is a well-formed number multiplied by one. *)
Lemma fdiv_not_nan x c :
  posfin c = true -> is_nan x = false -> is_nan (fdiv x c) = false.
Proof.
  intros P N. nonneg_cases c.
  destruct x as [s|s| |s mx ex]; try discriminate N; try reflexivity.
  assert (D := div_sem s mx ex false m e).
  assert (Q : (0 <= Qval mx ex / Qval m e)%Q).
  { apply Qlt_le_weak, Qlt_shift_div_l; [apply Qval_pos|].
    rewrite Qmult_0_l. apply Qval_pos. }
  destruct (rounds_to_shape _ _ _ Q D) as [E|[E|(m' & e' & E)]]; rewrite E; reflexivity.
Qed.

Lemma fmul_not_nan x c :
  posfin c = true -> well_formed x = true -> is_nan x = false ->
  is_nan (fmul x c) = false /\ well_formed (fmul x c) = true.
Proof.
  intros P W N. nonneg_cases c.
  destruct x as [s|s| |s mx ex]; try discriminate N; try (split; reflexivity).
  cbn [well_formed valid_binary] in W.
  assert (D := mul_sem s mx ex false m e W B).
  assert (Q : (0 <= Qval mx ex * Qval m e)%Q).
  { apply Qlt_le_weak, Qmult_lt_0_compat; apply Qval_pos. }
  split; [|exact (rounds_to_valid _ _ _ Q D)].
  destruct (rounds_to_shape _ _ _ Q D) as [E|[E|(m' & e' & E)]]; rewrite E; reflexivity.
Qed.

End HandlerFacts.

Section HandlerProperties.
Local Open Scope string_scope.
Local Open Scope Z_scope.
Import JSMath.

(** X20.  The handler shows the validation alert exactly when the origin or
    the destination is empty or the distance is not > 0: NaN, zero and
    negative distances are rejected, and [Infinity] passes. *)
Theorem handleFormSubmit_validation form submitButton :
  (App.page (App.handleFormSubmit form submitButton) = App.InvalidAlert <->
   ~ accepted form) /\
  (accepted form <->
   App.origin form <> "" /\ App.destination form <> "" /\
   is_nan (App.distance form) = false /\ is_zero (App.distance form) = false /\
   fltb (App.distance form) pos_zero = false).
Proof.
  assert (A : accepted form ->
              App.page (App.handleFormSubmit form submitButton) <> App.InvalidAlert).
  { intros H. unfold App.handleFormSubmit. rewrite (validation_passes form H).
    destruct (UI.renderResults _); [discriminate|].
    destruct (UI.renderComparison _ _); discriminate. }
  split; split.
  - intros E H. exact (A H E).
  - intros H. unfold App.handleFormSubmit. now rewrite (validation_fails form H).
  - intros (O & D & G). repeat split; try assumption;
      destruct (App.distance form) as [s|[]| |[] m e]; try discriminate G; reflexivity.
  - intros (O & D & N & Z & L). repeat split; try assumption.
    destruct (App.distance form) as [s|[]| |[] m e];
      try discriminate N; try discriminate Z; try discriminate L; reflexivity.
Qed.

(** X21.  For every accepted form whose transport mode has metadata, the
    handler shows the three contents.  The savings card is absent for
    the car; for every other mode it is there, and what it formats is
    [undefined] for the saved amount and NaN for the percentage: the
    handler builds the savings with the fields [emission] and
    [carEmission], and [renderResults] reads [savedKg]. *)
Theorem handleFormSubmit_savings_card form submitButton :
  accepted form -> has_metadata (App.transportMode form) ->
  exists results comparison credits,
    App.page (App.handleFormSubmit form submitButton) =
      App.Shown results comparison credits /\
    UI.emissionCard results =
      UI.formatNumber
        (VNumber (calculateEmission (App.distance form) (App.transportMode form))) 2 /\
    UI.savingsCard results =
      if String.eqb (App.transportMode form) "car" then None
      else Some (UI.formatNumber VUndefined 2, UI.toFixed NaN 1).
Proof.
  intros A H. unfold App.handleFormSubmit. rewrite (validation_passes form A).
  destruct (renderComparison_items (calculateAllModes (App.distance form))
              (App.transportMode form) (calculateAllModes_metadata _))
    as (items & -> & _).
  unfold UI.renderResults. cbn [UI.ResultsData.mode UI.ResultsData.savings
    UI.ResultsData.origin UI.ResultsData.destination UI.ResultsData.distance
    UI.ResultsData.emission].
  destruct (metadata_found _ H) as (header & ->).
  do 3 eexists. split; [reflexivity|]. cbn [UI.emissionCard UI.savingsCard].
  split; [reflexivity|].
  destruct (String.eqb (App.transportMode form) "car"); reflexivity.
Qed.

Lemma handleFormSubmit_savings_card_witness :
  exists results comparison credits,
    App.page (App.handleFormSubmit
      {| App.origin := "Santos"; App.destination := "Recife";
         App.distance := decimal 2100 0; App.transportMode := "bus" |} None)
    = App.Shown results comparison credits /\
    UI.emissionCard results =
      UI.formatNumber (VNumber (calculateEmission (decimal 2100 0) "bus")) 2 /\
    UI.savingsCard results =
      Some (UI.formatNumber VUndefined 2, UI.toFixed NaN 1).
Proof.
  apply (handleFormSubmit_savings_card
           {| App.origin := "Santos"; App.destination := "Recife";
              App.distance := decimal 2100 0; App.transportMode := "bus" |} None).
  - repeat split; discriminate.
  - cbn. tauto.
Defined.

(** X22.  For every accepted form, the handler ends in the error alert exactly
    when the transport mode has no metadata and is not the name of a
    member of [Object.prototype]; the error then comes from
    [renderResults], before any content is written.  The comparison
    never throws. *)
Theorem handleFormSubmit_error form submitButton :
  accepted form ->
  (App.page (App.handleFormSubmit form submitButton) = App.ErrorAlert None <->
   ~ has_metadata (App.transportMode form) /\
   inherited (App.transportMode form) = false) /\
  (forall results,
     App.page (App.handleFormSubmit form submitButton) <>
     App.ErrorAlert (Some results)).
Proof.
  intros A. unfold App.handleFormSubmit. rewrite (validation_passes form A).
  destruct (renderComparison_items (calculateAllModes (App.distance form))
              (App.transportMode form) (calculateAllModes_metadata _))
    as (items & -> & _).
  unfold UI.renderResults. cbn [UI.ResultsData.mode UI.ResultsData.savings
    UI.ResultsData.origin UI.ResultsData.destination UI.ResultsData.distance
    UI.ResultsData.emission].
  destruct (in_dec string_dec (App.transportMode form)
              (map fst TransportModes.TRANSPORT_MODES)) as [H|H].
  - destruct (metadata_found _ H) as (header & ->).
    split; [|discriminate]. split; [discriminate|]. intros [NH _]. contradiction.
  - destruct (inherited (App.transportMode form)) eqn:I.
    + destruct (metadata_inherited _ I) as (header & ->).
      split; [|discriminate]. split; [discriminate|]. intros [_ D]. discriminate D.
    + rewrite (metadata_missing _ H I). split; [|discriminate].
      split; [intros _; now split|reflexivity].
Qed.

Lemma handleFormSubmit_error_witness :
  App.page (App.handleFormSubmit
    {| App.origin := "Santos"; App.destination := "Recife";
       App.distance := decimal 2100 0; App.transportMode := "plane" |} None)
  = App.ErrorAlert None.
Proof.
  apply (handleFormSubmit_error
           {| App.origin := "Santos"; App.destination := "Recife";
              App.distance := decimal 2100 0; App.transportMode := "plane" |} None).
  - repeat split; discriminate.
  - split; [|reflexivity]. cbn. intros H.
    repeat (destruct H as [H|H]; [discriminate H|]). exact H.
Defined.

(** X23.  Whatever the outcome, the handler leaves the submit button as it
    found it or restored: a rejected form does not touch the button, and
    after an accepted one the button is enabled and carries the text it
    had, or [Calcular] if it had none. *)
Theorem handleFormSubmit_button form b :
  let after := App.button (App.handleFormSubmit form (Some b)) in
  (~ accepted form -> after = Some b) /\
  (accepted form ->
   after = Some {| UI.content :=
                     UI.Label (if String.eqb (UI.textContent b) ""
                               then "Calcular" else UI.textContent b);
                   UI.disabled := false;
                   UI.dataset_originalText := Some (UI.textContent b) |}).
Proof.
  cbn zeta. split; intros H; unfold App.handleFormSubmit.
  - now rewrite (validation_fails form H).
  - rewrite (validation_passes form H).
    destruct (UI.renderResults _); [reflexivity|].
    destruct (UI.renderComparison _ _); reflexivity.
Qed.

Lemma handleFormSubmit_button_witness :
  App.button (App.handleFormSubmit
    {| App.origin := "Santos"; App.destination := "Recife";
       App.distance := decimal 2100 0; App.transportMode := "plane" |}
    (Some {| UI.content := UI.Label "Calcular Emissão"; UI.disabled := false;
             UI.dataset_originalText := None |}))
  = Some {| UI.content := UI.Label "Calcular Emissão"; UI.disabled := false;
            UI.dataset_originalText := Some "Calcular Emissão" |}.
Proof.
  apply (handleFormSubmit_button
    {| App.origin := "Santos"; App.destination := "Recife";
       App.distance := decimal 2100 0; App.transportMode := "plane" |}
    {| UI.content := UI.Label "Calcular Emissão"; UI.disabled := false;
       UI.dataset_originalText := None |}).
  repeat split; discriminate.
Defined.

(** X24.  For every credits data with a well-formed emission,
    [renderCarbonCredits] formats no NaN as the number of credits or as
    an equivalence: a NaN credits or emission is taken as 0. *)
Theorem renderCarbonCredits_no_NaN creditsData :
  well_formed (UI.CreditsData.emission creditsData) = true ->
  exists c trees mwh km,
    UI.creditsCard (UI.renderCarbonCredits creditsData) =
      UI.formatNumber (VNumber c) 2 /\
    map UI.item_value (UI.equivalenceItems (UI.renderCarbonCredits creditsData)) =
      [UI.formatNumber (VNumber trees) 1; UI.formatNumber (VNumber mwh) 2;
       UI.formatNumber (VNumber km) 0] /\
    is_nan c = false /\ is_nan trees = false /\ is_nan mwh = false /\
    is_nan km = false /\
    (is_nan (UI.CreditsData.emission creditsData) = true ->
     trees = pos_zero /\ mwh = pos_zero /\ km = pos_zero).
Proof.
  intros W. unfold UI.renderCarbonCredits.
  cbn [UI.creditsCard UI.equivalenceItems map UI.item_value].
  do 4 eexists. split; [reflexivity|]. split; [reflexivity|].
  set (e := or_default (UI.CreditsData.emission creditsData) pos_zero).
  assert (Ne : is_nan e = false) by apply or_default_not_nan.
  assert (We : well_formed e = true) by now apply or_default_well_formed.
  split; [apply or_default_not_nan|].
  split; [apply fdiv_not_nan; [reflexivity|exact Ne]|].
  split.
  { apply fdiv_not_nan; [reflexivity|].
    apply fmul_not_nan; [reflexivity|exact We|exact Ne]. }
  split; [apply fdiv_not_nan; [reflexivity|exact Ne]|].
  intros N. unfold e.
  destruct (UI.CreditsData.emission creditsData); try discriminate N.
  repeat split.
Qed.

Lemma renderCarbonCredits_no_NaN_witness :
  exists c trees mwh km,
    UI.creditsCard (UI.renderCarbonCredits
      {| UI.CreditsData.credits := NaN; UI.CreditsData.price := None;
         UI.CreditsData.emission := NaN |}) = UI.formatNumber (VNumber c) 2 /\
    map UI.item_value (UI.equivalenceItems (UI.renderCarbonCredits
      {| UI.CreditsData.credits := NaN; UI.CreditsData.price := None;
         UI.CreditsData.emission := NaN |})) =
      [UI.formatNumber (VNumber trees) 1; UI.formatNumber (VNumber mwh) 2;
       UI.formatNumber (VNumber km) 0] /\
    is_nan c = false /\ is_nan trees = false /\ is_nan mwh = false /\
    is_nan km = false /\
    (is_nan NaN = true -> trees = pos_zero /\ mwh = pos_zero /\ km = pos_zero).
Proof.
  apply (renderCarbonCredits_no_NaN
           {| UI.CreditsData.credits := NaN; UI.CreditsData.price := None;
              UI.CreditsData.emission := NaN |}).
  reflexivity.
Defined.

End HandlerProperties.

Section EndToEnd.
Local Open Scope string_scope.
Local Open Scope Z_scope.
Import JSMath.

Lemma or_default_nonneg x : nonneg x = true -> nonneg (or_default x pos_zero) = true.
Proof. destruct x as [s|s| |s m e]; auto. Qed.

(** X25.  For every accepted form with a finite distance and a transport mode
    of the emission-factor table, what the handler shows on the emission
    and credits cards is in order: the emission and the number of
    credits are numbers >= 0, and the three prices are numbers with
    0 <= min <= average <= max. *)
Theorem handleFormSubmit_credits_card form submitButton :
  accepted form ->
  well_formed (App.distance form) = true -> is_finite (App.distance form) = true ->
  In (App.transportMode form) (Object_keys CONFIG.EMISSION_FACTORS) ->
  exists results comparison credits e c mn av mx,
    App.page (App.handleFormSubmit form submitButton) =
      App.Shown results comparison credits /\
    UI.emissionCard results = UI.formatNumber (VNumber e) 2 /\
    UI.creditsCard credits = UI.formatNumber (VNumber c) 2 /\
    UI.priceCard credits =
      (UI.formatCurrency av, UI.formatCurrency mn, UI.formatCurrency mx) /\
    fleb pos_zero e = true /\ fleb pos_zero c = true /\
    fleb pos_zero mn = true /\ fleb mn av = true /\ fleb av mx = true.
Proof.
  intros A W F Hm. unfold App.handleFormSubmit. rewrite (validation_passes form A).
  destruct (renderComparison_items (calculateAllModes (App.distance form))
              (App.transportMode form) (calculateAllModes_metadata _))
    as (items & -> & _).
  unfold UI.renderResults. cbn [UI.ResultsData.mode UI.ResultsData.savings
    UI.ResultsData.origin UI.ResultsData.destination UI.ResultsData.distance
    UI.ResultsData.emission].
  destruct (metadata_found _ (keys_have_metadata _ Hm)) as (header & ->).
  destruct A as (_ & _ & G).
  assert (P := posfin_of_positive _ W F G).
  assert (Ne := emission_nonneg_any _ _ Hm (posfin_nonneg _ P) F).
  set (e := calculateEmission (App.distance form) (App.transportMode form)) in *.
  assert (Nc := credits_nonneg e Ne).
  set (c := calculateCarbonCredits e) in *.
  do 8 eexists. split; [reflexivity|]. cbn [App.page UI.emissionCard].
  split; [reflexivity|]. unfold UI.renderCarbonCredits.
  cbn [UI.creditsCard UI.priceCard UI.CreditsData.credits UI.CreditsData.price
       UI.CreditsData.emission].
  split; [reflexivity|]. split; [reflexivity|].
  unfold estimateCreditPrice. cbn [min max average].
  repeat split.
  - now apply ge_zero_leb.
  - now apply ge_zero_leb, or_default_nonneg.
  - apply ge_zero_leb, round2_nonneg. now apply price_mn_nonneg.
  - apply round2_mono.
    + now apply price_mn_nonneg.
    + now apply price_avg_nonneg.
    + now apply price_mn_le_avg.
  - now apply price_round_avg_le_mx.
Qed.

Lemma handleFormSubmit_credits_card_witness :
  exists results comparison credits e c mn av mx,
    App.page (App.handleFormSubmit
      {| App.origin := "Manaus"; App.destination := "Curitiba";
         App.distance := decimal 27341 1; App.transportMode := "truck" |} None) =
      App.Shown results comparison credits /\
    UI.emissionCard results = UI.formatNumber (VNumber e) 2 /\
    UI.creditsCard credits = UI.formatNumber (VNumber c) 2 /\
    UI.priceCard credits =
      (UI.formatCurrency av, UI.formatCurrency mn, UI.formatCurrency mx) /\
    fleb pos_zero e = true /\ fleb pos_zero c = true /\
    fleb pos_zero mn = true /\ fleb mn av = true /\ fleb av mx = true.
Proof.
  apply (handleFormSubmit_credits_card
           {| App.origin := "Manaus"; App.destination := "Curitiba";
              App.distance := decimal 27341 1; App.transportMode := "truck" |} None).
  - repeat split; discriminate.
  - reflexivity.
  - reflexivity.
  - cbn. tauto.
Defined.

End EndToEnd.

(** * Part VI: what the rounding to two decimals returns *)

(** ** The sign of a rounded number *)

Section RoundedSign.
Local Open Scope string_scope.
Local Open Scope Z_scope.

Lemma one_half_value : one_half = S754_finite false 4503599627370496 (-53).
Proof. reflexivity. Qed.

Lemma Qval_one_half : (Qval 4503599627370496 (-53) == 1 # 2)%Q.
Proof. reflexivity. Qed.

Lemma fsub_well_formed a b :
  well_formed a = true -> well_formed b = true -> well_formed (fsub a b) = true.
Proof.
  intros Wa Wb.
  destruct a as [sa|sa| |sa ma ea], b as [sb|sb| |sb mb eb];
    try (destruct sa, sb; reflexivity); try exact Wa; try exact Wb;
    try reflexivity.
  unfold fsub, SFsub.
  set (ez := Z.min ea eb).
  set (z := cond_Zopp sa (Z.pos (fst (shl_align ma ea ez))) -
            cond_Zopp sb (Z.pos (fst (shl_align mb eb ez)))).
  assert (S := binary_normalize_sem z ez).
  destruct z as [|p|p].
  - rewrite S. reflexivity.
  - exact (rounds_to_valid _ _ _ (Qlt_le_weak _ _ (Qval_pos p ez)) S).
  - exact (rounds_to_valid _ _ _ (Qlt_le_weak _ _ (Qval_pos p ez)) S).
Qed.

Lemma fmul_well_formed x c :
  well_formed x = true -> posfin c = true -> well_formed (fmul x c) = true.
Proof.
  intros W P. nonneg_cases c.
  destruct x as [s|s| |s mx ex]; try reflexivity.
  cbn [well_formed valid_binary] in W.
  assert (D := mul_sem s mx ex false m e W B).
  apply (rounds_to_valid _ _ _ (Qlt_le_weak _ _
           (Qmult_lt_0_compat _ _ (Qval_pos mx ex) (Qval_pos m e))) D).
Qed.

(** A number that a rounding of sign [s] gives for a magnitude of at
    least 1 is not zero, carries the sign [s], and stays so when divided
    by 100. *)
Lemma rounds_to_sign_flip s x m e :
  rounds_to s x (S754_finite s m e) -> rounds_to false x (S754_finite false m e).
Proof.
  intros (t & G & E). exists t. split; [exact G|].
  unfold finish in *. destruct (rne_code (Qcode (x / pow2 t))) as [|p|p];
    try discriminate E.
  destruct (Z.pos p =? 2 ^ 53).
  - destruct (t + 1 <=? 971); [|discriminate E]. now inversion E.
  - destruct (t <=? 971); [|discriminate E]. now inversion E.
Qed.

Lemma rounds_to_ge_one s n z :
  1 <= n -> rounds_to s (inject_Z n) z ->
  z = S754_infinity s \/
  exists m e, z = S754_finite s m e /\ bounded prec emax m e = true /\
              (1 <= Qval m e)%Q.
Proof.
  intros Hn R.
  assert (Q0 : (0 <= inject_Z n)%Q)
    by (change 0%Q with (inject_Z 0); rewrite <- Zle_Qle; lia).
  assert (Q1 : (1 <= inject_Z n)%Q)
    by (change 1%Q with (inject_Z 1); rewrite <- Zle_Qle; lia).
  assert (NZ : is_zero z = false).
  { apply (rounds_to_nonzero s (inject_Z n)); [|exact R].
    assert (pow2 (-1074) <= pow2 0)%Q by (apply pow2_le; lia).
    rewrite pow2_0 in H. lra. }
  assert (V := rounds_to_valid _ _ _ Q0 R).
  destruct (rounds_to_shape _ _ _ Q0 R) as [E|[E|(m & e & E)]]; subst z;
    [discriminate NZ|now left|right].
  exists m, e. split; [reflexivity|]. split; [exact V|].
  assert (R' := rounds_to_sign_flip _ _ _ _ R).
  assert (B1 : bounded prec emax 4503599627370496 (-52) = true) by reflexivity.
  assert (R1 := rounds_to_exact false _ _ B1).
  assert (Q : (Qval 4503599627370496 (-52) == 1)%Q) by reflexivity.
  assert (L : SFleb (S754_finite false 4503599627370496 (-52))
                    (S754_finite false m e) = true).
  { apply (rounds_to_mono (Qval 4503599627370496 (-52)) (inject_Z n));
      [rewrite Q; lra|rewrite Q; exact Q1|exact R1|exact R']. }
  apply (leb_Qval_le _ _ _ _ B1 V) in L. now rewrite Q in L.
Qed.

Lemma fdiv_hundred_sign s n z :
  1 <= n -> rounds_to s (inject_Z n) z ->
  sign_of (fdiv z hundred) = Some s /\ is_zero (fdiv z hundred) = false /\
  is_nan (fdiv z hundred) = false.
Proof.
  intros Hn R. destruct (rounds_to_ge_one s n z Hn R) as [->|(m & e & -> & B & L)].
  - destruct s; repeat split.
  - assert (D := div_sem s m e false 7036874417766400 (-46)).
    change (S754_finite false 7036874417766400 (-46)) with hundred in D.
    rewrite xorb_false_r in D.
    assert (QH : (Qval 7036874417766400 (-46) == 100)%Q) by reflexivity.
    assert (Q0 : (1 # 100 <= Qval m e / Qval 7036874417766400 (-46))%Q).
    { rewrite QH. unfold Qdiv. change (/ 100)%Q with (1 # 100)%Q.
      rewrite <- (Qmult_1_l (1 # 100)) at 1.
      apply Qmult_le_compat_r; [exact L|]. lra. }
    assert (NZ : is_zero (fdiv (S754_finite s m e) hundred) = false).
    { apply (rounds_to_nonzero s _ _ ) with (2 := D).
      assert (pow2 (-1074) <= pow2 (-7))%Q by (apply pow2_le; lia).
      assert (pow2 (-7) == 1 # 128)%Q by reflexivity. lra. }
    assert (Q00 : (0 <= Qval m e / Qval 7036874417766400 (-46))%Q) by lra.
    destruct (rounds_to_shape _ _ _ Q00 D) as [E|[E|(m' & e' & E)]];
      rewrite E in *; [discriminate NZ|destruct s; repeat split..].
Qed.

(** [Math.round] on a negative number. *)
Lemma Math_round_sem_neg m e :
  bounded prec emax m e = true ->
  let n := Qfloor (- Qval m e + (1#2)) in
  (n = 0 /\ Math_round (S754_finite true m e) = S754_zero true) \/
  (n < 0 /\ rounds_to true (inject_Z (- n)) (Math_round (S754_finite true m e))).
Proof.
  intros B n. unfold Math_round.
  assert (V := Qval_pos m e).
  destruct (Z.leb_spec 0 e) as [He|He].
  - right.
    assert (P : 0 < 2 ^ e) by (apply Z.pow_pos_nonneg; lia).
    assert (En : n = - (Z.pos m * 2 ^ e)).
    { unfold n. apply Qfloor_unique; rewrite Qval_nonneg_exp by lia;
        rewrite ?inject_Z_opp; lra. }
    split; [lia|]. rewrite En, Z.opp_involutive.
    apply (rounds_to_comp _ (Qval m e)); [now apply Qval_nonneg_exp|].
    now apply rounds_to_exact.
  - set (k := - e). assert (Hk : 0 < k) by (unfold k; lia).
    assert (P : 0 < 2 ^ k) by (apply Z.pow_pos_nonneg; lia).
    rewrite Z.shiftr_div_pow2 by lia.
    assert (En : (Z.neg m + 2 ^ (k - 1)) / 2 ^ k = n).
    { rewrite Zdiv_Qdiv. unfold n. apply Qfloor_comp.
      unfold Qval. rewrite inject_Z_plus, <- !pow2_Z by lia.
      assert (Pk0 := pow2_pos k).
      assert (E1 : (pow2 e == / pow2 k)%Q).
      { assert (E := pow2_add e k). replace (e + k) with 0 in E by (unfold k; lia).
        rewrite pow2_0 in E. apply (Qmult_inj_r _ _ (pow2 k)); [lra|].
        rewrite <- E. field. lra. }
      assert (E2 : (pow2 (k - 1) == pow2 k * (1#2))%Q).
      { rewrite pow2_sub, pow2_1. field. }
      assert (E3 : (inject_Z (Z.neg m) == - inject_Z (Z.pos m))%Q).
      { rewrite <- inject_Z_opp. reflexivity. }
      rewrite E1, E2, E3. field. lra. }
    rewrite En.
    assert (Hn : n <= 0).
    { assert (n < 1); [|lia]. unfold n. apply Qfloor_ub.
      change (inject_Z 1) with 1%Q. lra. }
    destruct (Z.eqb_spec n 0) as [E0|NE]; [left; now split|right].
    split; [lia|]. destruct n as [|p|p]; [lia|lia|].
    change (- Z.neg p) with (Z.pos p).
    apply (rounds_to_comp _ (Qval p 0)); [apply Qval_Z|].
    exact (binary_normalize_sem (Z.neg p) 0).
Qed.

(** [Math.round(y)] is > 0 exactly when [y >= 0.5], and < 0 exactly when
    [y < -0.5]. *)
Lemma Math_round_pos_iff y :
  well_formed y = true ->
  fgtb (fdiv (Math_round y) hundred) pos_zero = fleb one_half y.
Proof.
  intros W. destruct y as [s|s| |s m e]; try (destruct s; reflexivity);
    try reflexivity.
  destruct s.
  - destruct (fgtb (fdiv (Math_round (S754_finite true m e)) hundred) pos_zero) eqn:G;
      [|reflexivity].
    apply fdiv_gt_zero in G; [|reflexivity]. apply Math_round_gt_zero in G.
    discriminate G.
  - cbn [well_formed valid_binary] in W.
    assert (BH : bounded prec emax 4503599627370496 (-53) = true) by reflexivity.
    rewrite one_half_value.
    destruct (Math_round_sem m e W) as [[En ->]|[Hn R]].
    + change (fgtb (fdiv (S754_zero false) hundred) pos_zero) with false.
      symmetry. destruct (fleb _ _) eqn:L; [|reflexivity]. exfalso.
      apply (leb_Qval_le _ _ _ _ BH W) in L. rewrite Qval_one_half in L.
      assert (U : Qfloor (Qval m e + (1 # 2)) < 1) by lia.
      assert (H1 : 1 <= Qfloor (Qval m e + (1 # 2))); [|lia].
      apply Qfloor_lb. change (inject_Z 1) with 1%Q. lra.
    + assert (Hn1 : 1 <= Qfloor (Qval m e + (1 # 2))) by lia.
      destruct (fdiv_hundred_sign false _ _ Hn1 R) as (S & Z & N).
      transitivity true.
      * destruct (fdiv (Math_round (S754_finite false m e)) hundred) as [| [] | |[] ]; 
          try discriminate; reflexivity.
      * symmetry. apply (Qval_le_leb _ _ _ _ BH W). rewrite Qval_one_half.
        destruct (Qlt_le_dec (Qval m e) (1#2)) as [C|C]; [exfalso|exact C].
        assert (Qfloor (Qval m e + (1 # 2)) < 1); [|lia].
        apply Qfloor_ub. change (inject_Z 1) with 1%Q. lra.
Qed.

Lemma Math_round_neg_iff y :
  well_formed y = true ->
  fltb (fdiv (Math_round y) hundred) pos_zero = fltb y (fneg one_half).
Proof.
  intros W. destruct y as [s|s| |s m e]; try (destruct s; reflexivity);
    try reflexivity.
  destruct s.
  - cbn [well_formed valid_binary] in W.
    assert (BH : bounded prec emax 4503599627370496 (-53) = true) by reflexivity.
    rewrite one_half_value. cbn [fneg SFopp negb]. unfold fltb at 2.
    rewrite SFltb_neg_neg.
    destruct (Math_round_sem_neg m e W) as [[En ->]|[Hn R]].
    + change (fltb (fdiv (S754_zero true) hundred) pos_zero) with false.
      symmetry. destruct (SFltb _ _) eqn:L; [|reflexivity]. exfalso.
      apply (ltb_Qval_lt _ _ _ _ BH W) in L. rewrite Qval_one_half in L.
      assert (Qfloor (- Qval m e + (1 # 2)) < 0); [|lia].
      apply Qfloor_ub. change (inject_Z 0) with 0%Q. lra.
    + assert (Hn1 : 1 <= - Qfloor (- Qval m e + (1 # 2))) by lia.
      destruct (fdiv_hundred_sign true _ _ Hn1 R) as (S & Z & N).
      transitivity true.
      * destruct (fdiv (Math_round (S754_finite true m e)) hundred) as [| [] | |[] ];
          try discriminate; reflexivity.
      * symmetry. apply (ltb_Qval_lt _ _ _ _ BH W). rewrite Qval_one_half.
        destruct (Qlt_le_dec (1#2) (Qval m e)) as [C|C]; [exact C|exfalso].
        assert (0 <= Qfloor (- Qval m e + (1 # 2))); [|lia].
        apply Qfloor_lb. change (inject_Z 0) with 0%Q. lra.
  - destruct (fltb (fdiv (Math_round (S754_finite false m e)) hundred) pos_zero) eqn:G;
      [|reflexivity].
    apply fdiv_lt_zero in G; [|reflexivity]. apply Math_round_lt_zero in G.
    discriminate G.
Qed.

End RoundedSign.

(** ** The sign of the savings *)

Section SavingsSign.
Local Open Scope string_scope.
Local Open Scope Z_scope.

Lemma fleb_well_formed_nonneg a x :
  posfin a = true -> well_formed x = true -> fleb a x = true -> nonneg x = true.
Proof.
  intros P W L. nonneg_cases a.
  destruct x as [s|[]| |[] m' e']; try discriminate L; try reflexivity. exact W.
Qed.

Lemma savedKg_pos_iff x :
  well_formed x = true ->
  fgtb (round2 x) pos_zero = fleb one_half (fmul x hundred).
Proof.
  intros W. unfold round2. apply Math_round_pos_iff.
  apply fmul_well_formed; [exact W|reflexivity].
Qed.

Lemma savedKg_neg_iff x :
  well_formed x = true ->
  fltb (round2 x) pos_zero = fltb (fmul x hundred) (fneg one_half).
Proof.
  intros W. unfold round2. apply Math_round_neg_iff.
  apply fmul_well_formed; [exact W|reflexivity].
Qed.

Lemma margin_pos x :
  well_formed x = true -> fleb (decimal 5 3) x = true ->
  fleb one_half (fmul x hundred) = true.
Proof.
  intros W L.
  assert (N := fleb_well_formed_nonneg (decimal 5 3) x eq_refl W L).
  change one_half with (fmul (decimal 5 3) hundred).
  apply mul_mono; try assumption; reflexivity.
Qed.

Lemma fneg_well_formed x : well_formed x = true -> well_formed (fneg x) = true.
Proof. destruct x; auto. Qed.

Lemma SFleb_neg_neg m1 e1 m2 e2 :
  SFleb (S754_finite true m1 e1) (S754_finite true m2 e2) =
  SFleb (S754_finite false m2 e2) (S754_finite false m1 e1).
Proof.
  unfold SFleb. cbn [SFcompare].
  rewrite (Z.compare_antisym e1 e2).
  destruct (e1 ?= e2); cbn [CompOpp]; try reflexivity.
  change (Pos.compare_cont Eq m1 m2) with (Pos.compare m1 m2).
  change (Pos.compare_cont Eq m2 m1) with (Pos.compare m2 m1).
  rewrite (Pos.compare_antisym m1 m2). now destruct (m1 ?= m2)%positive.
Qed.

Lemma fleb_fneg a x :
  fleb x (fneg a) = true -> posfin a = true -> fleb a (fneg x) = true.
Proof.
  intros L P. nonneg_cases a.
  destruct x as [s|[]| |[] m' e']; try discriminate L; try reflexivity.
  cbn [fneg SFopp negb] in *. unfold fleb in *.
  now rewrite SFleb_neg_neg in L.
Qed.

Lemma margin_neg x :
  well_formed x = true -> fleb x (decimal (-6) 3) = true ->
  fltb (fmul x hundred) (fneg one_half) = true.
Proof.
  intros W L.
  assert (L' : fleb (decimal 6 3) (fneg x) = true)
    by (apply fleb_fneg; [exact L|reflexivity]).
  assert (N := fleb_well_formed_nonneg (decimal 6 3) (fneg x) eq_refl
                 (fneg_well_formed x W) L').
  assert (M : fleb (fmul (decimal 6 3) hundred) (fmul (fneg x) hundred) = true)
    by (apply mul_mono; try assumption; reflexivity).
  rewrite fmul_opp_l in M.
  set (p := fmul x hundred) in *.
  assert (Np : nonneg (fneg p) = true).
  { unfold p. rewrite <- fmul_opp_l. apply mul_nonneg; [exact N|reflexivity]. }
  assert (LT : fltb one_half (fneg p) = true).
  { destruct (fltb one_half (fneg p)) eqn:C; [reflexivity|exfalso].
    apply (ltb_false_leb (fneg p) one_half Np eq_refl) in C.
    assert (T := leb_trans (fmul (decimal 6 3) hundred) (fneg p) one_half
                   eq_refl Np eq_refl M C).
    discriminate T. }
  destruct p as [s|[]| |[] m e]; try discriminate Np; try discriminate LT;
    try reflexivity.
  cbn [fneg SFopp negb] in LT. rewrite one_half_value in *.
  cbn [fneg SFopp negb]. unfold fltb. rewrite SFltb_neg_neg. exact LT.
Qed.

End SavingsSign.

(** * Part VII: the floating-point operations over the reals *)

(** ** The error of one rounding *)

Section RoundingError.
Local Open Scope string_scope.
Local Open Scope Z_scope.

Lemma rne_half x :
  (0 <= x)%Q -> (Qabs (inject_Z (rne_code (Qcode x)) - x) <= 1 # 2)%Q.
Proof.
  intros Hx. set (f := Qfloor x).
  assert (D1 : forall k, 0 <= k < 4 -> (4 * f + k) / 4 = f)
    by (intros k Hk; symmetry; apply (Z.div_unique _ 4 f k); lia).
  assert (D2 : forall k, 0 <= k < 4 -> (4 * f + k) mod 4 = k)
    by (intros k Hk; symmetry; apply (Z.mod_unique _ 4 f k); lia).
  apply Qabs_Qle_condition.
  destruct (Qcode_cases x) as [[E C]|[(L & U & C)|[[E C]|(L & U & C)]]];
    fold f in E || fold f in L, U; fold f in C; rewrite C; unfold rne_code.
  - replace (4 * f) with (4 * f + 0) by lia. rewrite D1, D2 by lia.
    change (0 <=? 1) with true. cbv iota. rewrite Z.add_0_r. lra.
  - rewrite D1, D2 by lia.
    change (1 <=? 1) with true. cbv iota. rewrite Z.add_0_r. lra.
  - rewrite D1, D2 by lia.
    change (2 <=? 1) with false. change (2 =? 2) with true. cbv iota.
    destruct (Z.even f); rewrite ?Z.add_0_r, ?inject_Z_plus;
      change (inject_Z 1) with 1%Q; lra.
  - rewrite D1, D2 by lia.
    change (3 <=? 1) with false. change (3 =? 2) with false. cbv iota.
    rewrite inject_Z_plus. change (inject_Z 1) with 1%Q. lra.
Qed.

Lemma pow2_le_inv a b : (pow2 a <= pow2 b)%Q -> a <= b.
Proof.
  intros H. destruct (Z_le_gt_dec a b) as [L|G]; [exact L|exfalso].
  assert (pow2 b < pow2 a)%Q by (apply pow2_lt; lia). lra.
Qed.

Lemma finish_value s N t :
  0 <= N <= 2 ^ 53 -> t <= 970 ->
  is_finite (finish s N t) = true /\
  (B2Q (finish s N t) == signQ s * (inject_Z N * pow2 t))%Q.
Proof.
  intros HN Ht. unfold finish. destruct N as [|p|p]; [| |lia].
  - split; [reflexivity|]. cbn [B2Q]. change (inject_Z 0) with 0%Q. ring.
  - destruct (Z.eqb_spec (Z.pos p) (2 ^ 53)) as [E|NE].
    + destruct (Z.leb_spec (t + 1) 971); [|lia]. split; [reflexivity|].
      rewrite E. cbn [B2Q]. unfold Qval.
      assert (E1 : (inject_Z (Z.pos (2 ^ 52)) * pow2 (t + 1) ==
                    inject_Z (2 ^ 53) * pow2 t)%Q).
      { rewrite pow2_succ. change (inject_Z (Z.pos (2 ^ 52))) with (inject_Z (2 ^ 52)).
        change (inject_Z (2 ^ 53)) with (2 * inject_Z (2 ^ 52))%Q. ring. }
      destruct s; cbn [signQ]; rewrite E1; ring.
    + destruct (Z.leb_spec t 971); [|lia]. split; [reflexivity|].
      cbn [B2Q]. unfold Qval. destruct s; cbn [signQ]; ring.
Qed.

(** The standard model of one rounding: a relative error of at most
    [2^-53], or an absolute one of at most [2^-1075]. *)
Theorem rounds_to_error s q r :
  (0 <= q)%Q -> (q <= pow2 1000)%Q -> rounds_to s q r ->
  is_finite r = true /\ well_formed r = true /\
  (Qabs (B2Q r - signQ s * q) <= q * pow2 (-53) + pow2 (-1075))%Q.
Proof.
  intros H0 Hq R. assert (V := rounds_to_valid _ _ _ H0 R).
  destruct R as (t & G & ->).
  destruct (grid_mantissa q t H0 G) as [HN HB].
  destruct G as (Ht & U & L).
  assert (Ht' : t <= 970).
  { destruct (Z.eq_dec t (-1074)) as [->|NE]; [lia|].
    assert (pow2 (t + 52) <= pow2 1000)%Q by (specialize (L ltac:(lia)); lra).
    apply pow2_le_inv in H. lia. }
  destruct (finish_value s _ t HN Ht') as [F E].
  split; [exact F|]. split; [exact V|].
  set (N := rne_code (Qcode (q / pow2 t))) in *.
  assert (P := pow2_pos t).
  assert (Hh := rne_half (q / pow2 t)
                  ltac:(apply Qle_shift_div_l; [exact P|lra])).
  fold N in Hh. apply Qabs_Qle_condition in Hh.
  assert (Hd : (- (pow2 t * (1 # 2)) <= inject_Z N * pow2 t - q <= pow2 t * (1 # 2))%Q).
  { assert (Eq : (inject_Z N * pow2 t - q == (inject_Z N - q / pow2 t) * pow2 t)%Q)
      by (field; lra).
    rewrite Eq. destruct Hh as [H1 H2]. split.
    - setoid_replace (- (pow2 t * (1 # 2)))%Q with ((- (1 # 2)) * pow2 t)%Q by ring.
      apply Qmult_le_compat_r; lra.
    - rewrite (Qmult_comm (pow2 t)). apply Qmult_le_compat_r; lra. }
  assert (Hb : (pow2 t * (1 # 2) <= q * pow2 (-53) + pow2 (-1075))%Q).
  { assert (P53 := pow2_pos (-53)). assert (P1075 := pow2_pos (-1075)).
    assert (E2 : forall a, (pow2 a * (1 # 2) == pow2 (a - 1))%Q).
    { intros a. rewrite pow2_sub, pow2_1. field. }
    destruct (Z.eq_dec t (-1074)) as [->|NE].
    - rewrite E2. change (-1074 - 1) with (-1075).
      assert (0 <= q * pow2 (-53))%Q by (apply Qmult_le_0_compat; lra). lra.
    - specialize (L ltac:(lia)).
      assert (E3 : (pow2 t * (1 # 2) == pow2 (t + 52) * pow2 (-53))%Q).
      { rewrite E2, <- pow2_add. replace (t + 52 + -53) with (t - 1) by lia.
        reflexivity. }
      rewrite E3.
      assert (pow2 (t + 52) * pow2 (-53) <= q * pow2 (-53))%Q
        by (apply Qmult_le_compat_r; lra).
      lra. }
  apply Qabs_Qle_condition. rewrite E.
  destruct s; cbn [signQ]; split; lra.
Qed.

End RoundingError.

(** ** The operations *)

Section RealValues.
Local Open Scope R_scope.

Lemma Q2R_zero : Q2R 0 = 0.
Proof. unfold Q2R. cbn [Qnum Qden]. Lra.lra. Qed.

Lemma Q2R_inject_Z z : Q2R (inject_Z z) = IZR z.
Proof. unfold Q2R, inject_Z. cbn [Qnum Qden]. rewrite Rinv_1. ring. Qed.

Lemma Q2R_Qabs q : Q2R (Qabs q) = Rabs (Q2R q).
Proof.
  destruct (Qlt_le_dec q 0) as [H|H].
  - rewrite (Qeq_eqR _ _ (Qabs_neg q (Qlt_le_weak _ _ H))), Q2R_opp.
    apply Qlt_Rlt in H. rewrite Q2R_zero in H. rewrite Rabs_left; Lra.lra.
  - rewrite (Qeq_eqR _ _ (Qabs_pos q H)).
    apply Qle_Rle in H. rewrite Q2R_zero in H. rewrite Rabs_right; Lra.lra.
Qed.

Lemma roundoff_bounds :
  0 < underflow_unit /\ 1000 * underflow_unit <= unit_roundoff /\
  unit_roundoff <= / 1000000000000000 /\
  64 * underflow_unit <= unit_roundoff * unit_roundoff.
Proof.
  unfold underflow_unit, unit_roundoff. repeat split.
  - rewrite <- Q2R_zero. apply Qlt_Rlt, pow2_pos.
  - replace 1000 with (Q2R (inject_Z 1000)) by (rewrite Q2R_inject_Z; reflexivity).
    rewrite <- Q2R_mult.
    apply Qle_Rle, Qle_bool_imp_le. vm_compute. reflexivity.
  - replace (/ 1000000000000000) with (Q2R (1 # 1000000000000000))
      by (unfold Q2R; cbn [Qnum Qden]; Lra.lra).
    apply Qle_Rle, Qle_bool_imp_le. vm_compute. reflexivity.
  - rewrite <- Q2R_mult.
    replace 64 with (Q2R (inject_Z 64)) by (rewrite Q2R_inject_Z; reflexivity).
    rewrite <- Q2R_mult.
    apply Qle_Rle, Qle_bool_imp_le. vm_compute. reflexivity.
Qed.

Lemma B2Q_finite s m e : (B2Q (S754_finite s m e) == signQ s * Qval m e)%Q.
Proof. destruct s; cbn [B2Q signQ]; ring. Qed.

Lemma B2R_zero s : B2R (S754_zero s) = 0.
Proof. unfold B2R. cbn [B2Q]. apply Q2R_zero. Qed.

Lemma finite_cases x :
  is_finite x = true ->
  (exists s, x = S754_zero s) \/ exists s m e, x = S754_finite s m e.
Proof.
  destruct x as [s|s| |s m e]; try discriminate; intros _;
    [left; exists s|right; exists s, m, e]; reflexivity.
Qed.

Lemma well_formed_bounded s m e :
  well_formed (S754_finite s m e) = true -> bounded prec emax m e = true.
Proof. intros H. exact H. Qed.

Lemma near_zero s : near (S754_zero s) 0 0.
Proof.
  split; [reflexivity|]. split; [reflexivity|].
  rewrite B2R_zero, Rminus_0_r, Rabs_R0. Lra.lra.
Qed.

Lemma near_weaken x v e e' : near x v e -> e <= e' -> near x v e'.
Proof. intros (W & F & H) L. repeat split; auto. Lra.lra. Qed.

(** One rounding, over the reals. *)
Lemma rounds_to_near s q r v :
  rounds_to s q r -> (0 <= q)%Q -> (signQ s * q == v)%Q ->
  Rabs (Q2R v) <= 1000000000000000000 ->
  near r (Q2R v) (unit_roundoff * Rabs (Q2R v) + underflow_unit) /\
  0 <= Q2R (signQ s) * B2R r.
Proof.
  intros R H0 Ev Hv.
  assert (Ea : Rabs (Q2R v) = Q2R q).
  { rewrite <- Q2R_Qabs. apply Qeq_eqR. rewrite <- Ev.
    rewrite Qabs_Qmult, (Qabs_pos q H0). destruct s; cbn [signQ].
    - change (Qabs (-1)) with 1%Q. ring.
    - change (Qabs 1) with 1%Q. ring. }
  assert (Hq : (q <= pow2 1000)%Q).
  { apply Qle_trans with (inject_Z 1000000000000000000).
    - apply Rle_Qle. rewrite Q2R_inject_Z, <- Ea. exact Hv.
    - apply Qle_bool_imp_le. vm_compute. reflexivity. }
  destruct (rounds_to_error s q r H0 Hq R) as (F & W & E).
  split.
  - split; [exact W|]. split; [exact F|].
    apply Qle_Rle in E.
    rewrite Q2R_Qabs, Q2R_minus, (Qeq_eqR _ _ Ev), Q2R_plus, Q2R_mult in E.
    rewrite Ea.
    unfold B2R, unit_roundoff, underflow_unit. Lra.lra.
  - unfold B2R. rewrite <- Q2R_mult, <- Q2R_zero. apply Qle_Rle.
    destruct (rounds_to_shape s q r H0 R) as [->|[->|(m & e & ->)]].
    + cbn [B2Q]. Lqa.lra.
    + cbn [B2Q]. Lqa.lra.
    + assert (P := Qval_pos m e). destruct s; cbn [B2Q signQ]; Lqa.lra.
Qed.

Lemma signed_nonneg s q r :
  (0 < q)%Q -> 0 <= Q2R (signQ s) * B2R r ->
  (0 <= Q2R (signQ s * q) -> 0 <= B2R r) /\
  (Q2R (signQ s * q) <= 0 -> B2R r <= 0).
Proof.
  intros Hq H. apply Qlt_Rlt in Hq. rewrite Q2R_zero in Hq.
  rewrite Q2R_mult.
  destruct s; cbn [signQ] in *.
  - replace (Q2R (-1)) with (-1) in * by (unfold Q2R; cbn [Qnum Qden]; Lra.lra).
    split; intros; Lra.lra.
  - replace (Q2R 1) with 1 in * by (unfold Q2R; cbn [Qnum Qden]; Lra.lra).
    split; intros; Lra.lra.
Qed.

(** Multiplication. *)
Lemma fmul_near x y :
  well_formed x = true -> is_finite x = true ->
  well_formed y = true -> is_finite y = true ->
  Rabs (B2R x * B2R y) <= 1000000000000000000 ->
  near (fmul x y) (B2R x * B2R y)
       (unit_roundoff * Rabs (B2R x * B2R y) + underflow_unit) /\
  (0 <= B2R x * B2R y -> 0 <= B2R (fmul x y)) /\
  (B2R x * B2R y <= 0 -> B2R (fmul x y) <= 0).
Proof.
  intros Wx Fx Wy Fy Hb.
  assert (B := roundoff_bounds).
  assert (Z : forall s v, v = 0 ->
            near (S754_zero s) v (unit_roundoff * Rabs v + underflow_unit) /\
            (0 <= v -> 0 <= B2R (S754_zero s)) /\
            (v <= 0 -> B2R (S754_zero s) <= 0)).
  { intros s v ->. rewrite B2R_zero. split; [|split; intros; Lra.lra].
    apply (near_weaken _ _ 0); [apply near_zero|].
    rewrite Rabs_R0. Lra.lra. }
  destruct (finite_cases x Fx) as [[sx ->]|(sx & mx & ex & ->)];
    destruct (finite_cases y Fy) as [[sy ->]|(sy & my & ey & ->)].
  - apply (Z (xorb sx sy)). rewrite B2R_zero. ring.
  - apply (Z (xorb sx sy)). rewrite B2R_zero. ring.
  - apply (Z (xorb sx sy)). rewrite B2R_zero. ring.
  - assert (S := mul_sem sx mx ex sy my ey (well_formed_bounded _ _ _ Wx)
                   (well_formed_bounded _ _ _ Wy)).
    assert (Px := Qval_pos mx ex). assert (Py := Qval_pos my ey).
    assert (P : (0 < Qval mx ex * Qval my ey)%Q)
      by (apply Qmult_lt_0_compat; assumption).
    assert (Ev : (signQ (xorb sx sy) * (Qval mx ex * Qval my ey) ==
                  B2Q (S754_finite sx mx ex) * B2Q (S754_finite sy my ey))%Q)
      by (destruct sx, sy; cbn [B2Q signQ xorb]; ring).
    assert (E2 : Q2R (B2Q (S754_finite sx mx ex) * B2Q (S754_finite sy my ey)) =
                 B2R (S754_finite sx mx ex) * B2R (S754_finite sy my ey))
      by (unfold B2R; apply Q2R_mult).
    destruct (rounds_to_near _ _ _ _ S (Qlt_le_weak _ _ P) Ev) as [N G].
    { rewrite E2. exact Hb. }
    rewrite E2 in N. split; [exact N|].
    rewrite <- E2, <- (Qeq_eqR _ _ Ev).
    apply (signed_nonneg _ _ _ P G).
Qed.

(** Division. *)
Lemma fdiv_near x y :
  well_formed x = true -> is_finite x = true ->
  well_formed y = true -> is_finite y = true ->
  B2R y <> 0 ->
  Rabs (B2R x / B2R y) <= 1000000000000000000 ->
  near (fdiv x y) (B2R x / B2R y)
       (unit_roundoff * Rabs (B2R x / B2R y) + underflow_unit) /\
  (0 <= B2R x / B2R y -> 0 <= B2R (fdiv x y)) /\
  (B2R x / B2R y <= 0 -> B2R (fdiv x y) <= 0).
Proof.
  intros Wx Fx Wy Fy Hy Hb.
  assert (B := roundoff_bounds).
  destruct (finite_cases y Fy) as [[sy ->]|(sy & my & ey & ->)];
    [rewrite B2R_zero in Hy; contradiction|].
  destruct (finite_cases x Fx) as [[sx ->]|(sx & mx & ex & ->)].
  - change (fdiv (S754_zero sx) (S754_finite sy my ey))
      with (S754_zero (xorb sx sy)).
    rewrite !B2R_zero. replace (0 / B2R (S754_finite sy my ey)) with 0
      by (unfold Rdiv; ring).
    split; [|split; intros; Lra.lra].
    apply (near_weaken _ _ 0); [apply near_zero|]. rewrite Rabs_R0. Lra.lra.
  - assert (S := div_sem sx mx ex sy my ey).
    assert (Px := Qval_pos mx ex). assert (Py := Qval_pos my ey).
    assert (P : (0 < Qval mx ex / Qval my ey)%Q)
      by (apply Qlt_shift_div_l; Lqa.lra).
    assert (Ny : ~ (B2Q (S754_finite sy my ey) == 0)%Q)
      by (destruct sy; cbn [B2Q]; Lqa.lra).
    assert (Ev : (signQ (xorb sx sy) * (Qval mx ex / Qval my ey) ==
                  B2Q (S754_finite sx mx ex) / B2Q (S754_finite sy my ey))%Q)
      by (destruct sx, sy; cbn [B2Q signQ xorb]; field; Lqa.lra).
    assert (E2 : Q2R (B2Q (S754_finite sx mx ex) / B2Q (S754_finite sy my ey)) =
                 B2R (S754_finite sx mx ex) / B2R (S754_finite sy my ey))
      by (unfold B2R; apply Q2R_div; exact Ny).
    destruct (rounds_to_near _ _ _ _ S (Qlt_le_weak _ _ P) Ev) as [N G].
    { rewrite E2. exact Hb. }
    rewrite E2 in N. split; [exact N|].
    rewrite <- E2, <- (Qeq_eqR _ _ Ev).
    apply (signed_nonneg _ _ _ P G).
Qed.

(** Normalisation of an integer mantissa. *)
Lemma binary_normalize_near z e :
  Rabs (Q2R (inject_Z z * pow2 e)) <= 1000000000000000000 ->
  let v := Q2R (inject_Z z * pow2 e) in
  let r := binary_normalize prec emax z e false in
  near r v (unit_roundoff * Rabs v + underflow_unit) /\
  (0 <= v -> 0 <= B2R r) /\ (v <= 0 -> B2R r <= 0).
Proof.
  intros Hb v r. assert (B := roundoff_bounds).
  assert (S := binary_normalize_sem z e). fold r in S.
  destruct z as [|m|m].
  - assert (E : v = 0).
    { unfold v. rewrite <- Q2R_zero. apply Qeq_eqR.
      change (inject_Z 0) with 0%Q. ring. }
    rewrite S, E, B2R_zero. split; [|split; intros; Lra.lra].
    apply (near_weaken _ _ 0); [apply near_zero|]. rewrite Rabs_R0. Lra.lra.
  - assert (P := Qval_pos m e).
    assert (Ev : (signQ false * Qval m e == inject_Z (Z.pos m) * pow2 e)%Q)
      by (cbn [signQ]; unfold Qval; ring).
    destruct (rounds_to_near _ _ _ _ S (Qlt_le_weak _ _ P) Ev Hb) as [N G].
    split; [exact N|]. unfold v. rewrite <- (Qeq_eqR _ _ Ev).
    apply (signed_nonneg _ _ _ P G).
  - assert (P := Qval_pos m e).
    assert (Ev : (signQ true * Qval m e == inject_Z (Z.neg m) * pow2 e)%Q).
    { cbn [signQ]; unfold Qval.
      change (Z.neg m) with (- Z.pos m)%Z. rewrite inject_Z_opp. ring. }
    destruct (rounds_to_near _ _ _ _ S (Qlt_le_weak _ _ P) Ev Hb) as [N G].
    split; [exact N|]. unfold v. rewrite <- (Qeq_eqR _ _ Ev).
    apply (signed_nonneg _ _ _ P G).
Qed.

Lemma of_Z_near n :
  Rabs (IZR n) <= 1000000000000000000 ->
  near (of_Z n) (IZR n) (unit_roundoff * Rabs (IZR n) + underflow_unit) /\
  (0 <= IZR n -> 0 <= B2R (of_Z n)) /\ (IZR n <= 0 -> B2R (of_Z n) <= 0).
Proof.
  intros Hb.
  assert (E : Q2R (inject_Z n * pow2 0) = IZR n).
  { rewrite <- Q2R_inject_Z. apply Qeq_eqR. rewrite pow2_0. ring. }
  assert (H := binary_normalize_near n 0). rewrite E in H.
  apply (H Hb).
Qed.

Lemma cond_Zopp_value s m e ez :
  (ez <= e)%Z ->
  (inject_Z (cond_Zopp s (Z.pos (fst (shl_align m e ez)))) * pow2 ez ==
   B2Q (S754_finite s m e))%Q.
Proof.
  intros H. assert (A := aligned_val m e ez H).
  destruct s; cbn [cond_Zopp B2Q].
  - change (- Z.pos (fst (shl_align m e ez)))%Z
      with (Z.opp (Z.pos (fst (shl_align m e ez)))).
    rewrite inject_Z_opp, <- A. ring.
  - exact A.
Qed.

(** Addition and subtraction. *)
Lemma fadd_near x y :
  well_formed x = true -> is_finite x = true ->
  well_formed y = true -> is_finite y = true ->
  Rabs (B2R x + B2R y) <= 1000000000000000000 ->
  near (fadd x y) (B2R x + B2R y)
       (unit_roundoff * Rabs (B2R x + B2R y) + underflow_unit) /\
  (0 <= B2R x + B2R y -> 0 <= B2R (fadd x y)) /\
  (B2R x + B2R y <= 0 -> B2R (fadd x y) <= 0).
Proof.
  intros Wx Fx Wy Fy Hb.
  assert (B := roundoff_bounds).
  assert (Ex : forall a v, well_formed a = true -> is_finite a = true ->
            v = B2R a ->
            near a v (unit_roundoff * Rabs v + underflow_unit) /\
            (0 <= v -> 0 <= B2R a) /\ (v <= 0 -> B2R a <= 0)).
  { intros a v Wa Fa ->. split; [|split; intros; Lra.lra].
    split; [exact Wa|]. split; [exact Fa|].
    replace (B2R a - B2R a) with 0 by ring. rewrite Rabs_R0.
    assert (0 <= Rabs (B2R a)) by apply Rabs_pos. Lra.nra. }
  destruct (finite_cases x Fx) as [[sx ->]|(sx & mx & ex & ->)];
    destruct (finite_cases y Fy) as [[sy ->]|(sy & my & ey & ->)].
  - rewrite !B2R_zero. replace (0 + 0) with 0 by ring.
    assert (E : exists s, fadd (S754_zero sx) (S754_zero sy) = S754_zero s)
      by (destruct sx, sy; eexists; reflexivity).
    destruct E as [s ->]. apply Ex; [reflexivity..|]. now rewrite B2R_zero.
  - change (fadd (S754_zero sx) (S754_finite sy my ey))
      with (S754_finite sy my ey).
    apply Ex; [assumption..|]. rewrite B2R_zero. ring.
  - change (fadd (S754_finite sx mx ex) (S754_zero sy))
      with (S754_finite sx mx ex).
    apply Ex; [assumption..|]. rewrite B2R_zero. ring.
  - unfold fadd, SFadd. set (ez := Z.min ex ey).
    assert (Ax := cond_Zopp_value sx mx ex ez ltac:(unfold ez; lia)).
    assert (Ay := cond_Zopp_value sy my ey ez ltac:(unfold ez; lia)).
    set (a := cond_Zopp sx _) in *. set (b := cond_Zopp sy _) in *.
    assert (E : Q2R (inject_Z (a + b) * pow2 ez) =
                B2R (S754_finite sx mx ex) + B2R (S754_finite sy my ey)).
    { unfold B2R. rewrite <- Q2R_plus. apply Qeq_eqR.
      rewrite <- Ax, <- Ay, inject_Z_plus. ring. }
    assert (H := binary_normalize_near (a + b) ez). rewrite E in H.
    apply (H Hb).
Qed.

Lemma fsub_near x y :
  well_formed x = true -> is_finite x = true ->
  well_formed y = true -> is_finite y = true ->
  Rabs (B2R x - B2R y) <= 1000000000000000000 ->
  near (fsub x y) (B2R x - B2R y)
       (unit_roundoff * Rabs (B2R x - B2R y) + underflow_unit) /\
  (0 <= B2R x - B2R y -> 0 <= B2R (fsub x y)) /\
  (B2R x - B2R y <= 0 -> B2R (fsub x y) <= 0).
Proof.
  intros Wx Fx Wy Fy Hb.
  assert (B := roundoff_bounds).
  assert (Ex : forall a v, well_formed a = true -> is_finite a = true ->
            v = B2R a ->
            near a v (unit_roundoff * Rabs v + underflow_unit) /\
            (0 <= v -> 0 <= B2R a) /\ (v <= 0 -> B2R a <= 0)).
  { intros a v Wa Fa ->. split; [|split; intros; Lra.lra].
    split; [exact Wa|]. split; [exact Fa|].
    replace (B2R a - B2R a) with 0 by ring. rewrite Rabs_R0.
    assert (0 <= Rabs (B2R a)) by apply Rabs_pos. Lra.nra. }
  destruct (finite_cases x Fx) as [[sx ->]|(sx & mx & ex & ->)];
    destruct (finite_cases y Fy) as [[sy ->]|(sy & my & ey & ->)].
  - rewrite !B2R_zero. replace (0 - 0) with 0 by ring.
    assert (E : exists s, fsub (S754_zero sx) (S754_zero sy) = S754_zero s)
      by (destruct sx, sy; eexists; reflexivity).
    destruct E as [s ->]. apply Ex; [reflexivity..|]. now rewrite B2R_zero.
  - change (fsub (S754_zero sx) (S754_finite sy my ey))
      with (S754_finite (negb sy) my ey).
    apply Ex; [exact Wy|reflexivity|]. rewrite B2R_zero. unfold B2R.
    rewrite <- Q2R_zero, <- Q2R_minus. apply Qeq_eqR.
    destruct sy; cbn [B2Q negb]; ring.
  - change (fsub (S754_finite sx mx ex) (S754_zero sy))
      with (S754_finite sx mx ex).
    apply Ex; [assumption..|]. rewrite B2R_zero. ring.
  - unfold fsub, SFsub. set (ez := Z.min ex ey).
    assert (Ax := cond_Zopp_value sx mx ex ez ltac:(unfold ez; lia)).
    assert (Ay := cond_Zopp_value sy my ey ez ltac:(unfold ez; lia)).
    set (a := cond_Zopp sx _) in *. set (b := cond_Zopp sy _) in *.
    assert (E : Q2R (inject_Z (a - b) * pow2 ez) =
                B2R (S754_finite sx mx ex) - B2R (S754_finite sy my ey)).
    { unfold B2R. rewrite <- Q2R_minus. apply Qeq_eqR.
      rewrite <- Ax, <- Ay. unfold Z.sub. rewrite inject_Z_plus, inject_Z_opp. ring. }
    assert (H := binary_normalize_near (a - b) ez). rewrite E in H.
    apply (H Hb).
Qed.

End RealValues.

(** ** The square root *)

Section SquareRoot.
Local Open Scope Z_scope.

(** The square root of a positive number is the rounding of a value in
    the same interval [[q, q + 1] * 2^e'] as the exact root, with a [q] of
    at least 53 binary digits. *)
Theorem sqrt_sem m e :
  bounded prec emax m e = true ->
  exists q k e',
    0 <= k < 4 /\ 2 ^ 52 <= q /\
    rounds_to false (inject_Z (4 * q + k) / inject_Z 4 * pow2 e')
      (fsqrt (S754_finite false m e)) /\
    (inject_Z (q * q) * (pow2 e' * pow2 e') <= Qval m e)%Q /\
    (Qval m e <= inject_Z ((q + 1) * (q + 1)) * (pow2 e' * pow2 e'))%Q.
Proof.
  intros B. destruct (bounded_grid m e B) as (He & _ & _).
  unfold fsqrt, SFsqrt, SFsqrt_core_binary.
  change (fexp prec emax) with fexp64.
  set (d := Zdigits2 (Z.pos m)).
  assert (Hd : 0 < d) by (apply Zdigits2_pos; lia).
  rewrite !Z.div2_div.
  set (K := (d + e + 1) / 2).
  assert (HK : 2 * K <= d + e + 1) by (apply Z.mul_div_le; lia).
  assert (HK' : d + e + 1 < 2 * K + 2).
  { assert (H := Z.mul_succ_div_gt (d + e + 1) 2 ltac:(lia)). fold K in H. lia. }
  assert (He2 : 2 * (e / 2) <= e) by (apply Z.mul_div_le; lia).
  set (e' := Z.min (fexp64 K) (e / 2)).
  assert (Hf : fexp64 K = K - 53) by (unfold fexp64; lia).
  set (s := e - 2 * e').
  assert (Hs : 0 <= s) by (unfold s, e'; lia).
  rewrite (div_core_shift (Z.pos m) s Hs).
  set (m' := Z.pos m * 2 ^ s).
  assert (P2 : 0 < 2 ^ s) by (apply Z.pow_pos_nonneg; lia).
  assert (Hm' : 0 < m') by (unfold m'; lia).
  assert (Sp := Z.sqrtrem_spec m' ltac:(lia)).
  destruct (Z.sqrtrem m') as [q r]. destruct Sp as [Em Hr].
  set (j := K - e' - 1).
  assert (Hj : 52 <= j) by (unfold j, e'; lia).
  assert (Pj : 0 < 2 ^ j) by (apply Z.pow_pos_nonneg; lia).
  assert (Hq0 : 0 <= q) by lia.
  assert (Hqj : 2 ^ j <= q).
  { assert (L : 2 ^ j * 2 ^ j <= m').
    { rewrite <- Z.pow_add_r by lia. unfold m'.
      destruct (Zdigits2_bounds (Z.pos m) ltac:(lia)) as [D1 _]. fold d in D1.
      apply Z.le_trans with (2 ^ (d - 1) * 2 ^ s); [|nia].
      rewrite <- Z.pow_add_r by lia. apply Z.pow_le_mono_r; [lia|].
      unfold j, s. lia. }
    nia. }
  set (k := if r =? 0 then 0 else if r <=? q then 1 else 3).
  exists q, k, e'.
  assert (Hk : 0 <= k < 4)
    by (unfold k; destruct (r =? 0); [|destruct (r <=? q)]; lia).
  split; [exact Hk|]. split.
  { apply Z.le_trans with (2 ^ j); [apply Z.pow_le_mono_r; lia|exact Hqj]. }
  assert (Pe := pow2_pos e').
  assert (Ev : (Qval m e == inject_Z m' * (pow2 e' * pow2 e'))%Q).
  { unfold Qval, m'. rewrite inject_Z_mult, <- pow2_Z by lia.
    rewrite <- !pow2_add. replace (e' + e') with (2 * e') by lia.
    assert (E : (pow2 e == pow2 (s + 2 * e'))%Q)
      by (unfold s; replace (e - 2 * e' + 2 * e') with e by lia; reflexivity).
    rewrite E, pow2_add. ring. }
  assert (Pee : (0 < pow2 e' * pow2 e')%Q) by (apply Qmult_lt_0_compat; exact Pe).
  split; [|split].
  - apply bra_sem.
    + exact Hq0.
    + assert (E : (inject_Z (4 * q + k) / inject_Z 4 * pow2 e' / pow2 e' ==
                   inject_Z (4 * q + k) / inject_Z 4)%Q) by (field; lra).
      rewrite E, Qcode_frac by lia.
      replace ((4 * q + k) / 4) with q
        by (apply (Z.div_unique _ 4 q k); lia).
      replace ((4 * q + k) mod 4) with k
        by (apply (Z.mod_unique _ 4 q k); lia).
      f_equal. unfold k.
      destruct (r =? 0); [reflexivity|]. destruct (r <=? q); reflexivity.
    + assert (D := Zdigits2_ge q j ltac:(lia) Hqj).
      unfold fexp64. unfold j in D. unfold e' in *. rewrite Hf in *. lia.
  - rewrite Ev. apply Qmult_le_compat_r; [|lra].
    rewrite <- Zle_Qle. lia.
  - rewrite Ev. apply Qmult_le_compat_r; [|lra].
    rewrite <- Zle_Qle. nia.
Qed.

End SquareRoot.

Section SquareRootError.
Local Open Scope R_scope.

Lemma unit_roundoff_value : IZR (2 ^ 52) * (2 * unit_roundoff) = 1.
Proof.
  unfold unit_roundoff.
  replace (Q2R (pow2 (-53))) with (/ IZR (2 ^ 53)).
  - change (2 ^ 53)%Z with (2 * 2 ^ 52)%Z. rewrite mult_IZR.
    assert (0 < IZR (2 ^ 52)) by (apply IZR_lt; reflexivity).
    field. Lra.lra.
  - replace (/ IZR (2 ^ 53)) with (Q2R (1 # 2 ^ 53))
      by (unfold Q2R; cbn [Qnum Qden]; rewrite Rmult_1_l; reflexivity).
    apply Qeq_eqR. reflexivity.
Qed.

Lemma fsqrt_near x :
  well_formed x = true -> is_finite x = true ->
  0 <= B2R x -> B2R x <= 1000000000000000000 ->
  near (fsqrt x) (sqrt (B2R x))
       (4 * unit_roundoff * sqrt (B2R x) + underflow_unit) /\
  0 <= B2R (fsqrt x).
Proof.
  intros W F H0 Hb. assert (B := roundoff_bounds).
  destruct (finite_cases x F) as [[s ->]|(s & m & e & ->)].
  - change (fsqrt (S754_zero s)) with (S754_zero s).
    rewrite B2R_zero, sqrt_0. split; [|Lra.lra].
    apply (near_weaken _ _ 0); [apply near_zero|]. Lra.lra.
  - assert (P := Qval_pos m e). apply Qlt_Rlt in P. rewrite Q2R_zero in P.
    destruct s.
    { exfalso. unfold B2R in H0. cbn [B2Q] in H0. rewrite Q2R_opp in H0. Lra.lra. }
    destruct (sqrt_sem m e (well_formed_bounded _ _ _ W))
      as (q & k & e' & Hk & Hq & R & L & U).
    set (v := B2R (S754_finite false m e)) in *.
    assert (Ev : v = Q2R (Qval m e)) by reflexivity.
    set (T := Q2R (pow2 e')).
    assert (PT : 0 < T)
      by (unfold T; rewrite <- Q2R_zero; apply Qlt_Rlt, pow2_pos).
    apply Qle_Rle in L, U. rewrite <- Ev in L, U.
    rewrite !Q2R_mult, Q2R_inject_Z in L, U. fold T in L, U.
    rewrite mult_IZR in L, U. rewrite plus_IZR in U.
    set (Q := IZR q) in *.
    assert (HQ : IZR (2 ^ 52) <= Q) by (apply IZR_le; exact Hq).
    assert (HQ0 : 0 < Q).
    { apply Rlt_le_trans with (IZR (2 ^ 52)); [apply IZR_lt; reflexivity|exact HQ]. }
    assert (S1 : Q * T <= sqrt v).
    { rewrite <- (sqrt_square (Q * T)) by Lra.nra.
      apply sqrt_le_1_alt. Lra.nra. }
    assert (S2 : sqrt v <= (Q + 1) * T).
    { rewrite <- (sqrt_square ((Q + 1) * T)) by Lra.nra.
      apply sqrt_le_1_alt. Lra.nra. }
    set (x' := (inject_Z (4 * q + k) / inject_Z 4 * pow2 e')%Q) in *.
    assert (Ex : Q2R x' = (Q + IZR k / 4) * T).
    { unfold x'. rewrite Q2R_mult, Q2R_div, !Q2R_inject_Z, plus_IZR, mult_IZR.
      - fold T Q. field.
      - intros C. apply Qeq_eqR in C. rewrite Q2R_inject_Z, Q2R_zero in C. Lra.lra. }
    assert (Hk' : 0 <= IZR k / 4 < 1).
    { destruct Hk as [K1 K2]. apply IZR_le in K1. apply IZR_lt in K2.
      Lra.lra. }
    assert (X0 : (0 <= x')%Q).
    { apply Rle_Qle. rewrite Q2R_zero, Ex. Lra.nra. }
    assert (HT : T <= 2 * unit_roundoff * sqrt v).
    { assert (V := unit_roundoff_value).
      assert (T = IZR (2 ^ 52) * T * (2 * unit_roundoff)) by Lra.nra.
      assert (0 <= unit_roundoff) by Lra.lra.
      assert (IZR (2 ^ 52) * T <= sqrt v) by Lra.nra.
      Lra.nra. }
    assert (Sv0 : 0 <= sqrt v) by apply sqrt_pos.
    assert (Hsv : sqrt v <= 1000000000).
    { rewrite <- (sqrt_square 1000000000) by Lra.lra.
      apply sqrt_le_1_alt. Lra.lra. }
    assert (Hu : 0 <= unit_roundoff <= / 1000000000000000) by Lra.lra.
    assert (HT2 : T <= sqrt v) by Lra.nra.
    assert (HX : 0 <= Q2R x' <= sqrt v + T).
    { rewrite Ex. split; Lra.nra. }
    assert (E1 : (signQ false * x' == x')%Q) by (cbn [signQ]; ring).
    destruct (rounds_to_near false x' _ x' R X0 E1) as [(Wr & Fr & Er) G].
    { rewrite Rabs_right by Lra.lra. Lra.lra. }
    rewrite (Rabs_right (Q2R x')) in Er by Lra.lra.
    split.
    + split; [exact Wr|]. split; [exact Fr|].
      replace (B2R (fsqrt (S754_finite false m e)) - sqrt v)
        with ((B2R (fsqrt (S754_finite false m e)) - Q2R x') + (Q2R x' - sqrt v))
        by ring.
      eapply Rle_trans; [apply Rabs_triang|].
      assert (D : Rabs (Q2R x' - sqrt v) <= T).
      { apply Rabs_le. rewrite Ex. split; Lra.nra. }
      assert (UX : unit_roundoff * Q2R x' <= 2 * unit_roundoff * sqrt v) by Lra.nra.
      Lra.lra.
    + cbn [signQ] in G.
      replace (Q2R 1) with 1 in G by (unfold Q2R; cbn [Qnum Qden]; Lra.lra).
      Lra.lra.
Qed.

End SquareRootError.

(** ** The integer [Math.round] returns, and the two decimals *)

Section RoundedValue.
Local Open Scope R_scope.

Lemma floor_half q :
  Rabs (IZR (Qfloor (q + (1 # 2))) - Q2R q) <= / 2.
Proof.
  assert (L := Qfloor_le (q + (1 # 2))). assert (U := Qlt_floor (q + (1 # 2))).
  apply Qle_Rle in L. apply Qlt_Rlt in U.
  rewrite Q2R_plus in L, U. rewrite Q2R_inject_Z in L, U.
  replace (Q2R (1 # 2)) with (/ 2) in L, U
    by (unfold Q2R; cbn [Qnum Qden]; Lra.lra).
  rewrite plus_IZR in U.
  apply Rabs_le. Lra.lra.
Qed.

(** [Math.round] returns the integer [n] nearest to its argument, as the
    number [of_Z n], or as a zero when [n] is 0. *)
Lemma Math_round_integer y :
  well_formed y = true -> is_finite y = true ->
  exists n : Z,
    Rabs (IZR n - B2R y) <= / 2 /\
    ((n = 0%Z /\ is_zero (Math_round y) = true) \/
     (n <> 0%Z /\ Math_round y = of_Z n)).
Proof.
  intros W F.
  destruct (finite_cases y F) as [[s ->]|(s & m & e & ->)].
  - exists 0%Z. rewrite B2R_zero. split; [|left; split; reflexivity].
    rewrite Rminus_0_r, Rabs_R0. Lra.lra.
  - assert (Bd := well_formed_bounded _ _ _ W). destruct s.
    + exists (Qfloor (- Qval m e + (1 # 2))). split.
      * unfold B2R. cbn [B2Q]. apply floor_half.
      * destruct (Math_round_sem_neg m e Bd) as [[En ->]|[Hn R]].
        -- left. split; [exact En|reflexivity].
        -- right. split; [lia|].
           set (n := Qfloor (- Qval m e + (1 # 2))) in *.
           destruct n as [|p|p]; [lia|lia|].
           assert (S := binary_normalize_sem (Z.neg p) 0). cbn beta iota in S.
           apply (rounds_to_unique true (inject_Z (- Z.neg p)) (Qval p 0));
             [|exact R|exact S].
           change (- Z.neg p)%Z with (Z.pos p). symmetry. apply Qval_Z.
    + exists (Qfloor (Qval m e + (1 # 2))). split.
      * unfold B2R. cbn [B2Q]. apply floor_half.
      * destruct (Math_round_sem m e Bd) as [[En ->]|[Hn R]].
        -- left. split; [exact En|reflexivity].
        -- right. split; [lia|].
           set (n := Qfloor (Qval m e + (1 # 2))) in *.
           destruct n as [|p|p]; [lia| |lia].
           apply (rounds_to_unique false (inject_Z (Z.pos p)) (inject_Z (Z.pos p)));
             [reflexivity|exact R|apply of_Z_sem].
Qed.

Lemma B2R_hundred : B2R (decimal 100 0) = 100.
Proof.
  unfold B2R. rewrite <- (Q2R_inject_Z 100). apply Qeq_eqR, Qeq_bool_eq.
  vm_compute. reflexivity.
Qed.

Lemma same_number_trans x y z :
  same_number x y -> same_number y z -> same_number x z.
Proof.
  intros [->|[A B]] [->|[C D]]; [left; reflexivity|right; auto..].
Qed.

(** The rounding to two decimals returns the number of the decimal
    literal [n / 100], for an integer [n] within one half, and the
    rounding of the product, of 100 times the argument. *)
Lemma round2_value v :
  well_formed v = true -> is_finite v = true ->
  Rabs (B2R v) <= 1000000000000000 ->
  exists n : Z,
    same_number (fdiv (Math_round (fmul v (decimal 100 0))) (decimal 100 0))
                (decimal n 2) /\
    Rabs (IZR n - 100 * B2R v) <=
      / 2 + 100 * unit_roundoff * Rabs (B2R v) + underflow_unit.
Proof.
  intros W F Hb.
  assert (A : Rabs (B2R v * B2R (decimal 100 0)) = 100 * Rabs (B2R v)).
  { rewrite B2R_hundred, Rabs_mult, (Rabs_right 100) by Lra.lra. ring. }
  destruct (fmul_near v (decimal 100 0) W F eq_refl eq_refl) as [(Wy & Fy & Ey) _].
  { rewrite A. Lra.lra. }
  rewrite A, B2R_hundred in Ey.
  destruct (Math_round_integer _ Wy Fy) as (n & Hn & C).
  exists n. split.
  - destruct C as [[-> Z]|[_ ->]].
    + right. split; [|reflexivity].
      destruct (Math_round (fmul v (decimal 100 0))) as [s|s| |s m e];
        try discriminate Z. reflexivity.
    + left. reflexivity.
  - replace (IZR n - 100 * B2R v)
      with ((IZR n - B2R (fmul v (decimal 100 0))) +
            (B2R (fmul v (decimal 100 0)) - B2R v * 100)) by ring.
    eapply Rle_trans; [apply Rabs_triang|]. Lra.lra.
Qed.

End RoundedValue.

(** ** The savings *)

Section RevisedSavings.
Local Open Scope string_scope.
Local Open Scope Z_scope.

Lemma B2R_fneg x : B2R (fneg x) = (- B2R x)%R.
Proof.
  unfold B2R. rewrite <- Q2R_opp. apply Qeq_eqR.
  destruct x as [s|s| |[] m e]; cbn [fneg SFopp B2Q negb]; ring.
Qed.

Lemma fneg_finite x : is_finite (fneg x) = is_finite x.
Proof. destruct x; reflexivity. Qed.

(** C8, as amended.  For every emission and baseline, [savedKg] is
    [Math.round((baseline - emission) * 100) / 100].  It is > 0 exactly when
    the product [(baseline - emission) * 100], as computed, is >= 0.5, which
    it is whenever the computed difference is >= 0.005; it is < 0 exactly
    when the product is < -0.5, which it is whenever the difference is
    <= -0.006.  A [savedKg] > 0 implies emission < baseline, a [savedKg]
    < 0 implies baseline < emission, and emission < baseline implies a
    [savedKg] >= 0, which is 0 when the difference rounds to 0.00.  A
    negative [savedKg] is an ordinary result.  For finite amounts of at
    most 10^14, [savedKg] is the number of the decimal literal [n / 100]
    for an integer [n] that is, but for the two roundings, within one half
    of 100 times the real difference. *)
Theorem calculateSavings_sign emission baseline :
  well_formed emission = true -> well_formed baseline = true ->
  let r := calculateSavings emission baseline in
  let difference := fsub baseline emission in
  let product := fmul difference (decimal 100 0) in
  savedKg r = fdiv (Math_round product) (decimal 100 0) /\
  fgtb (savedKg r) pos_zero = fleb one_half product /\
  fltb (savedKg r) pos_zero = fltb product (fneg one_half) /\
  (fleb (decimal 5 3) difference = true -> fgtb (savedKg r) pos_zero = true) /\
  (fleb difference (decimal (-6) 3) = true -> fltb (savedKg r) pos_zero = true) /\
  (fgtb (savedKg r) pos_zero = true -> fltb emission baseline = true) /\
  (fltb (savedKg r) pos_zero = true -> fltb baseline emission = true) /\
  (fltb emission baseline = true -> fleb pos_zero (savedKg r) = true) /\
  (is_finite emission = true -> is_finite baseline = true ->
   (Rabs (B2R emission) <= 100000000000000)%R ->
   (Rabs (B2R baseline) <= 100000000000000)%R ->
   exists n : Z,
     same_number (savedKg r) (decimal n 2) /\
     (Rabs (IZR n - 100 * (B2R baseline - B2R emission)) <=
      / 2 + 201 * unit_roundoff * Rabs (B2R baseline - B2R emission)
          + 102 * underflow_unit)%R).
Proof.
  intros We Wb. cbn zeta. unfold calculateSavings. cbn [savedKg].
  assert (Wd := fsub_well_formed baseline emission Wb We).
  split; [reflexivity|].
  split; [now apply savedKg_pos_iff|].
  split; [now apply savedKg_neg_iff|].
  split; [intros L; rewrite savedKg_pos_iff by exact Wd; now apply margin_pos|].
  split; [intros L; rewrite savedKg_neg_iff by exact Wd; now apply margin_neg|].
  split; [|split; [|split]].
  - intros G. apply round2_gt_zero in G. now apply sub_gt_lt.
  - intros G. apply round2_lt_zero in G. now apply sub_lt_gt.
  - intros L. apply leb_zero_l; [reflexivity|].
    apply round2_nonneg. now apply lt_sub_nonneg.
  - intros Fe Fb He Hb.
    assert (B := roundoff_bounds).
    set (D := Rabs (B2R baseline - B2R emission)).
    assert (HD : (0 <= D <= 200000000000000)%R).
    { split; [apply Rabs_pos|]. unfold D.
      eapply Rle_trans; [apply Rabs_triang|]. rewrite Rabs_Ropp. Lra.lra. }
    destruct (fsub_near baseline emission Wb Fb We Fe) as [(_ & Fd & Ed) _].
    { fold D. Lra.lra. }
    fold D in Ed.
    set (d := fsub baseline emission) in *.
    assert (HX : (Rabs (B2R d) <= D + (unit_roundoff * D + underflow_unit))%R).
    { replace (B2R d) with ((B2R baseline - B2R emission) +
                            (B2R d - (B2R baseline - B2R emission)))%R by ring.
      eapply Rle_trans; [apply Rabs_triang|]. fold D. Lra.lra. }
    assert (HuD : (0 <= unit_roundoff * D <= 1)%R) by Lra.nra.
    destruct (round2_value d Wd Fd) as (n & S & Hn); [Lra.lra|].
    exists n. split; [exact S|].
    assert (HuX : (unit_roundoff * Rabs (B2R d) <=
                   unit_roundoff * D + (unit_roundoff * D + underflow_unit) / 100)%R).
    { assert (0 <= Rabs (B2R d))%R by apply Rabs_pos. Lra.nra. }
    replace (IZR n - 100 * (B2R baseline - B2R emission))%R
      with ((IZR n - 100 * B2R d) +
            100 * (B2R d - (B2R baseline - B2R emission)))%R by ring.
    eapply Rle_trans; [apply Rabs_triang|].
    rewrite Rabs_mult, (Rabs_right 100) by Lra.lra. Lra.lra.
Qed.

Lemma calculateSavings_sign_witness :
  let r := calculateSavings (decimal 5 0) (decimal 12 0) in
  let difference := fsub (decimal 12 0) (decimal 5 0) in
  let product := fmul difference (decimal 100 0) in
  savedKg r = fdiv (Math_round product) (decimal 100 0) /\
  fgtb (savedKg r) pos_zero = fleb one_half product /\
  fltb (savedKg r) pos_zero = fltb product (fneg one_half) /\
  (fleb (decimal 5 3) difference = true -> fgtb (savedKg r) pos_zero = true) /\
  (fleb difference (decimal (-6) 3) = true -> fltb (savedKg r) pos_zero = true) /\
  (fgtb (savedKg r) pos_zero = true -> fltb (decimal 5 0) (decimal 12 0) = true) /\
  (fltb (savedKg r) pos_zero = true -> fltb (decimal 12 0) (decimal 5 0) = true) /\
  (fltb (decimal 5 0) (decimal 12 0) = true -> fleb pos_zero (savedKg r) = true) /\
  (is_finite (decimal 5 0) = true -> is_finite (decimal 12 0) = true ->
   (Rabs (B2R (decimal 5 0)) <= 100000000000000)%R ->
   (Rabs (B2R (decimal 12 0)) <= 100000000000000)%R ->
   exists n : Z,
     same_number (savedKg r) (decimal n 2) /\
     (Rabs (IZR n - 100 * (B2R (decimal 12 0) - B2R (decimal 5 0))) <=
      / 2 + 201 * unit_roundoff * Rabs (B2R (decimal 12 0) - B2R (decimal 5 0))
          + 102 * underflow_unit)%R).
Proof.
  apply (calculateSavings_sign (decimal 5 0) (decimal 12 0)); reflexivity.
Defined.

(** C10.  For every emission value, [calculateSavings(emission, 0)]
    returns a result.  Its [savedKg] is the negated emission rounded to 2
    decimals: it is [Math.round(-emission * 100) / 100] (up to the sign of
    zero), which for a finite emission of at most 10^15 is the number of
    the decimal literal [n / 100], for an integer [n] that is, but for
    the rounding of the product, within one half of -100 times the
    emission.  Its [percentage] is -Infinity when emission > 0 and NaN
    when emission = 0. *)
Theorem calculateSavings_zero_baseline emission :
  let r := calculateSavings emission pos_zero in
  same_number (savedKg r)
    (fdiv (Math_round (fmul (fneg emission) (decimal 100 0))) (decimal 100 0)) /\
  (well_formed emission = true -> is_finite emission = true ->
   (Rabs (B2R emission) <= 1000000000000000)%R ->
   exists n : Z,
     same_number (savedKg r) (decimal n 2) /\
     (Rabs (IZR n + 100 * B2R emission) <=
      / 2 + 100 * unit_roundoff * Rabs (B2R emission) + underflow_unit)%R) /\
  (fgtb emission pos_zero = true -> percentage r = neg_infinity) /\
  (is_zero emission = true -> percentage r = NaN).
Proof.
  cbn zeta.
  assert (S : same_number (savedKg (calculateSavings emission pos_zero))
    (fdiv (Math_round (fmul (fneg emission) (decimal 100 0))) (decimal 100 0))).
  { unfold calculateSavings. cbn [savedKg].
    destruct emission as [s|s| |s m e];
      [right; destruct s; split; reflexivity|left; reflexivity..]. }
  split; [exact S|]. split.
  - intros W F Hb.
    destruct (round2_value (fneg emission)) as (n & Sn & Hn).
    + now apply fneg_well_formed.
    + now rewrite fneg_finite.
    + rewrite B2R_fneg, Rabs_Ropp. exact Hb.
    + exists n. split; [exact (same_number_trans _ _ _ S Sn)|].
      rewrite B2R_fneg, Rabs_Ropp in Hn.
      replace (IZR n + 100 * B2R emission)%R
        with (IZR n - 100 * - B2R emission)%R by ring.
      exact Hn.
  - unfold calculateSavings. cbn [percentage].
    destruct emission as [s|s| |s m e].
    + split; [intros H; destruct s; discriminate H|intros _; destruct s; reflexivity].
    + split; [intros H; destruct s; [discriminate H|reflexivity]|intros H; discriminate H].
    + split; intros H; discriminate H.
    + split; [intros H; destruct s; [discriminate H|reflexivity]|intros H; discriminate H].
Qed.

Lemma calculateSavings_zero_baseline_witness :
  same_number (savedKg (calculateSavings (decimal 123 1) pos_zero))
    (fdiv (Math_round (fmul (fneg (decimal 123 1)) (decimal 100 0))) (decimal 100 0)) /\
  savedKg (calculateSavings (decimal 123 1) pos_zero) = decimal (-1230) 2 /\
  percentage (calculateSavings (decimal 123 1) pos_zero) = neg_infinity /\
  percentage (calculateSavings pos_zero pos_zero) = NaN.
Proof.
  split; [apply (calculateSavings_zero_baseline (decimal 123 1))|].
  split; [reflexivity|]. split.
  - apply (calculateSavings_zero_baseline (decimal 123 1)). reflexivity.
  - apply (calculateSavings_zero_baseline pos_zero). reflexivity.
Defined.

End RevisedSavings.

(** * Part VIII: the functions of the haversine formula *)

Section RealFunctions.
Local Open Scope R_scope.

Lemma Rabs_le_between a b : Rabs a <= b -> - b <= a <= b.
Proof. unfold Rabs. destruct (Rcase_abs a); intros H; Lra.lra. Qed.

Lemma sin_lipschitz x y : Rabs (sin x - sin y) <= Rabs (x - y).
Proof.
  destruct (MVT_abs sin cos y x) as (c & E & _).
  { intros c _. apply derivable_pt_lim_sin. }
  rewrite E.
  assert (Rabs (cos c) <= 1) by (apply Rabs_le, COS_bound).
  assert (0 <= Rabs (x - y)) by apply Rabs_pos.
  Lra.nra.
Qed.

Lemma cos_lipschitz x y : Rabs (cos x - cos y) <= Rabs (x - y).
Proof.
  destruct (MVT_abs cos (fun c => - sin c) y x) as (c & E & _).
  { intros c _. apply derivable_pt_lim_cos. }
  rewrite E.
  assert (Rabs (- sin c) <= 1)
    by (rewrite Rabs_Ropp; apply Rabs_le, SIN_bound).
  assert (0 <= Rabs (x - y)) by apply Rabs_pos.
  Lra.nra.
Qed.

Lemma atan_lipschitz x y : Rabs (atan x - atan y) <= Rabs (x - y).
Proof.
  destruct (MVT_abs atan (fun c => / (1 + c ^ 2)) y x) as (c & E & _).
  { intros c _. apply derivable_pt_lim_atan. }
  rewrite E.
  assert (Rabs (/ (1 + c ^ 2)) <= 1).
  { assert (0 <= c ^ 2) by apply pow2_ge_0.
    rewrite Rabs_right.
    - rewrite <- Rinv_1. apply Rinv_le_contravar; Lra.lra.
    - apply Rle_ge. left. apply Rinv_0_lt_compat. Lra.lra. }
  assert (0 <= Rabs (x - y)) by apply Rabs_pos.
  Lra.nra.
Qed.

Lemma sin_abs_le x : Rabs (sin x) <= Rabs x.
Proof.
  assert (H := sin_lipschitz x 0). rewrite sin_0, !Rminus_0_r in H. exact H.
Qed.

Lemma cos_lower x : 1 - x * x / 2 <= cos x.
Proof.
  assert (E : cos x = cos (2 * (x / 2))) by (f_equal; field).
  rewrite E, cos_2a_sin.
  assert (H := sin_abs_le (x / 2)).
  assert (S : sin (x / 2) * sin (x / 2) <= (x / 2) * (x / 2)).
  { assert (A := Rabs_pos (sin (x / 2))).
    rewrite <- (Rabs_right (sin (x / 2) * sin (x / 2))), <- (Rabs_right (x / 2 * (x / 2))).
    - rewrite !Rabs_mult. Lra.nra.
    - apply Rle_ge. Lra.nra.
    - apply Rle_ge. Lra.nra. }
  Lra.lra.
Qed.

(** The Euclidean norm of the plane moves by at most the sum of the
    moves of the coordinates. *)
Lemma norm_lipschitz a b c d :
  Rabs (sqrt (a * a + b * b) - sqrt (c * c + d * d)) <= Rabs (a - c) + Rabs (b - d).
Proof.
  assert (G : forall a b c d,
            sqrt (a * a + b * b) <= sqrt (c * c + d * d) + Rabs (a - c) + Rabs (b - d)).
  { clear. intros a b c d.
    set (n := sqrt (c * c + d * d)).
    assert (Hn : 0 <= n) by apply sqrt_pos.
    assert (Nn : n * n = c * c + d * d) by (apply sqrt_sqrt; Lra.nra).
    assert (Hc : Rabs c <= n).
    { rewrite <- sqrt_Rsqr_abs. apply sqrt_le_1_alt. unfold Rsqr. Lra.nra. }
    assert (Hd : Rabs d <= n).
    { rewrite <- sqrt_Rsqr_abs. apply sqrt_le_1_alt. unfold Rsqr. Lra.nra. }
    set (e1 := Rabs (a - c)). set (e2 := Rabs (b - d)).
    assert (H1 : 0 <= e1) by apply Rabs_pos.
    assert (H2 : 0 <= e2) by apply Rabs_pos.
    assert (Ha : Rabs a <= Rabs c + e1).
    { replace a with (c + (a - c)) at 1 by ring. apply Rabs_triang. }
    assert (Hb : Rabs b <= Rabs d + e2).
    { replace b with (d + (b - d)) at 1 by ring. apply Rabs_triang. }
    assert (Pa := Rabs_pos a). assert (Pb := Rabs_pos b).
    assert (Pc := Rabs_pos c). assert (Pd := Rabs_pos d).
    assert (Sa : a * a = Rabs a * Rabs a)
      by (rewrite <- Rabs_mult; symmetry; apply Rabs_right; Lra.nra).
    assert (Sb : b * b = Rabs b * Rabs b)
      by (rewrite <- Rabs_mult; symmetry; apply Rabs_right; Lra.nra).
    rewrite <- (sqrt_square (n + e1 + e2)) by Lra.lra.
    apply sqrt_le_1_alt. rewrite Sa, Sb.
    assert (Rabs a * Rabs a <= (Rabs c + e1) * (Rabs c + e1)) by Lra.nra.
    assert (Rabs b * Rabs b <= (Rabs d + e2) * (Rabs d + e2)) by Lra.nra.
    assert (Sc : c * c = Rabs c * Rabs c)
      by (rewrite <- Rabs_mult; symmetry; apply Rabs_right; Lra.nra).
    assert (Sd : d * d = Rabs d * Rabs d)
      by (rewrite <- Rabs_mult; symmetry; apply Rabs_right; Lra.nra).
    assert (Rabs c * e1 <= n * e1) by Lra.nra.
    assert (Rabs d * e2 <= n * e2) by Lra.nra.
    assert (0 <= n * e2) by Lra.nra. assert (0 <= n * e1) by Lra.nra.
    assert (0 <= e1 * e2) by Lra.nra.
    Lra.nra. }
  apply Rabs_le. split.
  - assert (H := G c d a b). rewrite (Rabs_minus_sym c a), (Rabs_minus_sym d b) in H.
    Lra.lra.
  - assert (H := G a b c d). Lra.lra.
Qed.

(** A relative error under a square root. *)
Lemma sqrt_relative p q alpha beta :
  0 <= p -> 0 <= q -> 0 <= alpha <= 1 -> 0 <= beta ->
  Rabs (p - q) <= alpha * q + beta ->
  Rabs (sqrt p - sqrt q) <= alpha * sqrt q + sqrt beta.
Proof.
  intros Hp Hq Ha Hb H.
  set (a := sqrt p). set (b := sqrt q). set (c := sqrt beta).
  assert (Pa : 0 <= a) by apply sqrt_pos.
  assert (Pb : 0 <= b) by apply sqrt_pos.
  assert (Pc : 0 <= c) by apply sqrt_pos.
  assert (Ea : a * a = p) by (apply sqrt_sqrt; exact Hp).
  assert (Eb : b * b = q) by (apply sqrt_sqrt; exact Hq).
  assert (Ec : c * c = beta) by (apply sqrt_sqrt; exact Hb).
  rewrite <- Ea, <- Eb, <- Ec in H. apply Rabs_le_between in H.
  assert (Pab : 0 <= alpha * b) by Lra.nra.
  apply Rabs_le. split.
  - destruct (Rle_dec (- (alpha * b + c)) (a - b)) as [C|C]; [exact C|exfalso].
    assert (L : a + c < b * (1 - alpha)) by Lra.lra.
    assert (L2 : (a + c) * (a + c) < (b * (1 - alpha)) * (b * (1 - alpha))) by Lra.nra.
    assert (L3 : (b * (1 - alpha)) * (b * (1 - alpha)) <= b * b * (1 - alpha)).
    { assert (0 <= b * b) by Lra.nra.
      assert ((1 - alpha) * (1 - alpha) <= 1 - alpha) by Lra.nra.
      Lra.nra. }
    assert (0 <= a * c) by Lra.nra.
    Lra.nra.
  - destruct (Rle_dec (a - b) (alpha * b + c)) as [C|C]; [exact C|exfalso].
    assert (L : b * (1 + alpha) + c < a) by Lra.lra.
    assert (L2 : (b * (1 + alpha) + c) * (b * (1 + alpha) + c) < a * a) by Lra.nra.
    assert (0 <= b * c) by Lra.nra.
    assert (0 <= b * b) by Lra.nra.
    assert (0 <= alpha * (b * b)) by Lra.nra.
    assert (0 <= alpha * alpha * (b * b)) by Lra.nra.
    assert (0 <= alpha * (b * c)) by Lra.nra.
    Lra.nra.
Qed.

(** The square root away from zero. *)
Lemma sqrt_lipschitz p q :
  / 4 <= p -> / 4 <= q -> Rabs (sqrt p - sqrt q) <= Rabs (p - q).
Proof.
  intros Hp Hq.
  set (a := sqrt p). set (b := sqrt q).
  assert (Ea : a * a = p) by (apply sqrt_sqrt; Lra.lra).
  assert (Eb : b * b = q) by (apply sqrt_sqrt; Lra.lra).
  assert (Pa : / 2 <= a).
  { replace (/ 2) with (sqrt (/ 2 * / 2)) by (apply sqrt_square; Lra.lra).
    apply sqrt_le_1_alt. Lra.lra. }
  assert (Pb : / 2 <= b).
  { replace (/ 2) with (sqrt (/ 2 * / 2)) by (apply sqrt_square; Lra.lra).
    apply sqrt_le_1_alt. Lra.lra. }
  rewrite <- Ea, <- Eb.
  replace (a * a - b * b) with ((a - b) * (a + b)) by ring.
  rewrite Rabs_mult, (Rabs_right (a + b)) by Lra.lra.
  assert (0 <= Rabs (a - b)) by apply Rabs_pos.
  Lra.nra.
Qed.

Lemma Ratan2_right y x : 0 < x -> Ratan2 y x = atan (y / x).
Proof.
  intros H. unfold Ratan2. destruct (Rlt_dec 0 x); [reflexivity|contradiction].
Qed.

(** The arc tangent of a quotient, away from the vertical axis. *)
Lemma Ratan2_lipschitz y x y' x' :
  / 2 <= x -> / 2 <= x' -> Rabs y' <= 1 ->
  Rabs (Ratan2 y x - Ratan2 y' x') <= 2 * Rabs (y - y') + 4 * Rabs (x - x').
Proof.
  intros Hx Hx' Hy'.
  rewrite !Ratan2_right by Lra.lra.
  eapply Rle_trans; [apply atan_lipschitz|].
  replace (y / x - y' / x') with ((y - y') * / x + y' * (x' - x) * (/ x * / x'))
    by (field; Lra.lra).
  eapply Rle_trans; [apply Rabs_triang|].
  rewrite !Rabs_mult.
  assert (Ix : 0 < / x <= 2).
  { split; [apply Rinv_0_lt_compat; Lra.lra|].
    rewrite <- (Rinv_inv 2). apply Rinv_le_contravar; Lra.lra. }
  assert (Ix' : 0 < / x' <= 2).
  { split; [apply Rinv_0_lt_compat; Lra.lra|].
    rewrite <- (Rinv_inv 2). apply Rinv_le_contravar; Lra.lra. }
  rewrite (Rabs_right (/ x)), (Rabs_right (/ x')) by Lra.lra.
  rewrite (Rabs_minus_sym x' x).
  assert (A := Rabs_pos (y - y')). assert (A' := Rabs_pos (x - x')).
  assert (A'' := Rabs_pos y').
  assert (Rabs (y - y') * / x <= 2 * Rabs (y - y')) by Lra.nra.
  assert (Rabs y' * Rabs (x - x') <= Rabs (x - x')) by Lra.nra.
  assert (0 <= / x * / x' <= 4) by Lra.nra.
  assert (0 <= Rabs y' * Rabs (x - x')) by Lra.nra.
  Lra.nra.
Qed.

Lemma Ratan2_bound y x : 0 < x -> Rabs (Ratan2 y x) <= 2.
Proof.
  intros H. rewrite Ratan2_right by exact H.
  assert (B := atan_bound (y / x)). assert (P := PI_4).
  apply Rabs_le. Lra.lra.
Qed.

End RealFunctions.

(** * Part IX: the error of the distance *)

Section RelativeErrors.
Local Open Scope R_scope.

Lemma near_bound x v e : near x v e -> Rabs (B2R x) <= Rabs v + e.
Proof.
  intros (_ & _ & H).
  replace (B2R x) with (v + (B2R x - v)) by ring.
  eapply Rle_trans; [apply Rabs_triang|]. Lra.lra.
Qed.

Lemma near_exact x : well_formed x = true -> is_finite x = true -> near x (B2R x) 0.
Proof.
  intros W F. split; [exact W|]. split; [exact F|].
  replace (B2R x - B2R x) with 0 by ring. rewrite Rabs_R0. Lra.lra.
Qed.

Lemma near_trans x v w e f :
  near x v e -> Rabs (v - w) <= f -> near x w (e + f).
Proof.
  intros (W & F & H) G. split; [exact W|]. split; [exact F|].
  replace (B2R x - w) with ((B2R x - v) + (v - w)) by ring.
  eapply Rle_trans; [apply Rabs_triang|]. Lra.lra.
Qed.

(** A product with a factor that carries a relative error. *)
Lemma fmul_rel x y X alpha beta :
  well_formed x = true -> is_finite x = true ->
  well_formed y = true -> is_finite y = true ->
  0 <= alpha <= 1 -> 0 <= beta <= 1 ->
  Rabs (B2R y) <= 2 -> Rabs X <= 1000 ->
  Rabs (B2R x - X) <= alpha * Rabs X + beta ->
  near (fmul x y) (X * B2R y)
       ((alpha + 2 * unit_roundoff) * Rabs (X * B2R y) + (3 * beta + underflow_unit)) /\
  (0 <= B2R x * B2R y -> 0 <= B2R (fmul x y)) /\
  (B2R x * B2R y <= 0 -> B2R (fmul x y) <= 0).
Proof.
  intros Wx Fx Wy Fy Ha Hb Hy HX H.
  assert (B := roundoff_bounds).
  set (ax := Rabs X) in *. set (ay := Rabs (B2R y)) in *.
  set (dx := Rabs (B2R x - X)) in *.
  assert (P1 : 0 <= ax) by apply Rabs_pos.
  assert (P2 : 0 <= ay) by apply Rabs_pos.
  assert (P3 : 0 <= dx) by apply Rabs_pos.
  assert (Ax : Rabs (B2R x) <= ax + dx).
  { replace (B2R x) with (X + (B2R x - X)) by ring. apply Rabs_triang. }
  assert (Pxy : Rabs (B2R x * B2R y) <= (ax + dx) * ay).
  { rewrite Rabs_mult. fold ay. assert (0 <= Rabs (B2R x)) by apply Rabs_pos.
    Lra.nra. }
  assert (Dx : dx <= 2001) by Lra.nra.
  destruct (fmul_near x y Wx Fx Wy Fy) as [(W & F & E) Sg].
  { apply Rle_trans with ((ax + dx) * ay); [exact Pxy|]. Lra.nra. }
  split; [|exact Sg].
  split; [exact W|]. split; [exact F|].
  replace (B2R (fmul x y) - X * B2R y)
    with ((B2R (fmul x y) - B2R x * B2R y) + (B2R x - X) * B2R y) by ring.
  eapply Rle_trans; [apply Rabs_triang|].
  rewrite (Rabs_mult (B2R x - X)), (Rabs_mult X). fold dx ay ax.
  assert (U1 : unit_roundoff * Rabs (B2R x * B2R y) <=
               unit_roundoff * ((ax + dx) * ay)) by Lra.nra.
  assert (Q1 : 0 <= ax * ay) by Lra.nra.
  assert (Q2 : dx * ay <= alpha * (ax * ay) + 2 * beta) by Lra.nra.
  assert (Q3 : 0 <= dx * ay) by Lra.nra.
  assert (Q4 : unit_roundoff * (dx * ay) <= unit_roundoff * (ax * ay) + beta).
  { assert (alpha * (ax * ay) <= ax * ay) by Lra.nra.
    assert (unit_roundoff * (dx * ay) <=
            unit_roundoff * (ax * ay + 2 * beta)) by Lra.nra.
    Lra.nra. }
  Lra.nra.
Qed.

(** A sum of two non-negative terms that carry relative errors. *)
Lemma fadd_rel x y X Y alpha beta beta' :
  well_formed x = true -> is_finite x = true ->
  well_formed y = true -> is_finite y = true ->
  0 <= X -> 0 <= Y -> X + Y <= 1000 ->
  0 <= alpha <= 1 -> 0 <= beta <= 1 -> 0 <= beta' <= 1 ->
  Rabs (B2R x - X) <= alpha * X + beta ->
  Rabs (B2R y - Y) <= alpha * Y + beta' ->
  near (fadd x y) (X + Y)
       ((alpha + 2 * unit_roundoff) * (X + Y) + (2 * (beta + beta') + underflow_unit)) /\
  (0 <= B2R x + B2R y -> 0 <= B2R (fadd x y)).
Proof.
  intros Wx Fx Wy Fy HX HY Hs Ha Hb Hb' Ex Ey.
  assert (B := roundoff_bounds).
  assert (D : Rabs (B2R x + B2R y - (X + Y)) <= alpha * (X + Y) + (beta + beta')).
  { replace (B2R x + B2R y - (X + Y)) with ((B2R x - X) + (B2R y - Y)) by ring.
    eapply Rle_trans; [apply Rabs_triang|]. Lra.lra. }
  assert (S : Rabs (B2R x + B2R y) <= (X + Y) + (alpha * (X + Y) + (beta + beta'))).
  { replace (B2R x + B2R y) with ((X + Y) + (B2R x + B2R y - (X + Y))) by ring.
    eapply Rle_trans; [apply Rabs_triang|]. rewrite (Rabs_right (X + Y)); Lra.lra. }
  destruct (fadd_near x y Wx Fx Wy Fy) as [(W & F & E) [Sg _]]; [Lra.nra|].
  split; [|exact Sg].
  split; [exact W|]. split; [exact F|].
  replace (B2R (fadd x y) - (X + Y))
    with ((B2R (fadd x y) - (B2R x + B2R y)) + (B2R x + B2R y - (X + Y))) by ring.
  eapply Rle_trans; [apply Rabs_triang|].
  assert (U1 : unit_roundoff * Rabs (B2R x + B2R y) <=
               unit_roundoff * ((X + Y) + (alpha * (X + Y) + (beta + beta')))) by Lra.nra.
  assert (A1 : alpha * (X + Y) <= X + Y) by Lra.nra.
  assert (U2 : unit_roundoff * (alpha * (X + Y)) <= unit_roundoff * (X + Y))
    by (apply Rmult_le_compat_l; Lra.lra).
  assert (U3 : unit_roundoff * (beta + beta') <= beta + beta') by Lra.nra.
  Lra.nra.
Qed.

End RelativeErrors.

(** ** The angles *)

Section Angles.
Local Open Scope R_scope.

Lemma B2R_integer_literal z :
  Qeq_bool (B2Q (decimal z 0)) (inject_Z z) = true -> B2R (decimal z 0) = IZR z.
Proof.
  intros H. unfold B2R. rewrite <- (Q2R_inject_Z z). apply Qeq_eqR, Qeq_bool_eq, H.
Qed.

Lemma B2R_one : B2R (decimal 1 0) = 1.
Proof. apply (B2R_integer_literal 1). vm_compute. reflexivity. Qed.

Lemma B2R_two : B2R (decimal 2 0) = 2.
Proof. apply (B2R_integer_literal 2). vm_compute. reflexivity. Qed.

Lemma B2R_180 : B2R (decimal 180 0) = 180.
Proof. apply (B2R_integer_literal 180). vm_compute. reflexivity. Qed.

Lemma B2R_6371 : B2R (decimal 6371 0) = 6371.
Proof. apply (B2R_integer_literal 6371). vm_compute. reflexivity. Qed.

Lemma Math_PI_bounds : 3 <= B2R Math_PI <= 63 / 20.
Proof.
  unfold B2R. split.
  - rewrite <- (Q2R_inject_Z 3). apply Qle_Rle, Qle_bool_imp_le.
    vm_compute. reflexivity.
  - replace (63 / 20) with (Q2R (63 # 20))
      by (unfold Q2R; cbn [Qnum Qden]; Lra.lra).
    apply Qle_Rle, Qle_bool_imp_le. vm_compute. reflexivity.
Qed.

(** The radian measure the code computes, against the one with the
    value of [Math.PI]. *)
Lemma radians_near a :
  well_formed a = true -> is_finite a = true -> Rabs (B2R a) <= 100 ->
  near (radians a) (B2R a * B2R Math_PI / 180) (5 * unit_roundoff).
Proof.
  intros W F H. assert (B := roundoff_bounds). assert (P := Math_PI_bounds).
  assert (A0 := Rabs_pos (B2R a)).
  assert (Hp : Rabs (B2R a * B2R Math_PI) <= 315).
  { rewrite Rabs_mult, (Rabs_right (B2R Math_PI)) by Lra.lra. Lra.nra. }
  destruct (fmul_near a Math_PI W F eq_refl eq_refl) as [(Wm & Fm & Em) _];
    [Lra.lra|].
  set (m := fmul a Math_PI) in *.
  assert (Em' : Rabs (B2R m - B2R a * B2R Math_PI) <= 316 * unit_roundoff) by Lra.nra.
  assert (Hm : Rabs (B2R m) <= 316).
  { replace (B2R m) with (B2R a * B2R Math_PI + (B2R m - B2R a * B2R Math_PI)) by ring.
    eapply Rle_trans; [apply Rabs_triang|]. Lra.lra. }
  assert (Hq : Rabs (B2R m / B2R (decimal 180 0)) <= 2).
  { rewrite B2R_180. unfold Rdiv. rewrite Rabs_mult, (Rabs_right (/ 180)) by Lra.lra.
    Lra.lra. }
  destruct (fdiv_near m (decimal 180 0) Wm Fm eq_refl eq_refl) as [(Wy & Fy & Ey) _].
  { rewrite B2R_180. Lra.lra. }
  { Lra.lra. }
  unfold radians. fold m. split; [exact Wy|]. split; [exact Fy|].
  rewrite B2R_180 in Ey, Hq.
  replace (B2R (fdiv m (decimal 180 0)) - B2R a * B2R Math_PI / 180)
    with ((B2R (fdiv m (decimal 180 0)) - B2R m / 180) +
          (B2R m - B2R a * B2R Math_PI) * / 180) by field.
  eapply Rle_trans; [apply Rabs_triang|].
  rewrite Rabs_mult, (Rabs_right (/ 180)) by Lra.lra.
  assert (unit_roundoff * Rabs (B2R m / 180) <= 2 * unit_roundoff) by Lra.nra.
  Lra.lra.
Qed.

(** Half the radian measure of a difference of two angles. *)
Lemma half_angle_near a b :
  well_formed a = true -> is_finite a = true ->
  well_formed b = true -> is_finite b = true ->
  Rabs (B2R b - B2R a) <= 50 ->
  near (fdiv (radians (fsub b a)) (decimal 2 0))
       ((B2R b - B2R a) * B2R Math_PI / 180 / 2) (4 * unit_roundoff).
Proof.
  intros Wa Fa Wb Fb H. assert (B := roundoff_bounds). assert (P := Math_PI_bounds).
  set (D := B2R b - B2R a) in *. assert (D0 := Rabs_pos D).
  destruct (fsub_near b a Wb Fb Wa Fa) as [(Wz & Fz & Ez) _]; [fold D; Lra.lra|].
  fold D in Ez. set (z := fsub b a) in *.
  assert (Ez' : Rabs (B2R z - D) <= 51 * unit_roundoff) by Lra.nra.
  assert (Hz : Rabs (B2R z) <= 51).
  { replace (B2R z) with (D + (B2R z - D)) by ring.
    eapply Rle_trans; [apply Rabs_triang|]. Lra.lra. }
  destruct (radians_near z Wz Fz) as (Wr & Fr & Er); [Lra.lra|].
  set (r := radians z) in *.
  assert (Er' : Rabs (B2R r - D * B2R Math_PI / 180) <= 6 * unit_roundoff).
  { replace (B2R r - D * B2R Math_PI / 180)
      with ((B2R r - B2R z * B2R Math_PI / 180) +
            (B2R z - D) * (B2R Math_PI / 180)) by field.
    eapply Rle_trans; [apply Rabs_triang|].
    rewrite Rabs_mult, (Rabs_right (B2R Math_PI / 180)) by Lra.lra.
    assert (0 <= Rabs (B2R z - D)) by apply Rabs_pos. Lra.nra. }
  assert (Hr : Rabs (B2R r) <= 1).
  { replace (B2R r) with (D * B2R Math_PI / 180 + (B2R r - D * B2R Math_PI / 180))
      by ring.
    eapply Rle_trans; [apply Rabs_triang|].
    assert (Rabs (D * B2R Math_PI / 180) <= 50 * (63 / 20) / 180).
    { unfold Rdiv. rewrite !Rabs_mult, (Rabs_right (B2R Math_PI)),
        (Rabs_right (/ 180)) by Lra.lra. Lra.nra. }
    Lra.lra. }
  assert (Hq : Rabs (B2R r / B2R (decimal 2 0)) <= / 2).
  { rewrite B2R_two. unfold Rdiv. rewrite Rabs_mult, (Rabs_right (/ 2)) by Lra.lra.
    Lra.lra. }
  destruct (fdiv_near r (decimal 2 0) Wr Fr eq_refl eq_refl) as [(Wh & Fh & Eh) _].
  { rewrite B2R_two. Lra.lra. }
  { Lra.lra. }
  split; [exact Wh|]. split; [exact Fh|].
  rewrite B2R_two in Eh, Hq.
  replace (B2R (fdiv r (decimal 2 0)) - D * B2R Math_PI / 180 / 2)
    with ((B2R (fdiv r (decimal 2 0)) - B2R r / 2) +
          (B2R r - D * B2R Math_PI / 180) * / 2) by field.
  eapply Rle_trans; [apply Rabs_triang|].
  rewrite Rabs_mult, (Rabs_right (/ 2)) by Lra.lra.
  assert (unit_roundoff * Rabs (B2R r / 2) <= / 2 * unit_roundoff) by Lra.nra.
  Lra.lra.
Qed.

(** From the value of [Math.PI] to pi. *)
Lemma angle_PI_error x k :
  0 < k -> Rabs x <= k ->
  Rabs (x * B2R Math_PI / k - x * PI / k) <= Math_PI_error.
Proof.
  intros Hk Hx. unfold Math_PI_error.
  replace (x * B2R Math_PI / k - x * PI / k) with ((x / k) * (B2R Math_PI - PI))
    by (field; Lra.lra).
  rewrite Rabs_mult.
  assert (Rabs (x / k) <= 1).
  { unfold Rdiv. rewrite Rabs_mult, (Rabs_right (/ k)).
    - assert (0 < / k) by (apply Rinv_0_lt_compat; exact Hk).
      replace 1 with (k * / k) by (field; Lra.lra).
      apply Rmult_le_compat_r; Lra.lra.
    - apply Rle_ge. left. apply Rinv_0_lt_compat. exact Hk. }
  assert (0 <= Rabs (B2R Math_PI - PI)) by apply Rabs_pos.
  Lra.nra.
Qed.

End Angles.

(** ** The value of [Math.PI] *)

Section PiValue.
Local Open Scope R_scope.

Lemma Q2R_pow_nat q n : Q2R (Qpow_nat q n) = Q2R q ^ n.
Proof.
  induction n as [|n IH]; cbn [Qpow_nat pow].
  - unfold Q2R. cbn [Qnum Qden]. Lra.lra.
  - rewrite Q2R_mult, IH. reflexivity.
Qed.

Lemma pi_series_term_value k : Q2R (pi_series_term k) = tg_alt PI_2_3_7_tg k.
Proof.
  unfold pi_series_term, tg_alt, PI_2_3_7_tg, Ratan_seq.
  assert (N : ~ (inject_Z (Z.of_nat (2 * k + 1)) == 0)%Q).
  { intros C. apply Qeq_eqR in C. rewrite Q2R_inject_Z, Q2R_zero in C.
    apply eq_IZR in C. lia. }
  rewrite Q2R_mult, Q2R_plus, Q2R_mult, !Q2R_div, !Q2R_pow_nat by exact N.
  rewrite Q2R_inject_Z, <- INR_IZR_INZ.
  replace (Q2R (-1)) with (-1) by (unfold Q2R; cbn [Qnum Qden]; Lra.lra).
  replace (Q2R 2) with 2 by (unfold Q2R; cbn [Qnum Qden]; Lra.lra).
  replace (Q2R (1 # 3)) with (/ 3) by (unfold Q2R; cbn [Qnum Qden]; Lra.lra).
  replace (Q2R (1 # 7)) with (/ 7) by (unfold Q2R; cbn [Qnum Qden]; Lra.lra).
  reflexivity.
Qed.

Lemma pi_series_sum_value n :
  Q2R (pi_series_sum n) = sum_f_R0 (tg_alt PI_2_3_7_tg) n.
Proof.
  induction n as [|n IH]; cbn [pi_series_sum sum_f_R0].
  - apply pi_series_term_value.
  - rewrite Q2R_plus, IH, pi_series_term_value. reflexivity.
Qed.

(** [Math.PI] is within [1.25 * 10^-16] of pi. *)
Lemma Math_PI_error_bound : Math_PI_error <= / 8000000000000000.
Proof.
  destruct (PI_2_3_7_ineq 9) as [L U].
  change (S (2 * 9)) with 19%nat in L. change (2 * 9)%nat with 18%nat in U.
  rewrite <- pi_series_sum_value in L, U.
  assert (HL : (B2Q Math_PI - 4 * pi_series_sum 19 <= 1 # 8000000000000000)%Q)
    by (apply Qle_bool_imp_le; vm_compute; reflexivity).
  assert (HU : (4 * pi_series_sum 18 - B2Q Math_PI <= 1 # 8000000000000000)%Q)
    by (apply Qle_bool_imp_le; vm_compute; reflexivity).
  apply Qle_Rle in HL, HU.
  rewrite Q2R_minus, Q2R_mult in HL, HU.
  replace (Q2R 4) with 4 in HL, HU by (unfold Q2R; cbn [Qnum Qden]; Lra.lra).
  replace (Q2R (1 # 8000000000000000)) with (/ 8000000000000000) in HL, HU
    by (unfold Q2R; cbn [Qnum Qden]; Lra.lra).
  unfold Math_PI_error, B2R. apply Rabs_le. Lra.lra.
Qed.

End PiValue.

(** ** The haversine term *)

Section HaversineTerm.
Local Open Scope R_scope.

Lemma Rabs_product_diff a b c d :
  Rabs (a * b - c * d) <= Rabs (a - c) * Rabs b + Rabs c * Rabs (b - d).
Proof.
  replace (a * b - c * d) with ((a - c) * b + c * (b - d)) by ring.
  eapply Rle_trans; [apply Rabs_triang|]. rewrite !Rabs_mult. Lra.lra.
Qed.

Lemma Rabs_product_le a b x y :
  Rabs a <= x -> Rabs b <= y -> Rabs a * Rabs b <= x * y.
Proof.
  intros Ha Hb. assert (A := Rabs_pos a). assert (B := Rabs_pos b).
  apply Rmult_le_compat; assumption.
Qed.

(** The term [a] of the code, against the same term without rounding. *)
Lemma haversine_term_rounding s1 c1 c2 s4 :
  well_formed s1 = true -> is_finite s1 = true ->
  well_formed c1 = true -> is_finite c1 = true ->
  well_formed c2 = true -> is_finite c2 = true ->
  well_formed s4 = true -> is_finite s4 = true ->
  Rabs (B2R s1) <= 7 / 20 -> Rabs (B2R s4) <= 7 / 20 ->
  3 / 4 <= B2R c1 <= 101 / 100 -> 3 / 4 <= B2R c2 <= 101 / 100 ->
  let a := fadd (fmul s1 s1) (fmul (fmul (fmul c1 c2) s4) s4) in
  let a' := B2R s1 * B2R s1 + B2R c1 * B2R c2 * B2R s4 * B2R s4 in
  well_formed a = true /\ is_finite a = true /\ 0 <= B2R a /\
  Rabs (B2R a - a') <= 8 * unit_roundoff * a' + 29 * underflow_unit.
Proof.
  intros Ws1 Fs1 Wc1 Fc1 Wc2 Fc2 Ws4 Fs4 H1 H4 Hc1 Hc2.
  assert (B := roundoff_bounds).
  set (x1 := B2R s1) in *. set (x4 := B2R s4) in *.
  set (y1 := B2R c1) in *. set (y2 := B2R c2) in *.
  assert (A1 := Rabs_le_between _ _ H1). assert (A4 := Rabs_le_between _ _ H4).
  assert (Py : 0 <= y1 * y2 <= 2) by Lra.nra.
  assert (Px4 : 0 <= x4 * x4 <= 1) by Lra.nra.
  assert (Px1 : 0 <= x1 * x1 <= 1) by Lra.nra.
  assert (Pyx : 0 <= y1 * y2 * x4 * x4 <= 2) by Lra.nra.
  (* p = c1 * c2 *)
  destruct (fmul_rel c1 c2 y1 0 0 Wc1 Fc1 Wc2 Fc2) as [(Wp & Fp & Ep) [Sp _]];
    try Lra.lra.
  { fold y2. rewrite Rabs_right; Lra.lra. }
  { rewrite Rabs_right; Lra.lra. }
  { fold y1. replace (y1 - y1) with 0 by ring. rewrite Rabs_R0.
    assert (0 <= Rabs y1) by apply Rabs_pos. Lra.lra. }
  fold y1 y2 in Ep, Sp. set (p := fmul c1 c2) in *.
  assert (Sp' : 0 <= B2R p) by (apply Sp; Lra.lra).
  (* q = p * s4 *)
  destruct (fmul_rel p s4 (y1 * y2) (2 * unit_roundoff) underflow_unit
              Wp Fp Ws4 Fs4) as [(Wq & Fq & Eq) [Sq1 Sq2]]; try Lra.lra.
  { fold x4. Lra.lra. }
  { rewrite Rabs_right; Lra.lra. }
  fold x4 in Eq, Sq1, Sq2. set (q := fmul p s4) in *.
  (* r = q * s4 *)
  assert (Hyx : Rabs (y1 * y2 * x4) <= 1000).
  { rewrite Rabs_mult. rewrite (Rabs_right (y1 * y2)) by Lra.lra.
    assert (0 <= Rabs x4) by apply Rabs_pos. Lra.nra. }
  destruct (fmul_rel q s4 (y1 * y2 * x4) (4 * unit_roundoff) (4 * underflow_unit)
              Wq Fq Ws4 Fs4) as [(Wr & Fr & Er) [Sr _]]; try Lra.lra.
  { fold x4. Lra.lra. }
  fold x4 in Er, Sr. set (r := fmul q s4) in *.
  assert (Sr' : 0 <= B2R r).
  { apply Sr. destruct (Rle_dec 0 x4) as [C|C].
    - assert (0 <= B2R q) by (apply Sq1; Lra.nra). Lra.nra.
    - assert (B2R q <= 0) by (apply Sq2; Lra.nra). Lra.nra. }
  rewrite (Rabs_right (y1 * y2 * x4 * x4)) in Er by Lra.lra.
  (* t = s1 * s1 *)
  destruct (fmul_rel s1 s1 x1 0 0 Ws1 Fs1 Ws1 Fs1) as [(Wt & Ft & Et) [St _]];
    try Lra.lra.
  { fold x1. Lra.lra. }
  { fold x1. replace (x1 - x1) with 0 by ring. rewrite Rabs_R0.
    assert (0 <= Rabs x1) by apply Rabs_pos. Lra.lra. }
  fold x1 in Et, St. set (t := fmul s1 s1) in *.
  assert (St' : 0 <= B2R t) by (apply St; Lra.lra).
  rewrite (Rabs_right (x1 * x1)) in Et by Lra.lra.
  (* a = t + r *)
  destruct (fadd_rel t r (x1 * x1) (y1 * y2 * x4 * x4) (6 * unit_roundoff)
              underflow_unit (13 * underflow_unit) Wt Ft Wr Fr)
    as [(Wa & Fa & Ea) Sa]; try Lra.lra.
  { Lra.nra. }
  cbn zeta. split; [exact Wa|]. split; [exact Fa|].
  split; [apply Sa; Lra.lra|].
  Lra.lra.
Qed.

(** The term without rounding, against the term of the formula. *)
Lemma haversine_term_real x1 y1 y2 x4 S1 C1 C2 S4 e :
  Rabs (x1 - S1) <= e -> Rabs (y1 - C1) <= e ->
  Rabs (y2 - C2) <= e -> Rabs (x4 - S4) <= e ->
  Rabs x1 <= 7 / 20 -> Rabs x4 <= 7 / 20 ->
  3 / 4 <= y1 <= 101 / 100 -> 3 / 4 <= y2 <= 101 / 100 ->
  Rabs S1 <= 7 / 20 -> Rabs S4 <= 7 / 20 ->
  3 / 4 <= C1 <= 1 -> 3 / 4 <= C2 <= 1 ->
  let a' := x1 * x1 + y1 * y2 * x4 * x4 in
  let A := S1 * S1 + C1 * C2 * (S4 * S4) in
  Rabs (a' - A) <= 2 * e /\ Rabs (sqrt a' - sqrt A) <= 3 * e /\
  0 <= a' <= / 4 /\ 0 <= A <= / 4.
Proof.
  intros E1 Ey1 Ey2 E4 H1 H4 Hy1 Hy2 HS1 HS4 HC1 HC2 a' A.
  assert (He : 0 <= e) by (assert (T := Rabs_pos (x1 - S1)); Lra.lra).
  assert (A1 := Rabs_le_between _ _ H1). assert (A4 := Rabs_le_between _ _ H4).
  assert (B1 := Rabs_le_between _ _ HS1). assert (B4 := Rabs_le_between _ _ HS4).
  set (g := y1 * y2). set (G := C1 * C2).
  assert (Hg : 9 / 16 <= g <= 10201 / 10000) by (unfold g; Lra.nra).
  assert (HG : 9 / 16 <= G <= 1) by (unfold G; Lra.nra).
  assert (Dg : Rabs (g - G) <= 201 / 100 * e).
  { unfold g, G. eapply Rle_trans; [apply Rabs_product_diff|].
    assert (Rabs (y1 - C1) * Rabs y2 <= e * (101 / 100)).
    { apply Rmult_le_compat; try apply Rabs_pos; [exact Ey1|].
      rewrite Rabs_right; Lra.lra. }
    assert (Rabs C1 * Rabs (y2 - C2) <= 1 * e).
    { apply Rmult_le_compat; try apply Rabs_pos; [|exact Ey2].
      rewrite Rabs_right; Lra.lra. }
    Lra.lra. }
  assert (D4 : Rabs (x4 * x4 - S4 * S4) <= 7 / 10 * e).
  { eapply Rle_trans; [apply Rabs_product_diff|].
    assert (Rabs (x4 - S4) * Rabs x4 <= e * (7 / 20))
      by (apply Rmult_le_compat; try apply Rabs_pos; assumption).
    assert (Rabs S4 * Rabs (x4 - S4) <= 7 / 20 * e)
      by (apply Rmult_le_compat; try apply Rabs_pos; assumption).
    Lra.lra. }
  assert (D1 : Rabs (x1 * x1 - S1 * S1) <= 7 / 10 * e).
  { eapply Rle_trans; [apply Rabs_product_diff|].
    assert (Rabs (x1 - S1) * Rabs x1 <= e * (7 / 20))
      by (apply Rmult_le_compat; try apply Rabs_pos; assumption).
    assert (Rabs S1 * Rabs (x1 - S1) <= 7 / 20 * e)
      by (apply Rmult_le_compat; try apply Rabs_pos; assumption).
    Lra.lra. }
  assert (X4 : 0 <= x4 * x4 <= 49 / 400) by Lra.nra.
  assert (X1 : 0 <= x1 * x1 <= 49 / 400) by Lra.nra.
  assert (Y4 : 0 <= S4 * S4 <= 49 / 400) by Lra.nra.
  assert (Y1 : 0 <= S1 * S1 <= 49 / 400) by Lra.nra.
  assert (Dp : Rabs (g * (x4 * x4) - G * (S4 * S4)) <= 95 / 100 * e).
  { eapply Rle_trans; [apply Rabs_product_diff|].
    assert (Rabs (g - G) * Rabs (x4 * x4) <= 201 / 100 * e * (49 / 400)).
    { apply Rmult_le_compat; try apply Rabs_pos; [exact Dg|].
      rewrite Rabs_right; Lra.lra. }
    assert (Rabs G * Rabs (x4 * x4 - S4 * S4) <= 1 * (7 / 10 * e)).
    { apply Rmult_le_compat; try apply Rabs_pos; [|exact D4].
      rewrite Rabs_right; Lra.lra. }
    Lra.lra. }
  assert (Ea' : a' = x1 * x1 + g * (x4 * x4)) by (unfold a', g; ring).
  assert (Pa' : 0 <= a' <= / 4) by (rewrite Ea'; Lra.nra).
  assert (PA : 0 <= A <= / 4) by (unfold A; fold G; Lra.nra).
  split; [|split; [|split; assumption]].
  - rewrite Ea'. unfold A. fold G.
    replace (x1 * x1 + g * (x4 * x4) - (S1 * S1 + G * (S4 * S4)))
      with ((x1 * x1 - S1 * S1) + (g * (x4 * x4) - G * (S4 * S4))) by ring.
    eapply Rle_trans; [apply Rabs_triang|]. Lra.lra.
  - set (rg := sqrt g). set (rG := sqrt G).
    assert (Eg : rg * rg = g) by (apply sqrt_sqrt; Lra.lra).
    assert (EG : rG * rG = G) by (apply sqrt_sqrt; Lra.lra).
    assert (PG : 0 <= rG <= 1).
    { split; [apply sqrt_pos|]. unfold rG. rewrite <- sqrt_1.
      apply sqrt_le_1_alt. Lra.lra. }
    assert (Dr : Rabs (rg - rG) <= 201 / 100 * e).
    { eapply Rle_trans; [apply sqrt_lipschitz; Lra.lra|exact Dg]. }
    replace a' with (x1 * x1 + (rg * x4) * (rg * x4))
      by (rewrite Ea', <- Eg; ring).
    replace A with (S1 * S1 + (rG * S4) * (rG * S4))
      by (unfold A; fold G; rewrite <- EG; ring).
    eapply Rle_trans; [apply norm_lipschitz|].
    assert (Dw : Rabs (rg * x4 - rG * S4) <= 171 / 100 * e).
    { eapply Rle_trans; [apply Rabs_product_diff|].
      assert (Rabs (rg - rG) * Rabs x4 <= 201 / 100 * e * (7 / 20))
        by (apply Rmult_le_compat; try apply Rabs_pos; assumption).
      assert (Rabs rG * Rabs (x4 - S4) <= 1 * e).
      { apply Rmult_le_compat; try apply Rabs_pos; [|exact E4].
        rewrite Rabs_right; Lra.lra. }
      Lra.lra. }
    Lra.lra.
Qed.

End HaversineTerm.

(** ** The distance *)

Section DistanceError.
Local Open Scope R_scope.
Variable M : MathLib.
Variable delta : R.
Hypothesis HM : accurate M delta.
Hypothesis Hdelta : delta <= / 1000.

Lemma delta_nonneg : 0 <= delta.
Proof.
  destruct HM as (Hs & _ & _).
  destruct (Hs pos_zero eq_refl eq_refl) as (_ & _ & H).
  - unfold pos_zero. rewrite B2R_zero, Rabs_R0. Lra.lra.
  - assert (T := Rabs_pos (B2R (Math_sin M pos_zero) - sin (B2R pos_zero))).
    Lra.lra.
Qed.

(** The sine of half a difference of two angles in degrees. *)
Lemma sine_near a b :
  well_formed a = true -> is_finite a = true ->
  well_formed b = true -> is_finite b = true ->
  Rabs (B2R b - B2R a) <= 31 ->
  let s := Math_sin M (fdiv (radians (fsub b a)) (decimal 2 0)) in
  let S := sin ((B2R b - B2R a) * PI / 180 / 2) in
  near s S (delta + 4 * unit_roundoff + Math_PI_error) /\
  Rabs (B2R s) <= 7 / 20 /\ Rabs S <= 7 / 20.
Proof.
  intros Wa Fa Wb Fb H s S. assert (B := roundoff_bounds).
  assert (P := Math_PI_bounds). assert (D0 := delta_nonneg).
  set (D := B2R b - B2R a) in *. assert (AD := Rabs_pos D).
  destruct (half_angle_near a b Wa Fa Wb Fb) as (Wh & Fh & Eh); [fold D; Lra.lra|].
  fold D in Eh. set (h := fdiv (radians (fsub b a)) (decimal 2 0)) in *.
  assert (T1 : Rabs (D * B2R Math_PI / 180 / 2) <= 31 * (63 / 20) / 360).
  { unfold Rdiv. rewrite !Rabs_mult, (Rabs_right (B2R Math_PI)),
      (Rabs_right (/ 180)), (Rabs_right (/ 2)) by Lra.lra. Lra.nra. }
  assert (Hh : Rabs (B2R h) <= 28 / 100).
  { replace (B2R h) with (D * B2R Math_PI / 180 / 2 +
                          (B2R h - D * B2R Math_PI / 180 / 2)) by ring.
    eapply Rle_trans; [apply Rabs_triang|]. Lra.lra. }
  destruct HM as (Hs & _ & _).
  destruct (Hs h Wh Fh) as (Ws & Fs & Es); [Lra.lra|]. fold s in Ws, Fs, Es.
  assert (T2 : Rabs (D * B2R Math_PI / 180 / 2 - D * PI / 180 / 2) <= Math_PI_error).
  { replace (D * B2R Math_PI / 180 / 2) with (D * B2R Math_PI / 360) by field.
    replace (D * PI / 180 / 2) with (D * PI / 360) by field.
    apply angle_PI_error; Lra.lra. }
  split; [|split].
  - split; [exact Ws|]. split; [exact Fs|]. unfold S.
    replace (B2R s - sin (D * PI / 180 / 2))
      with ((B2R s - sin (B2R h)) +
            (sin (B2R h) - sin (D * PI / 180 / 2))) by ring.
    eapply Rle_trans; [apply Rabs_triang|].
    assert (L := sin_lipschitz (B2R h) (D * PI / 180 / 2)).
    assert (Rabs (B2R h - D * PI / 180 / 2) <= 4 * unit_roundoff + Math_PI_error).
    { replace (B2R h - D * PI / 180 / 2)
        with ((B2R h - D * B2R Math_PI / 180 / 2) +
              (D * B2R Math_PI / 180 / 2 - D * PI / 180 / 2)) by ring.
      eapply Rle_trans; [apply Rabs_triang|]. Lra.lra. }
    Lra.lra.
  - replace (B2R s) with (sin (B2R h) + (B2R s - sin (B2R h))) by ring.
    eapply Rle_trans; [apply Rabs_triang|].
    assert (L := sin_abs_le (B2R h)). Lra.lra.
  - unfold S. eapply Rle_trans; [apply sin_abs_le|].
    assert (Pp := PI_RGT_0). assert (P4 := PI_4).
    unfold Rdiv. rewrite !Rabs_mult, (Rabs_right PI),
      (Rabs_right (/ 180)), (Rabs_right (/ 2)) by Lra.lra. Lra.nra.
Qed.

(** The cosine of an angle in degrees. *)
Lemma cosine_near a :
  well_formed a = true -> is_finite a = true -> Rabs (B2R a) <= 31 ->
  let c := Math_cos M (radians a) in
  let C := cos (B2R a * PI / 180) in
  near c C (delta + 5 * unit_roundoff + Math_PI_error) /\
  3 / 4 <= B2R c <= 101 / 100 /\ 3 / 4 <= C <= 1.
Proof.
  intros Wa Fa H c C. assert (B := roundoff_bounds).
  assert (P := Math_PI_bounds). assert (D0 := delta_nonneg).
  assert (AD := Rabs_pos (B2R a)).
  destruct (radians_near a Wa Fa) as (Wg & Fg & Eg); [Lra.lra|].
  set (g := radians a) in *.
  assert (T1 : Rabs (B2R a * B2R Math_PI / 180) <= 31 * (63 / 20) / 180).
  { unfold Rdiv. rewrite !Rabs_mult, (Rabs_right (B2R Math_PI)),
      (Rabs_right (/ 180)) by Lra.lra. Lra.nra. }
  assert (Hg : Rabs (B2R g) <= 55 / 100).
  { replace (B2R g) with (B2R a * B2R Math_PI / 180 +
                          (B2R g - B2R a * B2R Math_PI / 180)) by ring.
    eapply Rle_trans; [apply Rabs_triang|]. Lra.lra. }
  destruct HM as (_ & Hc & _).
  destruct (Hc g Wg Fg) as (Wc & Fc & Ec); [Lra.lra|]. fold c in Wc, Fc, Ec.
  assert (T2 : Rabs (B2R a * B2R Math_PI / 180 - B2R a * PI / 180) <= Math_PI_error)
    by (apply angle_PI_error; Lra.lra).
  assert (Pp := PI_RGT_0). assert (P4 := PI_4).
  split; [|split].
  - split; [exact Wc|]. split; [exact Fc|]. unfold C.
    replace (B2R c - cos (B2R a * PI / 180))
      with ((B2R c - cos (B2R g)) +
            (cos (B2R g) - cos (B2R a * PI / 180))) by ring.
    eapply Rle_trans; [apply Rabs_triang|].
    assert (L := cos_lipschitz (B2R g) (B2R a * PI / 180)).
    assert (Rabs (B2R g - B2R a * PI / 180) <= 5 * unit_roundoff + Math_PI_error).
    { replace (B2R g - B2R a * PI / 180)
        with ((B2R g - B2R a * B2R Math_PI / 180) +
              (B2R a * B2R Math_PI / 180 - B2R a * PI / 180)) by ring.
      eapply Rle_trans; [apply Rabs_triang|]. Lra.lra. }
    Lra.lra.
  - apply Rabs_le_between in Ec, Hg.
    assert (L := cos_lower (B2R g)). assert (U := COS_bound (B2R g)).
    split; [|Lra.lra].
    assert (B2R g * B2R g <= 55 / 100 * (55 / 100)) by Lra.nra.
    Lra.lra.
  - unfold C. set (t := B2R a * PI / 180).
    assert (Ht : Rabs t <= 31 * 4 / 180).
    { unfold t, Rdiv. rewrite !Rabs_mult, (Rabs_right PI),
        (Rabs_right (/ 180)) by Lra.lra. Lra.nra. }
    apply Rabs_le_between in Ht.
    assert (L := cos_lower t). assert (U := COS_bound t).
    split; [|Lra.lra].
    assert (t * t <= 31 * 4 / 180 * (31 * 4 / 180)) by Lra.nra.
    Lra.lra.
Qed.

(** From the term [a] to the distance. *)
Lemma haversine_arc a a' A e :
  well_formed a = true -> is_finite a = true -> 0 <= B2R a ->
  Rabs (B2R a - a') <= 8 * unit_roundoff * a' + 29 * underflow_unit ->
  0 <= a' <= / 4 -> 0 <= A <= / 4 ->
  Rabs (a' - A) <= 2 * e -> Rabs (sqrt a' - sqrt A) <= 3 * e ->
  8 * unit_roundoff <= e -> delta <= e ->
  let d := fmul (decimal 6371 0)
             (fmul (decimal 2 0)
                (Math_atan2 M (fsqrt a) (fsqrt (fsub (decimal 1 0) a)))) in
  near d (6371 * (2 * Ratan2 (sqrt A) (sqrt (1 - A)))) (410000 * e) /\
  Rabs (B2R d) <= 45000.
Proof.
  intros Wa Fa Pa Ea Ha' HA D1 D2 He Hde.
  assert (B := roundoff_bounds). assert (D0 := delta_nonneg).
  set (x := B2R a) in *.
  assert (Ea' : Rabs (x - a') <= 3 * unit_roundoff) by Lra.nra.
  assert (Hx : 0 <= x <= 26 / 100).
  { apply Rabs_le_between in Ea'. Lra.lra. }
  (* the square root of a *)
  destruct (fsqrt_near a Wa Fa Pa) as [(Wsa & Fsa & Esa) Psa]; [fold x; Lra.lra|].
  fold x in Esa. set (sa := fsqrt a) in *.
  assert (Sx : 0 <= sqrt x <= 1).
  { split; [apply sqrt_pos|]. rewrite <- sqrt_1. apply sqrt_le_1_alt. Lra.lra. }
  assert (Sa' : 0 <= sqrt a' <= 1).
  { split; [apply sqrt_pos|]. rewrite <- sqrt_1. apply sqrt_le_1_alt. Lra.lra. }
  assert (SA : 0 <= sqrt A <= 1).
  { split; [apply sqrt_pos|]. rewrite <- sqrt_1. apply sqrt_le_1_alt. Lra.lra. }
  assert (Esa' : Rabs (B2R sa - sqrt x) <= 5 * unit_roundoff) by Lra.nra.
  assert (R1 : Rabs (sqrt x - sqrt a') <= 9 * unit_roundoff).
  { assert (R := sqrt_relative x a' (8 * unit_roundoff) (29 * underflow_unit)).
    assert (Q : sqrt (29 * underflow_unit) <= unit_roundoff).
    { rewrite <- (sqrt_square unit_roundoff) by Lra.lra.
      apply sqrt_le_1_alt. Lra.lra. }
    assert (R' : Rabs (sqrt x - sqrt a') <=
                 8 * unit_roundoff * sqrt a' + sqrt (29 * underflow_unit))
      by (apply R; Lra.lra).
    Lra.nra. }
  assert (Nsa : Rabs (B2R sa - sqrt A) <= 5 * e).
  { replace (B2R sa - sqrt A)
      with ((B2R sa - sqrt x) + ((sqrt x - sqrt a') + (sqrt a' - sqrt A))) by ring.
    eapply Rle_trans; [apply Rabs_triang|].
    assert (T := Rabs_triang (sqrt x - sqrt a') (sqrt a' - sqrt A)).
    Lra.lra. }
  assert (Hsa : 0 <= B2R sa <= 2).
  { apply Rabs_le_between in Esa'. Lra.lra. }
  (* 1 - a and its square root *)
  destruct (fsub_near (decimal 1 0) a eq_refl eq_refl Wa Fa) as [(Wb & Fb & Eb) _].
  { rewrite B2R_one. fold x. rewrite Rabs_right; Lra.lra. }
  rewrite B2R_one in Eb. fold x in Eb. set (b := fsub (decimal 1 0) a) in *.
  rewrite (Rabs_right (1 - x)) in Eb by Lra.lra.
  assert (Eb' : Rabs (B2R b - (1 - x)) <= 2 * unit_roundoff) by Lra.nra.
  assert (Hb : 7 / 10 <= B2R b <= 101 / 100).
  { apply Rabs_le_between in Eb'. Lra.lra. }
  assert (Nb : Rabs (B2R b - (1 - A)) <= 3 * e).
  { replace (B2R b - (1 - A))
      with ((B2R b - (1 - x)) + (- (x - a') + - (a' - A))) by ring.
    eapply Rle_trans; [apply Rabs_triang|].
    assert (T := Rabs_triang (- (x - a')) (- (a' - A))).
    rewrite !Rabs_Ropp in T. Lra.lra. }
  destruct (fsqrt_near b Wb Fb) as [(Wsb & Fsb & Esb) Psb]; [Lra.lra..|].
  set (sb := fsqrt b) in *.
  assert (Sb : 8 / 10 <= sqrt (B2R b) <= 101 / 100).
  { split.
    - rewrite <- (sqrt_square (8 / 10)) by Lra.lra. apply sqrt_le_1_alt. Lra.lra.
    - rewrite <- (sqrt_square (101 / 100)) by Lra.lra. apply sqrt_le_1_alt. Lra.lra. }
  assert (Esb' : Rabs (B2R sb - sqrt (B2R b)) <= 5 * unit_roundoff) by Lra.nra.
  assert (S1A : / 2 <= sqrt (1 - A)).
  { rewrite <- (sqrt_square (/ 2)) by Lra.lra. apply sqrt_le_1_alt. Lra.lra. }
  assert (Nsb : Rabs (B2R sb - sqrt (1 - A)) <= 4 * e).
  { replace (B2R sb - sqrt (1 - A))
      with ((B2R sb - sqrt (B2R b)) + (sqrt (B2R b) - sqrt (1 - A))) by ring.
    eapply Rle_trans; [apply Rabs_triang|].
    assert (L := sqrt_lipschitz (B2R b) (1 - A)).
    assert (Rabs (sqrt (B2R b) - sqrt (1 - A)) <= Rabs (B2R b - (1 - A)))
      by (apply L; Lra.lra).
    Lra.lra. }
  assert (Hsb : / 2 <= B2R sb <= 2).
  { apply Rabs_le_between in Esb'. Lra.lra. }
  (* the arc tangent *)
  destruct HM as (_ & _ & Hat).
  destruct (Hat sa sb Wsa Fsa Wsb Fsb Hsa Hsb) as (Wat & Fat & Eat).
  set (at2 := Math_atan2 M sa sb) in *.
  assert (L := Ratan2_lipschitz (B2R sa) (B2R sb) (sqrt A) (sqrt (1 - A))).
  assert (L' : Rabs (Ratan2 (B2R sa) (B2R sb) - Ratan2 (sqrt A) (sqrt (1 - A))) <=
               2 * Rabs (B2R sa - sqrt A) + 4 * Rabs (B2R sb - sqrt (1 - A))).
  { apply L; try Lra.lra. rewrite Rabs_right; Lra.lra. }
  set (AT := Ratan2 (sqrt A) (sqrt (1 - A))) in *.
  assert (Nat : Rabs (B2R at2 - AT) <= 27 * e).
  { replace (B2R at2 - AT)
      with ((B2R at2 - Ratan2 (B2R sa) (B2R sb)) +
            (Ratan2 (B2R sa) (B2R sb) - AT)) by ring.
    eapply Rle_trans; [apply Rabs_triang|]. Lra.lra. }
  assert (Hat2 : Rabs (B2R at2) <= 3).
  { replace (B2R at2)
      with (Ratan2 (B2R sa) (B2R sb) + (B2R at2 - Ratan2 (B2R sa) (B2R sb))) by ring.
    eapply Rle_trans; [apply Rabs_triang|].
    assert (Rabs (Ratan2 (B2R sa) (B2R sb)) <= 2) by (apply Ratan2_bound; Lra.lra).
    Lra.lra. }
  (* the two products *)
  assert (A3 := Rabs_pos (B2R at2)).
  destruct (fmul_near (decimal 2 0) at2 eq_refl eq_refl Wat Fat) as [(Wc & Fc & Ec) _].
  { rewrite B2R_two, Rabs_mult, (Rabs_right 2) by Lra.lra. Lra.lra. }
  rewrite B2R_two, Rabs_mult, (Rabs_right 2) in Ec by Lra.lra.
  set (c := fmul (decimal 2 0) at2) in *.
  assert (Ec' : Rabs (B2R c - 2 * B2R at2) <= 7 * unit_roundoff) by Lra.nra.
  assert (Hc : Rabs (B2R c) <= 7).
  { replace (B2R c) with (2 * B2R at2 + (B2R c - 2 * B2R at2)) by ring.
    eapply Rle_trans; [apply Rabs_triang|].
    rewrite Rabs_mult, (Rabs_right 2) by Lra.lra. Lra.lra. }
  assert (A4 := Rabs_pos (B2R c)).
  destruct (fmul_near (decimal 6371 0) c eq_refl eq_refl Wc Fc) as [(Wd & Fd & Ed) _].
  { rewrite B2R_6371, Rabs_mult, (Rabs_right 6371) by Lra.lra. Lra.lra. }
  rewrite B2R_6371, Rabs_mult, (Rabs_right 6371) in Ed by Lra.lra.
  cbn zeta. fold b sb sa at2 c.
  set (d := fmul (decimal 6371 0) c) in *.
  assert (Ed' : Rabs (B2R d - 6371 * B2R c) <= 45000 * unit_roundoff) by Lra.nra.
  split.
  - split; [exact Wd|]. split; [exact Fd|].
    replace (B2R d - 6371 * (2 * AT))
      with ((B2R d - 6371 * B2R c) +
            (6371 * (B2R c - 2 * B2R at2) + 12742 * (B2R at2 - AT))) by ring.
    eapply Rle_trans; [apply Rabs_triang|].
    assert (T := Rabs_triang (6371 * (B2R c - 2 * B2R at2)) (12742 * (B2R at2 - AT))).
    rewrite !Rabs_mult, (Rabs_right 6371), (Rabs_right 12742) in T by Lra.lra.
    Lra.lra.
  - replace (B2R d) with (6371 * B2R c + (B2R d - 6371 * B2R c)) by ring.
    eapply Rle_trans; [apply Rabs_triang|].
    rewrite Rabs_mult, (Rabs_right 6371) by Lra.lra. Lra.lra.
Qed.

End DistanceError.

(** ** The distance between two registered cities *)

Section RegisteredDistance.
Local Open Scope R_scope.

Lemma in_region_spec lat lng :
  in_region lat lng = true ->
  (well_formed lat = true /\ is_finite lat = true /\ -31 <= B2R lat <= 0) /\
  (well_formed lng = true /\ is_finite lng = true /\ -61 <= B2R lng <= -34).
Proof.
  unfold in_region. intros H.
  apply andb_prop in H. destruct H as [H G8].
  apply andb_prop in H. destruct H as [H G7].
  apply andb_prop in H. destruct H as [H G6].
  apply andb_prop in H. destruct H as [H G5].
  apply andb_prop in H. destruct H as [H G4].
  apply andb_prop in H. destruct H as [H G3].
  apply andb_prop in H. destruct H as [G1 G2].
  apply Qle_bool_imp_le, Qle_Rle in G5, G6, G7, G8.
  rewrite Q2R_inject_Z in G5, G7, G8. rewrite Q2R_zero in G6.
  unfold B2R. repeat split; assumption.
Qed.

Lemma registered_region name :
  registered name ->
  exists lat lng,
    own_property ROUTES_DATA name = Some (VCoords lat lng) /\
    in_region lat lng = true.
Proof.
  unfold registered. cbn [Object_keys map fst ROUTES_DATA]. intros H.
  repeat (destruct H as [<-|H];
          [eexists _, _; split; [reflexivity|]; vm_compute; reflexivity|]).
  contradiction.
Qed.

Lemma haversineDistance_code M lat1 lon1 lat2 lon2 :
  haversineDistance (binary64 M) lat1 lon1 lat2 lon2 =
  let s1 := Math_sin M (fdiv (radians (fsub lat2 lat1)) (decimal 2 0)) in
  let s4 := Math_sin M (fdiv (radians (fsub lon2 lon1)) (decimal 2 0)) in
  let c1 := Math_cos M (radians lat1) in
  let c2 := Math_cos M (radians lat2) in
  let a := fadd (fmul s1 s1) (fmul (fmul (fmul c1 c2) s4) s4) in
  fmul (decimal 6371 0)
    (fmul (decimal 2 0)
       (Math_atan2 M (fsqrt a) (fsqrt (fsub (decimal 1 0) a)))).
Proof. reflexivity. Qed.

(** The distance the code computes, against the haversine formula. *)
Lemma haversineDistance_near M delta lat1 lon1 lat2 lon2 :
  accurate M delta -> delta <= / 1000 ->
  in_region lat1 lon1 = true -> in_region lat2 lon2 = true ->
  let d := haversineDistance (binary64 M) lat1 lon1 lat2 lon2 in
  near d (haversine_formula (B2R lat1) (B2R lon1) (B2R lat2) (B2R lon2))
       (410000 * (delta + 8 * unit_roundoff + Math_PI_error)) /\
  Rabs (B2R d) <= 45000.
Proof.
  intros HM Hd R1 R2.
  destruct (in_region_spec _ _ R1) as [(Wa1 & Fa1 & La1) (Wo1 & Fo1 & Lo1)].
  destruct (in_region_spec _ _ R2) as [(Wa2 & Fa2 & La2) (Wo2 & Fo2 & Lo2)].
  assert (B := roundoff_bounds). assert (D0 := delta_nonneg M delta HM).
  assert (P0 : 0 <= Math_PI_error) by apply Rabs_pos.
  set (e := delta + 8 * unit_roundoff + Math_PI_error).
  destruct (sine_near M delta HM Hd lat1 lat2 Wa1 Fa1 Wa2 Fa2) as (N1 & B1 & T1).
  { apply Rabs_le. Lra.lra. }
  destruct (sine_near M delta HM Hd lon1 lon2 Wo1 Fo1 Wo2 Fo2) as (N4 & B4 & T4).
  { apply Rabs_le. Lra.lra. }
  destruct (cosine_near M delta HM Hd lat1 Wa1 Fa1) as (Nc1 & Bc1 & Tc1).
  { apply Rabs_le. Lra.lra. }
  destruct (cosine_near M delta HM Hd lat2 Wa2 Fa2) as (Nc2 & Bc2 & Tc2).
  { apply Rabs_le. Lra.lra. }
  apply (near_weaken _ _ _ e) in N1, N4, Nc1, Nc2; try (unfold e; Lra.lra).
  set (s1 := Math_sin M (fdiv (radians (fsub lat2 lat1)) (decimal 2 0))) in *.
  set (s4 := Math_sin M (fdiv (radians (fsub lon2 lon1)) (decimal 2 0))) in *.
  set (c1 := Math_cos M (radians lat1)) in *.
  set (c2 := Math_cos M (radians lat2)) in *.
  set (S1 := sin ((B2R lat2 - B2R lat1) * PI / 180 / 2)) in *.
  set (S4 := sin ((B2R lon2 - B2R lon1) * PI / 180 / 2)) in *.
  set (C1 := cos (B2R lat1 * PI / 180)) in *.
  set (C2 := cos (B2R lat2 * PI / 180)) in *.
  destruct N1 as (Ws1 & Fs1 & E1). destruct N4 as (Ws4 & Fs4 & E4).
  destruct Nc1 as (Wc1 & Fc1 & Ec1). destruct Nc2 as (Wc2 & Fc2 & Ec2).
  destruct (haversine_term_rounding s1 c1 c2 s4 Ws1 Fs1 Wc1 Fc1 Wc2 Fc2 Ws4 Fs4
              B1 B4 Bc1 Bc2) as (Wa & Fa & Pa & Ea).
  destruct (haversine_term_real (B2R s1) (B2R c1) (B2R c2) (B2R s4) S1 C1 C2 S4 e
              E1 Ec1 Ec2 E4 B1 B4 Bc1 Bc2 T1 T4 Tc1 Tc2) as (D1 & D2 & Ha' & HA).
  rewrite haversineDistance_code. cbv zeta. fold s1 s4 c1 c2.
  set (a := fadd (fmul s1 s1) (fmul (fmul (fmul c1 c2) s4) s4)) in *.
  assert (EF : haversine_formula (B2R lat1) (B2R lon1) (B2R lat2) (B2R lon2) =
               6371 * (2 * Ratan2 (sqrt (S1 * S1 + C1 * C2 * (S4 * S4)))
                                  (sqrt (1 - (S1 * S1 + C1 * C2 * (S4 * S4)))))).
  { reflexivity. }
  rewrite EF.
  apply (haversine_arc M delta HM Hd a _ _ e Wa Fa Pa Ea Ha' HA D1 D2);
    unfold e; Lra.lra.
Qed.

(** The library of the multiples of [2^-50] is accurate. *)
Lemma fixed_point_near r :
  Rabs r <= 4 -> near (fixed_point r) r (/ 1000000000000).
Proof.
  intros H. assert (B := roundoff_bounds). assert (V := unit_roundoff_value).
  unfold fixed_point. set (N := up (r * IZR (2 ^ 50))).
  destruct (archimed (r * IZR (2 ^ 50))) as [A1 A2]. fold N in A1, A2.
  apply Rabs_le_between in H.
  assert (P50 : IZR (2 ^ 50) = 1125899906842624) by reflexivity.
  assert (P52 : IZR (2 ^ 52) = 4503599627370496) by reflexivity.
  rewrite P52 in V. rewrite P50 in A1, A2.
  assert (HN : Rabs (IZR N) <= 4503599627370497) by (apply Rabs_le; Lra.lra).
  assert (A0 := Rabs_pos (IZR N)).
  destruct (of_Z_near N) as [(Wx & Fx & Ex) _]; [Lra.lra|].
  set (x := of_Z N) in *.
  assert (Ex' : Rabs (B2R x - IZR N) <= 1) by Lra.nra.
  assert (E50 : B2R (of_Z (2 ^ 50)) = 1125899906842624).
  { rewrite <- P50. apply (B2R_integer_literal (2 ^ 50)). vm_compute. reflexivity. }
  assert (Hx : Rabs (B2R x) <= 4503599627370498).
  { replace (B2R x) with (IZR N + (B2R x - IZR N)) by ring.
    eapply Rle_trans; [apply Rabs_triang|]. Lra.lra. }
  assert (Hq : Rabs (B2R x / B2R (of_Z (2 ^ 50))) <= 5).
  { rewrite E50. unfold Rdiv.
    rewrite Rabs_mult, (Rabs_right (/ 1125899906842624)) by Lra.lra. Lra.lra. }
  destruct (fdiv_near x (of_Z (2 ^ 50)) Wx Fx eq_refl eq_refl) as [(W & F & E) _].
  { rewrite E50. Lra.lra. }
  { Lra.lra. }
  split; [exact W|]. split; [exact F|].
  rewrite E50 in E, Hq.
  replace (B2R (fdiv x (of_Z (2 ^ 50))) - r)
    with ((B2R (fdiv x (of_Z (2 ^ 50))) - B2R x / 1125899906842624) +
          ((B2R x - IZR N) * / 1125899906842624 +
           (IZR N - r * 1125899906842624) * / 1125899906842624)) by field.
  eapply Rle_trans; [apply Rabs_triang|].
  assert (T := Rabs_triang ((B2R x - IZR N) * / 1125899906842624)
                 ((IZR N - r * 1125899906842624) * / 1125899906842624)).
  rewrite !Rabs_mult, (Rabs_right (/ 1125899906842624)) in T by Lra.lra.
  assert (Rabs (IZR N - r * 1125899906842624) <= 1) by (apply Rabs_le; Lra.lra).
  assert (unit_roundoff * Rabs (B2R x / 1125899906842624) <= 5 * unit_roundoff)
    by Lra.nra.
  Lra.lra.
Qed.

Lemma fixed_point_library_accurate :
  accurate fixed_point_library (/ 1000000000000).
Proof.
  split; [|split].
  - intros x _ _ _. cbn [fixed_point_library Math_sin].
    apply fixed_point_near. assert (S := SIN_bound (B2R x)).
    apply Rabs_le. Lra.lra.
  - intros x _ _ _. cbn [fixed_point_library Math_cos].
    apply fixed_point_near. assert (S := COS_bound (B2R x)).
    apply Rabs_le. Lra.lra.
  - intros y x _ _ _ _ _ Hx. cbn [fixed_point_library Math_atan2].
    apply fixed_point_near.
    assert (S : Rabs (Ratan2 (B2R y) (B2R x)) <= 2) by (apply Ratan2_bound; Lra.lra).
    Lra.lra.
Qed.

End RegisteredDistance.

(** ** The distance [findDistance] returns *)

Section DistanceClaim.
Local Open Scope string_scope.
Local Open Scope Z_scope.

(** C3.  For every two registered cities, and every [Math] library whose
    [sin], [cos] and [atan2] are within [delta] <= 0.001 of the real
    functions, [findDistance] returns the haversine distance between their
    coordinates rounded to 2 decimals: the result is the number of the
    decimal literal [n / 100] for an integer [n] within
    [1/2 + 5 * 10^7 * delta + 10^-6] of 100 times the real haversine
    distance -- a = sin²(dlat/2) + cos(lat1) cos(lat2) sin²(dlon/2) with
    the angles in radians, c = 2 atan2(sqrt a, sqrt (1 - a)), distance =
    6371 c -- and [n / 100] is that distance rounded to 2 decimal places
    whenever the distance times 100 is not that close to a rounding
    boundary.  Over the real numbers the code is the formula itself,
    rounded to 2 decimal places. *)
Theorem findDistance_haversine M delta A B :
  registered A -> registered B ->
  accurate M delta -> (delta <= / 1000)%R ->
  (exists latA lngA latB lngB out n,
     get ROUTES_DATA A = VCoords latA lngA /\
     get ROUTES_DATA B = VCoords latB lngB /\
     findDistance M A B = VNumber out /\
     same_number out (decimal n 2) /\
     let F := haversine_formula (B2R latA) (B2R lngA) (B2R latB) (B2R lngB) in
     let E := (50000000 * delta + / 1000000)%R in
     (Rabs (IZR n - 100 * F) <= / 2 + E)%R /\
     ((IZR (Int_part (F * 100 + / 2)) + E < F * 100 + / 2 <
       IZR (Int_part (F * 100 + / 2)) + 1 - E)%R ->
      (IZR n / 100)%R = round_2_decimals F)) /\
  (forall lat1 lon1 lat2 lon2 : R,
     round_to_cents real (haversineDistance real lat1 lon1 lat2 lon2) =
     round_2_decimals (haversine_formula lat1 lon1 lat2 lon2)).
Proof.
  intros RA RB HM Hd.
  split; [|intros; now rewrite round_to_cents_real, haversineDistance_real].
  destruct (registered_region A RA) as (latA & lngA & HA & GA).
  destruct (registered_region B RB) as (latB & lngB & HB & GB).
  destruct (haversineDistance_near M delta latA lngA latB lngB HM Hd GA GB)
    as [(Wd & Fd & Ed) Bd].
  set (d := haversineDistance (binary64 M) latA lngA latB lngB) in *.
  set (F := haversine_formula (B2R latA) (B2R lngA) (B2R latB) (B2R lngB)) in *.
  destruct (round2_value d Wd Fd) as (n & S & Hn); [Lra.lra|].
  exists latA, lngA, latB, lngB, (round_to_cents (binary64 M) d), n.
  split; [unfold get; now rewrite HA|].
  split; [unfold get; now rewrite HB|].
  split; [now apply findDistance_registered|].
  split; [exact S|].
  cbv zeta.
  assert (Bu := roundoff_bounds). assert (D0 := delta_nonneg M delta HM).
  assert (P0 : (0 <= Math_PI_error)%R) by apply Rabs_pos.
  assert (P1 := Math_PI_error_bound).
  set (E := (50000000 * delta + / 1000000)%R).
  assert (Hb : (Rabs (IZR n - 100 * F) <= / 2 + E)%R).
  { replace (IZR n - 100 * F)%R
      with ((IZR n - 100 * B2R d) + 100 * (B2R d - F))%R by ring.
    eapply Rle_trans; [apply Rabs_triang|].
    rewrite Rabs_mult, (Rabs_right 100) by Lra.lra.
    assert (A0 := Rabs_pos (B2R d)).
    assert (100 * unit_roundoff * Rabs (B2R d) <= 4500000 * unit_roundoff)%R
      by Lra.nra.
    unfold E. Lra.lra. }
  split; [exact Hb|].
  intros [L U]. unfold round_2_decimals. fold F. fold F in L, U.
  set (k := Int_part (F * 100 + / 2)) in *.
  apply Rabs_le_between in Hb.
  assert (n < k + 1) by (apply lt_IZR; rewrite plus_IZR; Lra.lra).
  assert (k - 1 < n) by (apply lt_IZR; rewrite minus_IZR; Lra.lra).
  replace n with k by lia. reflexivity.
Qed.

Lemma findDistance_haversine_witness :
  (exists latA lngA latB lngB out n,
     get ROUTES_DATA "São Paulo" = VCoords latA lngA /\
     get ROUTES_DATA "Rio de Janeiro" = VCoords latB lngB /\
     findDistance fixed_point_library "São Paulo" "Rio de Janeiro" = VNumber out /\
     same_number out (decimal n 2) /\
     let F := haversine_formula (B2R latA) (B2R lngA) (B2R latB) (B2R lngB) in
     let E := (50000000 * / 1000000000000 + / 1000000)%R in
     (Rabs (IZR n - 100 * F) <= / 2 + E)%R /\
     ((IZR (Int_part (F * 100 + / 2)) + E < F * 100 + / 2 <
       IZR (Int_part (F * 100 + / 2)) + 1 - E)%R ->
      (IZR n / 100)%R = round_2_decimals F)) /\
  (forall lat1 lon1 lat2 lon2 : R,
     round_to_cents real (haversineDistance real lat1 lon1 lat2 lon2) =
     round_2_decimals (haversine_formula lat1 lon1 lat2 lon2)).
Proof.
  apply (findDistance_haversine fixed_point_library (/ 1000000000000)
           "São Paulo" "Rio de Janeiro").
  - unfold registered; cbn; tauto.
  - unfold registered; cbn; tauto.
  - apply fixed_point_library_accurate.
  - Lra.lra.
Defined.

End DistanceClaim.
